(** * Semantic document clustering: vectors, distances, K-Means, DBSCAN,
      silhouette scoring, algorithm selection and label de-duplication.

    The development embeds the clustering pipeline of
    [src/app/api/cluster-documents/route.ts],
    [src/utils/clustering-algorithms.ts] and [src/utils/text-analysis.ts].

    Numbers.  A JavaScript number is modelled by [JS.number]: a real number,
    one of the two infinities, or NaN.  Arithmetic follows IEEE-754 on these
    four kinds of value (0/0 is NaN, x/0 is an infinity, anything with NaN is
    NaN, comparisons with NaN are false), but finite arithmetic is exact:
    rounding, overflow and the sign of zero are not modelled.  Statements
    about the control flow (which clusters exist, which indices they hold,
    what is returned) are made for vectors of any such numbers and do not
    depend on the values of the distances.

    Where a statement depends on rounding, the functions are embedded a
    second time in [Double], on IEEE-754 binary64 numbers (the primitive
    floats of the kernel), with the operations of the source in its order:
    the similarity, the distances and the silhouette score.

    Arrays are lists; reading an array past its end gives [undefined], which
    every arithmetic operator turns into NaN ([JS.get]).  A statement that
    throws is modelled by [None].  [Math.random] is an external stream of
    draws that the callers pass in. *)

From Stdlib Require Import String Ascii DecimalString DecimalNat.
From Stdlib Require Import Reals Lra Lia List Arith ZArith Bool.
From Stdlib Require Import Permutation.
From Stdlib Require Floats.
Import ListNotations.

(* ================================================================== *)
(** * JavaScript numbers *)
(* ================================================================== *)

Module JS.

Inductive number : Type :=
| Num (r : R)
| PosInf
| NegInf
| NaN.

Definition Rltb (x y : R) : bool := if Rlt_dec x y then true else false.
Definition Rleb (x y : R) : bool := if Rle_dec x y then true else false.
Definition Reqb (x y : R) : bool := if Req_dec_T x y then true else false.

(** Sign of a finite value: [Gt] positive, [Lt] negative, [Eq] zero. *)
Definition sign (r : R) : comparison :=
  if Rlt_dec 0 r then Gt else if Rlt_dec r 0 then Lt else Eq.

Definition sign_mul (s t : comparison) : comparison :=
  match s, t with
  | Eq, _ | _, Eq => Eq
  | Gt, Gt | Lt, Lt => Gt
  | _, _ => Lt
  end.

(** The infinity of a given sign; a zero sign stands for an undefined
    form (0 * Infinity, 0 / 0) and gives NaN. *)
Definition inf_of (s : comparison) : number :=
  match s with Gt => PosInf | Lt => NegInf | Eq => NaN end.

Definition neg (x : number) : number :=
  match x with
  | Num a => Num (- a)
  | PosInf => NegInf
  | NegInf => PosInf
  | NaN => NaN
  end.

Definition add (x y : number) : number :=
  match x, y with
  | NaN, _ | _, NaN => NaN
  | Num a, Num b => Num (a + b)
  | PosInf, NegInf | NegInf, PosInf => NaN
  | PosInf, _ | _, PosInf => PosInf
  | NegInf, _ | _, NegInf => NegInf
  end.

Definition sub (x y : number) : number := add x (neg y).

Definition mul (x y : number) : number :=
  match x, y with
  | NaN, _ | _, NaN => NaN
  | Num a, Num b => Num (a * b)
  | Num a, PosInf | PosInf, Num a => inf_of (sign a)
  | Num a, NegInf | NegInf, Num a => inf_of (sign_mul (sign a) Lt)
  | PosInf, PosInf | NegInf, NegInf => PosInf
  | PosInf, NegInf | NegInf, PosInf => NegInf
  end.

Definition div (x y : number) : number :=
  match x, y with
  | NaN, _ | _, NaN => NaN
  | Num a, Num b => if Reqb b 0 then inf_of (sign a) else Num (a / b)
  | Num _, PosInf | Num _, NegInf => Num 0
  | PosInf, Num b => if Reqb b 0 then PosInf else inf_of (sign b)
  | NegInf, Num b => if Reqb b 0 then NegInf else inf_of (sign_mul Lt (sign b))
  | _, _ => NaN
  end.

(** [Math.sqrt] *)
Definition sqrt (x : number) : number :=
  match x with
  | Num a => if Rltb a 0 then NaN else Num (R_sqrt.sqrt a)
  | PosInf => PosInf
  | _ => NaN
  end.

(** [Math.log] *)
Definition log (x : number) : number :=
  match x with
  | Num a => if Rltb a 0 then NaN else if Reqb a 0 then NegInf else Num (ln a)
  | PosInf => PosInf
  | _ => NaN
  end.

(** [x < y] *)
Definition lt (x y : number) : bool :=
  match x, y with
  | Num a, Num b => Rltb a b
  | NegInf, Num _ | NegInf, PosInf | Num _, PosInf => true
  | _, _ => false
  end.

(** [x > y] *)
Definition gt (x y : number) : bool := lt y x.

(** [x <= y] *)
Definition le (x y : number) : bool :=
  match x, y with
  | Num a, Num b => Rleb a b
  | NegInf, Num _ | NegInf, PosInf | Num _, PosInf => true
  | PosInf, PosInf | NegInf, NegInf => true
  | _, _ => false
  end.

(** [x >= y] *)
Definition ge (x y : number) : bool := le y x.

(** [x === y] *)
Definition eq (x y : number) : bool :=
  match x, y with
  | Num a, Num b => Reqb a b
  | PosInf, PosInf | NegInf, NegInf => true
  | _, _ => false
  end.

(** [Math.min(x, y)] *)
Definition min (x y : number) : number :=
  match x, y with
  | NaN, _ | _, NaN => NaN
  | _, _ => if lt y x then y else x
  end.

(** [Math.max(x, y)] *)
Definition max (x y : number) : number :=
  match x, y with
  | NaN, _ | _, NaN => NaN
  | _, _ => if lt x y then y else x
  end.

(** [Math.floor] and [Math.ceil] *)
Definition floor (x : number) : number :=
  match x with Num a => Num (IZR (Zfloor a)) | _ => x end.
Definition ceil (x : number) : number :=
  match x with Num a => Num (IZR (Zceil a)) | _ => x end.

(** A JavaScript integer count ([length], a loop counter) as a number. *)
Definition of_nat (n : nat) : number := Num (INR n).

(** [x || d] on numbers: 0 and NaN are falsy. *)
Definition or_default (x d : number) : number :=
  match x with
  | NaN => d
  | Num a => if Reqb a 0 then d else x
  | _ => x
  end.

Definition is_finite (x : number) : Prop := exists r, x = Num r.

Definition vector : Type := list number.

(** [v[i]] used as an operand of arithmetic. *)
Definition get (v : vector) (i : nat) : number := nth i v NaN.

(** A vector of finite reals. *)
Definition vec (l : list R) : vector := map Num l.

End JS.

Import JS.

(* ================================================================== *)
(** * src/utils/text-analysis.ts: similarity and distance *)
(* ================================================================== *)

(** The body of the loop of [cosineSimilarity], the same in both files:
    [dotProduct += a[i] * b[i]; normA += a[i] * a[i]; normB += b[i] * b[i]]. *)
Definition cosine_step (a b : vector) (acc : number * number * number) (i : nat)
  : number * number * number :=
  let '(dotProduct, normA, normB) := acc in
  (add dotProduct (mul (get a i) (get b i)),
   add normA (mul (get a i) (get a i)),
   add normB (mul (get b i) (get b i))).

Module TextAnalysis.

(** The loop runs over [vecA.length]; the norms are compared with 0 before
    their square roots are taken. *)
Definition cosineSimilarity (vecA vecB : vector) : number :=
  let '(dotProduct, normA, normB) :=
    fold_left (cosine_step vecA vecB) (seq 0 (length vecA)) (Num 0, Num 0, Num 0) in
  if eq normA (Num 0) || eq normB (Num 0) then Num 0
  else div dotProduct (mul (sqrt normA) (sqrt normB)).

Definition euclideanDistance (vecA vecB : vector) : number :=
  let sum :=
    fold_left (fun sum i =>
                 let diff := sub (get vecA i) (get vecB i) in
                 add sum (mul diff diff))
              (seq 0 (length vecA)) (Num 0) in
  sqrt sum.

End TextAnalysis.

(* ================================================================== *)
(** * Exceptions and loops *)
(* ================================================================== *)

(** A computation that may throw: [None] is a thrown [TypeError]. *)
Definition bind {A B : Type} (m : option A) (k : A -> option B) : option B :=
  match m with Some a => k a | None => None end.

Notation "x <- m ;; k" := (bind m (fun x => k))
  (at level 61, m at next level, right associativity).
Notation "' p <- m ;; k" := (bind m (fun p => k))
  (at level 61, p pattern, m at next level, right associativity).

(** A [for ... of] loop whose body may throw. *)
Fixpoint foldM {A B : Type} (f : A -> B -> option A) (l : list B) (a : A) : option A :=
  match l with
  | [] => Some a
  | x :: t => a' <- f a x ;; foldM f t a'
  end.

(** The nested loops [for i] / [for j = i + 1] over one array. *)
Fixpoint pairFoldM {A B : Type} (f : A -> B -> B -> option A) (l : list B) (a : A) : option A :=
  match l with
  | [] => Some a
  | x :: t => a' <- foldM (fun acc y => f acc x y) t a ;; pairFoldM f t a'
  end.

Fixpoint pairFold {A B : Type} (f : A -> B -> B -> A) (l : list B) (a : A) : A :=
  match l with
  | [] => a
  | x :: t => pairFold f t (fold_left (fun acc y => f acc x y) t a)
  end.

(** [for (let i = 0; i < arr.length; i++)] reading [arr[i]]: the array with
    its indices. *)
Definition indexed {A : Type} (l : list A) : list (nat * A) :=
  combine (seq 0 (length l)) l.

(** [Array.prototype.includes] on indices. *)
Definition includes (l : list nat) (x : nat) : bool := existsb (Nat.eqb x) l.

(* ================================================================== *)
(** * Cluster maps: the objects [{ [key: number]: number[] }] *)
(* ================================================================== *)

(** JavaScript enumerates the integer keys of an object in ascending order,
    so a cluster map is an association list kept sorted by key. *)
Module CMap.

Definition t : Type := list (nat * list nat).

Definition empty : t := [].

(** [m[k]] *)
Fixpoint lookup (k : nat) (m : t) : option (list nat) :=
  match m with
  | [] => None
  | (k', v) :: m' => if k =? k' then Some v else lookup k m'
  end.

(** [m[k] = v] *)
Fixpoint set (k : nat) (v : list nat) (m : t) : t :=
  match m with
  | [] => [(k, v)]
  | (k', v') :: m' =>
      if k <? k' then (k, v) :: m
      else if k =? k' then (k, v) :: m'
      else (k', v') :: set k v m'
  end.

(** [m[k].push(x)]; throws when [m[k]] is undefined. *)
Definition push (k x : nat) (m : t) : option t :=
  v <- lookup k m ;; Some (set k (v ++ [x]) m).

(** [delete m[k]] *)
Definition delete (k : nat) (m : t) : t :=
  filter (fun e => negb (fst e =? k)) m.

(** [Object.keys(m)] and [Object.values(m)] *)
Definition keys (m : t) : list nat := map fst m.
Definition values (m : t) : list (list nat) := map snd m.

(** [Object.values(m).flat()] *)
Definition flat (m : t) : list nat := concat (values m).

(** [{0: [], ..., k-1: []}], built by [for (let i = 0; i < k; i++) m[i] = []]. *)
Definition init (k : nat) : t :=
  fold_left (fun m i => set i [] m) (seq 0 k) empty.

End CMap.

(* ================================================================== *)
(** * The silhouette score *)
(* ================================================================== *)

(** [calculateSilhouetteScore] is written twice, in route.ts and in
    clustering-algorithms.ts, with the same text but for the distance
    expression.  [dist p q] is that expression for the points of index [p]
    and [q]; it throws when an index has no vector. *)
Module Silhouette.

Section WithDistance.

Variable dist : nat -> nat -> option number.

(** [for (const otherPointIdx of clusterPoints) if (pointIdx !== otherPointIdx)
      intraClusterDist += dist] *)
Definition intraClusterDist (pointIdx : nat) (clusterPoints : list nat) : option number :=
  foldM (fun acc otherPointIdx =>
           if pointIdx =? otherPointIdx then Some acc
           else d <- dist pointIdx otherPointIdx ;; Some (add acc d))
        clusterPoints (Num 0).

(** [for (const otherPointIdx of otherClusterPoints) interClusterDist += dist] *)
Definition interClusterDist (pointIdx : nat) (otherClusterPoints : list nat) : option number :=
  foldM (fun acc otherPointIdx => d <- dist pointIdx otherPointIdx ;; Some (add acc d))
        otherClusterPoints (Num 0).

(** [a]: the average distance to the other points of the own cluster. *)
Definition a_of (pointIdx : nat) (clusterPoints : list nat) : option number :=
  intra <- intraClusterDist pointIdx clusterPoints ;;
  Some (if 1 <? length clusterPoints
        then div intra (of_nat (length clusterPoints - 1))
        else Num 0).

(** [b]: the least average distance to the points of another cluster. *)
Definition b_of (clusters : CMap.t) (clusterId pointIdx : nat) : option number :=
  foldM (fun minInterClusterDist '(otherClusterId, otherClusterPoints) =>
           if otherClusterId =? clusterId then Some minInterClusterDist
           else
             inter <- interClusterDist pointIdx otherClusterPoints ;;
             let avgDist :=
               if 0 <? length otherClusterPoints
               then div inter (of_nat (length otherClusterPoints))
               else PosInf in
             Some (min minInterClusterDist avgDist))
        clusters PosInf.

(** The value of one point. *)
Definition silhouette (a b : number) : number :=
  if eq a (Num 0) && eq b (Num 0) then Num 0
  else if lt a b then sub (Num 1) (div a b)
  else sub (div b a) (Num 1).

Definition point_silhouette (clusters : CMap.t) (clusterId : nat)
           (clusterPoints : list nat) (pointIdx : nat) : option number :=
  a <- a_of pointIdx clusterPoints ;;
  b <- b_of clusters clusterId pointIdx ;;
  Some (silhouette a b).

(** The two outer loops: [(totalSilhouette, totalPoints)]. *)
Definition totals (clusters : CMap.t) : option (number * nat) :=
  foldM (fun acc '(clusterId, clusterPoints) =>
           foldM (fun '(totalSilhouette, totalPoints) pointIdx =>
                    s <- point_silhouette clusters clusterId clusterPoints pointIdx ;;
                    Some (add totalSilhouette s, S totalPoints))
                 clusterPoints acc)
        clusters (Num 0, 0%nat).

Definition score (clusters : CMap.t) : option number :=
  let clusterCount := length (CMap.keys clusters) in
  if clusterCount <=? 1 then Some (Num 0)
  else
    '(totalSilhouette, totalPoints) <- totals clusters ;;
    Some (if 0 <? totalPoints then div totalSilhouette (of_nat totalPoints) else Num 0).

End WithDistance.

End Silhouette.

(* ================================================================== *)
(** * Results *)
(* ================================================================== *)

(** [arr[i] = x] for an index inside the array (the centroid and visited
    updates below only write inside: see [nearest_lt], [Inv.assigned] and
    [getNeighbors_ok]). *)
Fixpoint array_set {A : Type} (i : nat) (x : A) (l : list A) : list A :=
  match l, i with
  | [], _ => []
  | _ :: t, O => x :: t
  | y :: t, S i' => y :: array_set i' x t
  end.

(** The mean of the vectors of a cluster, as both engines compute it:
    [newCentroid[d] += vectors[pointIdx][d]] for every point and every
    [d < dimension], then [newCentroid[d] /= clusterPoints.length]. *)
Definition meanVector (vectors : list vector) (dimension : nat) (clusterPoints : list nat)
  : option vector :=
  sums <- foldM (fun newCentroid pointIdx =>
                   v <- nth_error vectors pointIdx ;;
                   Some (map (fun '(d, x) => add x (get v d)) (indexed newCentroid)))
                clusterPoints (repeat (Num 0) dimension) ;;
  Some (map (fun x => div x (of_nat (length clusterPoints))) sums).

(* ================================================================== *)
(** * The DBSCAN traversal *)
(* ================================================================== *)

(** [runDBSCAN] (route.ts) and [dbscanClustering]
    (clustering-algorithms.ts) have the same traversal and the same noise
    handling; they differ in the distance expression, [distance] here. *)
Module DBSCAN.

Section WithDistance.

Variable distance : vector -> vector -> number.

Definition getNeighbors (vectors : list vector) (eps : number) (pointIdx : nat)
  : option (list nat) :=
  p <- nth_error vectors pointIdx ;;
  Some (map fst (filter (fun '(_, v) => le (distance p v) eps) (indexed vectors))).

(** [for (const neighbor of currentNeighbors)
      if (!neighbors.includes(neighbor)) neighbors.push(neighbor)] *)
Definition addNeighbors (neighbors currentNeighbors : list nat) : list nat :=
  fold_left (fun neighbors neighbor =>
               if includes neighbors neighbor then neighbors else neighbors ++ [neighbor])
            currentNeighbors neighbors.

Record State : Type := mkState {
  visited : list bool;
  noise : list nat;
  clusters : CMap.t;
  clusterIdx : nat
}.

(** The [while (j < neighbors.length)] loop.  The queue holds distinct
    indices below [n], so [n] rounds are enough ([expand_fuel]). *)
Fixpoint expand (fuel : nat) (vectors : list vector) (eps : number) (minPts : nat)
         (clusterIdx : nat) (neighbors : list nat) (visited : list bool)
         (clusters : CMap.t) (j : nat) : option (list nat * list bool * CMap.t) :=
  match fuel with
  | O => Some (neighbors, visited, clusters)
  | S fuel' =>
      match nth_error neighbors j with
      | None => Some (neighbors, visited, clusters)          (* j >= neighbors.length *)
      | Some currentPoint =>
          '(neighbors, visited) <-
            (if negb (nth currentPoint visited false) then
               currentNeighbors <- getNeighbors vectors eps currentPoint ;;
               Some (if minPts <=? length currentNeighbors
                     then addNeighbors neighbors currentNeighbors
                     else neighbors,
                     array_set currentPoint true visited)
             else Some (neighbors, visited)) ;;
          clusters <-
            (if negb (includes (CMap.flat clusters) currentPoint)
             then CMap.push clusterIdx currentPoint clusters
             else Some clusters) ;;
          expand fuel' vectors eps minPts clusterIdx neighbors visited clusters (S j)
      end
  end.

(** The body of the main loop [for (let i = 0; i < n; i++)]. *)
Definition visit (vectors : list vector) (eps : number) (minPts : nat)
           (st : State) (i : nat) : option State :=
  if nth i (visited st) false then Some st
  else
    let visited := array_set i true (visited st) in
    neighbors <- getNeighbors vectors eps i ;;
    if length neighbors <? minPts then
      Some (mkState visited (noise st ++ [i]) (clusters st) (clusterIdx st))
    else
      let clusters := CMap.set (clusterIdx st) [i] (clusters st) in
      '(_, visited, clusters) <-
        expand (length vectors) vectors eps minPts (clusterIdx st)
               neighbors visited clusters 0 ;;
      Some (mkState visited (noise st) clusters (clusterIdx st + 1)).

Definition mainLoop (vectors : list vector) (eps : number) (minPts : nat) : option State :=
  foldM (visit vectors eps minPts) (seq 0 (length vectors))
        (mkState (repeat false (length vectors)) [] CMap.empty 0).

End WithDistance.

(** Noise handling: up to three noise points become singleton clusters,
    more are grouped into one cluster. *)
Definition foldNoise (noise : list nat) (clusterIdx : nat) (clusters : CMap.t) : CMap.t :=
  if 0 <? length noise then
    if length noise <=? 3 then
      fold_left (fun clusters '(i, p) => CMap.set (clusterIdx + i) [p] clusters)
                (indexed noise) clusters
    else CMap.set clusterIdx noise clusters
  else clusters.

End DBSCAN.

(* ================================================================== *)
(** * src/app/api/cluster-documents/route.ts *)
(* ================================================================== *)

Module Route.

Definition cosineSimilarity (a b : vector) : number :=
  let '(dotProduct, normA, normB) :=
    fold_left (cosine_step a b) (seq 0 (Nat.min (length a) (length b)))
              (Num 0, Num 0, Num 0) in
  let normA := sqrt normA in
  let normB := sqrt normB in
  if eq normA (Num 0) || eq normB (Num 0) then Num 0
  else div dotProduct (mul normA normB).

Definition cosineSimilarityDistance (a b : vector) : number :=
  sub (Num 1) (cosineSimilarity a b).

(** [cosineSimilarityDistance(vectors[p], vectors[q])]: reading [.length]
    of an undefined vector throws. *)
Definition distAt (vectors : list vector) (p q : nat) : option number :=
  a <- nth_error vectors p ;;
  b <- nth_error vectors q ;;
  Some (cosineSimilarityDistance a b).

Definition similarityAt (vectors : list vector) (p q : nat) : option number :=
  a <- nth_error vectors p ;;
  b <- nth_error vectors q ;;
  Some (cosineSimilarity a b).

Definition calculateSilhouetteScore (vectors : list vector) (clusters : CMap.t)
  : option number :=
  Silhouette.score (distAt vectors) clusters.

(** The coherence loop at the end of [runKMeans] and of [runDBSCAN]. *)
Definition coherenceOf (vectors : list vector) (clusterPoints : list nat) : option number :=
  if length clusterPoints <=? 1 then Some (Num 1)
  else
    '(totalSimilarity, pairCount) <-
      pairFoldM (fun '(total, pairs) p q =>
                   s <- similarityAt vectors p q ;;
                   Some (add total s, S pairs))
                clusterPoints (Num 0, 0%nat) ;;
    Some (if 0 <? pairCount then div totalSimilarity (of_nat pairCount) else Num 0).

Definition clusterCoherence (vectors : list vector) (clusters : CMap.t)
  : option (list (nat * number)) :=
  foldM (fun acc '(clusterId, clusterPoints) =>
           c <- coherenceOf vectors clusterPoints ;;
           Some (acc ++ [(clusterId, c)]))
        clusters [].

Record Result : Type := mkResult {
  clusters : CMap.t;
  coherence : list (nat * number);
  silhouetteScore : number;
  iterations : option nat   (* present in the K-Means result only *)
}.

(** ** runKMeans *)

(** [minDist] of a point to the centroids chosen so far. *)
Definition minDistTo (v : vector) (centroids : list vector) : number :=
  fold_left (fun minDist centroid => min minDist (cosineSimilarityDistance v centroid))
            centroids PosInf.

(** First loop of a seeding round: [(distances, totalDistance)]. *)
Definition seedDistances (vectors : list vector) (used : list nat) (centroids : list vector)
  : list number * number :=
  fold_left (fun '(distances, totalDistance) '(i, v) =>
               if includes used i then (distances, totalDistance)
               else
                 let minDist := minDistTo v centroids in
                 let d2 := mul minDist minDist in
                 (distances ++ [d2], add totalDistance d2))
            (indexed vectors) ([], Num 0).

(** Second loop of a seeding round: the roulette wheel; [None] is
    [nextIndex === -1]. *)
Definition roulette (vectors : list vector) (used : list nat) (distances : list number)
           (threshold : number) : option (nat * vector) :=
  let '(_, nextIndex, _) :=
    fold_left (fun '(sum, nextIndex, distanceIndex) '(i, v) =>
                 match nextIndex with
                 | Some _ => (sum, nextIndex, distanceIndex)            (* break *)
                 | None =>
                     if includes used i then (sum, nextIndex, distanceIndex)
                     else
                       let sum := add sum (get distances distanceIndex) in
                       if ge sum threshold then (sum, Some (i, v), distanceIndex)
                       else (sum, None, S distanceIndex)
                 end)
              (indexed vectors) (Num 0, None, 0%nat) in
  nextIndex.

(** [remaining[0]] of the fallback. *)
Definition firstRemaining (vectors : list vector) (used : list nat) : option (nat * vector) :=
  hd_error (filter (fun '(i, _) => negb (includes used i)) (indexed vectors)).

(** The [while (centroids.length < k)] loop.  Every round that does not
    break adds one centroid, so [k] rounds are enough ([seed_fuel]);
    [calls] counts the calls of [Math.random] made so far. *)
Fixpoint seed (fuel : nat) (rand : nat -> R) (vectors : list vector) (k : nat)
         (centroids : list vector) (used : list nat) (calls : nat) : list vector :=
  match fuel with
  | O => centroids
  | S fuel' =>
      if length centroids <? k then
        let '(distances, totalDistance) := seedDistances vectors used centroids in
        if eq totalDistance (Num 0) then centroids
        else
          let threshold := mul (Num (rand calls)) totalDistance in
          let next :=
            match roulette vectors used distances threshold with
            | Some iv => Some iv
            | None => firstRemaining vectors used
            end in
          match next with
          | None => centroids
          | Some (nextIndex, v) =>
              seed fuel' rand vectors k (centroids ++ [v]) (used ++ [nextIndex]) (S calls)
          end
      else centroids
  end.

(** [bestCentroid] of the assignment loop. *)
Definition nearest (v : vector) (centroids : list vector) : nat :=
  snd (fold_left (fun '(minDist, bestCentroid) '(j, centroid) =>
                    let dist := cosineSimilarityDistance v centroid in
                    if lt dist minDist then (dist, j) else (minDist, bestCentroid))
                 (indexed centroids) (PosInf, 0%nat)).

(** [clusters[bestCentroid].push(i)] for every point. *)
Definition assign (vectors centroids : list vector) (k : nat) : option CMap.t :=
  foldM (fun clusters '(i, v) => CMap.push (nearest v centroids) i clusters)
        (indexed vectors) (CMap.init k).

(** The centroid update: empty clusters keep their centroid. *)
Definition updateCentroids (vectors : list vector) (clusters : CMap.t) (k : nat)
           (centroids : list vector) : option (list vector) :=
  foldM (fun centroids i =>
           clusterPoints <- CMap.lookup i clusters ;;
           if length clusterPoints =? 0 then Some centroids
           else
             v0 <- nth_error vectors 0 ;;
             newCentroid <- meanVector vectors (length v0) clusterPoints ;;
             Some (array_set i newCentroid centroids))
        (seq 0 k) centroids.

Record KState : Type := mkKState {
  ks_centroids : list vector;
  ks_bestClusters : CMap.t;
  ks_bestSilhouette : number;
  ks_iterations : nat
}.

(** One pass of [for (let iter = 0; iter < maxIterations; iter++)]. *)
Definition iteration (vectors : list vector) (k : nat) (st : KState) (iter : nat)
  : option KState :=
  clusters <- assign vectors (ks_centroids st) k ;;
  centroids <- updateCentroids vectors clusters k (ks_centroids st) ;;
  silhouetteScore <- calculateSilhouetteScore vectors clusters ;;
  Some (if gt silhouetteScore (ks_bestSilhouette st)
        then mkKState centroids clusters silhouetteScore (iter + 1)
        else mkKState centroids (ks_bestClusters st) (ks_bestSilhouette st) (iter + 1)).

(** [Math.floor(Math.random() * vectors.length)] *)
Definition randomIndex (r : R) (n : nat) : nat := Z.to_nat (Zfloor (r * INR n)).

Definition runKMeans (rand : nat -> R) (vectors : list vector) (k : nat)
           (maxIterations : nat) : option Result :=
  let k := if length vectors <? k then length vectors else k in
  let firstIndex := randomIndex (rand 0%nat) (length vectors) in
  first <- nth_error vectors firstIndex ;;
  let centroids := seed k rand vectors k [first] [firstIndex] 1 in
  st <- foldM (iteration vectors k) (seq 0 maxIterations)
              (mkKState centroids CMap.empty (Num (-1)) 0) ;;
  coh <- clusterCoherence vectors (ks_bestClusters st) ;;
  Some (mkResult (ks_bestClusters st) coh (ks_bestSilhouette st) (Some (ks_iterations st))).

(** ** runDBSCAN *)

Definition runDBSCAN (vectors : list vector) (eps : number) (minPts : nat) : option Result :=
  st <- DBSCAN.mainLoop cosineSimilarityDistance vectors eps minPts ;;
  let clusters := DBSCAN.foldNoise (DBSCAN.noise st) (DBSCAN.clusterIdx st) (DBSCAN.clusters st) in
  silhouetteScore <- calculateSilhouetteScore vectors clusters ;;
  coh <- clusterCoherence vectors clusters ;;
  Some (mkResult clusters coh silhouetteScore None).

(** ** runOptimalClustering *)

Inductive Details : Type :=
| KMeansDetails (k iterations clusterCount : nat)
| DBSCANDetails (epsilon : number) (minPts clusterCount : nat).

Record Selected : Type := mkSelected {
  result : Result;
  algorithm : string;
  algorithmDetails : Details
}.

(** [Math.min(Math.max(2, Math.ceil(Math.sqrt(documentCount / 2))), 10)] *)
Definition selectK (documentCount : nat) : nat :=
  Nat.min (Nat.max 2 (Z.to_nat (Zceil (R_sqrt.sqrt (INR documentCount / 2))))) 10.

(** [Math.max(2, Math.min(4, Math.floor(documentCount / 10)))] *)
Definition selectMinPts (documentCount : nat) : nat :=
  Nat.max 2 (Nat.min 4 (Z.to_nat (Zfloor (INR documentCount / 10)))).

(** The double loop over [i < j]: [(avgDistance, pairCount)] before the
    division. *)
Definition pairDistances (embeddings : list vector) : number * nat :=
  pairFold (fun '(total, pairs) a b =>
              (add total (cosineSimilarityDistance a b), S pairs))
           embeddings (Num 0, 0%nat).

Definition selectEpsilon (embeddings : list vector) : number :=
  let '(total, pairCount) := pairDistances embeddings in
  let avgDistance := if 0 <? pairCount then div total (of_nat pairCount) else Num (1/2) in
  mul avgDistance (Num (3/2)).

Definition runOptimalClustering (rand : nat -> R) (embeddings : list vector)
           (documentCount : nat) : option Selected :=
  let k := selectK documentCount in
  let epsilon := selectEpsilon embeddings in
  let minPts := selectMinPts documentCount in
  kmeansResult <- runKMeans rand embeddings k 20 ;;
  dbscanResult <- runDBSCAN embeddings epsilon minPts ;;
  Some (if gt (silhouetteScore dbscanResult) (silhouetteScore kmeansResult)
        then mkSelected dbscanResult "DBSCAN"
               (DBSCANDetails epsilon minPts (length (CMap.keys (clusters dbscanResult))))
        else mkSelected kmeansResult "K-means"
               (KMeansDetails k (match iterations kmeansResult with Some n => n | None => 0 end)
                              (length (CMap.keys (clusters kmeansResult))))).

End Route.

(* ================================================================== *)
(** * src/utils/clustering-algorithms.ts *)
(* ================================================================== *)

(** [arr[i] = x] on an array that may have holes: writing past the end
    extends the array and leaves holes ([None]) before [i]. *)
Fixpoint js_set {A : Type} (i : nat) (x : A) (l : list (option A)) : list (option A) :=
  match i, l with
  | O, [] => [Some x]
  | O, _ :: t => Some x :: t
  | S i', [] => None :: js_set i' x []
  | S i', y :: t => y :: js_set i' x t
  end.

(** [arr[i]]: [None] is [undefined], a hole or an index past the end. *)
Definition js_get {A : Type} (l : list (option A)) (i : nat) : option A :=
  match nth_error l i with Some (Some v) => Some v | _ => None end.

Module ClusteringAlgorithms.

Inductive DistanceMetric : Type := Euclidean | Cosine.

(** [distanceMetric === "euclidean" ? euclideanDistance(a, b)
                                    : 1 - cosineSimilarity(a, b)] *)
Definition distance (metric : DistanceMetric) (a b : vector) : number :=
  match metric with
  | Euclidean => TextAnalysis.euclideanDistance a b
  | Cosine => sub (Num 1) (TextAnalysis.cosineSimilarity a b)
  end.

(** The same expression on values that may be undefined.  Both functions
    read [vecA.length] first and [vecB[i]] inside the loop only: an
    undefined [vecA] throws, an undefined [vecB] throws unless [vecA] is
    empty, when the loop body never runs. *)
Definition distanceU (metric : DistanceMetric) (a b : option vector) : option number :=
  match a with
  | None => None
  | Some va =>
      match b with
      | Some vb => Some (distance metric va vb)
      | None => match va with
                | [] => Some (distance metric [] [])
                | _ :: _ => None
                end
      end
  end.

Definition calculateSilhouetteScore (vectors : list vector) (clusters : CMap.t)
           (metric : DistanceMetric) : option number :=
  Silhouette.score (fun p q => distanceU metric (nth_error vectors p) (nth_error vectors q))
                   clusters.

Inductive Details : Type :=
| KMeansEmpty (k iterations : nat)
| KMeansDetails (k iterations : nat) (distanceMetric : DistanceMetric) (clusterCount : nat)
| DBSCANEmpty (epsilon : number) (minPoints : nat)
| DBSCANDetails (epsilon : number) (minPoints noisePoints clusterCount : nat).

Record ClusteringResult : Type := mkClusteringResult {
  clusters : CMap.t;
  centroids : option (list (option vector));
  silhouetteScore : number;
  algorithm : string;
  algorithmDetails : Details
}.

(** ** kMeansClustering: k-means++ seeding *)

Definition minDistTo (metric : DistanceMetric) (v : vector) (centroids : list vector)
  : number :=
  fold_left (fun minDist centroid => min minDist (distance metric v centroid))
            centroids PosInf.

Definition seedDistances (metric : DistanceMetric) (vectors : list vector)
           (usedIndices : list nat) (centroids : list vector) : list number * number :=
  fold_left (fun '(distances, totalDistance) '(j, v) =>
               if includes usedIndices j then (distances, totalDistance)
               else
                 let minDist := minDistTo metric v centroids in
                 let distSquared := mul minDist minDist in
                 (distances ++ [distSquared], add totalDistance distSquared))
            (indexed vectors) ([], Num 0).

Definition roulette (vectors : list vector) (usedIndices : list nat)
           (distances : list number) (threshold : number) : option (nat * vector) :=
  let '(_, nextCentroidIndex, _) :=
    fold_left (fun '(cumulativeProb, nextCentroidIndex, index) '(j, v) =>
                 match nextCentroidIndex with
                 | Some _ => (cumulativeProb, nextCentroidIndex, index)      (* break *)
                 | None =>
                     if includes usedIndices j then (cumulativeProb, nextCentroidIndex, index)
                     else
                       let cumulativeProb := add cumulativeProb (get distances index) in
                       if ge cumulativeProb threshold
                       then (cumulativeProb, Some (j, v), S index)
                       else (cumulativeProb, None, S index)
                 end)
              (indexed vectors) (Num 0, None, 0%nat) in
  nextCentroidIndex.

(** "If we didn't select a centroid, choose the farthest one". *)
Definition farthest (metric : DistanceMetric) (vectors : list vector)
           (usedIndices : list nat) (centroids : list vector) : option (nat * vector) :=
  snd (fold_left (fun '(maxDist, nextCentroidIndex) '(j, v) =>
                    if includes usedIndices j then (maxDist, nextCentroidIndex)
                    else
                      let minDist := minDistTo metric v centroids in
                      if gt minDist maxDist then (minDist, Some (j, v))
                      else (maxDist, nextCentroidIndex))
                 (indexed vectors) (Num (-1), None)).

(** One round of [for (let i = 1; i < k; i++)]; the round [i] makes the
    call number [i] of [Math.random]. *)
Definition seedRound (rand : nat -> R) (metric : DistanceMetric) (vectors : list vector)
           (st : list vector * list nat) (i : nat) : list vector * list nat :=
  let '(centroids, usedIndices) := st in
  let '(distances, totalDistance) := seedDistances metric vectors usedIndices centroids in
  let threshold := mul (Num (rand i)) totalDistance in
  let next :=
    match roulette vectors usedIndices distances threshold with
    | Some jv => Some jv
    | None => farthest metric vectors usedIndices centroids
    end in
  match next with
  | Some (nextCentroidIndex, v) => (centroids ++ [v], usedIndices ++ [nextCentroidIndex])
  | None => (centroids, usedIndices)
  end.

(** ** kMeansClustering: the main loop *)

(** [closestCentroid]; a hole among the centroids throws. *)
Definition nearest (metric : DistanceMetric) (v : vector) (centroids : list (option vector))
  : option nat :=
  r <- foldM (fun '(minDist, closestCentroid) '(j, centroid) =>
                dist <- distanceU metric (Some v) centroid ;;
                Some (if lt dist minDist then (dist, j) else (minDist, closestCentroid)))
             (indexed centroids) (PosInf, 0%nat) ;;
  Some (snd r).

Definition assign (metric : DistanceMetric) (vectors : list vector)
           (centroids : list (option vector)) (k : nat) : option CMap.t :=
  foldM (fun clusters '(i, v) =>
           closestCentroid <- nearest metric v centroids ;;
           CMap.push closestCentroid i clusters)
        (indexed vectors) (CMap.init k).

(** The centroid update: [(centroids, centroidsChanged)]. *)
Definition updateCentroids (metric : DistanceMetric) (vectors : list vector)
           (dimension : nat) (clusters : CMap.t) (k : nat)
           (centroids : list (option vector)) : option (list (option vector) * bool) :=
  foldM (fun '(centroids, centroidsChanged) i =>
           clusterPoints <- CMap.lookup i clusters ;;
           if length clusterPoints =? 0 then Some (centroids, centroidsChanged)
           else
             newCentroid <- meanVector vectors dimension clusterPoints ;;
             centroidDist <- distanceU metric (js_get centroids i) (Some newCentroid) ;;
             Some (js_set i newCentroid centroids,
                   if gt centroidDist (Num (1/1000)) then true else centroidsChanged))
        (seq 0 k) (centroids, false).

(** "Find the cluster with the most points": the first of the largest. *)
Definition largestCluster (clusters : CMap.t) (k : nat) : option nat :=
  r <- foldM (fun '(maxSize, largest) j =>
                c <- CMap.lookup j clusters ;;
                Some (if maxSize <? length c then (length c, j) else (maxSize, largest)))
             (seq 0 k) (0%nat, 0%nat) ;;
  Some (snd r).

(** "Check for empty clusters and reinitialize if needed". *)
Definition repairEmpty (vectors : list vector) (dimension k : nat)
           (st : CMap.t * list (option vector) * bool)
  : option (CMap.t * list (option vector) * bool) :=
  foldM (fun '(clusters, centroids, centroidsChanged) i =>
           ci <- CMap.lookup i clusters ;;
           if length ci =? 0 then
             largest <- largestCluster clusters k ;;
             cl <- CMap.lookup largest clusters ;;
             if 2 <=? length cl then
               let pointsToMove := Nat.div2 (length cl + 1) in   (* Math.ceil(length / 2) *)
               let movedPoints := firstn pointsToMove cl in      (* splice(0, pointsToMove) *)
               let clusters := CMap.set largest (skipn pointsToMove cl) clusters in
               let clusters := CMap.set i movedPoints clusters in
               ci' <- CMap.lookup i clusters ;;
               cl' <- CMap.lookup largest clusters ;;
               newCentroidI <- meanVector vectors dimension ci' ;;
               newCentroidLargest <- meanVector vectors dimension cl' ;;
               Some (clusters,
                     js_set largest newCentroidLargest (js_set i newCentroidI centroids),
                     true)
             else Some (clusters, centroids, centroidsChanged)
           else Some (clusters, centroids, centroidsChanged))
        (seq 0 k) st.

(** One round of [while (!converged && iterations < maxIterations)]:
    [(clusters, centroids, centroidsChanged)]. *)
Definition round (metric : DistanceMetric) (vectors : list vector) (dimension k : nat)
           (centroids : list (option vector))
  : option (CMap.t * list (option vector) * bool) :=
  clusters <- assign metric vectors centroids k ;;
  '(centroids, centroidsChanged) <-
    updateCentroids metric vectors dimension clusters k centroids ;;
  repairEmpty vectors dimension k (clusters, centroids, centroidsChanged).

(** [remaining] is [maxIterations - iterations]. *)
Fixpoint mainLoop (remaining : nat) (metric : DistanceMetric) (vectors : list vector)
         (dimension k : nat) (clusters : CMap.t) (centroids : list (option vector))
         (iterations : nat) : option (CMap.t * list (option vector) * nat) :=
  match remaining with
  | O => Some (clusters, centroids, iterations)
  | S remaining' =>
      '(clusters, centroids, centroidsChanged) <- round metric vectors dimension k centroids ;;
      if centroidsChanged
      then mainLoop remaining' metric vectors dimension k clusters centroids (S iterations)
      else Some (clusters, centroids, S iterations)            (* converged *)
  end.

(** "Remove empty clusters" *)
Definition removeEmpty (clusters : CMap.t) : CMap.t :=
  fold_left (fun m key =>
               match CMap.lookup key m with
               | Some [] => CMap.delete key m
               | _ => m
               end)
            (CMap.keys clusters) clusters.

Definition kMeansClustering (rand : nat -> R) (vectors : list vector) (k maxIterations : nat)
           (distanceMetric : DistanceMetric) : option ClusteringResult :=
  if length vectors =? 0 then
    Some (mkClusteringResult CMap.empty (Some []) (Num 0) "K-means" (KMeansEmpty k 0))
  else
    let k := if length vectors <? k then length vectors else k in
    v0 <- nth_error vectors 0 ;;
    let dimension := length v0 in
    let firstIndex := Route.randomIndex (rand 0%nat) (length vectors) in
    first <- nth_error vectors firstIndex ;;
    let '(centroids, _) :=
      fold_left (seedRound rand distanceMetric vectors) (seq 1 (k - 1))
                ([first], [firstIndex]) in
    '(clusters, centroids, iterations) <-
      mainLoop maxIterations distanceMetric vectors dimension k CMap.empty
               (map Some centroids) 0 ;;
    silhouetteScore <- calculateSilhouetteScore vectors clusters distanceMetric ;;
    let clusters := removeEmpty clusters in
    Some (mkClusteringResult clusters (Some centroids) silhouetteScore "K-means"
            (KMeansDetails k iterations distanceMetric (length (CMap.keys clusters)))).

(** ** dbscanClustering *)

Definition dbscanClustering (vectors : list vector) (epsilon : number) (minPoints : nat)
           (distanceMetric : DistanceMetric) : option ClusteringResult :=
  if length vectors =? 0 then
    Some (mkClusteringResult CMap.empty None (Num 0) "DBSCAN" (DBSCANEmpty epsilon minPoints))
  else
    st <- DBSCAN.mainLoop (distance distanceMetric) vectors epsilon minPoints ;;
    let clusters :=
      DBSCAN.foldNoise (DBSCAN.noise st) (DBSCAN.clusterIdx st) (DBSCAN.clusters st) in
    silhouetteScore <- calculateSilhouetteScore vectors clusters distanceMetric ;;
    Some (mkClusteringResult clusters None silhouetteScore "DBSCAN"
            (DBSCANDetails epsilon minPoints (length (DBSCAN.noise st))
                           (length (CMap.keys clusters)))).

End ClusteringAlgorithms.

(* ================================================================== *)
(** * Strings *)
(* ================================================================== *)

(** Documents and labels are strings.  The regular-expression engine and
    the case conversions of the JavaScript runtime are not re-implemented:
    the code below takes them as the built-ins [js].  A regular expression
    is named by its source text. *)
Record StringBuiltins : Type := mkStringBuiltins {
  toLowerCase : string -> string;              (* s.toLowerCase() *)
  toUpperCase : string -> string;              (* s.toUpperCase() *)
  split : string -> string -> list string;     (* s.split(re) *)
  matchCount : string -> string -> nat;        (* (s.match(re) || []).length *)
  test : string -> string -> bool              (* re.test(s) *)
}.

(** [s.includes(sub)] *)
Fixpoint str_includes (s sub : string) : bool :=
  String.prefix sub s ||
  match s with
  | EmptyString => false
  | String _ s' => str_includes s' sub
  end.

(** [`${n}`] for a count. *)
Definition decimal (n : nat) : string := NilEmpty.string_of_uint (Nat.to_uint n).

(** [new Set(words).size] *)
Definition setSize (words : list string) : nat := length (nodup string_dec words).

(* ================================================================== *)
(** * route.ts: generateSemanticEmbeddings *)
(* ================================================================== *)

Module Embeddings.

Definition topicPatterns : list (string * list string) :=
  [ ("Machine Learning",
     ["/\b(machine learning|ml|artificial intelligence|ai|neural network|deep learning|supervised|unsupervised|reinforcement learning|algorithm|model training|prediction|classification|regression)\b/gi"]);
    ("Natural Language Processing",
     ["/\b(nlp|natural language processing|text analysis|sentiment analysis|language model|tokenization|parsing|linguistics|text mining|speech recognition)\b/gi"]);
    ("Web Development",
     ["/\b(web development|frontend|backend|html|css|javascript|react|angular|vue|node\.?js|api|rest|graphql|responsive design)\b/gi"]);
    ("Data Science",
     ["/\b(data science|data analysis|statistics|visualization|pandas|numpy|python|r programming|big data|analytics|insights)\b/gi"]);
    ("Software Engineering",
     ["/\b(software engineering|programming|coding|development|software architecture|design patterns|testing|debugging|version control|git)\b/gi"]);
    ("Database",
     ["/\b(database|sql|nosql|mongodb|postgresql|mysql|data storage|query|indexing|normalization|crud operations)\b/gi"]);
    ("Business",
     ["/\b(business|strategy|management|marketing|sales|revenue|profit|customer|market|competition|growth)\b/gi"]);
    ("Finance",
     ["/\b(finance|financial|investment|banking|trading|portfolio|risk|return|economics|market analysis)\b/gi"]);
    ("Healthcare",
     ["/\b(healthcare|medical|health|patient|clinical|diagnosis|treatment|therapy|medicine|pharmaceutical)\b/gi"]);
    ("Education",
     ["/\b(education|learning|teaching|academic|curriculum|student|instructor|course|training|knowledge)\b/gi"]) ]%string.

Definition semanticRelationships : list (string * list string) :=
  [ ("algorithm", ["method"; "technique"; "approach"; "procedure"; "process"; "strategy"]);
    ("programming", ["coding"; "development"; "software"; "computer"; "technology"]);
    ("machine learning",
     ["ai"; "artificial intelligence"; "neural network"; "deep learning"; "data science"]);
    ("nlp", ["natural language processing"; "text analysis"; "linguistics"; "language model"]);
    ("database", ["data"; "storage"; "sql"; "query"; "information"]);
    ("web", ["internet"; "website"; "online"; "browser"; "html"; "css"; "javascript"]);
    ("business", ["company"; "enterprise"; "organization"; "corporate"; "commercial"]);
    ("finance", ["money"; "financial"; "economic"; "investment"; "banking"]);
    ("research", ["study"; "analysis"; "investigation"; "experiment"; "academic"]);
    ("science", ["scientific"; "theory"; "hypothesis"; "methodology"; "empirical"]) ]%string.

Section WithBuiltins.

Variable js : StringBuiltins.

(** [vector[vectorIndex++] = x] *)
Definition put (st : vector * nat) (x : number) : vector * nat :=
  let '(vector, vectorIndex) := st in (array_set vectorIndex x vector, S vectorIndex).

(** "1. Basic document features (10 dimensions)" *)
Definition basicFeatures (doc : string) (words : list string) : list number :=
  [ div (log (of_nat (String.length doc + 1))) (Num 10);
    div (of_nat (length words)) (Num 100);
    div (of_nat (matchCount js "/[.!?]/g" doc)) (Num 10);
    div (of_nat (matchCount js "/\n/g" doc)) (Num 5);
    div (of_nat (matchCount js "/\d+/g" doc)) (Num 10);
    div (of_nat (matchCount js "/[A-Z][a-z]+/g" doc)) (Num 20);
    div (of_nat (length (filter (fun w => 8 <? String.length w) words))) (Num 10);
    div (of_nat (matchCount js "/[(),;:]/g" doc)) (Num 20);
    or_default (div (of_nat (setSize words)) (of_nat (length words))) (Num 0);
    div (of_nat (length (filter (test js "/ing$|tion$|ment$/") words))) (Num 10) ].

(** "2. Topic-based features": one slot per topic, while [vectorIndex < 30]. *)
Definition topicFeatures (doc : string) (st : vector * nat) : vector * nat :=
  fold_left (fun st '(topic, patterns) =>
               if 30 <=? snd st then st                                  (* break *)
               else
                 let score :=
                   fold_left (fun score pattern => (score + matchCount js pattern doc)%nat)
                             patterns 0%nat in
                 put st (min (Num 1) (div (of_nat score) (Num 5))))
            topicPatterns st.

(** "3. Semantic relationship features": one slot per concept, while
    [vectorIndex < 50]. *)
Definition relationFeatures (normalizedDoc : string) (st : vector * nat) : vector * nat :=
  fold_left (fun st '(concept, relatedTerms) =>
               if 50 <=? snd st then st                                  (* break *)
               else
                 let score := if str_includes normalizedDoc concept then 2%nat else 0%nat in
                 let score :=
                   fold_left (fun score term =>
                                if str_includes normalizedDoc term then (score + 1)%nat
                                else score)
                             relatedTerms score in
                 put st (min (Num 1) (div (of_nat score) (Num 5))))
            semanticRelationships st.

(** The vector before normalization. *)
Definition features (doc : string) : vector :=
  let vector := repeat (Num 0) 50 in
  let normalizedDoc := toLowerCase js doc in
  let words := filter (fun word => 2 <? String.length word) (split js "/\s+/" normalizedDoc) in
  let st := fold_left put (basicFeatures doc words) (vector, 0%nat) in
  let st := topicFeatures doc st in
  let st := relationFeatures normalizedDoc st in
  fst st.

(** [Math.sqrt(vector.reduce((sum, val) => sum + val * val, 0))] *)
Definition magnitudeOf (v : vector) : number :=
  sqrt (fold_left (fun sum val => add sum (mul val val)) v (Num 0)).

(** "Normalize the vector" *)
Definition normalize (v : vector) : vector :=
  let magnitude := magnitudeOf v in
  if gt magnitude (Num 0) then map (fun x => div x magnitude) v else v.

Definition generateSemanticEmbeddings (documents : list string) : list vector :=
  fold_left (fun embeddings doc => embeddings ++ [normalize (features doc)]) documents [].

End WithBuiltins.

End Embeddings.

(* ================================================================== *)
(** * route.ts: generateClusterLabel and the unique-label pass of POST *)
(* ================================================================== *)

Module Labels.

Record Category : Type := mkCategory { keywords : list string; categoryLabel : string }.

Definition categories : list (string * Category) :=
  [ ("Sports",
     mkCategory ["sports"; "game"; "team"; "player"; "match"; "win"; "coach"; "league";
                 "championship"; "score"; "football"; "basketball"; "baseball"; "soccer";
                 "tennis"; "golf"; "hockey"; "athletic"; "tournament"] "Sports");
    ("Machine Learning",
     mkCategory ["machine learning"; "algorithm"; "model"; "training"; "neural"; "network";
                 "deep learning"; "classification"; "regression"; "prediction"; "ai";
                 "artificial intelligence"; "learning"] "Machine Learning & AI");
    ("Natural Language Processing",
     mkCategory ["nlp"; "natural language"; "text"; "language"; "embedding"; "sentiment";
                 "tokenization"; "parsing"; "word"; "corpus"] "Natural Language Processing");
    ("Web Development",
     mkCategory ["web"; "html"; "css"; "javascript"; "react"; "frontend"; "backend"; "api";
                 "server"; "client"; "browser"; "http"; "node"] "Web Development");
    ("Data Science",
     mkCategory ["data"; "analysis"; "statistics"; "visualization"; "dataset"; "processing";
                 "pandas"; "numpy"; "matplotlib"; "analytics"] "Data Science & Analytics");
    ("Computer Vision",
     mkCategory ["image"; "vision"; "computer vision"; "detection"; "recognition"; "cnn";
                 "visual"; "pixel"; "convolutional"] "Computer Vision");
    ("Cloud & DevOps",
     mkCategory ["cloud"; "docker"; "kubernetes"; "deployment"; "aws"; "azure";
                 "infrastructure"; "devops"; "container"] "Cloud & DevOps");
    ("Database",
     mkCategory ["database"; "sql"; "nosql"; "mongodb"; "postgresql"; "query"; "table";
                 "index"; "schema"] "Database & Storage");
    ("Security",
     mkCategory ["security"; "encryption"; "authentication"; "authorization"; "vulnerability";
                 "cryptography"; "password"; "firewall"] "Security & Encryption");
    ("Finance",
     mkCategory ["finance"; "money"; "bank"; "investment"; "stock"; "trading"; "market";
                 "price"; "financial"] "Finance & Trading");
    ("Healthcare",
     mkCategory ["health"; "medical"; "disease"; "treatment"; "hospital"; "doctor"; "patient";
                 "medicine"; "therapy"; "clinical"] "Healthcare & Medicine");
    ("Education",
     mkCategory ["education"; "learning"; "student"; "teacher"; "school"; "university";
                 "course"; "lesson"; "academic"] "Education & Learning") ]%string.

(** [obj[key] || 0] on a record of counts. *)
Fixpoint countOf (key : string) (counts : list (string * nat)) : nat :=
  match counts with
  | [] => 0
  | (k, n) :: t => if String.eqb key k then n else countOf key t
  end.

(** [entries.sort((a, b) => b[1] - a[1])]: the sort is stable, so entries of
    equal score keep their order. *)
Fixpoint insertDesc {A : Type} (e : A * nat) (sorted : list (A * nat)) : list (A * nat) :=
  match sorted with
  | [] => [e]
  | e' :: t => if snd e' <=? snd e then e :: sorted else e' :: insertDesc e t
  end.

Definition sortDesc {A : Type} (entries : list (A * nat)) : list (A * nat) :=
  fold_right insertDesc [] entries.

Section WithBuiltins.

Variable js : StringBuiltins.

(** The score of one category. *)
Definition categoryScore (combinedText : string) (topTerms : list string)
           (allTerms : list (string * nat)) (keywords : list string) : nat :=
  let score :=
    fold_left (fun score keyword =>
                 if str_includes combinedText (toLowerCase js keyword) then
                   let frequency := countOf keyword allTerms in
                   (score + (if 0 <? frequency then frequency * 3 else 2))%nat
                 else score)
              keywords 0%nat in
  fold_left (fun score term =>
               let termLower := toLowerCase js term in
               if existsb (fun k => str_includes k termLower || str_includes termLower k) keywords
               then (score + 5)%nat else score)
            topTerms score.

(** [categoryScores]: the categories of positive score, in catalogue order. *)
Definition categoryScores (combinedText : string) (topTerms : list string)
           (allTerms : list (string * nat)) : list (Category * nat) :=
  fold_left (fun scores '(category, c) =>
               let score := categoryScore combinedText topTerms allTerms (keywords c) in
               if 0 <? score then scores ++ [(c, score)] else scores)
            categories [].

(** [t.charAt(0).toUpperCase() + t.slice(1)] *)
Definition capitalize (t : string) : string :=
  match t with
  | EmptyString => toUpperCase js EmptyString
  | String c rest => (toUpperCase js (String c EmptyString) ++ rest)%string
  end.

Definition generateClusterLabel (clusterTexts topTerms : list string)
           (allTerms : list (string * nat)) : string :=
  let combinedText := toLowerCase js (String.concat " " clusterTexts) in
  let fallback :=
    let mainTerms :=
      filter (fun t => 2 <? String.length t) (map capitalize (firstn 3 topTerms)) in
    if 0 <? length mainTerms
    then (String.concat ", " mainTerms ++ " Documents")%string
    else "Documents"%string in
  match sortDesc (categoryScores combinedText topTerms allTerms) with
  | (bestCategory, score) :: _ => if 0 <? score then categoryLabel bestCategory else fallback
  | [] => fallback
  end.

End WithBuiltins.

Record Summary : Type := mkSummary {
  name : string;
  label : string;
  size : nat;
  topTerms : list string;
  description : string
}.

(** [summary.label || summary.name]: the empty string is falsy. *)
Definition labelOrName (s : Summary) : string :=
  if String.eqb (label s) EmptyString then name s else label s.

(** [labelCounts[label] = n] *)
Fixpoint setCount (key : string) (n : nat) (counts : list (string * nat))
  : list (string * nat) :=
  match counts with
  | [] => [(key, n)]
  | (k, m) :: t => if String.eqb key k then (k, n) :: t else (k, m) :: setCount key n t
  end.

(** [`${label} (${count})`] *)
Definition suffixed (label : string) (count : nat) : string :=
  (label ++ " (" ++ decimal count ++ ")")%string.

(** "Ensure all cluster labels are unique": one step of the loop over
    [Object.entries(clusterSummaries)].  Every key is met once, so the
    entry written to [updatedSummaries] is the entry returned here.
    [labelCounts] is a record of counts that starts empty; its inherited
    properties are not modelled. *)
Definition uniqueStep (st : list (string * nat) * list (nat * Summary))
           (entry : nat * Summary) : list (string * nat) * list (nat * Summary) :=
  let '(labelCounts, updatedSummaries) := st in
  let '(clusterId, summary) := entry in
  let label0 := labelOrName summary in
  if 0 <? countOf label0 labelCounts then
    let count := S (countOf label0 labelCounts) in
    (setCount label0 count labelCounts,
     updatedSummaries ++
       [(clusterId,
         mkSummary (suffixed (name summary) count) (suffixed label0 count)
                   (size summary) (topTerms summary) (description summary))])
  else (setCount label0 1 labelCounts, updatedSummaries ++ [(clusterId, summary)]).

Definition uniqueLabels (clusterSummaries : list (nat * Summary)) : list (nat * Summary) :=
  snd (fold_left uniqueStep clusterSummaries ([], [])).

(** The summary that POST builds for one cluster of [n] documents. *)
Definition summaryOf (js : StringBuiltins) (clusterLabel : string) (n : nat)
           (topTerms : list string) : Summary :=
  mkSummary clusterLabel clusterLabel n topTerms
            (decimal n ++ " document" ++ (if (1 <? n)%nat then "s" else EmptyString) ++ " related to "
               ++ toLowerCase js clusterLabel)%string.

End Labels.

(* ================================================================== *)
(** * Mathematical notions used in the statements *)
(* ================================================================== *)

Module Spec.

Local Open Scope R_scope.

(** The sum of [f 0], ..., [f (n - 1)]. *)
Fixpoint sum_upto (n : nat) (f : nat -> R) : R :=
  match n with
  | O => 0
  | S m => sum_upto m f + f m
  end.

(** The dot product over the common length of two vectors of reals. *)
Definition dot (a b : list R) : R :=
  sum_upto (Nat.min (length a) (length b)) (fun i => nth i a 0 * nth i b 0).

(** The L2 norm. *)
Definition norm (a : list R) : R := R_sqrt.sqrt (dot a a).

(** Cosine of the angle of two vectors, 0 when one of them has norm 0. *)
Definition cosine (a b : list R) : R :=
  if Req_dec_T (norm a) 0 then 0
  else if Req_dec_T (norm b) 0 then 0
  else dot a b / (norm a * norm b).

(** The sum of a list of reals and its mean. *)
Definition total (l : list R) : R := fold_right Rplus 0 l.
Definition mean (l : list R) : R := total l / INR (length l).

(** The value of one point, in the words of the specification:
    0 if [a = b = 0], [1 - a / b] if [a < b], [b / a - 1] otherwise;
    [b = None] stands for an infinite [b] (no other cluster has a point),
    where [1 - a / b] is 1. *)
Definition pointValue (a : R) (b : option R) : R :=
  match b with
  | None => 1
  | Some b =>
      let general := if Rlt_dec a b then 1 - a / b else b / a - 1 in
      if Req_dec_T a 0 then (if Req_dec_T b 0 then 0 else general) else general
  end.

Section Silhouette.

(** [d p q]: the distance of the points of index [p] and [q]. *)
Variable d : nat -> nat -> R.

(** [a]: the average distance to the other points of the own cluster, 0 for
    a singleton. *)
Definition a_of (p : nat) (clusterPoints : list nat) : R :=
  if (1 <? length clusterPoints)%nat
  then total (map (d p) (filter (fun q => negb (p =? q)%nat) clusterPoints))
       / INR (length clusterPoints - 1)
  else 0.

(** The average distance to the points of another cluster. *)
Definition avgTo (p : nat) (otherPoints : list nat) : R :=
  total (map (d p) otherPoints) / INR (length otherPoints).

(** [b]: the least average distance to another cluster that has points;
    [b_step] takes one more cluster into account. *)
Definition b_step (clusterId p : nat) (m : option R) (e : nat * list nat) : option R :=
  let '(otherId, otherPoints) := e in
  if (otherId =? clusterId)%nat then m
  else match otherPoints with
       | [] => m
       | _ => Some (match m with
                    | None => avgTo p otherPoints
                    | Some x => Rmin x (avgTo p otherPoints)
                    end)
       end.

Definition b_of (clusters : list (nat * list nat)) (clusterId p : nat) : option R :=
  fold_left (b_step clusterId p) clusters None.

(** The values of all points of all clusters. *)
Definition pointValues (clusters : list (nat * list nat)) : list R :=
  flat_map (fun '(clusterId, clusterPoints) =>
              map (fun p => pointValue (a_of p clusterPoints) (b_of clusters clusterId p))
                  clusterPoints)
           clusters.

(** 0 for fewer than two clusters, else the mean of the values of all
    points (0 when there is no point). *)
Definition silhouetteScore (clusters : list (nat * list nat)) : R :=
  if (length clusters <? 2)%nat then 0
  else match pointValues clusters with
       | [] => 0
       | values => mean values
       end.

End Silhouette.

(** A distance or an infinity as a number: the values that [b] takes in
    the code. *)
Definition ext (b : option R) : number :=
  match b with Some x => Num x | None => PosInf end.

(** The distances of the two scorers on a set of vectors of reals. *)
Definition cosineDistance (vectors : list (list R)) (p q : nat) : R :=
  1 - cosine (nth p vectors []) (nth q vectors []).

Definition euclideanDistance (vectors : list (list R)) (p q : nat) : R :=
  let a := nth p vectors [] in
  let b := nth q vectors [] in
  R_sqrt.sqrt (sum_upto (length a) (fun i => (nth i a 0 - nth i b 0) * (nth i a 0 - nth i b 0))).

Definition distance (metric : ClusteringAlgorithms.DistanceMetric)
           (vectors : list (list R)) (p q : nat) : R :=
  match metric with
  | ClusteringAlgorithms.Euclidean => euclideanDistance vectors p q
  | ClusteringAlgorithms.Cosine => cosineDistance vectors p q
  end.

(** All pairs [(l[i], l[j])] with [i < j]. *)
Fixpoint pairs {A : Type} (l : list A) : list (A * A) :=
  match l with
  | [] => []
  | x :: t => map (pair x) t ++ pairs t
  end.



(** The labels after the unique-label pass, in the words of the
    specification: the first occurrence of a label keeps it, every later
    occurrence gets its running count appended.  [seen] lists the base
    labels met so far. *)
Fixpoint relabel (seen : list string) (labels : list string) : list string :=
  match labels with
  | [] => []
  | l :: rest =>
      let c := count_occ string_dec seen l in
      (if (c =? 0)%nat then l else Labels.suffixed l (S c)) :: relabel (l :: seen) rest
  end.

(** The last character of a string. *)
Fixpoint last_char (s : string) : option ascii :=
  match s with
  | EmptyString => None
  | String c EmptyString => Some c
  | String _ rest => last_char rest
  end.

(** A label that does not end with a closing parenthesis: it cannot be
    taken for a label with a counter. *)
Definition plain (s : string) : Prop := last_char s <> Some ")"%char.

(** Every index of a cluster map refers to one of [n] vectors. *)
Definition in_range (n : nat) (clusters : list (nat * list nat)) : Prop :=
  Forall (fun e => Forall (fun p => (p < n)%nat) (snd e)) clusters.

End Spec.

(* ================================================================== *)
(** * Invariants of the loops *)
(* ================================================================== *)

Module Inv.

(** The state of the feature loops: a vector of 50 finite numbers. *)
Definition features (st : vector * nat) : Prop :=
  length (fst st) = 50%nat /\ Forall is_finite (fst st).

(** A cluster map of K-Means over [n] points, [k] clusters and [c]
    centroids: the keys are 0 .. k-1, every index is below [n], and only the
    first [c] clusters have points. *)
Definition assigned (n k c : nat) (m : CMap.t) : Prop :=
  CMap.keys m = seq 0 k /\
  Spec.in_range n m /\
  forall i pts, CMap.lookup i m = Some pts -> pts <> [] -> (i < c)%nat.

(** Every index 0 .. n-1 is in exactly one cluster. *)
Definition partition (n : nat) (m : CMap.t) : Prop :=
  Permutation (CMap.flat m) (seq 0 n).

(** The state of the iterations of [runKMeans] over [n] points and [k]
    clusters: between 1 and [k] centroids; the best cluster map is still
    empty or is a partition into the clusters 0 .. k-1; the best score is a
    real number of [-1, 1]. *)
Definition kstate (n k : nat) (st : Route.KState) : Prop :=
  (1 <= length (Route.ks_centroids st) <= k)%nat /\
  Spec.in_range n (Route.ks_bestClusters st) /\
  ((Route.ks_bestClusters st = CMap.empty /\ Route.ks_bestSilhouette st = Num (-1)) \/
   (assigned n k (length (Route.ks_centroids st)) (Route.ks_bestClusters st) /\
    partition n (Route.ks_bestClusters st))) /\
  exists b : R, Route.ks_bestSilhouette st = Num b /\ (-1 <= b <= 1)%R.

(** The state of the main loop of DBSCAN over [n] points. *)
Definition dstate (n : nat) (st : DBSCAN.State) : Prop :=
  length (DBSCAN.visited st) = n /\
  Forall (fun p => (p < n)%nat) (DBSCAN.noise st) /\
  Spec.in_range n (DBSCAN.clusters st).

End Inv.

(* ================================================================== *)
(** * Vectors of reals *)
(* ================================================================== *)

Module Metric.

Local Open Scope R_scope.

(** The Euclidean distance of two vectors of reals, over the length of the
    first one. *)
Definition euclid (a b : list R) : R :=
  R_sqrt.sqrt (Spec.sum_upto (length a)
                 (fun i => (nth i a 0 - nth i b 0) * (nth i a 0 - nth i b 0))).

End Metric.

(* ================================================================== *)
(** * What the DBSCAN traversal keeps *)
(* ================================================================== *)

Module Cover.

(** [visited[p]] is set. *)
Definition marked (visited : list bool) (p : nat) : Prop := nth p visited false = true.

(** The state of the traversal over [n] points when [c] clusters exist:
    the clusters 0 .. c-1 are non-empty and pairwise disjoint, the noise
    list has no duplicate, and the visited points are the points that are
    noise or in a cluster. *)
Definition dstate (n c : nat) (visited : list bool) (noise : list nat) (clusters : CMap.t)
  : Prop :=
  length visited = n /\
  CMap.keys clusters = seq 0 c /\
  (forall id pts, CMap.lookup id clusters = Some pts -> pts <> []) /\
  NoDup noise /\ NoDup (CMap.flat clusters) /\
  Forall (fun p => (p < n)%nat) noise /\ Spec.in_range n clusters /\
  (forall p, marked visited p <-> In p noise \/ In p (CMap.flat clusters)).

(** A cluster map over [n] points that leaves no point out: the keys are
    0, 1, ..., no cluster is empty, every index is below [n], and every
    point is listed once or twice. *)
Definition covering (n : nat) (m : CMap.t) : Prop :=
  (exists c, CMap.keys m = seq 0 c) /\
  (forall id pts, CMap.lookup id m = Some pts -> pts <> []) /\
  Spec.in_range n m /\
  (forall p, (p < n)%nat -> (1 <= count_occ Nat.eq_dec (CMap.flat m) p <= 2)%nat).

End Cover.

(* ================================================================== *)
(** * What the features of a document are *)
(* ================================================================== *)

Module Features.

Local Open Scope R_scope.

(** A finite number that is not negative. *)
Definition nonneg (x : number) : Prop := exists r, x = Num r /\ 0 <= r.

(** The state of the feature loops: 50 non-negative numbers, of which the
    first is [x0] once a slot has been written. *)
Definition filled (x0 : number) (st : vector * nat) : Prop :=
  length (fst st) = 50%nat /\ Forall nonneg (fst st) /\
  (1 <= snd st)%nat /\ nth 0 (fst st) NaN = x0.

(** All components lie in [0, 1]. *)
Definition unit_box (l : list R) : Prop := Forall (fun x => 0 <= x <= 1) l.

End Features.

(* ================================================================== *)
(** * Sets and maps of strings *)
(* ================================================================== *)

(** The list of stop words.  text-analysis.ts has it as [STOP_WORDS];
    [extractKeyTerms] and [generateClusterName] of route.ts each hold a copy
    of the same 174 words as [stopWords]. *)
Definition STOP_WORDS : list string :=
  [ "a"; "about"; "above"; "after"; "again"; "against"; "all"; "am"; "an"; "and"; "any";
    "are"; "aren't"; "as"; "at"; "be"; "because"; "been"; "before"; "being"; "below";
    "between"; "both"; "but"; "by"; "can't"; "cannot"; "could"; "couldn't"; "did"; "didn't";
    "do"; "does"; "doesn't"; "doing"; "don't"; "down"; "during"; "each"; "few"; "for";
    "from"; "further"; "had"; "hadn't"; "has"; "hasn't"; "have"; "haven't"; "having"; "he";
    "he'd"; "he'll"; "he's"; "her"; "here"; "here's"; "hers"; "herself"; "him"; "himself";
    "his"; "how"; "how's"; "i"; "i'd"; "i'll"; "i'm"; "i've"; "if"; "in"; "into"; "is";
    "isn't"; "it"; "it's"; "its"; "itself"; "let's"; "me"; "more"; "most"; "mustn't"; "my";
    "myself"; "no"; "nor"; "not"; "of"; "off"; "on"; "once"; "only"; "or"; "other"; "ought";
    "our"; "ours"; "ourselves"; "out"; "over"; "own"; "same"; "shan't"; "she"; "she'd";
    "she'll"; "she's"; "should"; "shouldn't"; "so"; "some"; "such"; "than"; "that";
    "that's"; "the"; "their"; "theirs"; "them"; "themselves"; "then"; "there"; "there's";
    "these"; "they"; "they'd"; "they'll"; "they're"; "they've"; "this"; "those"; "through";
    "to"; "too"; "under"; "until"; "up"; "very"; "was"; "wasn't"; "we"; "we'd"; "we'll";
    "we're"; "we've"; "were"; "weren't"; "what"; "what's"; "when"; "when's"; "where";
    "where's"; "which"; "while"; "who"; "who's"; "whom"; "why"; "why's"; "with"; "won't";
    "would"; "wouldn't"; "you"; "you'd"; "you'll"; "you're"; "you've"; "your"; "yours";
    "yourself"; "yourselves" ]%string.

(** [new Set<string>()] keeps its elements in insertion order:
    [set.has(x)], [set.add(x)], [new Set(array)]. *)
Definition has (s : list string) (x : string) : bool := existsb (String.eqb x) s.

Definition setAdd (s : list string) (x : string) : list string :=
  if has s x then s else s ++ [x].

Definition setOf (l : list string) : list string := fold_left setAdd l [].

(** [new Map<string, V>()] keeps its entries in insertion order; writing an
    existing key keeps the place of the entry. *)
Module Dict.

Section Values.

Context {V : Type}.

(** [m.get(key)] *)
Fixpoint get (key : string) (m : list (string * V)) : option V :=
  match m with
  | [] => None
  | (k, v) :: t => if String.eqb key k then Some v else get key t
  end.

(** [m.set(key, v)] *)
Fixpoint set (key : string) (v : V) (m : list (string * V)) : list (string * V) :=
  match m with
  | [] => [(key, v)]
  | (k, x) :: t => if String.eqb key k then (k, v) :: t else (k, x) :: set key v t
  end.

(** [m.has(key)] *)
Definition mem (key : string) (m : list (string * V)) : bool :=
  match get key m with Some _ => true | None => false end.

End Values.

(** [m.get(key) || 0] on a map of counts. *)
Definition count (m : list (string * nat)) (key : string) : nat :=
  match get key m with Some n => n | None => 0 end.

(** [m.set(key, (m.get(key) || 0) + 1)] *)
Definition increment (m : list (string * nat)) (key : string) : list (string * nat) :=
  set key (count m key + 1) m.

End Dict.

(** [n || 1] on a count. *)
Definition orOne (n : nat) : nat := if n =? 0 then 1 else n.

(** [array.sort(compare)].  The sort of JavaScript is stable, and [compare]
    puts [b] before [a] when [compare(a, b) > 0]: an insertion sort that
    moves an element past the elements that the comparison puts before it.
    A comparison that returns NaN counts as 0. *)
Fixpoint insertBy {A : Type} (compare : A -> A -> number) (e : A) (sorted : list A) : list A :=
  match sorted with
  | [] => [e]
  | e' :: t => if gt (compare e e') (Num 0) then e' :: insertBy compare e t else e :: sorted
  end.

Definition sortBy {A : Type} (compare : A -> A -> number) (l : list A) : list A :=
  fold_right (insertBy compare) [] l.

(** [(a, b) => b[1] - a[1]]: by decreasing score. *)
Definition byScoreDesc {A : Type} (a b : A * number) : number := sub (snd b) (snd a).

(** The regular-expression built-ins that rewrite a string, taken from the
    runtime like those of [StringBuiltins]. *)
Record RegexBuiltins : Type := mkRegexBuiltins {
  replaceAll : string -> string -> string -> string;   (* s.replace(re, by), re global *)
  trim : string -> string                              (* s.trim() *)
}.

(* ================================================================== *)
(** * src/utils/text-analysis.ts: tokens, term frequencies, TF-IDF *)
(* ================================================================== *)

Module Terms.

Section WithBuiltins.

Variable js : StringBuiltins.
Variable re : RegexBuiltins.

(** Lower case, everything but word characters and white space replaced by
    a space, split at white space; stop words and words of fewer than three
    characters are dropped. *)
Definition tokenizeText (text : string) : list string :=
  let normalized := replaceAll re "/[^\w\s]/g" " " (toLowerCase js text) in
  filter (fun word => (2 <? String.length word) && negb (has STOP_WORDS word))
         (split js "/\s+/" normalized).

(** [termFreq.set(token, (termFreq.get(token) || 0) + 1)] for every token. *)
Definition extractTermFrequency (tokens : list string) : list (string * nat) :=
  fold_left Dict.increment tokens [].

(** "Step 2: Build vocabulary (all unique terms across documents)" *)
Definition vocabularyOf (tokenizedDocs : list (list string)) : list string :=
  fold_left (fun vocabulary tokens => fold_left setAdd tokens vocabulary) tokenizedDocs [].

(** "Create a mapping from term to index in the vector" *)
Definition termToIndexOf (vocabulary : list string) : list (string * nat) :=
  fold_left (fun termToIndex '(index, term) => Dict.set term index termToIndex)
            (indexed vocabulary) [].

(** "Step 3: Calculate document frequencies (DF) for each term": every term
    is counted once per document. *)
Definition docFrequenciesOf (tokenizedDocs : list (list string)) : list (string * nat) :=
  fold_left (fun docFrequencies tokens => fold_left Dict.increment (setOf tokens) docFrequencies)
            tokenizedDocs [].

(** [tf * idf] for a term of frequency [freq] in a document of [n] tokens,
    when [df] of the [totalDocs] documents count for the term. *)
Definition tfidf (freq n totalDocs df : nat) : number :=
  let tf := div (of_nat freq) (of_nat n) in
  let idf := log (div (of_nat totalDocs) (of_nat (orOne df))) in
  mul tf idf.

(** "Step 4": the vector of one document.  [termIndex] is the place of a
    term in the vocabulary, so that [vector[termIndex] = ...] writes inside
    the array. *)
Definition tfidfVector (vocabularySize totalDocs : nat) (termToIndex docFrequencies : list (string * nat))
           (tokens : list string) : vector :=
  fold_left (fun vector '(term, freq) =>
               match Dict.get term termToIndex with
               | Some termIndex =>
                   array_set termIndex
                             (tfidf freq (length tokens) totalDocs (Dict.count docFrequencies term))
                             vector
               | None => vector
               end)
            (extractTermFrequency tokens) (repeat (Num 0) vocabularySize).

Definition calculateTfIdfVectors (documents : list string) : list vector :=
  let tokenizedDocs := map tokenizeText documents in
  let vocabulary := vocabularyOf tokenizedDocs in
  let termToIndex := termToIndexOf vocabulary in
  let docFrequencies := docFrequenciesOf tokenizedDocs in
  let totalDocs := length documents in
  map (tfidfVector (length vocabulary) totalDocs termToIndex docFrequencies) tokenizedDocs.

(** The array [tfidfScores] of [extractKeyTerms]: the terms of the document
    with their scores, in the order of their first occurrence.  Only the
    terms of the document are counted in [docFrequencies]. *)
Definition keyTermScores (tokens : list string) (allDocuments : list string)
  : list (string * number) :=
  let termFreq := extractTermFrequency tokens in
  let docFrequencies :=
    fold_left (fun docFrequencies doc =>
                 fold_left (fun docFrequencies term =>
                              if Dict.mem term termFreq
                              then Dict.increment docFrequencies term
                              else docFrequencies)
                           (setOf (tokenizeText doc)) docFrequencies)
              allDocuments [] in
  let totalDocs := length allDocuments in
  fold_left (fun tfidfScores '(term, freq) =>
               tfidfScores ++
                 [(term, tfidf freq (length tokens) totalDocs (Dict.count docFrequencies term))])
            termFreq [].

(** [count] is a number of terms: a natural number. *)
Definition extractKeyTerms (document : string) (allDocuments : list string) (count : nat)
  : list string :=
  let tokens := tokenizeText document in
  if length tokens =? 0 then []
  else map fst (firstn count (sortBy byScoreDesc (keyTermScores tokens allDocuments))).

End WithBuiltins.

End Terms.

(* ================================================================== *)
(** * Term weights, as numbers *)
(* ================================================================== *)

Module Freq.

Local Open Scope R_scope.

(** The number of documents that have the term [t]. *)
Definition docsWith (t : string) (tokenizedDocs : list (list string)) : nat :=
  length (filter (fun tokens => has tokens t) tokenizedDocs).

(** The TF-IDF weight of [t] in a document: its share of the tokens of the
    document, times the logarithm of the number of documents over the number
    of documents that have the term. *)
Definition weight (tokenizedDocs : list (list string)) (tokens : list string) (t : string) : R :=
  INR (count_occ string_dec tokens t) / INR (length tokens)
  * ln (INR (length tokenizedDocs) / INR (docsWith t tokenizedDocs)).

End Freq.

(* ================================================================== *)
(** * Built-ins for the examples *)
(* ================================================================== *)

(** Simple stand-ins for the built-ins of the runtime, to run the
    definitions on examples: strings are taken as lower-case words separated
    by single spaces, and no pattern matches. *)
Module Sample.

Fixpoint splitAt (sep : ascii) (word s : string) : list string :=
  match s with
  | EmptyString => [word]
  | String c rest =>
      if Ascii.eqb c sep then word :: splitAt sep EmptyString rest
      else splitAt sep (word ++ String c EmptyString)%string rest
  end.

Definition js : StringBuiltins :=
  mkStringBuiltins (fun s => s) (fun s => s)
                   (fun _ s => splitAt " "%char EmptyString s)
                   (fun _ _ => 0%nat) (fun _ _ => false).

Definition re : RegexBuiltins := mkRegexBuiltins (fun _ _ s => s) (fun s => s).

End Sample.

(* ================================================================== *)
(** * Rankings by score *)
(* ================================================================== *)

Module Ranking.

Local Open Scope R_scope.

(** An entry with a finite score, as the code holds it. *)
Definition entry {A : Type} (e : A * R) : A * number := (fst e, Num (snd e)).

(** The scores never increase along the list. *)
Fixpoint nonincreasing (l : list R) : Prop :=
  match l with
  | [] => True
  | x :: t => Forall (fun y => y <= x) t /\ nonincreasing t
  end.

(** The stable sort by decreasing score, on finite scores. *)
Fixpoint insert {A : Type} (e : A * R) (sorted : list (A * R)) : list (A * R) :=
  match sorted with
  | [] => [e]
  | e' :: t => if Rlt_dec (snd e) (snd e') then e' :: insert e t else e :: sorted
  end.

Definition sort {A : Type} (l : list (A * R)) : list (A * R) := fold_right insert [] l.

End Ranking.

(* ================================================================== *)
(** * What kMeansClustering keeps *)
(* ================================================================== *)

Module KMeansInv.

(** The state of the k-means++ seeding of [kMeansClustering] over the
    vectors [vs] after [i] centroids have been chosen: the centroids are [i]
    of the vectors, at [i] distinct indices. *)
Definition seeded (vs : list vector) (i : nat) (st : list vector * list nat) : Prop :=
  length (fst st) = i /\ length (snd st) = i /\
  NoDup (snd st) /\ Forall (fun j => (j < length vs)%nat) (snd st) /\
  Forall (fun c => In c vs) (fst st).

(** An array of [k] centroids without a hole. *)
Definition whole (k : nat) (centroids : list (option vector)) : Prop :=
  length centroids = k /\ Forall (fun c => c <> None) centroids.

(** A cluster map with the keys 0 .. k-1 that holds every index 0 .. n-1
    once. *)
Definition clustered (n k : nat) (m : CMap.t) : Prop :=
  CMap.keys m = seq 0 k /\ Spec.in_range n m /\ Inv.partition n m.

End KMeansInv.

(* ================================================================== *)
(** * Objects used as records *)
(* ================================================================== *)

(** route.ts counts words in plain objects ([const tf: Record<string,
    number> = {}]).  A plain object inherits the properties of
    [Object.prototype], so that [obj[key]] is not undefined when [key] is
    one of these names, and writing a number or a string to [__proto__] has
    no effect. *)
Module Obj.

(** The function-valued properties of [Object.prototype]. *)
Definition inheritedNames : list string :=
  [ "constructor"; "__defineGetter__"; "__defineSetter__"; "hasOwnProperty";
    "__lookupGetter__"; "__lookupSetter__"; "isPrototypeOf"; "propertyIsEnumerable";
    "toString"; "valueOf"; "toLocaleString" ]%string.

Definition proto : string := "__proto__".

(** [key] names a property that every plain object has. *)
Definition inherited (key : string) : bool :=
  has inheritedNames key || String.eqb key proto.

(** The values that [obj[key] = (obj[key] || 0) + 1] stores: a count, or the
    text that [+ 1] makes of a function, an object or a text. *)
Inductive CountVal : Type :=
| Count (n : nat)
| Text.

(** [obj[key]], [undefined] being [None]. *)
Definition get {V : Type} (inheritedValue : V) (o : list (string * V)) (key : string)
  : option V :=
  match Dict.get key o with
  | Some v => Some v
  | None => if inherited key then Some inheritedValue else None
  end.

(** [obj[key] = v] for a number or a text [v]. *)
Definition set {V : Type} (key : string) (v : V) (o : list (string * V)) : list (string * V) :=
  if String.eqb key proto then o else Dict.set key v o.

(** [obj[key] = (obj[key] || 0) + 1] *)
Definition increment (o : list (string * CountVal)) (key : string) : list (string * CountVal) :=
  match get Text o key with
  | None => set key (Count 1) o
  | Some (Count n) => set key (Count (n + 1)) o
  | Some Text => set key Text o
  end.

(** [obj[key] || 0] as a number: a text, a function or an object is not a
    number. *)
Definition countOrZero (o : list (string * CountVal)) (key : string) : number :=
  match get Text o key with
  | None => Num 0
  | Some (Count n) => of_nat n
  | Some Text => NaN
  end.

(** [obj[key] || 0] as a number, on a record of numbers. *)
Definition numberOrZero (o : list (string * option number)) (key : string) : number :=
  match get None o key with
  | None => Num 0
  | Some (Some x) => or_default x (Num 0)
  | Some None => NaN
  end.

(** The counts of a record, for the readers that only ask for names that
    are not inherited. *)
Definition counts (o : list (string * CountVal)) : list (string * nat) :=
  flat_map (fun '(key, v) => match v with Count n => [(key, n)] | Text => [] end) o.

(** A canonical array index: the decimal numeral, without leading zeros,
    of a number below 2^32 - 1. *)
Definition digit (c : ascii) : option N :=
  let n := N_of_ascii c in
  if ((48 <=? n) && (n <=? 57))%N then Some (n - 48)%N else None.

Fixpoint digits (s : string) (acc : N) : option N :=
  match s with
  | EmptyString => Some acc
  | String c rest =>
      match digit c with
      | Some d => digits rest (10 * acc + d)%N
      | None => None
      end
  end.

Definition arrayIndex (key : string) : option N :=
  match key with
  | EmptyString => None
  | String c rest =>
      if Ascii.eqb c "0"%char then
        match rest with EmptyString => Some 0%N | _ => None end
      else if (10 <? String.length key)%nat then None
      else match digits key 0 with
           | Some n => if (n <=? 4294967294)%N then Some n else None
           | None => None
           end
  end.

Fixpoint insertIndex {V : Type} (e : N * (string * V)) (sorted : list (N * (string * V)))
  : list (N * (string * V)) :=
  match sorted with
  | [] => [e]
  | e' :: t => if (fst e <? fst e')%N then e :: sorted else e' :: insertIndex e t
  end.

(** [Object.entries(obj)]: the array indices in ascending order, then the
    other keys in the order of their creation. *)
Definition entries {V : Type} (o : list (string * V)) : list (string * V) :=
  map snd (fold_right insertIndex []
             (flat_map (fun e => match arrayIndex (fst e) with
                                 | Some i => [(i, e)]
                                 | None => []
                                 end) o))
  ++ filter (fun e => match arrayIndex (fst e) with Some _ => false | None => true end) o.

End Obj.

(** [entries.sort((a, b) => b[1] - a[1])] is a built-in: when two scores
    cannot be compared (a score that is not a number), the order that it
    leaves is implementation-defined. *)
Record SortBuiltin : Type := mkSortBuiltin {
  sortByScore : list (string * number) -> list (string * number)
}.

(* ================================================================== *)
(** * route.ts: extractKeyTerms *)
(* ================================================================== *)

Module KeyTerms.

Section WithBuiltins.

Variable js : StringBuiltins.
Variable re : RegexBuiltins.
Variable sorter : SortBuiltin.

(** [doc.toLowerCase().replace(/[^\w\s]/g, " ").replace(/\s+/g, " ").trim()] *)
Definition normalize (doc : string) : string :=
  trim re (replaceAll re "/\s+/g" " " (replaceAll re "/[^\w\s]/g" " " (toLowerCase js doc))).

(** [doc.split(/\s+/).filter((word) => !stopWords.has(word) && word.length > 2)] *)
Definition wordsOf (doc : string) : list string :=
  filter (fun word => negb (has STOP_WORDS word) && (2 <? String.length word))
         (split js "/\s+/" doc).

(** [docsWithWord] *)
Definition docsWithWord (allWords : list (list string)) (word : string) : nat :=
  length (filter (fun docWords => has docWords word) allWords).

(** The record [tfidf]. *)
Definition tfidfOf (allWords : list (list string)) (currentWords : list string) (docCount : nat)
  : list (string * option number) :=
  let tf := fold_left Obj.increment currentWords [] in
  let uniqueWords := setOf currentWords in
  let idf :=
    fold_left (fun idf word =>
                 Obj.set word
                         (Some (log (div (of_nat docCount)
                                         (of_nat (orOne (docsWithWord allWords word)))))) idf)
              uniqueWords [] in
  fold_left (fun tfidf word =>
               Obj.set word (Some (mul (Obj.countOrZero tf word) (Obj.numberOrZero idf word)))
                       tfidf)
            uniqueWords [].

(** A value of a record of numbers, as the comparison of the sort reads
    it. *)
Definition scoreOf (e : string * option number) : string * number :=
  (fst e, match snd e with Some x => x | None => NaN end).

(** [docIndex] and [count] are natural numbers.  Nothing in the body can
    throw, so that the [catch] branch is never taken. *)
Definition extractKeyTerms (documents : list string) (docIndex count : nat) : list string :=
  let normalizedDocs := map normalize documents in
  let allWords := map wordsOf normalizedDocs in
  match nth_error allWords docIndex with
  | None => []                                            (* !currentWords *)
  | Some currentWords =>
      if length currentWords =? 0 then []
      else
        let tfidf := tfidfOf allWords currentWords (length documents) in
        map fst (firstn count (sortByScore sorter (map scoreOf (Obj.entries tfidf))))
  end.

End WithBuiltins.

End KeyTerms.

(* ================================================================== *)
(** * route.ts: POST *)
(* ================================================================== *)

(** A value of a JSON document. *)
#[warnings="-register-all"] Inductive JSON : Type :=
| JNull
| JBool (b : bool)
| JNumber (x : number)
| JString (s : string)
| JArray (items : list JSON)
| JObject (fields : list (string * JSON)).

Module Post.

(** [/[\x00-\x08\x0B\x0C\x0E-\x1F\x7F-\xFF]/] on one character.  A string is
    the sequence of its code units, which are below 256 here. *)
Definition isControl (c : ascii) : bool :=
  let n := nat_of_ascii c in
  (n <=? 8) || (n =? 11) || (n =? 12) || ((14 <=? n) && (n <=? 31)) || (127 <=? n).

(** [\s] on one character below 256: tab, line feed, vertical tab, form
    feed, carriage return, space, no-break space. *)
Definition isSpace (c : ascii) : bool :=
  let n := nat_of_ascii c in
  ((9 <=? n) && (n <=? 13)) || (n =? 32) || (n =? 160).

(** [content.split("\n").length] *)
Fixpoint lineCount (s : string) : nat :=
  match s with
  | EmptyString => 1
  | String c rest => if Ascii.eqb c "010"%char then S (lineCount rest) else lineCount rest
  end.

(** No operation of the body throws on a string, so that the [catch]
    branch is never taken. *)
Definition isLikelyBinaryData (content : string) : bool :=
  if String.prefix "data:" content || String.prefix "PK" content
     || String.prefix "%PDF" content
     || existsb isControl (list_ascii_of_string (String.substring 0 100 content))
  then true
  else if str_includes content "File:" && str_includes content "Type:"
          && str_includes content "Size:" && (lineCount content <? 10)
  then true
  else false.

(** [/^\s*$/.test(doc)] *)
Definition isWhitespace (doc : string) : bool :=
  forallb isSpace (list_ascii_of_string doc).

(** The filter of POST: "Accept documents that have at least 10 characters
    and are not binary/whitespace". *)
Definition accepts (doc : JSON) : bool :=
  match doc with
  | JString doc =>
      (10 <=? String.length doc) && negb (isWhitespace doc) && negb (isLikelyBinaryData doc)
  | _ => false
  end.

Definition textOf (doc : JSON) : list string :=
  match doc with JString s => [s] | _ => [] end.

Definition textDocumentsOf (documents : list JSON) : list string :=
  flat_map textOf (filter accepts documents).

(** The fields of a cluster summary; [coherence] is
    [clusterCoherence[clusterId]]. *)
Record ClusterSummary : Type := mkClusterSummary {
  summary : Labels.Summary;
  coherence : option number
}.

Record Payload : Type := mkPayload {
  clusters : CMap.t;
  clusterSummaries : list (nat * ClusterSummary);
  documentKeyTerms : list (list string);
  silhouetteScore : number;
  algorithm : string;
  algorithmDetails : Route.Details
}.

Inductive Response : Type :=
| InvalidRequest                                     (* 400, "Invalid request format" *)
| BadRequest (error : string) (filteredCount : option nat)                     (* 400 *)
| Success (payload : Payload)                                                  (* 200 *)
| Failure.                                     (* 500, "Failed to process documents" *)

Definition status (r : Response) : nat :=
  match r with
  | InvalidRequest | BadRequest _ _ => 400
  | Success _ => 200
  | Failure => 500
  end.

Fixpoint lookupCoherence (clusterId : nat) (coherence : list (nat * number)) : option number :=
  match coherence with
  | [] => None
  | (k, c) :: t => if k =? clusterId then Some c else lookupCoherence clusterId t
  end.

Section WithBuiltins.

Variable js : StringBuiltins.
Variable re : RegexBuiltins.
Variable sorter : SortBuiltin.

(** The record [allTerms] of a cluster; reading the key terms of a
    document that does not exist throws. *)
Definition allTermsOf (documentKeyTerms : list (list string)) (docIndices : list nat)
  : option (list (string * Obj.CountVal)) :=
  foldM (fun allTerms docIdx =>
           terms <- nth_error documentKeyTerms docIdx ;;
           Some (fold_left Obj.increment terms allTerms))
        docIndices [].

Definition countScore (e : string * Obj.CountVal) : string * number :=
  (fst e, match snd e with Obj.Count n => of_nat n | Obj.Text => NaN end).

(** The summary of one cluster.  A document that does not exist counts as
    the empty text in [clusterTexts.join(" ")]. *)
Definition summarize (textDocuments : list string) (documentKeyTerms : list (list string))
           (clusterCoherence : list (nat * number)) (clusterId : nat) (docIndices : list nat)
  : option ClusterSummary :=
  let clusterTexts := map (fun idx => nth idx textDocuments EmptyString) docIndices in
  allTerms <- allTermsOf documentKeyTerms docIndices ;;
  let topTerms :=
    map fst (firstn 8 (sortByScore sorter (map countScore (Obj.entries allTerms)))) in
  let clusterLabel := Labels.generateClusterLabel js clusterTexts topTerms (Obj.counts allTerms) in
  Some (mkClusterSummary (Labels.summaryOf js clusterLabel (length docIndices) topTerms)
                         (lookupCoherence clusterId clusterCoherence)).

(** The steps of POST after the validation of the request. *)
Definition process (rand : nat -> R) (textDocuments : list string) : option Payload :=
  let embeddings := Embeddings.generateSemanticEmbeddings js textDocuments in
  let documentKeyTerms :=
    map (fun index => KeyTerms.extractKeyTerms js re sorter textDocuments index 8)
        (seq 0 (length textDocuments)) in
  selected <- Route.runOptimalClustering rand embeddings (length textDocuments) ;;
  let clusters := Route.clusters (Route.result selected) in
  clusterSummaries <-
    foldM (fun summaries '(clusterId, docIndices) =>
             s <- summarize textDocuments documentKeyTerms
                            (Route.coherence (Route.result selected)) clusterId docIndices ;;
             Some (summaries ++ [(clusterId, s)]))
          clusters [] ;;
  let labelled := Labels.uniqueLabels (map (fun '(id, s) => (id, summary s)) clusterSummaries) in
  let updatedSummaries :=
    map (fun '((id, s), (_, l)) => (id, mkClusterSummary l (coherence s)))
        (combine clusterSummaries labelled) in
  Some (mkPayload clusters updatedSummaries documentKeyTerms
                  (Route.silhouetteScore (Route.result selected))
                  (Route.algorithm selected) (Route.algorithmDetails selected)).

(** [body.documents]: reading a property of [null] throws. *)
Definition documentsOf (body : JSON) : option (option JSON) :=
  match body with
  | JNull => None
  | JObject fields => Some (Dict.get "documents" fields)
  | _ => Some None
  end.

(** [request] is the result of [request.json()], [None] when it fails. *)
Definition POST (rand : nat -> R) (request : option JSON) : Response :=
  match request with
  | None => InvalidRequest
  | Some body =>
      match documentsOf body with
      | None => InvalidRequest
      | Some (Some (JArray documents)) =>
          if length documents <? 2
          then BadRequest "At least 2 documents are required for clustering" None
          else
            let textDocuments := textDocumentsOf documents in
            if length textDocuments <? 2
            then BadRequest "At least 2 valid text documents are required for clustering"
                            (Some (length documents - length textDocuments))
            else match process rand textDocuments with
                 | Some payload => Success payload
                 | None => Failure
                 end
      | Some _ => BadRequest "Documents must be provided as an array" None
      end
  end.

End WithBuiltins.

End Post.

(* ================================================================== *)
(** * The ranking of extractKeyTerms of route.ts, as numbers *)
(* ================================================================== *)

Module KeyScore.

Local Open Scope R_scope.

(** The words that can be key terms: the distinct words of the document in
    the order of their first occurrence, without [__proto__]. *)
Definition candidates (words : list string) : list string :=
  filter (fun w => negb (String.eqb w Obj.proto)) (setOf words).

(** The score of the word [w] of a document: the number of its occurrences,
    times the logarithm of the number of documents over the number of
    documents that have the word. *)
Definition weight (allWords : list (list string)) (words : list string) (w : string) : R :=
  INR (count_occ string_dec words w)
  * ln (INR (length allWords) / INR (KeyTerms.docsWithWord allWords w)).

End KeyScore.

(** The sort of a runtime whose order on scores that cannot be compared is
    that of the stable insertion sort. *)
Definition stableSort : SortBuiltin := mkSortBuiltin (sortBy byScoreDesc).

(* ================================================================== *)
(** * clustering-algorithms.ts: findOptimalK and findOptimalEpsilon *)
(* ================================================================== *)

(** [arr.sort((a, b) => a - b)] on an array of numbers, a cell of which may
    hold [undefined] ([None]).  It is a built-in: the order that it leaves
    between numbers that cannot be compared is implementation-defined. *)
Record NumberSort : Type := mkNumberSort {
  sortAscending : list (option number) -> list (option number)
}.

Module Elbow.

(** [Math.acos] *)
Definition acos (x : number) : number :=
  match x with
  | Num a => if Rltb a (-1) || Rltb 1 a then NaN else Num (Ratan.acos a)
  | _ => NaN
  end.

(** [arr[i]]: [None] is [undefined]. *)
Definition cell (arr : list (option number)) (i : nat) : option number :=
  match nth_error arr i with Some c => c | None => None end.

(** A cell as an operand of a subtraction: [undefined] gives NaN. *)
Definition operand (c : option number) : number :=
  match c with Some x => x | None => NaN end.

(** "Calculate the angle between consecutive line segments": the body
    that the loops of both functions share, for the points [(x1, y1)],
    [(x2, y2)] and [(x3, y3)]. *)
Definition angle (x1 : nat) (y1 : number) (x2 : nat) (y2 : number) (x3 : nat) (y3 : number)
  : number :=
  let v1x := sub (of_nat x2) (of_nat x1) in
  let v1y := sub y2 y1 in
  let v2x := sub (of_nat x3) (of_nat x2) in
  let v2y := sub y3 y2 in
  let v1Mag := sqrt (add (mul v1x v1x) (mul v1y v1y)) in
  let v2Mag := sqrt (add (mul v2x v2x) (mul v2y v2y)) in
  let v1xNorm := div v1x v1Mag in
  let v1yNorm := div v1y v1Mag in
  let v2xNorm := div v2x v2Mag in
  let v2yNorm := div v2y v2Mag in
  let dotProduct := add (mul v1xNorm v2xNorm) (mul v1yNorm v2yNorm) in
  acos (max (Num (-1)) (min (Num 1) dotProduct)).

(** ** findOptimalK *)

(** Both functions declare [vectors: number[]] and use it as the array of
    vectors that [kMeansClustering] and [euclideanDistance] take: it is an
    array of vectors here. *)

(** "Calculate SSE for this clustering" *)
Definition sumSquaredErrorOf (vectors : list vector)
           (result : ClusteringAlgorithms.ClusteringResult) : option number :=
  foldM (fun sumSquaredError '(clusterId, clusterPoints) =>
           centroids <- ClusteringAlgorithms.centroids result ;;
           let centroid := js_get centroids clusterId in
           foldM (fun sumSquaredError pointIdx =>
                    dist <- ClusteringAlgorithms.distanceU ClusteringAlgorithms.Euclidean
                                                           (nth_error vectors pointIdx) centroid ;;
                    Some (add sumSquaredError (mul dist dist)))
                 clusterPoints sumSquaredError)
        (ClusteringAlgorithms.clusters result) (Num 0).

(** One step of "Find the elbow point". *)
Definition elbowStep (sse : list number) (st : number * nat) (k : nat) : number * nat :=
  let '(maxCurvature, optimalK) := st in
  let angle := angle (k - 1) (get sse (k - 1)) k (get sse k) (k + 1) (get sse (k + 1)) in
  if gt angle maxCurvature then (angle, k + 1) else (maxCurvature, optimalK).

(** [maxK] is a number of clusters: a natural number.  [rands k] is the
    stream of the values of [Math.random] during the call of
    [kMeansClustering(vectors, k)], which runs with its defaults: 100
    iterations and the cosine distance. *)
Definition findOptimalK (rands : nat -> nat -> R) (vectors : list vector) (maxK : nat)
  : option nat :=
  if length vectors <=? 2 then Some (length vectors)
  else
    let maxClusters := Nat.min maxK (length vectors - 1) in
    sse <- foldM (fun sse k =>
                    result <- ClusteringAlgorithms.kMeansClustering
                                (rands k) vectors k 100 ClusteringAlgorithms.Cosine ;;
                    sumSquaredError <- sumSquaredErrorOf vectors result ;;
                    Some (sse ++ [sumSquaredError]))
                 (seq 1 maxClusters) [] ;;
    Some (snd (fold_left (elbowStep sse) (seq 1 (maxClusters - 1 - 1)) (Num 0, 2%nat))).

(** ** findOptimalEpsilon *)

(** The array [distances] of the point [i]. *)
Definition distancesFrom (vectors : list vector) (i : nat) (vi : vector)
  : list (option number) :=
  fold_left (fun distances '(j, vj) =>
               if i =? j then distances
               else distances ++ [Some (TextAnalysis.euclideanDistance vi vj)])
            (indexed vectors) [].

(** "Calculate k-distance for each point" *)
Definition kDistancesOf (sorter : NumberSort) (vectors : list vector) (k : nat)
  : list (option number) :=
  fold_left (fun kDistances '(i, vi) =>
               let distances := sortAscending sorter (distancesFrom vectors i vi) in
               kDistances ++ [cell distances (Nat.min k (length distances - 1))])
            (indexed vectors) [].

(** One step of the search of the elbow of the k-distance graph. *)
Definition epsilonStep (kDistances : list (option number)) (st : number * nat) (i : nat)
  : number * nat :=
  let '(maxCurvature, optimalEpsilonIndex) := st in
  let angle := angle (i - 1) (operand (cell kDistances (i - 1)))
                     i (operand (cell kDistances i))
                     (i + 1) (operand (cell kDistances (i + 1))) in
  if gt angle maxCurvature then (angle, i) else (maxCurvature, optimalEpsilonIndex).

(** [k] is a rank: a natural number.  The result is a cell of
    [kDistances]: [None] is [undefined]. *)
Definition findOptimalEpsilon (sorter : NumberSort) (vectors : list vector) (k : nat)
  : option number :=
  if length vectors <=? 1 then Some (Num (1/2))
  else
    let kDistances := sortAscending sorter (kDistancesOf sorter vectors k) in
    let optimalEpsilonIndex :=
      snd (fold_left (epsilonStep kDistances) (seq 1 (length kDistances - 1 - 1))
                     (Num 0, 0%nat)) in
    cell kDistances optimalEpsilonIndex.

End Elbow.

(** A stand-in for the sort of the runtime on arrays of numbers: the stable
    insertion sort. *)
Definition stableAscending : NumberSort :=
  mkNumberSort (sortBy (fun a b => sub (Elbow.operand a) (Elbow.operand b))).

(* ================================================================== *)
(** * The coherence of a cluster, as a number *)
(* ================================================================== *)

Module Coherence.

Local Open Scope R_scope.

(** The similarities of the vector at [p] with the vectors at [pts],
    added up. *)
Definition rowSum (vs : list (list R)) (p : nat) (pts : list nat) : R :=
  Spec.total (map (fun q => Spec.cosine (nth p vs []) (nth q vs [])) pts).

(** The similarities of the pairs of positions [i < j] of a cluster, added
    up, and the number of these pairs. *)
Fixpoint pairSum (vs : list (list R)) (pts : list nat) : R :=
  match pts with
  | [] => 0
  | p :: t => rowSum vs p t + pairSum vs t
  end.

Fixpoint pairCount (pts : list nat) : nat :=
  match pts with
  | [] => 0
  | _ :: t => length t + pairCount t
  end.

(** The mean similarity of the pairs of a cluster; 1 for a cluster of at
    most one point. *)
Definition mean (vs : list (list R)) (pts : list nat) : R :=
  if (length pts <=? 1)%nat then 1 else pairSum vs pts / INR (pairCount pts).

End Coherence.

(* ================================================================== *)
(** * The iterations of runKMeans, one by one *)
(* ================================================================== *)

Module Trace.

(** The state of [runKMeans] when [i] iterations have been made. *)
Definition stateAfter (rand : nat -> R) (vectors : list vector) (k i : nat)
  : option Route.KState :=
  let k := if length vectors <? k then length vectors else k in
  let firstIndex := Route.randomIndex (rand 0%nat) (length vectors) in
  first <- nth_error vectors firstIndex ;;
  let centroids := Route.seed k rand vectors k [first] [firstIndex] 1 in
  foldM (Route.iteration vectors k) (seq 0 i)
        (Route.mkKState centroids CMap.empty (Num (-1)) 0).

(** The clusters that the iteration [iter = i] assigns, and their
    silhouette score. *)
Definition clustersAt (rand : nat -> R) (vectors : list vector) (k i : nat) : option CMap.t :=
  st <- stateAfter rand vectors k i ;;
  Route.assign vectors (Route.ks_centroids st)
               (if length vectors <? k then length vectors else k).

Definition scoreAt (rand : nat -> R) (vectors : list vector) (k i : nat) : option number :=
  clusters <- clustersAt rand vectors k i ;;
  Route.calculateSilhouetteScore vectors clusters.

End Trace.

(* ================================================================== *)
(** * The similarity, the distances and the silhouette score in binary64 *)
(* ================================================================== *)

(** The same functions on IEEE-754 binary64 numbers, the numbers of the
    runtime, with their rounding, overflow and underflow.  Vectors are lists
    of floats; the loops and the tests are those of the source, operation by
    operation and in its order. *)
Module Double.

Import PrimFloat.
Local Open Scope float_scope.

Definition number : Set := float.

Definition vector : Type := list number.

(** [v[i]] used as an operand of arithmetic: [undefined] becomes NaN. *)
Definition get (v : vector) (i : nat) : number := nth i v nan.

(** A JavaScript integer count as a number. *)
Definition of_nat (n : nat) : number := of_uint63 (Uint63.of_Z (Z.of_nat n)).

(** [Math.min(x, y)]: NaN when an argument is NaN, and -0 is below +0. *)
Definition min (x y : number) : number :=
  if (is_nan x || is_nan y)%bool then nan
  else if y <? x then y
  else if x <? y then x
  else if get_sign y then y else x.

(** [dotProduct += a[i] * b[i]; normA += a[i] * a[i]; normB += b[i] * b[i]] *)
Definition cosine_step (a b : vector) (acc : number * number * number) (i : nat)
  : number * number * number :=
  let '(dotProduct, normA, normB) := acc in
  (dotProduct + get a i * get b i,
   normA + get a i * get a i,
   normB + get b i * get b i).

(** The three sums of the loop, each on its own. *)
Definition dot (a b : vector) : number :=
  fold_left (fun sum i => sum + get a i * get b i)
            (seq 0 (Nat.min (length a) (length b))) 0.



Module TextAnalysis.

Definition cosineSimilarity (vecA vecB : vector) : number :=
  let '(dotProduct, normA, normB) :=
    fold_left (cosine_step vecA vecB) (seq 0 (length vecA)) (0, 0, 0) in
  if ((normA =? 0) || (normB =? 0))%bool then 0
  else dotProduct / (sqrt normA * sqrt normB).

Definition euclideanDistance (vecA vecB : vector) : number :=
  let sum :=
    fold_left (fun sum i =>
                 let diff := get vecA i - get vecB i in
                 sum + diff * diff)
              (seq 0 (length vecA)) 0 in
  sqrt sum.

End TextAnalysis.

(** [calculateSilhouetteScore], for the distance expression [dist]. *)
Module Silhouette.

Section WithDistance.

Variable dist : nat -> nat -> option number.

Definition intraClusterDist (pointIdx : nat) (clusterPoints : list nat) : option number :=
  foldM (fun acc otherPointIdx =>
           if Nat.eqb pointIdx otherPointIdx then Some acc
           else d <- dist pointIdx otherPointIdx ;; Some (acc + d))
        clusterPoints 0.

Definition interClusterDist (pointIdx : nat) (otherClusterPoints : list nat) : option number :=
  foldM (fun acc otherPointIdx => d <- dist pointIdx otherPointIdx ;; Some (acc + d))
        otherClusterPoints 0.

Definition a_of (pointIdx : nat) (clusterPoints : list nat) : option number :=
  intra <- intraClusterDist pointIdx clusterPoints ;;
  Some (if Nat.ltb 1 (length clusterPoints)
        then intra / of_nat (length clusterPoints - 1)
        else 0).

Definition b_of (clusters : CMap.t) (clusterId pointIdx : nat) : option number :=
  foldM (fun minInterClusterDist '(otherClusterId, otherClusterPoints) =>
           if Nat.eqb otherClusterId clusterId then Some minInterClusterDist
           else
             inter <- interClusterDist pointIdx otherClusterPoints ;;
             let avgDist :=
               if Nat.ltb 0 (length otherClusterPoints)
               then inter / of_nat (length otherClusterPoints)
               else infinity in
             Some (min minInterClusterDist avgDist))
        clusters infinity.

(** [if (a === 0 && b === 0) 0 else if (a < b) 1 - a / b else b / a - 1] *)
Definition silhouette (a b : number) : number :=
  if ((a =? 0) && (b =? 0))%bool then 0
  else if a <? b then 1 - a / b
  else b / a - 1.

Definition point_silhouette (clusters : CMap.t) (clusterId : nat)
           (clusterPoints : list nat) (pointIdx : nat) : option number :=
  a <- a_of pointIdx clusterPoints ;;
  b <- b_of clusters clusterId pointIdx ;;
  Some (silhouette a b).

Definition totals (clusters : CMap.t) : option (number * nat) :=
  foldM (fun acc '(clusterId, clusterPoints) =>
           foldM (fun '(totalSilhouette, totalPoints) pointIdx =>
                    s <- point_silhouette clusters clusterId clusterPoints pointIdx ;;
                    Some (totalSilhouette + s, S totalPoints))
                 clusterPoints acc)
        clusters (0, 0%nat).

Definition score (clusters : CMap.t) : option number :=
  let clusterCount := length (CMap.keys clusters) in
  if Nat.leb clusterCount 1 then Some 0
  else
    '(totalSilhouette, totalPoints) <- totals clusters ;;
    Some (if Nat.ltb 0 totalPoints then totalSilhouette / of_nat totalPoints else 0).

End WithDistance.

End Silhouette.

Module Route.

Definition cosineSimilarity (a b : vector) : number :=
  let '(dotProduct, normA, normB) :=
    fold_left (cosine_step a b) (seq 0 (Nat.min (length a) (length b))) (0, 0, 0) in
  let normA := sqrt normA in
  let normB := sqrt normB in
  if ((normA =? 0) || (normB =? 0))%bool then 0
  else dotProduct / (normA * normB).

Definition cosineSimilarityDistance (a b : vector) : number :=
  1 - cosineSimilarity a b.

Definition distAt (vectors : list vector) (p q : nat) : option number :=
  a <- nth_error vectors p ;;
  b <- nth_error vectors q ;;
  Some (cosineSimilarityDistance a b).

Definition calculateSilhouetteScore (vectors : list vector) (clusters : CMap.t)
  : option number :=
  Silhouette.score (distAt vectors) clusters.

End Route.

Module ClusteringAlgorithms.

Inductive DistanceMetric : Type := Euclidean | Cosine.

Definition distance (metric : DistanceMetric) (a b : vector) : number :=
  match metric with
  | Euclidean => TextAnalysis.euclideanDistance a b
  | Cosine => 1 - TextAnalysis.cosineSimilarity a b
  end.

(** An undefined first vector throws; an undefined second one throws
    unless the first is empty. *)
Definition distanceU (metric : DistanceMetric) (a b : option vector) : option number :=
  match a with
  | None => None
  | Some va =>
      match b with
      | Some vb => Some (distance metric va vb)
      | None => match va with
                | [] => Some (distance metric [] [])
                | _ :: _ => None
                end
      end
  end.

Definition calculateSilhouetteScore (vectors : list vector) (clusters : CMap.t)
           (metric : DistanceMetric) : option number :=
  Silhouette.score (fun p q => distanceU metric (nth_error vectors p) (nth_error vectors q))
                   clusters.

End ClusteringAlgorithms.

(** Two vectors in the same direction, twice, and a pair of clusters that
    separates them. *)
Definition sameDirection : list vector := [[1; 5]; [1; 5]].

Definition parallel : list vector := [[1; 10]; [5; 50]].

Definition apart : CMap.t := [(0%nat, [0%nat]); (1%nat, [1%nat])].



End Double.

(* ================================================================== *)
(** * What runKMeans holds as its best result *)
(* ================================================================== *)

Module Best.

(** The best result during the iterations of [runKMeans] on [vectors] with
    [k] clusters: nothing yet, which is the initial empty map with the score
    -1; or a cluster map with the keys 0 .. k-1 which holds every index in
    exactly one cluster, with the score that the scorer gives it, a score
    above -1. *)
Definition held (vectors : list vector) (k : nat) (clusters : CMap.t) (score : number)
  : Prop :=
  (clusters = CMap.empty /\ score = Num (-1)) \/
  (CMap.keys clusters = seq 0 k /\
   Inv.partition (length vectors) clusters /\
   Route.calculateSilhouetteScore vectors clusters = Some score /\
   gt score (Num (-1)) = true).

Definition kstate (vectors : list vector) (k : nat) (st : Route.KState) : Prop :=
  (1 <= length (Route.ks_centroids st) <= k)%nat /\
  Spec.in_range (length vectors) (Route.ks_bestClusters st) /\
  held vectors k (Route.ks_bestClusters st) (Route.ks_bestSilhouette st).

End Best.

(* ================================================================== *)
(** * The coherence of a cluster, on any vectors *)
(* ================================================================== *)

Module Pairwise.

(** The pairs of positions [i < j] of a list, in the order of the two
    nested loops. *)
Fixpoint pairs {A : Type} (l : list A) : list (A * A) :=
  match l with
  | [] => []
  | x :: t => map (pair x) t ++ pairs t
  end.

(** The similarities of the pairs, added up in that order. *)
Definition totalSimilarity (vectors : list vector) (clusterPoints : list nat) : number :=
  fold_left (fun total '(p, q) =>
               add total (Route.cosineSimilarity (nth p vectors []) (nth q vectors [])))
            (pairs clusterPoints) (Num 0).

(** 1 for a cluster of at most one point, else the sum of the similarities
    divided by the number of pairs. *)
Definition coherence (vectors : list vector) (clusterPoints : list nat) : number :=
  if (length clusterPoints <=? 1)%nat then Num 1
  else div (totalSimilarity vectors clusterPoints)
           (of_nat (length (pairs clusterPoints))).

End Pairwise.

(* ================================================================== *)
(** * Verification *)
(* ================================================================== *)

Local Open Scope R_scope.

(** ** Numbers *)

Lemma Rltb_true (x y : R) : x < y -> Rltb x y = true.
Proof. intros H. unfold Rltb. destruct (Rlt_dec x y); [reflexivity | contradiction]. Qed.

Lemma Rltb_false (x y : R) : y <= x -> Rltb x y = false.
Proof. intros H. unfold Rltb. destruct (Rlt_dec x y); [lra | reflexivity]. Qed.

Lemma Rleb_true (x y : R) : x <= y -> Rleb x y = true.
Proof. intros H. unfold Rleb. destruct (Rle_dec x y); [reflexivity | contradiction]. Qed.

Lemma Rleb_false (x y : R) : y < x -> Rleb x y = false.
Proof. intros H. unfold Rleb. destruct (Rle_dec x y); [lra | reflexivity]. Qed.

Lemma Reqb_true (x y : R) : x = y -> Reqb x y = true.
Proof. intros H. unfold Reqb. destruct (Req_dec_T x y); [reflexivity | contradiction]. Qed.

Lemma Reqb_false (x y : R) : x <> y -> Reqb x y = false.
Proof. intros H. unfold Reqb. destruct (Req_dec_T x y); [contradiction | reflexivity]. Qed.

Lemma sqrt_Num (x : R) : 0 <= x -> JS.sqrt (Num x) = Num (R_sqrt.sqrt x).
Proof. intros H. unfold JS.sqrt. now rewrite Rltb_false. Qed.

Lemma div_Num (x y : R) : y <> 0 -> div (Num x) (Num y) = Num (x / y).
Proof. intros H. unfold div. now rewrite Reqb_false. Qed.

Lemma add_NaN_l (x : number) : add NaN x = NaN.
Proof. now destruct x. Qed.

Lemma add_NaN_r (x : number) : add x NaN = NaN.
Proof. now destruct x. Qed.

Lemma mul_NaN_r (x : number) : mul x NaN = NaN.
Proof. now destruct x. Qed.

Lemma sub_NaN_r (x : number) : sub x NaN = NaN.
Proof. now destruct x. Qed.

(** ** Lists and loops *)

Lemma fold_left_ext_in {A B : Type} (f g : A -> B -> A) (l : list B) (a : A) :
  (forall acc x, In x l -> f acc x = g acc x) ->
  fold_left f l a = fold_left g l a.
Proof.
  revert a. induction l as [|x l IH]; intros a H; simpl; [reflexivity|].
  rewrite (H a x (or_introl Logic.eq_refl)). apply IH.
  intros acc y Hy. apply H. now right.
Qed.

Lemma get_vec (a : list R) (i : nat) :
  (i < length a)%nat -> get (vec a) i = Num (nth i a 0).
Proof.
  intros H. unfold get, vec.
  rewrite (nth_indep _ NaN (Num 0)) by now rewrite length_map.
  apply (map_nth Num).
Qed.

Lemma get_beyond (v : vector) (i : nat) : (length v <= i)%nat -> get v i = NaN.
Proof. intros H. unfold get. now apply nth_overflow. Qed.

Lemma length_vec (a : list R) : length (vec a) = length a.
Proof. apply length_map. Qed.

(** ** The dot product and the Cauchy-Schwarz inequality *)

Lemma sum_upto_ext (n : nat) (f g : nat -> R) :
  (forall i, (i < n)%nat -> f i = g i) -> Spec.sum_upto n f = Spec.sum_upto n g.
Proof.
  induction n as [|n IH]; intros H; simpl; [reflexivity|].
  rewrite IH by (intros; apply H; lia). rewrite H by lia. reflexivity.
Qed.

Lemma sum_upto_sq_nonneg (n : nat) (f : nat -> R) :
  0 <= Spec.sum_upto n (fun i => f i * f i).
Proof. induction n as [|n IH]; simpl; [lra | nra]. Qed.

Lemma sum_upto_sq_zero (n : nat) (f : nat -> R) :
  Spec.sum_upto n (fun i => f i * f i) = 0 -> forall i, (i < n)%nat -> f i = 0.
Proof.
  induction n as [|n IH]; intros H i Hi; [lia|].
  simpl in H. pose proof (sum_upto_sq_nonneg n f) as Hn.
  assert (Hz : f n * f n = 0) by nra.
  assert (Hs : Spec.sum_upto n (fun i => f i * f i) = 0) by nra.
  destruct (Nat.eq_dec i n) as [-> | Hne]; [nra | apply IH; [assumption | lia]].
Qed.

Lemma cauchy_schwarz (n : nat) (f g : nat -> R) :
  Spec.sum_upto n (fun i => f i * g i) * Spec.sum_upto n (fun i => f i * g i)
  <= Spec.sum_upto n (fun i => f i * f i) * Spec.sum_upto n (fun i => g i * g i).
Proof.
  induction n as [|n IH]; simpl; [lra|].
  set (d := Spec.sum_upto n (fun i => f i * g i)) in *.
  set (A := Spec.sum_upto n (fun i => f i * f i)) in *.
  set (B := Spec.sum_upto n (fun i => g i * g i)) in *.
  assert (HA : 0 <= A) by apply sum_upto_sq_nonneg.
  assert (HB : 0 <= B) by apply sum_upto_sq_nonneg.
  set (x := f n). set (y := g n).
  (* 2 d x y <= A y^2 + B x^2, since (2 d x y)^2 <= 4 (A y^2) (B x^2) *)
  assert (Hu : 0 <= A * (y * y)) by nra.
  assert (Hv : 0 <= B * (x * x)) by nra.
  assert (Hsq : (2 * d * x * y) * (2 * d * x * y)
                <= (A * (y * y) + B * (x * x)) * (A * (y * y) + B * (x * x))).
  { assert (H1 : (2 * d * x * y) * (2 * d * x * y) = 4 * (d * d) * ((x * x) * (y * y))) by ring.
    assert (H2 : 0 <= (x * x) * (y * y)) by nra.
    assert (H3 : 4 * (d * d) * ((x * x) * (y * y)) <= 4 * (A * B) * ((x * x) * (y * y))).
    { apply Rmult_le_compat_r; [assumption | lra]. }
    assert (H4 : 0 <= (A * (y * y) - B * (x * x)) * (A * (y * y) - B * (x * x)))
      by apply Rle_0_sqr.
    assert (H5 : (A * (y * y) + B * (x * x)) * (A * (y * y) + B * (x * x))
                 = (A * (y * y) - B * (x * x)) * (A * (y * y) - B * (x * x))
                   + 4 * (A * B) * ((x * x) * (y * y))) by ring.
    lra. }
  assert (Hlin : 2 * d * x * y <= A * (y * y) + B * (x * x)).
  { destruct (Rle_dec (2 * d * x * y) (A * (y * y) + B * (x * x))) as [|Hn]; [assumption|].
    exfalso.
    assert (Hp : 0 <= A * (y * y) + B * (x * x)) by lra.
    assert (Hgt : A * (y * y) + B * (x * x) < 2 * d * x * y) by lra.
    assert (Hm : (A * (y * y) + B * (x * x)) * (A * (y * y) + B * (x * x))
                 < (2 * d * x * y) * (2 * d * x * y)) by nra.
    lra. }
  assert (He : (d + x * y) * (d + x * y) = d * d + 2 * d * x * y + (x * x) * (y * y)) by ring.
  assert (Hf : (A + x * x) * (B + y * y)
               = A * B + (A * (y * y) + B * (x * x)) + (x * x) * (y * y)) by ring.
  fold x y. lra.
Qed.

Lemma dot_self_nonneg (a : list R) : 0 <= Spec.dot a a.
Proof. unfold Spec.dot. apply sum_upto_sq_nonneg. Qed.

Lemma dot_sq_le (a b : list R) :
  length a = length b -> Spec.dot a b * Spec.dot a b <= Spec.dot a a * Spec.dot b b.
Proof.
  intros H. unfold Spec.dot. rewrite <- H, !Nat.min_id.
  apply (cauchy_schwarz (length a) (fun i => nth i a 0) (fun i => nth i b 0)).
Qed.

(** The loop of [cosineSimilarity] on vectors of reals computes the three
    sums. *)
Lemma cosine_loop (a b : list R) (n : nat) :
  (n <= length a)%nat -> (n <= length b)%nat ->
  fold_left (cosine_step (vec a) (vec b)) (seq 0 n) (Num 0, Num 0, Num 0)
  = (Num (Spec.sum_upto n (fun i => nth i a 0 * nth i b 0)),
     Num (Spec.sum_upto n (fun i => nth i a 0 * nth i a 0)),
     Num (Spec.sum_upto n (fun i => nth i b 0 * nth i b 0))).
Proof.
  induction n as [|n IH]; intros Ha Hb.
  - reflexivity.
  - rewrite seq_S, fold_left_app, IH by lia. simpl.
    rewrite !get_vec by lia. reflexivity.
Qed.

(** ** cosineSimilarity *)

Lemma norm_nonneg (a : list R) : 0 <= Spec.norm a.
Proof. apply sqrt_pos. Qed.

Lemma norm_zero_iff (a : list R) : Spec.norm a = 0 <-> Spec.dot a a = 0.
Proof.
  unfold Spec.norm. split; intros H.
  - apply sqrt_eq_0; [apply dot_self_nonneg | assumption].
  - rewrite H. apply sqrt_0.
Qed.

Lemma norm_sq (a : list R) : Spec.norm a * Spec.norm a = Spec.dot a a.
Proof. apply sqrt_sqrt, dot_self_nonneg. Qed.

Lemma cosine_bounds (a b : list R) :
  length a = length b -> -1 <= Spec.cosine a b <= 1.
Proof.
  intros H. unfold Spec.cosine.
  destruct (Req_dec_T (Spec.norm a) 0) as [|Ha]; [lra|].
  destruct (Req_dec_T (Spec.norm b) 0) as [|Hb]; [lra|].
  pose proof (norm_nonneg a) as Pa. pose proof (norm_nonneg b) as Pb.
  pose proof (dot_sq_le a b H) as CS.
  rewrite <- (norm_sq a), <- (norm_sq b) in CS.
  set (p := Spec.norm a * Spec.norm b) in *.
  assert (Hp : 0 < p) by (unfold p; nra).
  assert (Hd : Spec.dot a b * Spec.dot a b <= p * p) by (unfold p; nra).
  assert (Hlo : - p <= Spec.dot a b) by nra.
  assert (Hhi : Spec.dot a b <= p) by nra.
  split.
  - apply Rmult_le_reg_r with p; [assumption|].
    unfold Rdiv. rewrite Rmult_assoc, Rinv_l by lra. lra.
  - apply Rmult_le_reg_r with p; [assumption|].
    unfold Rdiv. rewrite Rmult_assoc, Rinv_l by lra. lra.
Qed.

Lemma route_cosine_vec (a b : list R) :
  length a = length b ->
  Route.cosineSimilarity (vec a) (vec b) = Num (Spec.cosine a b).
Proof.
  intros H. unfold Route.cosineSimilarity.
  rewrite !length_vec, <- H, Nat.min_id.
  rewrite cosine_loop by lia.
  assert (Ea : Spec.sum_upto (length a) (fun i => nth i a 0 * nth i a 0) = Spec.dot a a).
  { unfold Spec.dot. now rewrite Nat.min_id. }
  assert (Eb : Spec.sum_upto (length a) (fun i => nth i b 0 * nth i b 0) = Spec.dot b b).
  { unfold Spec.dot. now rewrite <- H, Nat.min_id. }
  assert (Ed : Spec.sum_upto (length a) (fun i => nth i a 0 * nth i b 0) = Spec.dot a b).
  { unfold Spec.dot. now rewrite <- H, Nat.min_id. }
  rewrite Ea, Eb, Ed.
  rewrite !sqrt_Num by apply dot_self_nonneg.
  fold (Spec.norm a) (Spec.norm b).
  unfold Spec.cosine, JS.eq.
  destruct (Req_dec_T (Spec.norm a) 0) as [Ha|Ha].
  - now rewrite (Reqb_true _ _ Ha).
  - rewrite (Reqb_false _ _ Ha).
    destruct (Req_dec_T (Spec.norm b) 0) as [Hb|Hb].
    + now rewrite (Reqb_true _ _ Hb).
    + rewrite (Reqb_false _ _ Hb). cbn [orb mul].
      apply div_Num. nra.
Qed.

Lemma utils_cosine_vec (a b : list R) :
  length a = length b ->
  TextAnalysis.cosineSimilarity (vec a) (vec b) = Num (Spec.cosine a b).
Proof.
  intros H. unfold TextAnalysis.cosineSimilarity.
  rewrite !length_vec.
  rewrite cosine_loop by lia.
  assert (Ea : Spec.sum_upto (length a) (fun i => nth i a 0 * nth i a 0) = Spec.dot a a).
  { unfold Spec.dot. now rewrite Nat.min_id. }
  assert (Eb : Spec.sum_upto (length a) (fun i => nth i b 0 * nth i b 0) = Spec.dot b b).
  { unfold Spec.dot. now rewrite <- H, Nat.min_id. }
  assert (Ed : Spec.sum_upto (length a) (fun i => nth i a 0 * nth i b 0) = Spec.dot a b).
  { unfold Spec.dot. now rewrite <- H, Nat.min_id. }
  rewrite Ea, Eb, Ed.
  unfold Spec.cosine, JS.eq.
  destruct (Req_dec_T (Spec.norm a) 0) as [Ha|Ha].
  - apply norm_zero_iff in Ha. now rewrite (Reqb_true _ _ Ha).
  - assert (Ha' : Spec.dot a a <> 0) by (intros E; apply Ha; now apply norm_zero_iff).
    rewrite (Reqb_false _ _ Ha').
    destruct (Req_dec_T (Spec.norm b) 0) as [Hb|Hb].
    + apply norm_zero_iff in Hb. now rewrite (Reqb_true _ _ Hb).
    + assert (Hb' : Spec.dot b b <> 0) by (intros E; apply Hb; now apply norm_zero_iff).
      rewrite (Reqb_false _ _ Hb'). cbn [orb].
      rewrite !sqrt_Num by apply dot_self_nonneg.
      fold (Spec.norm a) (Spec.norm b). cbn [mul].
      apply div_Num. nra.
Qed.

(** In exact arithmetic, on two vectors of reals of equal length, both
    implementations of [cosineSimilarity] return [Spec.cosine a b]: 0 when
    either norm is 0, [dot a b / (norm a * norm b)] otherwise, a value of
    [-1, 1]. *)
Lemma cosine_exact (a b : list R) :
  length a = length b ->
  Route.cosineSimilarity (vec a) (vec b) = Num (Spec.cosine a b) /\
  TextAnalysis.cosineSimilarity (vec a) (vec b) = Num (Spec.cosine a b) /\
  ((Spec.norm a = 0 \/ Spec.norm b = 0) -> Spec.cosine a b = 0) /\
  (Spec.norm a <> 0 -> Spec.norm b <> 0 ->
   Spec.cosine a b = Spec.dot a b / (Spec.norm a * Spec.norm b)) /\
  -1 <= Spec.cosine a b <= 1.
Proof.
  intros H. repeat split.
  - now apply route_cosine_vec.
  - now apply utils_cosine_vec.
  - intros [Hz|Hz]; unfold Spec.cosine.
    + destruct (Req_dec_T (Spec.norm a) 0); [reflexivity | contradiction].
    + destruct (Req_dec_T (Spec.norm a) 0); [reflexivity|].
      destruct (Req_dec_T (Spec.norm b) 0); [reflexivity | contradiction].
  - intros Ha Hb. unfold Spec.cosine.
    destruct (Req_dec_T (Spec.norm a) 0); [contradiction|].
    destruct (Req_dec_T (Spec.norm b) 0); [contradiction | reflexivity].
  - apply cosine_bounds; assumption.
  - apply cosine_bounds; assumption.
Qed.

(** ** The similarity in binary64 *)

Section DoubleSimilarity.

Import PrimFloat.
Local Open Scope float_scope.








End DoubleSimilarity.

(** ** Vectors of different lengths *)

Lemma get_firstn (v : vector) (m i : nat) :
  (i < m)%nat -> get (firstn m v) i = get v i.
Proof.
  intros H. unfold get. rewrite nth_firstn.
  destruct (i <? m)%nat eqn:E; [reflexivity|].
  apply Nat.ltb_ge in E. lia.
Qed.

Lemma cosine_step_firstn (a b : vector) (m : nat) (l : list nat) acc :
  (forall i, In i l -> (i < m)%nat) ->
  fold_left (cosine_step (firstn m a) (firstn m b)) l acc
  = fold_left (cosine_step a b) l acc.
Proof.
  intros H. apply fold_left_ext_in.
  intros [[d na] nb] i Hi. unfold cosine_step.
  now rewrite !get_firstn by (apply H; assumption).
Qed.

Lemma fold_add_NaN {B : Type} (g : B -> number) (l : list B) :
  fold_left (fun sum i => add sum (g i)) l NaN = NaN.
Proof. induction l as [|x l IH]; cbn [fold_left]; [reflexivity | now rewrite add_NaN_l]. Qed.

(** [cosineSimilarity] of route.ts only reads the common prefix of its
    arguments. *)
Lemma route_cosine_prefix (a b : vector) :
  Route.cosineSimilarity a b
  = Route.cosineSimilarity (firstn (Nat.min (length a) (length b)) a)
                           (firstn (Nat.min (length a) (length b)) b).
Proof.
  unfold Route.cosineSimilarity.
  set (m := Nat.min (length a) (length b)).
  rewrite !length_firstn.
  replace (Nat.min (Nat.min m (length a)) (Nat.min m (length b))) with m by (unfold m; lia).
  rewrite cosine_step_firstn; [reflexivity|].
  intros i Hi. apply in_seq in Hi. lia.
Qed.

(** C8, as the code has it.  Neither function checks the dimensions and
    neither can raise an error.  [cosineSimilarity] of route.ts works on the
    common prefix of its arguments; [euclideanDistance] runs over the length
    of its first argument: a longer second argument is cut, a shorter one
    makes the result NaN. *)
Theorem mismatched_dimensions (a b : vector) :
  Route.cosineSimilarity a b
  = Route.cosineSimilarity (firstn (Nat.min (length a) (length b)) a)
                           (firstn (Nat.min (length a) (length b)) b)
  /\ TextAnalysis.euclideanDistance a b
     = if (length a <=? length b)%nat
       then TextAnalysis.euclideanDistance a (firstn (length a) b)
       else NaN.
Proof.
  split.
  - apply route_cosine_prefix.
  - unfold TextAnalysis.euclideanDistance.
    destruct (length a <=? length b)%nat eqn:E.
    + f_equal. apply fold_left_ext_in. intros acc i Hi.
      apply in_seq in Hi. now rewrite get_firstn by lia.
    + apply Nat.leb_gt in E.
      replace (length a) with (length b + S (length a - length b - 1))%nat at 1 by lia.
      rewrite seq_app, fold_left_app. cbn [seq fold_left].
      rewrite (get_beyond b) by lia.
      rewrite sub_NaN_r. cbn [mul]. rewrite add_NaN_r.
      now rewrite (fold_add_NaN (fun i => mul (sub (get a i) (get b i)) (sub (get a i) (get b i)))).
Qed.

(** C8, as stated, fails: on a pair of vectors of different lengths
    [cosineSimilarity] returns the similarity of the common prefix, here 1
    for [[1, 0]] against [[1]], and [euclideanDistance] ignores the second
    component of [[3, 4]] and returns 0. *)
Lemma mismatched_dimensions_not_rejected :
  length (vec [1; 0]) <> length (vec [1]) /\
  Route.cosineSimilarity (vec [1; 0]) (vec [1]) = Num 1 /\
  Route.cosineSimilarity (vec [1; 0]) (vec [1]) = Route.cosineSimilarity (vec [1]) (vec [1]) /\
  length (vec [3]) <> length (vec [3; 4]) /\
  TextAnalysis.euclideanDistance (vec [3]) (vec [3; 4]) = Num 0.
Proof.
  assert (E : Route.cosineSimilarity (vec [1]) (vec [1]) = Num 1).
  { unfold Route.cosineSimilarity. cbn [vec map length Nat.min seq fold_left cosine_step get nth add mul].
    replace (0 + 1 * 1) with 1 by lra.
    rewrite sqrt_Num by lra. rewrite sqrt_1.
    unfold JS.eq. rewrite Reqb_false by lra. cbn [orb mul].
    rewrite div_Num by lra. f_equal. lra. }
  split; [|split; [|split; [|split]]].
  - simpl. lia.
  - rewrite route_cosine_prefix. exact E.
  - rewrite route_cosine_prefix. reflexivity.
  - simpl. lia.
  - unfold TextAnalysis.euclideanDistance.
    cbn [vec map length seq fold_left get nth add mul sub neg].
    match goal with |- context [Num ?x] => replace x with 0 by lra end.
    rewrite sqrt_Num by lra. now rewrite sqrt_0.
Qed.

(** ** The silhouette score *)

Lemma total_app (l1 l2 : list R) : Spec.total (l1 ++ l2) = Spec.total l1 + Spec.total l2.
Proof. induction l1 as [|x l1 IH]; simpl; [lra | rewrite IH; lra]. Qed.

Lemma total_bounds (lo hi : R) (l : list R) :
  Forall (fun x => lo <= x <= hi) l ->
  INR (length l) * lo <= Spec.total l <= INR (length l) * hi.
Proof.
  induction 1 as [|x l Hx _ IH].
  - simpl. lra.
  - cbn [length Spec.total fold_right]. rewrite S_INR. fold (Spec.total l). lra.
Qed.

Lemma mean_bounds (lo hi : R) (l : list R) :
  l <> [] -> Forall (fun x => lo <= x <= hi) l -> lo <= Spec.mean l <= hi.
Proof.
  intros Hne H. pose proof (total_bounds lo hi l H) as [Hlo Hhi].
  assert (Hn : 0 < INR (length l)).
  { apply lt_0_INR. destruct l; [contradiction | simpl; lia]. }
  unfold Spec.mean. split.
  - apply Rmult_le_reg_r with (INR (length l)); [assumption|].
    unfold Rdiv. rewrite Rmult_assoc, Rinv_l by lra. lra.
  - apply Rmult_le_reg_r with (INR (length l)); [assumption|].
    unfold Rdiv. rewrite Rmult_assoc, Rinv_l by lra. lra.
Qed.

(** The value of a point lies in [-1, 1] as soon as [a] and [b] are not
    negative. *)
Lemma pointValue_bounds (a : R) (b : option R) :
  0 <= a -> (forall x, b = Some x -> 0 <= x) -> -1 <= Spec.pointValue a b <= 1.
Proof.
  intros Ha Hb. destruct b as [b|]; simpl; [|lra].
  specialize (Hb b Logic.eq_refl).
  assert (G : -1 <= (if Rlt_dec a b then 1 - a / b else b / a - 1) <= 1).
  { destruct (Rlt_dec a b) as [Hlt|Hge].
    - assert (0 <= a / b < 1).
      { split.
        - apply Rmult_le_pos; [assumption|]. left. apply Rinv_0_lt_compat. lra.
        - apply Rmult_lt_reg_r with b; [lra|].
          unfold Rdiv. rewrite Rmult_assoc, Rinv_l by lra. lra. }
      lra.
    - destruct (Req_dec_T a 0) as [Ea|Ea].
      + assert (b = 0) by lra. subst. unfold Rdiv. rewrite Rmult_0_l. lra.
      + assert (0 <= b / a <= 1).
        { split.
          - apply Rmult_le_pos; [assumption|]. left. apply Rinv_0_lt_compat. lra.
          - apply Rmult_le_reg_r with a; [lra|].
            unfold Rdiv. rewrite Rmult_assoc, Rinv_l by lra. lra. }
        lra. }
  destruct (Req_dec_T a 0); [destruct (Req_dec_T b 0); [lra | exact G] | exact G].
Qed.

(** The code's value of a point is the specification's. *)
Lemma silhouette_pointValue (a : R) (b : option R) :
  0 <= a -> (forall x, b = Some x -> 0 <= x) ->
  Silhouette.silhouette (Num a) (Spec.ext b) = Num (Spec.pointValue a b).
Proof.
  intros Ha Hb. unfold Silhouette.silhouette. destruct b as [b|]; cbn [Spec.ext].
  - specialize (Hb b Logic.eq_refl). unfold JS.eq, JS.lt, Spec.pointValue.
    destruct (Req_dec_T a 0) as [Ea|Ea].
    + rewrite (Reqb_true _ _ Ea).
      destruct (Req_dec_T b 0) as [Eb|Eb].
      * now rewrite (Reqb_true _ _ Eb).
      * rewrite (Reqb_false _ _ Eb). cbn [andb].
        destruct (Rlt_dec a b) as [Hlt|Hge]; [|lra].
        rewrite (Rltb_true _ _ Hlt). unfold sub. rewrite div_Num by lra. reflexivity.
    + rewrite (Reqb_false _ _ Ea). cbn [andb].
      destruct (Rlt_dec a b) as [Hlt|Hge].
      * rewrite (Rltb_true _ _ Hlt). unfold sub. rewrite div_Num by lra. reflexivity.
      * rewrite Rltb_false by lra. unfold sub. rewrite div_Num by lra. reflexivity.
  - unfold JS.eq, JS.lt, Spec.pointValue. rewrite andb_false_r.
    cbn [div sub neg add]. f_equal. lra.
Qed.

Section SilhouetteFacts.

Variable dist : nat -> nat -> option number.
Variable d : nat -> nat -> R.
Variable n : nat.

Hypothesis dist_d :
  forall p q, (p < n)%nat -> (q < n)%nat -> dist p q = Some (Num (d p q)).
Hypothesis d_nonneg : forall p q, 0 <= d p q.

Lemma total_d_nonneg (p : nat) (l : list nat) : 0 <= Spec.total (map (d p) l).
Proof.
  induction l as [|q l IH]; simpl; [lra|].
  pose proof (d_nonneg p q). fold (Spec.total (map (d p) l)). lra.
Qed.

Lemma intra_loop (p : nat) (pts : list nat) (acc : R) :
  (p < n)%nat -> Forall (fun q => (q < n)%nat) pts ->
  foldM (fun acc otherPointIdx =>
           if (p =? otherPointIdx)%nat then Some acc
           else x <- dist p otherPointIdx ;; Some (add acc x))
        pts (Num acc)
  = Some (Num (acc + Spec.total (map (d p) (filter (fun q => negb (p =? q)%nat) pts)))).
Proof.
  intros Hp H. revert acc. induction H as [|q pts Hq _ IH]; intros acc.
  - simpl. f_equal. f_equal. lra.
  - cbn [foldM filter]. destruct (p =? q)%nat; cbn [negb bind].
    + apply IH.
    + rewrite (dist_d p q Hp Hq). cbn [bind add]. rewrite IH.
      f_equal. f_equal. cbn [map Spec.total fold_right].
      fold (Spec.total (map (d p) (filter (fun q0 => negb (p =? q0)%nat) pts))). lra.
Qed.

Lemma inter_loop (p : nat) (pts : list nat) (acc : R) :
  (p < n)%nat -> Forall (fun q => (q < n)%nat) pts ->
  foldM (fun acc otherPointIdx => x <- dist p otherPointIdx ;; Some (add acc x))
        pts (Num acc)
  = Some (Num (acc + Spec.total (map (d p) pts))).
Proof.
  intros Hp H. revert acc. induction H as [|q pts Hq _ IH]; intros acc.
  - simpl. f_equal. f_equal. lra.
  - cbn [foldM]. rewrite (dist_d p q Hp Hq). cbn [bind add]. rewrite IH.
    f_equal. f_equal. cbn [map Spec.total fold_right].
    fold (Spec.total (map (d p) pts)). lra.
Qed.

Lemma a_of_nonneg (p : nat) (pts : list nat) : 0 <= Spec.a_of d p pts.
Proof.
  unfold Spec.a_of. destruct (1 <? length pts)%nat eqn:E; [|lra].
  apply Nat.ltb_lt in E.
  apply Rmult_le_pos; [apply total_d_nonneg|].
  left. apply Rinv_0_lt_compat. apply lt_0_INR. lia.
Qed.

Lemma avgTo_nonneg (p : nat) (pts : list nat) : pts <> [] -> 0 <= Spec.avgTo d p pts.
Proof.
  intros H. unfold Spec.avgTo.
  apply Rmult_le_pos; [apply total_d_nonneg|].
  left. apply Rinv_0_lt_compat. apply lt_0_INR. destruct pts; [contradiction | simpl; lia].
Qed.

Lemma a_of_ok (p : nat) (pts : list nat) :
  (p < n)%nat -> Forall (fun q => (q < n)%nat) pts ->
  Silhouette.a_of dist p pts = Some (Num (Spec.a_of d p pts)).
Proof.
  intros Hp H. unfold Silhouette.a_of, Silhouette.intraClusterDist, Spec.a_of.
  rewrite (intra_loop p pts 0 Hp H). cbn [bind].
  destruct (1 <? length pts)%nat eqn:E; [|reflexivity].
  apply Nat.ltb_lt in E. unfold of_nat.
  rewrite div_Num.
  - f_equal. f_equal. f_equal. lra.
  - apply not_0_INR. lia.
Qed.

Lemma b_loop (clusterId p : nat) (cl : list (nat * list nat)) (m : option R) :
  (p < n)%nat -> Spec.in_range n cl ->
  foldM (fun minInterClusterDist '(otherClusterId, otherClusterPoints) =>
           if (otherClusterId =? clusterId)%nat then Some minInterClusterDist
           else
             inter <- Silhouette.interClusterDist dist p otherClusterPoints ;;
             let avgDist :=
               if (0 <? length otherClusterPoints)%nat
               then div inter (of_nat (length otherClusterPoints))
               else PosInf in
             Some (JS.min minInterClusterDist avgDist))
        cl (Spec.ext m)
  = Some (Spec.ext (fold_left (Spec.b_step d clusterId p) cl m)).
Proof.
  intros Hp H. revert m. induction H as [|[oid opts] cl Ho _ IH]; intros m.
  - reflexivity.
  - cbn [foldM fold_left Spec.b_step]. destruct (oid =? clusterId)%nat; cbn [bind].
    + apply IH.
    + unfold Silhouette.interClusterDist.
      rewrite (inter_loop p opts 0 Hp Ho). cbn [bind].
      destruct opts as [|q opts].
      * cbn [length Nat.ltb Nat.leb].
        replace (JS.min (Spec.ext m) PosInf) with (Spec.ext m) by (destruct m; reflexivity).
        apply IH.
      * replace (0 <? length (q :: opts))%nat with true by reflexivity.
        unfold of_nat. rewrite div_Num by (apply not_0_INR; simpl; lia).
        replace (0 + Spec.total (map (d p) (q :: opts))) with (Spec.total (map (d p) (q :: opts)))
          by lra.
        fold (Spec.avgTo d p (q :: opts)).
        replace (JS.min (Spec.ext m) (Num (Spec.avgTo d p (q :: opts)))) with
          (Spec.ext (Some (match m with
                      | None => Spec.avgTo d p (q :: opts)
                      | Some x => Rmin x (Spec.avgTo d p (q :: opts))
                      end))).
        { apply IH. }
        destruct m as [x|]; cbn [Spec.ext JS.min JS.lt].
        -- unfold Rmin, Rltb.
           destruct (Rlt_dec (Spec.avgTo d p (q :: opts)) x);
             destruct (Rle_dec x (Spec.avgTo d p (q :: opts))); try reflexivity; f_equal; lra.
        -- reflexivity.
Qed.

Lemma b_step_nonneg (clusterId p : nat) (cl : list (nat * list nat)) (m : option R) :
  (forall x, m = Some x -> 0 <= x) ->
  forall x, fold_left (Spec.b_step d clusterId p) cl m = Some x -> 0 <= x.
Proof.
  revert m. induction cl as [|[oid opts] cl IH]; intros m Hm x; cbn [fold_left Spec.b_step].
  - apply Hm.
  - apply IH. destruct (oid =? clusterId)%nat; [exact Hm|].
    destruct opts as [|q opts]; [exact Hm|].
    intros y Hy. injection Hy as <-.
    assert (0 <= Spec.avgTo d p (q :: opts)) by (apply avgTo_nonneg; discriminate).
    destruct m as [z|]; [|assumption].
    specialize (Hm z Logic.eq_refl). unfold Rmin. destruct (Rle_dec _ _); assumption.
Qed.

Lemma b_of_spec (clusters : list (nat * list nat)) (clusterId p : nat) :
  Spec.b_of d clusters clusterId p = fold_left (Spec.b_step d clusterId p) clusters None.
Proof. reflexivity. Qed.

Lemma b_of_ok (clusters : CMap.t) (clusterId p : nat) :
  (p < n)%nat -> Spec.in_range n clusters ->
  Silhouette.b_of dist clusters clusterId p = Some (Spec.ext (Spec.b_of d clusters clusterId p)).
Proof.
  intros Hp H. unfold Silhouette.b_of. rewrite b_of_spec.
  exact (b_loop clusterId p clusters None Hp H).
Qed.

Lemma b_of_nonneg (clusters : list (nat * list nat)) (clusterId p : nat) :
  forall x, Spec.b_of d clusters clusterId p = Some x -> 0 <= x.
Proof. rewrite b_of_spec. apply b_step_nonneg. discriminate. Qed.

Lemma point_ok (clusters : CMap.t) (clusterId : nat) (pts : list nat) (p : nat) :
  (p < n)%nat -> Forall (fun q => (q < n)%nat) pts -> Spec.in_range n clusters ->
  Silhouette.point_silhouette dist clusters clusterId pts p
  = Some (Num (Spec.pointValue (Spec.a_of d p pts) (Spec.b_of d clusters clusterId p))).
Proof.
  intros Hp Hpts Hc. unfold Silhouette.point_silhouette.
  rewrite (a_of_ok p pts Hp Hpts). cbn [bind].
  rewrite (b_of_ok clusters clusterId p Hp Hc). cbn [bind].
  f_equal. apply silhouette_pointValue; [apply a_of_nonneg | apply b_of_nonneg].
Qed.

Lemma pointValues_bounds (clusters : list (nat * list nat)) :
  Forall (fun x => -1 <= x <= 1) (Spec.pointValues d clusters).
Proof.
  unfold Spec.pointValues. apply Forall_flat_map. apply Forall_forall.
  intros [cid pts] _. apply Forall_map. apply Forall_forall. intros p _.
  apply pointValue_bounds; [apply a_of_nonneg | apply b_of_nonneg].
Qed.

(** The inner loop over the points of one cluster. *)
Lemma points_loop (clusters : CMap.t) (clusterId : nat) (pts all : list nat)
      (acc : R) (k : nat) :
  Spec.in_range n clusters -> Forall (fun q => (q < n)%nat) all ->
  Forall (fun q => (q < n)%nat) pts ->
  foldM (fun '(totalSilhouette, totalPoints) pointIdx =>
           s <- Silhouette.point_silhouette dist clusters clusterId all pointIdx ;;
           Some (add totalSilhouette s, S totalPoints))
        pts (Num acc, k)
  = Some (Num (acc + Spec.total
                       (map (fun p => Spec.pointValue (Spec.a_of d p all)
                                                      (Spec.b_of d clusters clusterId p)) pts)),
          (k + length pts)%nat).
Proof.
  intros Hc Hall H. revert acc k. induction H as [|p pts Hp _ IH]; intros acc k.
  - simpl. rewrite Nat.add_0_r. f_equal. f_equal. f_equal. lra.
  - cbn [foldM]. rewrite (point_ok clusters clusterId all p Hp Hall Hc).
    cbn [bind add]. rewrite IH. f_equal. f_equal.
    + f_equal. cbn [map Spec.total fold_right].
      match goal with |- _ = _ + (_ + fold_right Rplus 0 ?l) => fold (Spec.total l) end. lra.
    + simpl. lia.
Qed.

Lemma totals_loop (clusters : CMap.t) (cl : list (nat * list nat)) (acc : R) (k : nat) :
  Spec.in_range n clusters -> Spec.in_range n cl ->
  foldM (fun acc '(clusterId, clusterPoints) =>
           foldM (fun '(totalSilhouette, totalPoints) pointIdx =>
                    s <- Silhouette.point_silhouette dist clusters clusterId
                                                     clusterPoints pointIdx ;;
                    Some (add totalSilhouette s, S totalPoints))
                 clusterPoints acc)
        cl (Num acc, k)
  = Some (Num (acc + Spec.total
                       (flat_map (fun '(clusterId, clusterPoints) =>
                                    map (fun p => Spec.pointValue
                                                    (Spec.a_of d p clusterPoints)
                                                    (Spec.b_of d clusters clusterId p))
                                        clusterPoints) cl)),
          (k + length (flat_map (fun '(clusterId, clusterPoints) =>
                                   map (fun p => Spec.pointValue
                                                   (Spec.a_of d p clusterPoints)
                                                   (Spec.b_of d clusters clusterId p))
                                       clusterPoints) cl))%nat).
Proof.
  intros Hc H. revert acc k. induction H as [|[cid pts] cl Hp _ IH]; intros acc k.
  - simpl. rewrite Nat.add_0_r. f_equal. f_equal. f_equal. lra.
  - cbn [foldM flat_map]. cbn [snd] in Hp.
    rewrite (points_loop clusters cid pts pts acc k Hc Hp Hp). cbn [bind].
    rewrite IH. f_equal. f_equal.
    + f_equal. rewrite total_app. lra.
    + rewrite length_app, length_map. lia.
Qed.

(** The scorer on a cluster map in range returns the specification's score,
    a finite number. *)
Lemma score_ok (clusters : CMap.t) :
  Spec.in_range n clusters ->
  Silhouette.score dist clusters = Some (Num (Spec.silhouetteScore d clusters)).
Proof.
  intros H. unfold Silhouette.score, Spec.silhouetteScore, CMap.keys.
  rewrite length_map.
  destruct (length clusters <=? 1)%nat eqn:E.
  - apply Nat.leb_le in E. replace (length clusters <? 2)%nat with true; [reflexivity|].
    symmetry. apply Nat.ltb_lt. lia.
  - apply Nat.leb_gt in E. replace (length clusters <? 2)%nat with false
      by (symmetry; apply Nat.ltb_ge; lia).
    unfold Silhouette.totals. rewrite (totals_loop clusters clusters 0 0 H H). cbn [bind].
    fold (Spec.pointValues d clusters).
    destruct (Spec.pointValues d clusters) as [|v vs] eqn:Ev.
    + reflexivity.
    + replace (0 <? 0 + length (v :: vs))%nat with true by reflexivity.
      unfold of_nat. rewrite div_Num by (apply not_0_INR; simpl; lia).
      unfold Spec.mean. rewrite Nat.add_0_l, Rplus_0_l. reflexivity.
Qed.

Lemma silhouetteScore_small (clusters : list (nat * list nat)) :
  (length clusters < 2)%nat -> Spec.silhouetteScore d clusters = 0.
Proof.
  intros H. unfold Spec.silhouetteScore.
  apply Nat.ltb_lt in H. now rewrite H.
Qed.

Lemma silhouetteScore_bounds (clusters : list (nat * list nat)) :
  -1 <= Spec.silhouetteScore d clusters <= 1.
Proof.
  unfold Spec.silhouetteScore.
  destruct (length clusters <? 2)%nat; [lra|].
  pose proof (pointValues_bounds clusters) as B.
  destruct (Spec.pointValues d clusters) as [|v vs]; [lra|].
  apply mean_bounds; [discriminate | exact B].
Qed.

End SilhouetteFacts.

(** *** The two scorers *)

Lemma nth_error_vecs (vectors : list (list R)) (p : nat) :
  (p < length vectors)%nat ->
  nth_error (map vec vectors) p = Some (vec (nth p vectors [])).
Proof.
  intros H. rewrite nth_error_map, (nth_error_nth' vectors [] H). reflexivity.
Qed.

Lemma uniform_nth (vectors : list (list R)) (dim p : nat) :
  Forall (fun v => length v = dim) vectors -> (p < length vectors)%nat ->
  length (nth p vectors []) = dim.
Proof.
  intros H Hp. rewrite Forall_forall in H. apply H. now apply nth_In.
Qed.

Lemma cosineDistance_nonneg (vectors : list (list R)) (dim : nat) :
  Forall (fun v => length v = dim) vectors ->
  forall p q, 0 <= Spec.cosineDistance vectors p q.
Proof.
  intros H p q. unfold Spec.cosineDistance.
  destruct (Nat.lt_ge_cases p (length vectors)) as [Hp|Hp];
    [destruct (Nat.lt_ge_cases q (length vectors)) as [Hq|Hq]|].
  - assert (E : length (nth p vectors []) = length (nth q vectors [])).
    { now rewrite (uniform_nth _ dim p H Hp), (uniform_nth _ dim q H Hq). }
    pose proof (cosine_bounds _ _ E). lra.
  - rewrite (nth_overflow vectors [] Hq). unfold Spec.cosine.
    destruct (Req_dec_T _ 0); [lra|].
    destruct (Req_dec_T (Spec.norm []) 0) as [|Hn]; [lra|].
    exfalso. apply Hn. unfold Spec.norm, Spec.dot. simpl. apply sqrt_0.
  - rewrite (nth_overflow vectors [] Hp). unfold Spec.cosine.
    destruct (Req_dec_T (Spec.norm []) 0) as [|Hn]; [lra|].
    exfalso. apply Hn. unfold Spec.norm, Spec.dot. simpl. apply sqrt_0.
Qed.

Lemma route_distAt_vec (vectors : list (list R)) (dim p q : nat) :
  Forall (fun v => length v = dim) vectors ->
  (p < length vectors)%nat -> (q < length vectors)%nat ->
  Route.distAt (map vec vectors) p q = Some (Num (Spec.cosineDistance vectors p q)).
Proof.
  intros H Hp Hq. unfold Route.distAt.
  rewrite !nth_error_vecs by assumption. cbn [bind].
  unfold Route.cosineSimilarityDistance.
  rewrite route_cosine_vec
    by now rewrite (uniform_nth _ dim p H Hp), (uniform_nth _ dim q H Hq).
  reflexivity.
Qed.

Lemma euclid_loop (a b : list R) (n : nat) :
  (n <= length a)%nat -> (n <= length b)%nat ->
  fold_left (fun sum i =>
               let diff := sub (get (vec a) i) (get (vec b) i) in add sum (mul diff diff))
            (seq 0 n) (Num 0)
  = Num (Spec.sum_upto n (fun i => (nth i a 0 - nth i b 0) * (nth i a 0 - nth i b 0))).
Proof.
  induction n as [|n IH]; intros Ha Hb.
  - reflexivity.
  - rewrite seq_S, fold_left_app, IH by lia. simpl.
    rewrite !get_vec by lia. reflexivity.
Qed.

Lemma sum_sq_nonneg (n : nat) (f : nat -> R) : 0 <= Spec.sum_upto n (fun i => f i * f i).
Proof. apply sum_upto_sq_nonneg. Qed.

Lemma utils_euclid_vec (a b : list R) :
  length a = length b ->
  TextAnalysis.euclideanDistance (vec a) (vec b)
  = Num (R_sqrt.sqrt (Spec.sum_upto (length a)
                        (fun i => (nth i a 0 - nth i b 0) * (nth i a 0 - nth i b 0)))).
Proof.
  intros H. unfold TextAnalysis.euclideanDistance.
  rewrite length_vec, euclid_loop by lia.
  apply sqrt_Num. apply (sum_sq_nonneg (length a) (fun i => nth i a 0 - nth i b 0)).
Qed.

Lemma utils_distance_vec (metric : ClusteringAlgorithms.DistanceMetric)
      (vectors : list (list R)) (dim p q : nat) :
  Forall (fun v => length v = dim) vectors ->
  (p < length vectors)%nat -> (q < length vectors)%nat ->
  ClusteringAlgorithms.distanceU metric (nth_error (map vec vectors) p)
                                 (nth_error (map vec vectors) q)
  = Some (Num (Spec.distance metric vectors p q)).
Proof.
  intros H Hp Hq. rewrite !nth_error_vecs by assumption.
  assert (E : length (nth p vectors []) = length (nth q vectors [])).
  { now rewrite (uniform_nth _ dim p H Hp), (uniform_nth _ dim q H Hq). }
  cbn [ClusteringAlgorithms.distanceU].
  destruct metric; cbn [ClusteringAlgorithms.distance Spec.distance].
  - rewrite (utils_euclid_vec _ _ E). reflexivity.
  - rewrite (utils_cosine_vec _ _ E). reflexivity.
Qed.

Lemma distance_nonneg (metric : ClusteringAlgorithms.DistanceMetric)
      (vectors : list (list R)) (dim : nat) :
  Forall (fun v => length v = dim) vectors ->
  forall p q, 0 <= Spec.distance metric vectors p q.
Proof.
  intros H p q. destruct metric; cbn [Spec.distance].
  - apply sqrt_pos.
  - now apply (cosineDistance_nonneg vectors dim).
Qed.

(** The two scorers compute [Spec.silhouetteScore] of their distance. *)
Lemma route_silhouette_spec (vectors : list (list R)) (dim : nat) (clusters : CMap.t) :
  Forall (fun v => length v = dim) vectors ->
  Spec.in_range (length vectors) clusters ->
  Route.calculateSilhouetteScore (map vec vectors) clusters
  = Some (Num (Spec.silhouetteScore (Spec.cosineDistance vectors) clusters)).
Proof.
  intros H Hr. unfold Route.calculateSilhouetteScore.
  apply (score_ok _ _ (length vectors));
    [|now apply (cosineDistance_nonneg vectors dim)|exact Hr].
  intros p q Hp Hq. now apply (route_distAt_vec vectors dim).
Qed.

Lemma utils_silhouette_spec (metric : ClusteringAlgorithms.DistanceMetric)
      (vectors : list (list R)) (dim : nat) (clusters : CMap.t) :
  Forall (fun v => length v = dim) vectors ->
  Spec.in_range (length vectors) clusters ->
  ClusteringAlgorithms.calculateSilhouetteScore (map vec vectors) clusters metric
  = Some (Num (Spec.silhouetteScore (Spec.distance metric vectors) clusters)).
Proof.
  intros H Hr. unfold ClusteringAlgorithms.calculateSilhouetteScore.
  apply (score_ok _ _ (length vectors)); [|now apply (distance_nonneg metric vectors dim)|exact Hr].
  intros p q Hp Hq. now apply (utils_distance_vec metric vectors dim).
Qed.

(** In exact arithmetic, on vectors of reals of one dimension and a
    cluster map whose indices are in range, both scorers return
    [Spec.silhouetteScore]: 0 for fewer than two clusters, otherwise the
    mean over all points of [Spec.pointValue a b]; with distances that are
    not negative that number lies in [-1, 1]. *)
Lemma silhouette_exact (vectors : list (list R)) (dim : nat) (clusters : CMap.t) :
  Forall (fun v => length v = dim) vectors ->
  Spec.in_range (length vectors) clusters ->
  Route.calculateSilhouetteScore (map vec vectors) clusters
  = Some (Num (Spec.silhouetteScore (Spec.cosineDistance vectors) clusters)) /\
  (forall metric,
     ClusteringAlgorithms.calculateSilhouetteScore (map vec vectors) clusters metric
     = Some (Num (Spec.silhouetteScore (Spec.distance metric vectors) clusters))) /\
  (forall metric,
     ((length clusters < 2)%nat ->
      Spec.silhouetteScore (Spec.distance metric vectors) clusters = 0) /\
     -1 <= Spec.silhouetteScore (Spec.distance metric vectors) clusters <= 1).
Proof.
  intros H Hr. split; [|split].
  - now apply (route_silhouette_spec vectors dim).
  - intros metric. now apply (utils_silhouette_spec metric vectors dim).
  - intros metric. split.
    + apply silhouetteScore_small.
    + apply silhouetteScore_bounds. now apply (distance_nonneg metric vectors dim).
Qed.

(** ** The silhouette score in binary64 *)

Section DoubleSilhouette.

Import PrimFloat.
Local Open Scope float_scope.

(** C2.  In binary64 the score of the two vectors [1, 5] and [1, 5], each
    in a cluster of its own, is -Infinity, in both scorers.  The cosine
    distance of the two vectors is -2^-52, not 0.  For either point [a] is
    0, the point being alone in its cluster, and [b] is that negative
    distance: the test [a === 0 && b === 0] fails, [a < b] fails, and the
    last branch divides by [a]: [b / a - 1] is -Infinity.  The same happens
    with the vectors [1, 10] and [5, 50], which are at distance 0 from
    themselves and at distance -2^-52 from each other. *)
Theorem silhouette_minus_infinity :
  Double.Route.calculateSilhouetteScore Double.sameDirection Double.apart
  = Some neg_infinity /\
  Double.ClusteringAlgorithms.calculateSilhouetteScore
    Double.sameDirection Double.apart Double.ClusteringAlgorithms.Cosine
  = Some neg_infinity /\
  Double.Route.distAt Double.sameDirection 0 1 = Some (-0x1p-52) /\
  Double.Silhouette.a_of (Double.Route.distAt Double.sameDirection) 0 [0%nat] = Some 0 /\
  Double.Silhouette.b_of (Double.Route.distAt Double.sameDirection) Double.apart 0 0
  = Some (-0x1p-52) /\
  Double.Silhouette.silhouette 0 (-0x1p-52) = neg_infinity /\
  Double.Route.calculateSilhouetteScore Double.parallel Double.apart = Some neg_infinity /\
  Double.Route.distAt Double.parallel 0 0 = Some 0 /\
  Double.Route.distAt Double.parallel 1 1 = Some 0 /\
  Double.Route.distAt Double.parallel 0 1 = Some (-0x1p-52).
Proof. vm_compute. repeat split. Qed.

End DoubleSilhouette.

(** ** The vectorizer *)

Lemma sum_upto_shift (n : nat) (g : nat -> R) :
  Spec.sum_upto (S n) g = g 0%nat + Spec.sum_upto n (fun i => g (S i)).
Proof.
  induction n as [|n IH].
  - simpl. lra.
  - change (Spec.sum_upto (S (S n)) g) with (Spec.sum_upto (S n) g + g (S n)).
    rewrite IH. simpl. lra.
Qed.

Lemma dot_self_total (l : list R) :
  Spec.dot l l = Spec.total (map (fun x => x * x) l).
Proof.
  unfold Spec.dot. rewrite Nat.min_id.
  induction l as [|x l IH]; [reflexivity|].
  cbn [length]. rewrite sum_upto_shift. cbn [nth map Spec.total fold_right].
  fold (Spec.total (map (fun x : R => x * x) l)). rewrite <- IH. reflexivity.
Qed.

Lemma sumsq_loop (l : list R) (acc : R) :
  fold_left (fun sum val => add sum (mul val val)) (vec l) (Num acc)
  = Num (acc + Spec.total (map (fun x => x * x) l)).
Proof.
  revert acc. induction l as [|x l IH]; intros acc.
  - simpl. f_equal. lra.
  - cbn [vec map fold_left add mul]. fold (vec l). rewrite IH.
    f_equal. cbn [Spec.total fold_right]. fold (Spec.total (map (fun x : R => x * x) l)). lra.
Qed.

Lemma magnitudeOf_vec (l : list R) : Embeddings.magnitudeOf (vec l) = Num (Spec.norm l).
Proof.
  unfold Embeddings.magnitudeOf. rewrite sumsq_loop, Rplus_0_l, <- dot_self_total.
  apply sqrt_Num, dot_self_nonneg.
Qed.

Lemma total_sq_zero (l : list R) :
  Spec.total (map (fun x => x * x) l) = 0 -> l = repeat 0 (length l).
Proof.
  induction l as [|x l IH]; intros H; [reflexivity|].
  cbn [map Spec.total fold_right] in H. fold (Spec.total (map (fun x : R => x * x) l)) in H.
  assert (Hl : 0 <= Spec.total (map (fun x : R => x * x) l)).
  { rewrite <- dot_self_total. apply dot_self_nonneg. }
  assert (Hx : x * x = 0) by nra.
  assert (x = 0) by nra. subst x.
  cbn [length repeat]. f_equal. apply IH. lra.
Qed.

Lemma total_sq_scale (l : list R) (m : R) :
  m <> 0 ->
  Spec.total (map (fun x => x * x) (map (fun x => x / m) l))
  = Spec.total (map (fun x => x * x) l) / (m * m).
Proof.
  intros Hm. induction l as [|x l IH].
  - simpl. unfold Rdiv. now rewrite Rmult_0_l.
  - cbn [map Spec.total fold_right].
    fold (Spec.total (map (fun x : R => x * x) (map (fun x => x / m) l))).
    fold (Spec.total (map (fun x : R => x * x) l)).
    rewrite IH. field. assumption.
Qed.

(** Normalizing a vector of reals gives a vector of norm 1, or leaves the
    zero vector as it is. *)
Lemma normalize_vec (l : list R) :
  (Spec.norm l = 0 /\ l = repeat 0 (length l) /\ Embeddings.normalize (vec l) = vec l) \/
  (Spec.norm l <> 0 /\
   Embeddings.normalize (vec l) = vec (map (fun x => x / Spec.norm l) l) /\
   Spec.norm (map (fun x => x / Spec.norm l) l) = 1).
Proof.
  unfold Embeddings.normalize. rewrite magnitudeOf_vec. unfold gt, JS.lt.
  pose proof (norm_nonneg l) as Hn.
  destruct (Req_dec_T (Spec.norm l) 0) as [Hz|Hz].
  - left. split; [assumption|]. split.
    + apply total_sq_zero. rewrite <- dot_self_total. now apply norm_zero_iff.
    + rewrite Rltb_false by lra. reflexivity.
  - right. split; [assumption|]. rewrite Rltb_true by lra. split.
    + unfold vec. rewrite !map_map. apply map_ext. intros x. now apply div_Num.
    + unfold Spec.norm at 1. rewrite dot_self_total, total_sq_scale by assumption.
      rewrite <- dot_self_total, <- norm_sq.
      replace (Spec.norm l * Spec.norm l / (Spec.norm l * Spec.norm l)) with 1
        by (field; assumption).
      apply sqrt_1.
Qed.

Lemma finite_vec (v : vector) : Forall is_finite v -> exists l, v = vec l.
Proof.
  induction 1 as [|x v [r ->] _ [l ->]].
  - now exists [].
  - now exists (r :: l).
Qed.

Lemma length_array_set {A : Type} (i : nat) (x : A) (l : list A) :
  length (array_set i x l) = length l.
Proof.
  revert i. induction l as [|y l IH]; intros [|i]; simpl; auto.
Qed.

Lemma Forall_array_set {A : Type} (P : A -> Prop) (i : nat) (x : A) (l : list A) :
  P x -> Forall P l -> Forall P (array_set i x l).
Proof.
  intros Hx H. revert i.
  induction H as [|y l Hy Hl IH]; intros [|i]; simpl; try constructor; auto.
Qed.

Lemma finite_div_nat (k : nat) (c : R) : c <> 0 -> is_finite (div (of_nat k) (Num c)).
Proof. intros H. unfold of_nat. rewrite div_Num by assumption. eexists; reflexivity. Qed.

Lemma finite_clip (k : nat) : is_finite (JS.min (Num 1) (div (of_nat k) (Num 5))).
Proof.
  unfold of_nat. rewrite div_Num by lra. cbn [JS.min JS.lt].
  destruct (Rltb (INR k / 5) 1); eexists; reflexivity.
Qed.

Lemma finite_ratio (words : list string) :
  is_finite (or_default (div (of_nat (setSize words)) (of_nat (length words))) (Num 0)).
Proof.
  unfold of_nat, div.
  destruct (Reqb (INR (length words)) 0) eqn:E.
  - unfold Reqb in E. destruct (Req_dec_T (INR (length words)) 0) as [Hz|]; [|discriminate].
    change 0 with (INR 0) in Hz. apply INR_eq in Hz. destruct words; [|discriminate].
    unfold setSize. simpl. unfold sign.
    destruct (Rlt_dec 0 0); [lra|]. simpl. eexists; reflexivity.
  - unfold or_default. destruct (Reqb (_ / _) 0); eexists; reflexivity.
Qed.

Lemma finite_log_length (doc : string) :
  is_finite (div (log (of_nat (String.length doc + 1))) (Num 10)).
Proof.
  unfold of_nat, log.
  assert (H : 0 < INR (String.length doc + 1)) by (apply lt_0_INR; lia).
  rewrite Rltb_false, Reqb_false by lra.
  rewrite div_Num by lra. eexists; reflexivity.
Qed.

Section EmbeddingFacts.

Variable js : StringBuiltins.

Lemma put_inv (st : vector * nat) (x : number) :
  Inv.features st -> is_finite x -> Inv.features (Embeddings.put st x).
Proof.
  intros [Hl Hf] Hx. destruct st as [v i]. unfold Embeddings.put, Inv.features. cbn [fst] in *.
  split; [now rewrite length_array_set | now apply Forall_array_set].
Qed.

Lemma basicFeatures_finite (doc : string) (words : list string) :
  Forall is_finite (Embeddings.basicFeatures js doc words).
Proof.
  unfold Embeddings.basicFeatures.
  repeat (apply Forall_cons; [first [ apply finite_log_length | apply finite_ratio
                                    | apply finite_div_nat; lra ] |]).
  apply Forall_nil.
Qed.

Lemma fold_put_inv (xs : list number) (st : vector * nat) :
  Inv.features st -> Forall is_finite xs -> Inv.features (fold_left Embeddings.put xs st).
Proof.
  intros Hst H. revert st Hst. induction H as [|x xs Hx _ IH]; intros st Hst; simpl.
  - assumption.
  - apply IH. now apply put_inv.
Qed.

Lemma topicFeatures_inv (doc : string) (st : vector * nat) :
  Inv.features st -> Inv.features (Embeddings.topicFeatures js doc st).
Proof.
  unfold Embeddings.topicFeatures. generalize Embeddings.topicPatterns as l.
  intros l. revert st. induction l as [|[topic patterns] l IH]; intros st Hst; cbn [fold_left].
  - assumption.
  - apply IH. destruct (30 <=? snd st)%nat; [assumption|].
    apply put_inv; [assumption | apply finite_clip].
Qed.

Lemma relationFeatures_inv (doc : string) (st : vector * nat) :
  Inv.features st -> Inv.features (Embeddings.relationFeatures doc st).
Proof.
  unfold Embeddings.relationFeatures. generalize Embeddings.semanticRelationships as l.
  intros l. revert st. induction l as [|[concept related] l IH]; intros st Hst; cbn [fold_left].
  - assumption.
  - apply IH. destruct (50 <=? snd st)%nat; [assumption|].
    apply put_inv; [assumption | apply finite_clip].
Qed.

Lemma features_inv_features (doc : string) :
  length (Embeddings.features js doc) = 50%nat /\
  Forall is_finite (Embeddings.features js doc).
Proof.
  unfold Embeddings.features.
  apply relationFeatures_inv, topicFeatures_inv, fold_put_inv;
    [|apply basicFeatures_finite].
  split; cbn [fst].
  - apply repeat_length.
  - apply Forall_forall. intros x Hx. apply repeat_spec in Hx. subst. now exists 0.
Qed.

Lemma embeddings_map (documents : list string) (acc : list vector) :
  fold_left (fun embeddings doc =>
               embeddings ++ [Embeddings.normalize (Embeddings.features js doc)])
            documents acc
  = acc ++ map (fun doc => Embeddings.normalize (Embeddings.features js doc)) documents.
Proof.
  revert acc. induction documents as [|doc docs IH]; intros acc; simpl.
  - now rewrite app_nil_r.
  - rewrite IH, <- app_assoc. reflexivity.
Qed.

End EmbeddingFacts.

(** C3.  Whatever the string built-ins return, the vectorizer gives one
    vector per document, in order: the normalized features of the document.
    That vector has 50 finite components, and it either has L2 norm 1, or all
    the features of the document are 0 and the vector is the zero vector. *)
Theorem generateSemanticEmbeddings_correct (js : StringBuiltins) (documents : list string) :
  Embeddings.generateSemanticEmbeddings js documents
  = map (fun doc => Embeddings.normalize (Embeddings.features js doc)) documents /\
  length (Embeddings.generateSemanticEmbeddings js documents) = length documents /\
  forall doc : string,
    exists l : list R,
      Embeddings.normalize (Embeddings.features js doc) = vec l /\
      length l = 50%nat /\
      ((Embeddings.features js doc <> repeat (Num 0) 50 /\ Spec.norm l = 1) \/
       (Embeddings.features js doc = repeat (Num 0) 50 /\ l = repeat 0 50)).
Proof.
  unfold Embeddings.generateSemanticEmbeddings. rewrite embeddings_map. cbn [app].
  split; [reflexivity|]. split; [apply length_map|].
  intros doc.
  destruct (features_inv_features js doc) as [Hlen Hfin].
  destruct (finite_vec _ Hfin) as [f Hf].
  assert (Hlf : length f = 50%nat) by now rewrite <- Hlen, Hf, length_vec.
  rewrite Hf.
  destruct (normalize_vec f) as [(Hz & Hrep & Hn) | (Hnz & Hn & H1)].
  - exists f. rewrite Hn. split; [reflexivity|]. split; [assumption|].
    right. rewrite Hlf in Hrep. split; [|assumption].
    rewrite Hrep. unfold vec. now rewrite map_repeat.
  - exists (map (fun x => x / Spec.norm f) f). rewrite Hn.
    split; [reflexivity|]. split; [now rewrite length_map|].
    left. split; [|assumption].
    intros E. apply Hnz.
    assert (Ef : f = repeat 0 50).
    { unfold vec in E. replace (repeat (Num 0) 50) with (map Num (repeat 0 50)) in E
        by apply map_repeat.
      revert E. generalize (repeat 0 50) as g. clear. induction f as [|x f IH]; intros [|y g] E;
        try discriminate; [reflexivity|].
      cbn [map] in E. injection E as -> E. f_equal. now apply IH. }
    apply norm_zero_iff. rewrite dot_self_total, Ef. simpl. lra.
Qed.

(** ** Labels *)

Lemma last_char_append (s t : string) :
  t <> EmptyString -> Spec.last_char (s ++ t)%string = Spec.last_char t.
Proof.
  intros Ht. induction s as [|c s IH]; [reflexivity|].
  change (String c s ++ t)%string with (String c (s ++ t)%string).
  destruct (s ++ t)%string as [|c' r] eqn:E.
  - destruct s; simpl in E; [exfalso; exact (Ht E) | discriminate E].
  - rewrite <- IH. reflexivity.
Qed.

Lemma suffixed_not_plain (l : string) (c : nat) : ~ Spec.plain (Labels.suffixed l c).
Proof.
  unfold Spec.plain, Labels.suffixed. intros H. apply H.
  assert (Hd : (decimal c ++ ")")%string <> EmptyString)
    by (destruct (decimal c); discriminate).
  rewrite last_char_append by (simpl; discriminate).
  rewrite last_char_append by exact Hd.
  rewrite last_char_append by discriminate.
  reflexivity.
Qed.

Lemma chars_append (s t : string) :
  list_ascii_of_string (s ++ t) = list_ascii_of_string s ++ list_ascii_of_string t.
Proof. induction s as [|c s IH]; simpl; [reflexivity | now rewrite IH]. Qed.

Lemma chars_inj (s t : string) : list_ascii_of_string s = list_ascii_of_string t -> s = t.
Proof.
  intros H. rewrite <- (string_of_list_ascii_of_string s), <- (string_of_list_ascii_of_string t).
  now rewrite H.
Qed.

Lemma decimal_digits (d : Decimal.uint) :
  Forall (fun c => c <> "("%char) (list_ascii_of_string (NilEmpty.string_of_uint d)).
Proof. induction d; simpl; constructor; try discriminate; assumption. Qed.

Lemma decimal_inj (n m : nat) : decimal n = decimal m -> n = m.
Proof.
  unfold decimal. intros H. apply DecimalNat.Unsigned.to_uint_inj.
  pose proof (NilEmpty.usu (Nat.to_uint n)) as Hn.
  pose proof (NilEmpty.usu (Nat.to_uint m)) as Hm.
  rewrite H in Hn. rewrite Hn in Hm. now injection Hm.
Qed.

Lemma before_paren_inj (d1 d2 r1 r2 : list ascii) :
  Forall (fun c => c <> "("%char) d1 -> Forall (fun c => c <> "("%char) d2 ->
  d1 ++ "("%char :: r1 = d2 ++ "("%char :: r2 -> d1 = d2 /\ r1 = r2.
Proof.
  intros H1. revert d2. induction H1 as [|c d1 Hc _ IH]; intros d2 H2 E.
  - destruct H2 as [|c' d2 Hc' _]; simpl in E.
    + injection E as E. now split.
    + injection E as E _. now symmetry in E.
  - destruct H2 as [|c' d2 Hc' H2]; simpl in E.
    + injection E as E _. contradiction.
    + injection E as -> E. destruct (IH d2 H2 E) as [-> ->]. now split.
Qed.

Lemma suffixed_inj (l l' : string) (c c' : nat) :
  Labels.suffixed l c = Labels.suffixed l' c' -> l = l' /\ c = c'.
Proof.
  unfold Labels.suffixed. intros E.
  apply (f_equal list_ascii_of_string) in E. rewrite !chars_append in E.
  apply (f_equal (@rev ascii)) in E. rewrite !rev_app_distr in E.
  cbn [list_ascii_of_string rev app] in E.
  injection E as E.
  rewrite <- !app_assoc in E. cbn [app] in E.
  apply before_paren_inj in E.
  - destruct E as [Ed El]. injection El as El.
    apply (f_equal (@rev ascii)) in Ed, El. rewrite !rev_involutive in Ed, El.
    split; [now apply chars_inj | apply decimal_inj; now apply chars_inj].
  - apply Forall_rev, decimal_digits.
  - apply Forall_rev, decimal_digits.
Qed.

Lemma countOf_setCount (l k : string) (c : nat) (counts : list (string * nat)) :
  Labels.countOf l (Labels.setCount k c counts)
  = if String.eqb l k then c else Labels.countOf l counts.
Proof.
  induction counts as [|[k' m] counts IH]; cbn [Labels.setCount Labels.countOf].
  - reflexivity.
  - destruct (String.eqb k k') eqn:Ek; cbn [Labels.countOf].
    + apply String.eqb_eq in Ek. subst k'. destruct (String.eqb l k); reflexivity.
    + destruct (String.eqb l k') eqn:El.
      * apply String.eqb_eq in El. subst k'. rewrite String.eqb_sym, Ek. reflexivity.
      * exact IH.
Qed.

(** The pass computes the relabelling of the specification. *)
Lemma uniqueLabels_loop (summaries : list (nat * Labels.Summary))
      (counts : list (string * nat)) (out : list (nat * Labels.Summary)) (seen : list string) :
  (forall l, Labels.countOf l counts = count_occ string_dec seen l) ->
  map (fun e => Labels.label (snd e))
      (snd (fold_left Labels.uniqueStep summaries (counts, out)))
  = map (fun e => Labels.label (snd e)) out
    ++ Spec.relabel seen (map (fun e => Labels.labelOrName (snd e)) summaries)
  \/ exists e, In e summaries /\ Labels.labelOrName (snd e) <> Labels.label (snd e).
Proof.
  revert counts out seen.
  induction summaries as [|[id s] summaries IH]; intros counts out seen Hc.
  - left. simpl. now rewrite app_nil_r.
  - destruct (string_dec (Labels.labelOrName s) (Labels.label s)) as [El|Hne];
      [|right; exists (id, s); split; [now left | exact Hne]].
    cbn [fold_left Labels.uniqueStep map snd Spec.relabel].
    rewrite <- (Hc (Labels.labelOrName s)).
    destruct (Labels.countOf (Labels.labelOrName s) counts) as [|c] eqn:Ec.
    + cbn [Nat.ltb Nat.leb Nat.eqb].
      destruct (IH (Labels.setCount (Labels.labelOrName s) 1 counts) (out ++ [(id, s)])
                   (Labels.labelOrName s :: seen)) as [E | (e & He & Hn)].
      * intros l. rewrite countOf_setCount. cbn [count_occ].
        destruct (string_dec (Labels.labelOrName s) l) as [<-|Hd].
        -- rewrite String.eqb_refl, <- Hc, Ec. reflexivity.
        -- rewrite (proj2 (String.eqb_neq l _)) by congruence. apply Hc.
      * left. rewrite E, map_app, <- app_assoc. cbn [map snd app]. now rewrite El.
      * right. exists e. split; [now right | exact Hn].
    + replace (0 <? S c)%nat with true by reflexivity.
      replace (S c =? 0)%nat with false by reflexivity.
      destruct (IH (Labels.setCount (Labels.labelOrName s) (S (S c)) counts)
                   (out ++ [(id, Labels.mkSummary
                                    (Labels.suffixed (Labels.name s) (S (S c)))
                                    (Labels.suffixed (Labels.labelOrName s) (S (S c)))
                                    (Labels.size s) (Labels.topTerms s) (Labels.description s))])
                   (Labels.labelOrName s :: seen)) as [E | (e & He & Hn)].
      * intros l. rewrite countOf_setCount. cbn [count_occ].
        destruct (string_dec (Labels.labelOrName s) l) as [<-|Hd].
        -- rewrite String.eqb_refl, <- Hc, Ec. reflexivity.
        -- rewrite (proj2 (String.eqb_neq l _)) by congruence. apply Hc.
      * left. rewrite E, map_app, <- app_assoc. reflexivity.
      * right. exists e. split; [now right | exact Hn].
Qed.

(** The relabelling of plain labels has no duplicate. *)
Lemma relabel_spec (seen labels : list string) (x : string) :
  Forall Spec.plain labels ->
  In x (Spec.relabel seen labels) ->
  (Spec.plain x -> In x labels /\ count_occ string_dec seen x = 0%nat) /\
  (forall l c, x = Labels.suffixed l c ->
               In l labels /\ (count_occ string_dec seen l < c)%nat).
Proof.
  intros H. revert seen. induction H as [|l labels Hl Hrest IH]; intros seen Hx;
    [contradiction|].
  cbn [Spec.relabel] in Hx. destruct Hx as [Hx|Hx].
  - destruct (count_occ string_dec seen l =? 0)%nat eqn:E.
    + apply Nat.eqb_eq in E. subst x. split.
      * intros _. split; [now left | exact E].
      * intros l' c' Hs. exfalso. apply (suffixed_not_plain l' c'). now rewrite <- Hs.
    + apply Nat.eqb_neq in E. subst x. split.
      * intros Hp. exfalso. now apply (suffixed_not_plain l (S (count_occ string_dec seen l))).
      * intros l' c' Hs. apply suffixed_inj in Hs. destruct Hs as [<- <-].
        split; [now left | lia].
  - destruct (IH (l :: seen) Hx) as [Hp Hs]. split.
    + intros Px. destruct (Hp Px) as [Hin Hc]. split; [now right|].
      cbn [count_occ] in Hc. destruct (string_dec l x); [discriminate Hc | exact Hc].
    + intros l' c' E. destruct (Hs l' c' E) as [Hin Hc]. split; [now right|].
      cbn [count_occ] in Hc. destruct (string_dec l l'); lia.
Qed.

Lemma relabel_NoDup (seen labels : list string) :
  Forall Spec.plain labels -> NoDup (Spec.relabel seen labels).
Proof.
  intros H. revert seen. induction H as [|l labels Hl Hrest IH]; intros seen.
  - constructor.
  - cbn [Spec.relabel]. constructor; [|apply IH].
    intros Hin. destruct (relabel_spec _ _ _ Hrest Hin) as [Hp Hs].
    destruct (count_occ string_dec seen l =? 0)%nat eqn:E.
    + destruct (Hp Hl) as [_ Hc]. cbn [count_occ] in Hc.
      destruct (string_dec l l); [discriminate Hc | contradiction].
    + destruct (Hs l (S (count_occ string_dec seen l)) Logic.eq_refl) as [_ Hc].
      cbn [count_occ] in Hc. destruct (string_dec l l); [lia | contradiction].
Qed.

(** The labels that [generateClusterLabel] returns are plain. *)
Lemma insertDesc_In {A : Type} (e x : A * nat) (l : list (A * nat)) :
  In x (Labels.insertDesc e l) -> x = e \/ In x l.
Proof.
  induction l as [|e' l IH]; simpl.
  - intros [->|[]]. now left.
  - destruct (snd e' <=? snd e)%nat; simpl.
    + intros [->|[->|H]]; [now left | right; now left | right; now right].
    + intros [->|H]; [right; now left|].
      destruct (IH H) as [->|H']; [now left | right; now right].
Qed.

Lemma sortDesc_In {A : Type} (x : A * nat) (l : list (A * nat)) :
  In x (Labels.sortDesc l) -> In x l.
Proof.
  unfold Labels.sortDesc. induction l as [|e l IH]; simpl; [auto|].
  intros H. apply insertDesc_In in H. destruct H as [->|H]; [now left | right; auto].
Qed.

Lemma catalogue_plain :
  Forall (fun e => Spec.plain (Labels.categoryLabel (snd e))) Labels.categories.
Proof. unfold Labels.categories, Spec.plain. repeat constructor; discriminate. Qed.

Section LabelFacts.

Variable js : StringBuiltins.

Lemma categoryScores_In (combinedText : string) (topTerms : list string)
      (allTerms : list (string * nat)) (c : Labels.Category) (score : nat) :
  In (c, score) (Labels.categoryScores js combinedText topTerms allTerms) ->
  In c (map snd Labels.categories).
Proof.
  unfold Labels.categoryScores.
  assert (G : forall (l : list (string * Labels.Category))
                    (acc : list (Labels.Category * nat)),
             In (c, score)
                (fold_left (fun scores '(category, c0) =>
                              let score0 :=
                                Labels.categoryScore js combinedText topTerms allTerms
                                                     (Labels.keywords c0) in
                              if (0 <? score0)%nat then scores ++ [(c0, score0)] else scores)
                           l acc) ->
             In (c, score) acc \/ In c (map snd l)).
  { induction l as [|[cat c0] l IH]; intros acc H; cbn [fold_left] in H; [now left|].
    apply IH in H. destruct H as [H|H]; [|right; now right].
    destruct (0 <? _)%nat; [|now left].
    apply in_app_or in H. destruct H as [H|[H|[]]]; [now left|].
    injection H as -> _. right. now left. }
  intros H. apply G in H. destruct H as [[]|H]. exact H.
Qed.

Lemma generateClusterLabel_plain (clusterTexts topTerms : list string)
      (allTerms : list (string * nat)) :
  Spec.plain (Labels.generateClusterLabel js clusterTexts topTerms allTerms).
Proof.
  unfold Labels.generateClusterLabel.
  set (fallback := if (0 <? length _)%nat then _ else _).
  assert (Hf : Spec.plain fallback).
  { unfold fallback, Spec.plain. destruct (0 <? _)%nat.
    - rewrite last_char_append by discriminate. discriminate.
    - discriminate. }
  destruct (Labels.sortDesc _) as [|[c score] rest] eqn:E; [exact Hf|].
  destruct (0 <? score)%nat; [|exact Hf].
  assert (Hin : In (c, score) (Labels.sortDesc
            (Labels.categoryScores js
               (toLowerCase js (String.concat " " clusterTexts)) topTerms allTerms))).
  { rewrite E. now left. }
  apply sortDesc_In, categoryScores_In, in_map_iff in Hin.
  destruct Hin as ([cat c'] & Ec & Hin). cbn [snd] in Ec. subst c'.
  pose proof catalogue_plain as P. rewrite Forall_forall in P. exact (P _ Hin).
Qed.

End LabelFacts.

(** C9.  Whatever the clusters are, the labels of the summaries that the
    unique-label pass returns are those of [Spec.relabel] (the first
    occurrence of a label is kept, every later one gets its running count
    appended) and they are pairwise distinct.  Each cluster is given by its
    id and the arguments of [generateClusterLabel], with its size. *)
Theorem unique_labels (js : StringBuiltins)
        (inputs : list (nat * (list string * list string * list (string * nat) * nat))) :
  let summaries :=
    map (fun '(clusterId, (clusterTexts, topTerms, allTerms, n)) =>
           (clusterId,
            Labels.summaryOf js (Labels.generateClusterLabel js clusterTexts topTerms allTerms)
                             n topTerms))
        inputs in
  map (fun e => Labels.label (snd e)) (Labels.uniqueLabels summaries)
  = Spec.relabel [] (map (fun e => Labels.label (snd e)) summaries) /\
  NoDup (map (fun e => Labels.label (snd e)) (Labels.uniqueLabels summaries)).
Proof.
  intros summaries.
  assert (Hplain : Forall (fun e => Spec.plain (Labels.label (snd e))) summaries).
  { unfold summaries. apply Forall_map. apply Forall_forall.
    intros [id [[[texts terms] all] n]] _. cbn [snd Labels.summaryOf Labels.label].
    apply generateClusterLabel_plain. }
  assert (Hlab : forall e, In e summaries -> Labels.labelOrName (snd e) = Labels.label (snd e)).
  { unfold summaries. intros e He. apply in_map_iff in He.
    destruct He as ([id [[[texts terms] all] n]] & <- & _).
    cbn [snd]. unfold Labels.labelOrName, Labels.summaryOf. cbn [Labels.label Labels.name].
    destruct (String.eqb _ _) eqn:E; [|reflexivity].
    apply String.eqb_eq in E. now rewrite E. }
  assert (E : map (fun e => Labels.label (snd e)) (Labels.uniqueLabels summaries)
              = Spec.relabel [] (map (fun e => Labels.label (snd e)) summaries)).
  { unfold Labels.uniqueLabels.
    destruct (uniqueLabels_loop summaries [] [] []) as [E | (e & He & Hn)].
    - intros l. reflexivity.
    - rewrite E. cbn [map app]. f_equal. apply map_ext_in. intros e He. now apply Hlab.
    - exfalso. apply Hn. now apply Hlab. }
  split; [exact E|].
  rewrite E. apply relabel_NoDup. now apply Forall_map.
Qed.

(** ** Empty input *)

(** C5.  On an empty list of vectors [kMeansClustering] and
    [dbscanClustering] return a result (they do not throw) whose cluster map
    is empty and whose silhouette score is 0, whatever the other
    arguments. *)
Theorem empty_input_result (rand : nat -> R) (k maxIterations minPoints : nat)
        (epsilon : number) (metric : ClusteringAlgorithms.DistanceMetric) :
  (exists r, ClusteringAlgorithms.kMeansClustering rand [] k maxIterations metric = Some r /\
             ClusteringAlgorithms.clusters r = CMap.empty /\
             ClusteringAlgorithms.silhouetteScore r = Num 0 /\
             ClusteringAlgorithms.algorithm r = "K-means"%string) /\
  (exists r, ClusteringAlgorithms.dbscanClustering [] epsilon minPoints metric = Some r /\
             ClusteringAlgorithms.clusters r = CMap.empty /\
             ClusteringAlgorithms.silhouetteScore r = Num 0 /\
             ClusteringAlgorithms.algorithm r = "DBSCAN"%string).
Proof.
  split; eexists; (split; [reflexivity|]); repeat split.
Qed.

(** The engines of route.ts on the same input: [runDBSCAN] returns the
    empty result, [runKMeans] throws when it copies the vector of index 0;
    POST never calls them with fewer than two documents. *)
Lemma route_empty_input (rand : nat -> R) (k maxIterations minPts : nat) (eps : number) :
  Route.runKMeans rand [] k maxIterations = None /\
  Route.runDBSCAN [] eps minPts = Some (Route.mkResult CMap.empty [] (Num 0) None).
Proof.
  split.
  - unfold Route.runKMeans. cbn [length]. destruct (0 <? k)%nat;
      unfold Route.randomIndex; cbn [INR]; rewrite Rmult_0_r;
      change 0 with (IZR 0); rewrite ZfloorZ; reflexivity.
  - reflexivity.
Qed.

(** ** Cluster maps *)

Lemma lookup_set_eq (k : nat) (v : list nat) (m : CMap.t) :
  CMap.lookup k (CMap.set k v m) = Some v.
Proof.
  induction m as [|[k' v'] m IH]; cbn [CMap.set CMap.lookup].
  - now rewrite Nat.eqb_refl.
  - destruct (k <? k')%nat eqn:Hlt; cbn [CMap.lookup].
    + now rewrite Nat.eqb_refl.
    + destruct (k =? k')%nat eqn:He; cbn [CMap.lookup].
      * now rewrite Nat.eqb_refl.
      * rewrite He. exact IH.
Qed.

Lemma lookup_set_ne (k k' : nat) (v : list nat) (m : CMap.t) :
  k <> k' -> CMap.lookup k' (CMap.set k v m) = CMap.lookup k' m.
Proof.
  intros Hne. induction m as [|[k0 v0] m IH]; cbn [CMap.set CMap.lookup].
  - now rewrite (proj2 (Nat.eqb_neq k' k)) by congruence.
  - destruct (k <? k0)%nat eqn:Hlt; cbn [CMap.lookup].
    + now rewrite (proj2 (Nat.eqb_neq k' k)) by congruence.
    + destruct (k =? k0)%nat eqn:He; cbn [CMap.lookup].
      * apply Nat.eqb_eq in He. subst k0.
        now rewrite !(proj2 (Nat.eqb_neq k' k)) by congruence.
      * destruct (k' =? k0)%nat; [reflexivity | exact IH].
Qed.

Lemma in_range_set (n k : nat) (v : list nat) (m : CMap.t) :
  Forall (fun p => (p < n)%nat) v -> Spec.in_range n m -> Spec.in_range n (CMap.set k v m).
Proof.
  intros Hv H. unfold Spec.in_range in *.
  induction H as [|[k' v'] m Hk Hm IH]; cbn [CMap.set].
  - constructor; [exact Hv | constructor].
  - destruct (k <? k')%nat; [constructor; [exact Hv | now constructor]|].
    destruct (k =? k')%nat; constructor; assumption.
Qed.

Lemma in_range_lookup (n k : nat) (v : list nat) (m : CMap.t) :
  Spec.in_range n m -> CMap.lookup k m = Some v -> Forall (fun p => (p < n)%nat) v.
Proof.
  unfold Spec.in_range. induction 1 as [|[k' v'] m Hk _ IH]; cbn [CMap.lookup].
  - discriminate.
  - destruct (k =? k')%nat; [intros [= <-]; exact Hk | exact IH].
Qed.

Lemma push_ok (n k x : nat) (v : list nat) (m : CMap.t) :
  CMap.lookup k m = Some v -> CMap.push k x m = Some (CMap.set k (v ++ [x]) m).
Proof. intros H. unfold CMap.push. now rewrite H. Qed.

Lemma init_S (k : nat) : CMap.init (S k) = CMap.set k [] (CMap.init k).
Proof. unfold CMap.init. now rewrite seq_S, fold_left_app. Qed.

Lemma lookup_init (k i : nat) :
  CMap.lookup i (CMap.init k) = if (i <? k)%nat then Some [] else None.
Proof.
  induction k as [|k IH].
  - reflexivity.
  - rewrite init_S. destruct (Nat.eq_dec k i) as [->|Hne].
    + rewrite lookup_set_eq. now rewrite (proj2 (Nat.ltb_lt i (S i))) by lia.
    + rewrite lookup_set_ne, IH by assumption.
      destruct (i <? k)%nat eqn:E1, (i <? S k)%nat eqn:E2; try reflexivity;
        [apply Nat.ltb_lt in E1; apply Nat.ltb_ge in E2 |
         apply Nat.ltb_ge in E1; apply Nat.ltb_lt in E2]; lia.
Qed.

Lemma in_range_init (n k : nat) : Spec.in_range n (CMap.init k).
Proof.
  induction k as [|k IH]; [constructor|].
  rewrite init_S. apply in_range_set; [constructor | exact IH].
Qed.

Lemma indexed_In {A : Type} (l : list A) (i : nat) (x : A) :
  In (i, x) (indexed l) -> (i < length l)%nat /\ nth_error l i = Some x.
Proof.
  unfold indexed. intros H.
  assert (G : forall (s : nat) (l : list A),
             In (i, x) (combine (seq s (length l)) l) ->
             (s <= i < s + length l)%nat /\ nth_error l (i - s) = Some x).
  { clear. intros s l. revert s. induction l as [|y l IH]; intros s H; [contradiction|].
    cbn [length seq combine] in H. destruct H as [H|H].
    - injection H as -> ->. rewrite Nat.sub_diag. cbn [length]. split; [lia | reflexivity].
    - apply IH in H. destruct H as [Hr Hn]. cbn [length]. split; [lia|].
      replace (i - s)%nat with (S (i - S s)) by lia. exact Hn. }
  apply G in H. rewrite Nat.sub_0_r in H. destruct H as [Hr Hn]. split; [lia | exact Hn].
Qed.

Lemma foldM_inv {A B : Type} (P : A -> Prop) (f : A -> B -> option A) (l : list B) (a : A) :
  P a ->
  (forall a x, In x l -> P a -> exists a', f a x = Some a' /\ P a') ->
  exists a', foldM f l a = Some a' /\ P a'.
Proof.
  revert a. induction l as [|x l IH]; intros a Ha H.
  - exists a. now split.
  - destruct (H a x (or_introl Logic.eq_refl) Ha) as (a1 & E & Ha1).
    cbn [foldM]. rewrite E. cbn [bind]. apply IH; [exact Ha1|].
    intros a2 y Hy. apply H. now right.
Qed.

Lemma fold_left_inv {A B : Type} (P : A -> Prop) (f : A -> B -> A) (l : list B) (a : A) :
  P a -> (forall a x, In x l -> P a -> P (f a x)) -> P (fold_left f l a).
Proof.
  revert a. induction l as [|x l IH]; intros a Ha H; cbn [fold_left]; [exact Ha|].
  apply IH; [apply H; [now left | exact Ha]|].
  intros a2 y Hy. apply H. now right.
Qed.

(** Writing an existing key of a map whose keys are [s, s+1, ...] replaces
    its entry in place. *)
Lemma set_existing (j : nat) (m : CMap.t) (s len : nat) :
  CMap.keys m = seq s len -> (s <= j < s + len)%nat ->
  exists m1 pts m2,
    m = m1 ++ (j, pts) :: m2 /\ CMap.lookup j m = Some pts /\
    forall v, CMap.set j v m = m1 ++ (j, v) :: m2.
Proof.
  revert s len. induction m as [|[k' v'] m IH]; intros s len Hk Hj.
  - destruct len; [lia | discriminate].
  - destruct len as [|len]; [discriminate|].
    cbn [CMap.keys map fst seq] in Hk. injection Hk as -> Hk.
    cbn [CMap.set CMap.lookup].
    destruct (j <? s)%nat eqn:E1; [apply Nat.ltb_lt in E1; lia|].
    destruct (j =? s)%nat eqn:E2.
    + apply Nat.eqb_eq in E2. subst j. exists [], v', m. repeat split.
    + apply Nat.eqb_neq in E2.
      destruct (IH (S s) len Hk) as (m1 & pts & m2 & -> & Hl & E); [lia|].
      exists ((s, v') :: m1), pts, m2. cbn [app]. repeat split; [exact Hl|].
      intros v. now rewrite E.
Qed.

Lemma keys_app (m1 m2 : CMap.t) : CMap.keys (m1 ++ m2) = CMap.keys m1 ++ CMap.keys m2.
Proof. apply map_app. Qed.

Lemma flat_app (m1 m2 : CMap.t) : CMap.flat (m1 ++ m2) = CMap.flat m1 ++ CMap.flat m2.
Proof. unfold CMap.flat, CMap.values. now rewrite map_app, concat_app. Qed.

Lemma flat_cons (j : nat) (pts : list nat) (m : CMap.t) :
  CMap.flat ((j, pts) :: m) = pts ++ CMap.flat m.
Proof. reflexivity. Qed.

Lemma lookup_keys_seq (m : CMap.t) (k i : nat) :
  CMap.keys m = seq 0 k -> (i < k)%nat -> exists pts, CMap.lookup i m = Some pts.
Proof.
  intros Hk Hi.
  destruct (set_existing i m 0 k Hk) as (m1 & pts & m2 & _ & Hl & _); [lia|].
  now exists pts.
Qed.

Lemma lookup_keys_none (m : CMap.t) (k i : nat) :
  CMap.keys m = seq 0 k -> (k <= i)%nat -> CMap.lookup i m = None.
Proof.
  intros Hk Hi.
  assert (Hn : ~ In i (CMap.keys m)) by (rewrite Hk, in_seq; lia).
  clear Hk. induction m as [|[k' v'] m IH]; [reflexivity|].
  cbn [CMap.keys map fst] in Hn. cbn [CMap.lookup].
  rewrite (proj2 (Nat.eqb_neq i k')) by (intros ->; apply Hn; now left).
  apply IH. intros Hin. apply Hn. now right.
Qed.

Lemma init_keys (k : nat) : CMap.keys (CMap.init k) = seq 0 k.
Proof.
  induction k as [|k IH]; [reflexivity|].
  rewrite init_S, seq_S. cbn [Nat.add].
  assert (G : forall m : CMap.t,
             Forall (fun i => (i < k)%nat) (CMap.keys m) ->
             CMap.set k [] m = m ++ [(k, [])]).
  { induction m as [|[k' v'] m IHm]; intros H; [reflexivity|].
    cbn [CMap.keys map fst] in H. inversion H as [|? ? Hk' Hm]; subst.
    cbn [CMap.set].
    rewrite (proj2 (Nat.ltb_ge k k')) by lia.
    rewrite (proj2 (Nat.eqb_neq k k')) by lia.
    cbn [app]. f_equal. now apply IHm. }
  rewrite G.
  - now rewrite keys_app, IH.
  - rewrite IH. apply Forall_forall. intros i Hi. apply in_seq in Hi. lia.
Qed.

Lemma flat_init (k : nat) : CMap.flat (CMap.init k) = [].
Proof.
  assert (G : forall i v, CMap.lookup i (CMap.init k) = Some v -> v = []).
  { intros i v. rewrite lookup_init. destruct (i <? k)%nat; [now intros [= <-] | discriminate]. }
  assert (Hk := init_keys k).
  revert G Hk. generalize (CMap.init k) as m. generalize 0%nat as s. clear.
  intros s m. revert s k.
  induction m as [|[k' v'] m IH]; intros s k G Hk; [reflexivity|].
  destruct k as [|k]; [discriminate|].
  cbn [CMap.keys map fst seq] in Hk. injection Hk as -> Hk.
  unfold CMap.flat, CMap.values. cbn [map snd concat].
  rewrite (G s v') by (cbn [CMap.lookup]; now rewrite Nat.eqb_refl). cbn [app].
  apply (IH (S s) k); [|exact Hk].
  intros i v Hl. apply (G i). cbn [CMap.lookup].
  destruct (i =? s)%nat eqn:E; [|exact Hl].
  apply Nat.eqb_eq in E. subst i. exfalso.
  assert (Hin : In s (CMap.keys m)).
  { clear -Hl. induction m as [|[k0 v0] m IHm]; [discriminate|].
    cbn [CMap.lookup] in Hl. cbn [CMap.keys map fst].
    destruct (s =? k0)%nat eqn:E; [apply Nat.eqb_eq in E; now left | right; now apply IHm]. }
  unfold CMap.keys in Hin. rewrite Hk in Hin. apply in_seq in Hin. lia.
Qed.

(** ** K-Means of route.ts *)

(** [bestCentroid] is the index of a centroid, so that
    [clusters[bestCentroid]] exists. *)
Lemma nearest_lt (v : vector) (centroids : list vector) :
  centroids <> [] -> (Route.nearest v centroids < length centroids)%nat.
Proof.
  intros Hne. unfold Route.nearest.
  apply (fold_left_inv (fun acc => (snd acc < length centroids)%nat)).
  - cbn [snd]. destruct centroids; [contradiction | simpl; lia].
  - intros [minDist best] [j c] Hin Hacc. apply indexed_In in Hin.
    destruct (lt _ minDist); cbn [snd] in *; [apply Hin | exact Hacc].
Qed.

(** The seeding loop keeps between 1 and [k] centroids ... *)
Lemma seed_length (fuel : nat) (rand : nat -> R) (vs : list vector) (k : nat)
      (centroids : list vector) (used : list nat) (calls : nat) :
  (1 <= length centroids <= k)%nat ->
  (1 <= length (Route.seed fuel rand vs k centroids used calls) <= k)%nat.
Proof.
  revert centroids used calls.
  induction fuel as [|fuel IH]; intros centroids used calls H; cbn [Route.seed]; [exact H|].
  destruct (length centroids <? k)%nat eqn:E; [|exact H].
  apply Nat.ltb_lt in E.
  destruct (Route.seedDistances vs used centroids) as [distances totalDistance].
  destruct (JS.eq totalDistance (Num 0)); [exact H|].
  destruct (match Route.roulette vs used distances _ with
            | Some iv => Some iv
            | None => Route.firstRemaining vs used
            end) as [[nextIndex v]|]; [|exact H].
  apply IH. rewrite length_app. simpl. lia.
Qed.

Lemma seed_S (fuel : nat) (rand : nat -> R) (vs : list vector) (k : nat)
      (centroids : list vector) (used : list nat) (calls : nat) :
  Route.seed (S fuel) rand vs k centroids used calls
  = if (length centroids <? k)%nat then
      let '(distances, totalDistance) := Route.seedDistances vs used centroids in
      if JS.eq totalDistance (Num 0) then centroids
      else
        match
          (match Route.roulette vs used distances (mul (Num (rand calls)) totalDistance) with
           | Some iv => Some iv
           | None => Route.firstRemaining vs used
           end)
        with
        | None => centroids
        | Some (nextIndex, v) =>
            Route.seed fuel rand vs k (centroids ++ [v]) (used ++ [nextIndex]) (S calls)
        end
    else centroids.
Proof. reflexivity. Qed.

(** ... and [k] rounds are enough: more fuel does not change its result. *)
Lemma seed_fuel (fuel : nat) (rand : nat -> R) (vs : list vector) (k : nat)
      (centroids : list vector) (used : list nat) (calls : nat) :
  (k - length centroids <= fuel)%nat ->
  Route.seed (S fuel) rand vs k centroids used calls
  = Route.seed fuel rand vs k centroids used calls.
Proof.
  revert centroids used calls.
  induction fuel as [|fuel IH]; intros centroids used calls H.
  - cbn [Route.seed]. rewrite (proj2 (Nat.ltb_ge (length centroids) k)) by lia. reflexivity.
  - rewrite (seed_S (S fuel)), (seed_S fuel rand vs k centroids used calls).
    destruct (length centroids <? k)%nat eqn:E; [|reflexivity].
    destruct (Route.seedDistances vs used centroids) as [distances totalDistance].
    destruct (JS.eq totalDistance (Num 0)); [reflexivity|].
    destruct (match Route.roulette vs used distances _ with
              | Some iv => Some iv
              | None => Route.firstRemaining vs used
              end) as [[nextIndex v]|]; [|reflexivity].
    apply IH. rewrite length_app. simpl. lia.
Qed.

Section AssignFacts.

Variable vs : list vector.
Variable centroids : list vector.
Variable k : nat.

Hypothesis centroids_nonempty : centroids <> [].
Hypothesis centroids_le : (length centroids <= k)%nat.

Lemma assign_loop (l : list (nat * vector)) (m : CMap.t) :
  (forall e, In e l -> (fst e < length vs)%nat) ->
  Inv.assigned (length vs) k (length centroids) m ->
  exists m',
    foldM (fun clusters '(i, v) => CMap.push (Route.nearest v centroids) i clusters) l m
    = Some m' /\
    Inv.assigned (length vs) k (length centroids) m' /\
    Permutation (CMap.flat m') (CMap.flat m ++ map fst l).
Proof.
  revert m. induction l as [|[i v] l IH]; intros m Hl (Hk & Hr & Hc).
  - exists m. cbn [foldM map]. rewrite app_nil_r. repeat split; auto.
  - pose proof (nearest_lt v centroids centroids_nonempty) as Hj.
    destruct (set_existing (Route.nearest v centroids) m 0 k Hk)
      as (m1 & pts & m2 & Em & Hlk & Hset); [lia|].
    cbn [foldM]. rewrite (push_ok (length vs) _ i pts m Hlk). cbn [bind].
    assert (Hi : (i < length vs)%nat) by (apply (Hl (i, v)); now left).
    assert (Hpts : Forall (fun p => (p < length vs)%nat) pts)
      by exact (in_range_lookup _ _ _ _ Hr Hlk).
    destruct (IH (CMap.set (Route.nearest v centroids) (pts ++ [i]) m)) as (m' & E & Hinv & Hp).
    + intros e He. apply Hl. now right.
    + split; [|split].
      * rewrite Hset. rewrite Em in Hk. rewrite keys_app in *. exact Hk.
      * apply in_range_set; [|exact Hr].
        apply Forall_app. split; [exact Hpts | now constructor].
      * intros i' pts' Hl' Hne.
        destruct (Nat.eq_dec (Route.nearest v centroids) i') as [<-|Hd]; [exact Hj|].
        rewrite lookup_set_ne in Hl' by assumption. now apply (Hc i' pts').
    + exists m'. split; [exact E|]. split; [exact Hinv|].
      rewrite Hp. rewrite Hset, Em, !flat_app, !flat_cons. cbn [map fst].
      rewrite <- !app_assoc. apply Permutation_app_head. apply Permutation_app_head.
      cbn [app]. apply Permutation_middle.
Qed.

Lemma indexed_fst {A : Type} (l : list A) : map fst (indexed l) = seq 0 (length l).
Proof.
  unfold indexed. generalize 0%nat as s.
  induction l as [|x l IH]; intros s; [reflexivity|].
  cbn [length seq combine map fst]. now rewrite IH.
Qed.

(** The assignment step cannot throw, and it puts every index in exactly
    one cluster. *)
Lemma assign_ok :
  exists clusters,
    Route.assign vs centroids k = Some clusters /\
    Inv.assigned (length vs) k (length centroids) clusters /\
    Inv.partition (length vs) clusters.
Proof.
  unfold Route.assign, Inv.partition.
  destruct (assign_loop (indexed vs) (CMap.init k)) as (m' & E & Hinv & Hp).
  - intros [i v] He. apply indexed_In in He. apply He.
  - split; [apply init_keys | split; [apply in_range_init|]].
    intros i pts Hl Hne. rewrite lookup_init in Hl.
    destruct (i <? k)%nat; [|discriminate]. injection Hl as <-. contradiction.
  - exists m'. split; [exact E|]. split; [exact Hinv|].
    rewrite Hp, flat_init, indexed_fst. reflexivity.
Qed.

End AssignFacts.

Lemma meanVector_ok (vs : list vector) (dimension : nat) (pts : list nat) :
  Forall (fun p => (p < length vs)%nat) pts ->
  exists c, meanVector vs dimension pts = Some c.
Proof.
  intros H. unfold meanVector.
  destruct (foldM_inv (fun _ => True)
              (fun newCentroid pointIdx =>
                 v <- nth_error vs pointIdx ;;
                 Some (map (fun '(d, x) => add x (get v d)) (indexed newCentroid)))
              pts (repeat (Num 0) dimension) I) as (sums & E & _).
  - intros a p Hp _. rewrite Forall_forall in H. specialize (H p Hp).
    destruct (nth_error vs p) as [v|] eqn:Ev.
    + eexists. split; [reflexivity | exact I].
    + apply nth_error_None in Ev. lia.
  - rewrite E. cbn [bind]. eexists. reflexivity.
Qed.

Lemma updateCentroids_ok (vs : list vector) (clusters : CMap.t) (k : nat)
      (centroids : list vector) :
  vs <> [] -> Inv.assigned (length vs) k (length centroids) clusters ->
  exists centroids',
    Route.updateCentroids vs clusters k centroids = Some centroids' /\
    length centroids' = length centroids.
Proof.
  intros Hne (Hk & Hr & _). unfold Route.updateCentroids.
  apply (foldM_inv (fun c => length c = length centroids)); [reflexivity|].
  intros c i Hi Hc. apply in_seq in Hi.
  destruct (lookup_keys_seq clusters k i Hk) as (pts & Hl); [lia|].
  rewrite Hl. cbn [bind].
  destruct (length pts =? 0)%nat; [exists c; now split|].
  destruct vs as [|v0 vs']; [contradiction|]. cbn [nth_error bind].
  destruct (meanVector_ok (v0 :: vs') (length v0) pts) as (mc & Em).
  { exact (in_range_lookup _ _ _ _ Hr Hl). }
  rewrite Em. cbn [bind]. eexists. split; [reflexivity|].
  now rewrite length_array_set.
Qed.

Lemma pairFoldM_inv {A B : Type} (P : A -> Prop) (Q : B -> Prop)
      (f : A -> B -> B -> option A) (l : list B) (a : A) :
  P a -> Forall Q l ->
  (forall a x y, Q x -> Q y -> P a -> exists a', f a x y = Some a' /\ P a') ->
  exists a', pairFoldM f l a = Some a' /\ P a'.
Proof.
  intros Ha Hl H. revert a Ha. induction Hl as [|x l Hx Hl IH]; intros a Ha.
  - exists a. now split.
  - cbn [pairFoldM].
    destruct (foldM_inv P (fun acc y => f acc x y) l a Ha) as (a1 & E & Ha1).
    + intros a0 y Hy Ha0. apply H; [exact Hx | | exact Ha0].
      rewrite Forall_forall in Hl. now apply Hl.
    + rewrite E. cbn [bind]. now apply IH.
Qed.

Lemma clusterCoherence_ok (vs : list vector) (clusters : CMap.t) :
  Spec.in_range (length vs) clusters ->
  exists coh, Route.clusterCoherence vs clusters = Some coh.
Proof.
  intros H. unfold Route.clusterCoherence.
  destruct (foldM_inv (fun _ => True)
              (fun acc '(clusterId, clusterPoints) =>
                 c <- Route.coherenceOf vs clusterPoints ;; Some (acc ++ [(clusterId, c)]))
              clusters [] I) as (coh & E & _); [|now exists coh].
  intros acc [cid pts] Hin _.
  unfold Spec.in_range in H. rewrite Forall_forall in H. specialize (H _ Hin). cbn [snd] in H.
  unfold Route.coherenceOf. destruct (length pts <=? 1)%nat.
  { eexists. split; [reflexivity | exact I]. }
  destruct (pairFoldM_inv (fun _ : number * nat => True) (fun p => (p < length vs)%nat)
              (fun '(total, pairs) p q =>
                 s <- Route.similarityAt vs p q ;; Some (add total s, S pairs))
              pts (Num 0, 0%nat) I H) as ([t c] & E & _).
  - intros [t c] p q Hp Hq _. unfold Route.similarityAt.
    destruct (nth_error vs p) eqn:Ep; [|apply nth_error_None in Ep; lia].
    destruct (nth_error vs q) eqn:Eq; [|apply nth_error_None in Eq; lia].
    cbn [bind]. eexists. split; [reflexivity | exact I].
  - rewrite E. cbn [bind]. eexists. split; [reflexivity | exact I].
Qed.

Lemma randomIndex_lt (r : R) (n : nat) :
  0 <= r < 1 -> (1 <= n)%nat -> (Route.randomIndex r n < n)%nat.
Proof.
  intros [Hr0 Hr1] Hn. unfold Route.randomIndex.
  pose proof (Zfloor_bound (r * INR n)) as [Hlo Hhi].
  assert (Hpos : 0 < INR n) by (apply lt_0_INR; lia).
  assert (Hx : r * INR n < INR n) by nra.
  assert (Hz : (Zfloor (r * INR n) < Z.of_nat n)%Z).
  { apply lt_IZR. rewrite <- INR_IZR_INZ. lra. }
  assert (H0 : (0 <= Zfloor (r * INR n))%Z).
  { apply Zfloor_lub. simpl. nra. }
  lia.
Qed.


(** ** The score of a cluster map is above -1 *)

Lemma sum_upto_scal (n : nat) (k : R) (f : nat -> R) :
  Spec.sum_upto n (fun i => k * f i) = k * Spec.sum_upto n f.
Proof. induction n as [|n IH]; simpl; [lra | rewrite IH; lra]. Qed.

Lemma sum_upto_combo (n : nat) (f g : nat -> R) (al be : R) :
  Spec.sum_upto n (fun i => (be * f i - al * g i) * (be * f i - al * g i))
  = be * be * Spec.sum_upto n (fun i => f i * f i)
    - 2 * al * be * Spec.sum_upto n (fun i => f i * g i)
    + al * al * Spec.sum_upto n (fun i => g i * g i).
Proof. induction n as [|n IH]; simpl; [lra | rewrite IH; ring]. Qed.

(** Equality in the Cauchy-Schwarz inequality: the vectors are collinear. *)
Lemma cosine_one_collinear (a b : list R) :
  length a = length b -> Spec.cosine a b = 1 ->
  Spec.norm a <> 0 /\ Spec.norm b <> 0 /\
  forall i, Spec.norm b * nth i a 0 = Spec.norm a * nth i b 0.
Proof.
  intros Hlen H. unfold Spec.cosine in H.
  destruct (Req_dec_T (Spec.norm a) 0) as [|Ha]; [lra|].
  destruct (Req_dec_T (Spec.norm b) 0) as [|Hb]; [lra|].
  split; [exact Ha|]. split; [exact Hb|].
  assert (Hd : Spec.dot a b = Spec.norm a * Spec.norm b).
  { assert (Hp : Spec.norm a * Spec.norm b <> 0) by nra.
    apply (Rmult_eq_compat_r (Spec.norm a * Spec.norm b)) in H.
    unfold Rdiv in H. rewrite Rmult_assoc, Rinv_l in H by exact Hp. lra. }
  pose proof (norm_sq a) as Na. pose proof (norm_sq b) as Nb.
  unfold Spec.dot in Hd, Na, Nb. rewrite <- Hlen in Hd, Nb. rewrite Nat.min_id in *.
  pose proof (sum_upto_combo (length a) (fun i => nth i a 0) (fun i => nth i b 0)
                             (Spec.norm a) (Spec.norm b)) as Hc.
  cbv beta in Hc. rewrite <- Na, <- Nb, Hd in Hc.
  assert (Hz : Spec.sum_upto (length a)
                 (fun i => (Spec.norm b * nth i a 0 - Spec.norm a * nth i b 0)
                           * (Spec.norm b * nth i a 0 - Spec.norm a * nth i b 0)) = 0).
  { rewrite Hc. ring. }
  intros i. destruct (Nat.lt_ge_cases i (length a)) as [Hi|Hi].
  - pose proof (sum_upto_sq_zero (length a)
                  (fun i => Spec.norm b * nth i a 0 - Spec.norm a * nth i b 0) Hz i Hi) as Hi0.
    cbv beta in Hi0. lra.
  - rewrite (nth_overflow a) by lia. rewrite (nth_overflow b) by lia. lra.
Qed.

Lemma cosine_one_trans (a b c : list R) :
  length a = length b -> length a = length c ->
  Spec.cosine a b = 1 -> Spec.cosine a c = 1 -> Spec.cosine b c = 1.
Proof.
  intros Hab Hac H1 H2.
  destruct (cosine_one_collinear a b Hab H1) as (Ha & Hb & Cb).
  destruct (cosine_one_collinear a c Hac H2) as (_ & Hc & Cc).
  unfold Spec.cosine.
  destruct (Req_dec_T (Spec.norm b) 0) as [|_]; [contradiction|].
  destruct (Req_dec_T (Spec.norm c) 0) as [|_]; [contradiction|].
  assert (Hd : Spec.dot b c = Spec.norm b * Spec.norm c).
  { unfold Spec.dot at 1. rewrite <- Hab, <- Hac, Nat.min_id.
    rewrite (sum_upto_ext _ _
               (fun i => (Spec.norm b * Spec.norm c / (Spec.norm a * Spec.norm a))
                         * (nth i a 0 * nth i a 0))).
    - rewrite sum_upto_scal.
      assert (Ea : Spec.sum_upto (length a) (fun i => nth i a 0 * nth i a 0)
                   = Spec.norm a * Spec.norm a).
      { rewrite norm_sq. unfold Spec.dot. now rewrite Nat.min_id. }
      rewrite Ea. field. exact Ha.
    - intros i _. specialize (Cb i). specialize (Cc i).
      assert (Eb : nth i b 0 = Spec.norm b * nth i a 0 / Spec.norm a).
      { rewrite Cb. field. exact Ha. }
      assert (Ec : nth i c 0 = Spec.norm c * nth i a 0 / Spec.norm a).
      { rewrite Cc. field. exact Ha. }
      rewrite Eb, Ec. field. exact Ha. }
  rewrite Hd. field. split; assumption.
Qed.

Lemma total_nonneg_zero (l : list R) :
  Forall (fun x => 0 <= x) l -> Spec.total l = 0 -> Forall (fun x => x = 0) l.
Proof.
  induction 1 as [|x l Hx Hl IH]; intros H; [constructor|].
  cbn [Spec.total fold_right] in H. fold (Spec.total l) in H.
  assert (Ht : 0 <= Spec.total l).
  { clear -Hl. induction Hl as [|y l Hy _ IH]; simpl; [lra|]. fold (Spec.total l). lra. }
  constructor; [lra | apply IH; lra].
Qed.

Lemma total_zero (l : list R) : Forall (fun x => x = 0) l -> Spec.total l = 0.
Proof.
  induction 1 as [|x l Hx _ IH]; [reflexivity|].
  cbn [Spec.total fold_right]. fold (Spec.total l). lra.
Qed.

Lemma mean_gt (lo : R) (l : list R) :
  Forall (fun x => lo <= x) l -> Exists (fun x => lo < x) l -> lo < Spec.mean l.
Proof.
  intros Hall Hex.
  assert (Ht : INR (length l) * lo < Spec.total l).
  { induction Hall as [|x l Hx Hl IH]; [inversion Hex|].
    cbn [length Spec.total fold_right]. rewrite S_INR. fold (Spec.total l).
    assert (Hle : INR (length l) * lo <= Spec.total l).
    { clear -Hl. induction Hl as [|y l Hy _ IH]; [simpl; lra|].
      cbn [length Spec.total fold_right]. rewrite S_INR. fold (Spec.total l). lra. }
    inversion Hex as [? ? Hlt | ? ? Hex']; subst; [lra|].
    specialize (IH Hex'). lra. }
  assert (Hn : 0 < INR (length l)).
  { apply lt_0_INR. destruct l; [inversion Hex | simpl; lia]. }
  unfold Spec.mean. apply Rmult_lt_reg_r with (INR (length l)); [exact Hn|].
  unfold Rdiv. rewrite Rmult_assoc, Rinv_l by lra. lra.
Qed.

(** The value of a point is -1 only if [b] is 0 and [a] is positive. *)
Lemma pointValue_m1 (a : R) (b : option R) :
  0 <= a -> (forall x, b = Some x -> 0 <= x) ->
  Spec.pointValue a b <= -1 -> b = Some 0 /\ 0 < a.
Proof.
  intros Ha Hb H. destruct b as [b|]; cbn [Spec.pointValue] in H; [|lra].
  specialize (Hb b Logic.eq_refl).
  assert (G : (if Rlt_dec a b then 1 - a / b else b / a - 1) <= -1 -> 0 < a -> b = 0).
  { intros G Hpos. destruct (Rlt_dec a b) as [Hlt|Hge].
    - assert (a / b < 1).
      { apply Rmult_lt_reg_r with b; [lra|].
        unfold Rdiv. rewrite Rmult_assoc, Rinv_l by lra. lra. }
      lra.
    - assert (Hq : b / a <= 0) by lra.
      assert (Hq' : 0 <= b / a).
      { apply Rmult_le_pos; [exact Hb|]. left. now apply Rinv_0_lt_compat. }
      assert (Hz : b / a = 0) by lra.
      apply (Rmult_eq_compat_r a) in Hz.
      unfold Rdiv in Hz. rewrite Rmult_assoc, Rinv_l in Hz by lra. lra. }
  destruct (Req_dec_T a 0) as [Ea|Ea].
  - destruct (Req_dec_T b 0) as [Eb|Eb]; [lra|].
    subst a. destruct (Rlt_dec 0 b) as [Hlt|Hge]; [|lra].
    unfold Rdiv in H. rewrite Rmult_0_l in H. lra.
  - assert (Hpos : 0 < a) by lra.
    split; [f_equal; now apply G | exact Hpos].
Qed.

Section AboveMinusOne.

Variable d : nat -> nat -> R.
Variable n : nat.

Hypothesis d_nonneg : forall p q, 0 <= d p q.
Hypothesis d_zero_trans :
  forall p q q', (p < n)%nat -> (q < n)%nat -> (q' < n)%nat ->
                 d p q = 0 -> d p q' = 0 -> d q q' = 0.

Lemma b_zero_cluster (clusterId p : nat) (cl : list (nat * list nat)) (m : option R) :
  (forall x, m = Some x -> 0 <= x) ->
  fold_left (Spec.b_step d clusterId p) cl m = Some 0 ->
  m = Some 0 \/
  exists otherId otherPoints,
    In (otherId, otherPoints) cl /\ otherPoints <> [] /\ Spec.avgTo d p otherPoints = 0.
Proof.
  revert m. induction cl as [|[oid opts] cl IH]; intros m Hm H; cbn [fold_left] in H.
  - now left.
  - apply IH in H.
    + destruct H as [H|(o & ps & Hin & Hne & Hz)];
        [|right; exists o, ps; split; [now right | now split]].
      cbn [Spec.b_step] in H. destruct (oid =? clusterId)%nat; [now left|].
      destruct opts as [|q opts]; [now left|].
      injection H as H. destruct m as [x|].
      * specialize (Hm x Logic.eq_refl). unfold Rmin in H.
        destruct (Rle_dec x (Spec.avgTo d p (q :: opts))).
        -- left. now rewrite H.
        -- right. exists oid, (q :: opts). split; [now left|]. split; [discriminate | exact H].
      * right. exists oid, (q :: opts). split; [now left|]. split; [discriminate | exact H].
    + apply (b_step_nonneg d d_nonneg clusterId p [(oid, opts)] m Hm).
Qed.

Lemma avgTo_zero (p : nat) (pts : list nat) :
  pts <> [] -> Spec.avgTo d p pts = 0 -> forall q, In q pts -> d p q = 0.
Proof.
  intros Hne H q Hq. unfold Spec.avgTo in H.
  assert (Hn : 0 < INR (length pts)).
  { apply lt_0_INR. destruct pts; [contradiction | simpl; lia]. }
  assert (Ht : Spec.total (map (d p) pts) = 0).
  { apply (Rmult_eq_compat_r (INR (length pts))) in H.
    unfold Rdiv in H. rewrite Rmult_assoc, Rinv_l in H by lra. lra. }
  apply total_nonneg_zero in Ht.
  - rewrite Forall_forall in Ht. apply Ht. now apply in_map.
  - apply Forall_map. apply Forall_forall. intros x _. apply d_nonneg.
Qed.

Lemma a_of_zero (q : nat) (pts : list nat) :
  (forall q', In q' pts -> d q q' = 0) -> Spec.a_of d q pts = 0.
Proof.
  intros H. unfold Spec.a_of. destruct (1 <? length pts)%nat; [|reflexivity].
  rewrite total_zero; [unfold Rdiv; apply Rmult_0_l|].
  apply Forall_map. apply Forall_forall. intros x Hx.
  apply filter_In in Hx. apply H, Hx.
Qed.

Lemma pointValue_zero_a (b : option R) :
  (forall x, b = Some x -> 0 <= x) -> -1 < Spec.pointValue 0 b.
Proof.
  intros Hb. destruct (Rlt_dec (-1) (Spec.pointValue 0 b)) as [|Hn]; [assumption|].
  exfalso. destruct (pointValue_m1 0 b (Rle_refl 0) Hb) as [_ H]; lra.
Qed.

(** Among the values of a cluster map with a point there is one above -1. *)
Lemma pointValues_above (clusters : list (nat * list nat)) :
  Spec.in_range n clusters -> Spec.pointValues d clusters <> [] ->
  Exists (fun x => -1 < x) (Spec.pointValues d clusters).
Proof.
  intros Hr Hne.
  assert (Hp : exists cid pts p, In (cid, pts) clusters /\ In p pts).
  { unfold Spec.pointValues in Hne.
    destruct (flat_map _ clusters) as [|x rest] eqn:E; [contradiction|].
    assert (Hx : In x (flat_map
                   (fun '(clusterId, clusterPoints) =>
                      map (fun p => Spec.pointValue (Spec.a_of d p clusterPoints)
                                      (Spec.b_of d clusters clusterId p)) clusterPoints)
                   clusters)) by (rewrite E; now left).
    apply in_flat_map in Hx. destruct Hx as ([cid pts] & Hin & Hx).
    apply in_map_iff in Hx. destruct Hx as (p & _ & Hp). now exists cid, pts, p. }
  destruct Hp as (cid & pts & p & Hin & Hp).
  assert (Hval : forall cid pts p, In (cid, pts) clusters -> In p pts ->
                   In (Spec.pointValue (Spec.a_of d p pts) (Spec.b_of d clusters cid p))
                      (Spec.pointValues d clusters)).
  { intros c ps q Hc Hq. unfold Spec.pointValues. apply in_flat_map.
    exists (c, ps). split; [exact Hc|]. apply in_map_iff. now exists q. }
  assert (Hlt : forall cid pts p, In (cid, pts) clusters -> In p pts -> (p < n)%nat).
  { intros c ps q Hc Hq. unfold Spec.in_range in Hr. rewrite Forall_forall in Hr.
    specialize (Hr _ Hc). cbn [snd] in Hr. rewrite Forall_forall in Hr. now apply Hr. }
  apply Exists_exists.
  destruct (Rlt_dec (-1) (Spec.pointValue (Spec.a_of d p pts) (Spec.b_of d clusters cid p)))
    as [Hgt|Hle].
  - eexists. split; [apply (Hval cid pts p Hin Hp) | exact Hgt].
  - destruct (pointValue_m1 _ _ (a_of_nonneg d d_nonneg p pts)
                (b_of_nonneg d d_nonneg clusters cid p)) as [Hb _]; [lra|].
    unfold Spec.b_of in Hb. apply b_zero_cluster in Hb; [|discriminate].
    destruct Hb as [Hb | (oid & opts & Ho & Hone & Hz)]; [discriminate|].
    destruct opts as [|q0 opts]; [contradiction|].
    pose proof (avgTo_zero p (q0 :: opts) Hone Hz) as Hall.
    exists (Spec.pointValue (Spec.a_of d q0 (q0 :: opts)) (Spec.b_of d clusters oid q0)).
    split; [apply (Hval oid (q0 :: opts) q0 Ho); now left|].
    rewrite a_of_zero.
    + apply pointValue_zero_a. apply (b_of_nonneg d d_nonneg).
    + intros q' Hq'.
      apply (d_zero_trans p q0 q');
        [apply (Hlt cid pts p Hin Hp) | apply (Hlt oid (q0 :: opts) q0 Ho); now left
         | apply (Hlt oid (q0 :: opts) q' Ho Hq') | apply Hall; now left | now apply Hall].
Qed.

Lemma silhouetteScore_above (clusters : list (nat * list nat)) :
  Spec.in_range n clusters -> -1 < Spec.silhouetteScore d clusters.
Proof.
  intros Hr. unfold Spec.silhouetteScore.
  destruct (length clusters <? 2)%nat; [lra|].
  destruct (Spec.pointValues d clusters) as [|v vs] eqn:E; [lra|].
  rewrite <- E. apply mean_gt.
  - pose proof (pointValues_bounds d d_nonneg clusters) as B.
    eapply Forall_impl; [|exact B]. intros x Hx. cbv beta in Hx. lra.
  - apply pointValues_above; [exact Hr | rewrite E; discriminate].
Qed.

End AboveMinusOne.

Lemma cosineDistance_zero_trans (vectors : list (list R)) (dim : nat) :
  Forall (fun v => length v = dim) vectors ->
  forall p q q', (p < length vectors)%nat -> (q < length vectors)%nat ->
                 (q' < length vectors)%nat ->
                 Spec.cosineDistance vectors p q = 0 -> Spec.cosineDistance vectors p q' = 0 ->
                 Spec.cosineDistance vectors q q' = 0.
Proof.
  intros H p q q' Hp Hq Hq' H1 H2. unfold Spec.cosineDistance in *.
  rewrite (cosine_one_trans (nth p vectors []) (nth q vectors []) (nth q' vectors [])).
  - lra.
  - now rewrite (uniform_nth _ dim p H Hp), (uniform_nth _ dim q H Hq).
  - now rewrite (uniform_nth _ dim p H Hp), (uniform_nth _ dim q' H Hq').
  - lra.
  - lra.
Qed.


(** ** The DBSCAN traversal *)

Lemma includes_In (l : list nat) (x : nat) : includes l x = true <-> In x l.
Proof.
  unfold includes. rewrite existsb_exists. split.
  - intros (y & Hy & E). apply Nat.eqb_eq in E. now subst.
  - intros H. exists x. split; [exact H | apply Nat.eqb_refl].
Qed.

Lemma NoDup_map_filter {A : Type} (f : nat * A -> bool) (l : list (nat * A)) :
  NoDup (map fst l) -> NoDup (map fst (filter f l)).
Proof.
  induction l as [|x l IH]; intros H; [constructor|].
  cbn [map] in H. inversion H as [|? ? Hn Hl]; subst.
  cbn [filter]. destruct (f x); [|now apply IH].
  cbn [map]. constructor; [|now apply IH].
  intros Hin. apply Hn. apply in_map_iff in Hin. destruct Hin as (y & Ey & Hy).
  apply filter_In in Hy. apply in_map_iff. exists y. split; [exact Ey | apply Hy].
Qed.

Lemma NoDup_range_length (n : nat) (l : list nat) :
  NoDup l -> Forall (fun p => (p < n)%nat) l -> (length l <= n)%nat.
Proof.
  intros Hd Hr. rewrite <- (length_seq n 0).
  apply NoDup_incl_length; [exact Hd|].
  intros x Hx. rewrite Forall_forall in Hr. apply in_seq. specialize (Hr x Hx). lia.
Qed.

Section DBSCANFacts.

Variable distance : vector -> vector -> number.
Variable vs : list vector.
Variable eps : number.
Variable minPts : nat.

Local Abbreviation n := (length vs).

Lemma getNeighbors_ok (p : nat) :
  (p < n)%nat ->
  exists nb, DBSCAN.getNeighbors distance vs eps p = Some nb /\
             Forall (fun q => (q < n)%nat) nb /\ NoDup nb.
Proof.
  intros Hp. unfold DBSCAN.getNeighbors.
  destruct (nth_error vs p) as [v|] eqn:E; [|apply nth_error_None in E; lia].
  cbn [bind]. eexists. split; [reflexivity|]. split.
  - apply Forall_forall. intros q Hq. apply in_map_iff in Hq.
    destruct Hq as ([q' w] & <- & Hq). apply filter_In in Hq. destruct Hq as [Hq _].
    apply indexed_In in Hq. apply Hq.
  - apply NoDup_map_filter. rewrite indexed_fst. apply seq_NoDup.
Qed.

Lemma addNeighbors_ok (neighbors currentNeighbors : list nat) :
  NoDup neighbors -> Forall (fun q => (q < n)%nat) neighbors ->
  Forall (fun q => (q < n)%nat) currentNeighbors ->
  NoDup (DBSCAN.addNeighbors neighbors currentNeighbors) /\
  Forall (fun q => (q < n)%nat) (DBSCAN.addNeighbors neighbors currentNeighbors).
Proof.
  intros Hd Hr Hc. unfold DBSCAN.addNeighbors.
  apply (fold_left_inv (fun l => NoDup l /\ Forall (fun q => (q < n)%nat) l)); [now split|].
  intros l x Hx [Hl1 Hl2]. destruct (includes l x) eqn:E; [now split|].
  split.
  - apply NoDup_app; [exact Hl1 | repeat constructor; intros [] |].
    intros y Hy [<-|[]]. apply includes_In in Hy. congruence.
  - apply Forall_app. split; [exact Hl2|]. constructor; [|constructor].
    rewrite Forall_forall in Hc. now apply Hc.
Qed.

Lemma expand_S (fuel clusterIdx : nat) (neighbors : list nat) (visited : list bool)
      (clusters : CMap.t) (j : nat) :
  DBSCAN.expand distance (S fuel) vs eps minPts clusterIdx neighbors visited clusters j
  = match nth_error neighbors j with
    | None => Some (neighbors, visited, clusters)
    | Some currentPoint =>
        '(neighbors, visited) <-
          (if negb (nth currentPoint visited false) then
             currentNeighbors <- DBSCAN.getNeighbors distance vs eps currentPoint ;;
             Some (if (minPts <=? length currentNeighbors)%nat
                   then DBSCAN.addNeighbors neighbors currentNeighbors
                   else neighbors,
                   array_set currentPoint true visited)
           else Some (neighbors, visited)) ;;
        clusters <-
          (if negb (includes (CMap.flat clusters) currentPoint)
           then CMap.push clusterIdx currentPoint clusters
           else Some clusters) ;;
        DBSCAN.expand distance fuel vs eps minPts clusterIdx neighbors visited clusters (S j)
    end.
Proof. reflexivity. Qed.

(** One round of the expansion: the queue and the visited marks after it. *)
Lemma expand_round (neighbors : list nat) (visited : list bool) (currentPoint : nat) :
  NoDup neighbors -> Forall (fun q => (q < n)%nat) neighbors -> (currentPoint < n)%nat ->
  exists neighbors' visited',
    (if negb (nth currentPoint visited false) then
       currentNeighbors <- DBSCAN.getNeighbors distance vs eps currentPoint ;;
       Some (if (minPts <=? length currentNeighbors)%nat
             then DBSCAN.addNeighbors neighbors currentNeighbors
             else neighbors,
             array_set currentPoint true visited)
     else Some (neighbors, visited)) = Some (neighbors', visited') /\
    NoDup neighbors' /\ Forall (fun q => (q < n)%nat) neighbors' /\
    length visited' = length visited.
Proof.
  intros Hd Hr Hc. destruct (negb (nth currentPoint visited false)).
  - destruct (getNeighbors_ok currentPoint Hc) as (nb & E & Hnr & _).
    rewrite E. cbn [bind]. eexists. eexists. split; [reflexivity|].
    rewrite length_array_set.
    destruct (minPts <=? length nb)%nat.
    + destruct (addNeighbors_ok neighbors nb Hd Hr Hnr) as [H1 H2]. now repeat split.
    + now repeat split.
  - exists neighbors, visited. now repeat split.
Qed.

(** The expansion cannot throw when the cluster being grown exists. *)
Lemma expand_ok (fuel clusterIdx : nat) (neighbors : list nat) (visited : list bool)
      (clusters : CMap.t) (j : nat) :
  NoDup neighbors -> Forall (fun q => (q < n)%nat) neighbors ->
  Spec.in_range n clusters -> CMap.lookup clusterIdx clusters <> None ->
  exists neighbors' visited' clusters',
    DBSCAN.expand distance fuel vs eps minPts clusterIdx neighbors visited clusters j
    = Some (neighbors', visited', clusters') /\
    length visited' = length visited /\ Spec.in_range n clusters'.
Proof.
  revert neighbors visited clusters j.
  induction fuel as [|fuel IH]; intros neighbors visited clusters j Hd Hr Hc Hk.
  - exists neighbors, visited, clusters. now repeat split.
  - rewrite expand_S. destruct (nth_error neighbors j) as [cur|] eqn:Ej.
    + assert (Hcur : (cur < n)%nat).
      { rewrite Forall_forall in Hr. apply Hr. eapply nth_error_In. exact Ej. }
      destruct (expand_round neighbors visited cur Hd Hr Hcur)
        as (nb' & vis' & E & Hd' & Hr' & Hl').
      rewrite E. cbn [bind].
      assert (G : exists clusters1,
                 (if negb (includes (CMap.flat clusters) cur)
                  then CMap.push clusterIdx cur clusters else Some clusters) = Some clusters1 /\
                 Spec.in_range n clusters1 /\ CMap.lookup clusterIdx clusters1 <> None).
      { destruct (negb (includes (CMap.flat clusters) cur)); [|exists clusters; now repeat split].
        destruct (CMap.lookup clusterIdx clusters) as [pts|] eqn:El; [|contradiction].
        rewrite (push_ok n clusterIdx cur pts clusters El).
        eexists. split; [reflexivity|]. split.
        - apply in_range_set; [|exact Hc]. apply Forall_app. split.
          + exact (in_range_lookup _ _ _ _ Hc El).
          + now constructor.
        - rewrite lookup_set_eq. discriminate. }
      destruct G as (clusters1 & E1 & Hc1 & Hk1). rewrite E1. cbn [bind].
      destruct (IH nb' vis' clusters1 (S j) Hd' Hr' Hc1 Hk1) as (nb2 & vis2 & cl2 & E2 & Hl2 & Hc2).
      exists nb2, vis2, cl2. split; [exact E2|]. split; [congruence | exact Hc2].
    + exists neighbors, visited, clusters. now repeat split.
Qed.

(** The queue holds distinct indices below [n]: after [n] rounds the
    counter [j] is past its end, and more fuel changes nothing. *)
Lemma expand_fuel (fuel clusterIdx : nat) (neighbors : list nat) (visited : list bool)
      (clusters : CMap.t) (j : nat) :
  NoDup neighbors -> Forall (fun q => (q < n)%nat) neighbors -> (n <= fuel + j)%nat ->
  DBSCAN.expand distance (S fuel) vs eps minPts clusterIdx neighbors visited clusters j
  = DBSCAN.expand distance fuel vs eps minPts clusterIdx neighbors visited clusters j.
Proof.
  revert neighbors visited clusters j.
  induction fuel as [|fuel IH]; intros neighbors visited clusters j Hd Hr Hj.
  - rewrite expand_S. cbn [DBSCAN.expand].
    pose proof (NoDup_range_length n neighbors Hd Hr) as Hlen.
    rewrite (proj2 (nth_error_None neighbors j)) by lia. reflexivity.
  - rewrite (expand_S (S fuel)), (expand_S fuel clusterIdx neighbors visited clusters j).
    destruct (nth_error neighbors j) as [cur|] eqn:Ej; [|reflexivity].
    assert (Hcur : (cur < n)%nat).
    { rewrite Forall_forall in Hr. apply Hr. eapply nth_error_In. exact Ej. }
    destruct (expand_round neighbors visited cur Hd Hr Hcur)
      as (nb' & vis' & E & Hd' & Hr' & _).
    rewrite E. cbn [bind].
    destruct (if negb (includes (CMap.flat clusters) cur)
              then CMap.push clusterIdx cur clusters else Some clusters) as [clusters1|];
      [|reflexivity].
    cbn [bind]. apply IH; [exact Hd' | exact Hr' | lia].
Qed.

Lemma visit_ok (st : DBSCAN.State) (i : nat) :
  (i < n)%nat -> Inv.dstate n st ->
  exists st', DBSCAN.visit distance vs eps minPts st i = Some st' /\ Inv.dstate n st'.
Proof.
  intros Hi (Hv & Hn & Hc). unfold DBSCAN.visit.
  destruct (nth i (DBSCAN.visited st) false); [exists st; now repeat split|].
  destruct (getNeighbors_ok i Hi) as (nb & E & Hr & Hd). rewrite E. cbn [bind].
  destruct (length nb <? minPts)%nat.
  - eexists. split; [reflexivity|]. unfold Inv.dstate.
    cbn [DBSCAN.visited DBSCAN.noise DBSCAN.clusters].
    rewrite length_array_set. split; [exact Hv|]. split; [|exact Hc].
    apply Forall_app. split; [exact Hn | now constructor].
  - destruct (expand_ok (length vs) (DBSCAN.clusterIdx st) nb
                (array_set i true (DBSCAN.visited st))
                (CMap.set (DBSCAN.clusterIdx st) [i] (DBSCAN.clusters st)) 0 Hd Hr)
      as (nb' & vis' & cl' & Ee & Hl' & Hc').
    + apply in_range_set; [now constructor | exact Hc].
    + rewrite lookup_set_eq. discriminate.
    + rewrite Ee. cbn [bind]. eexists. split; [reflexivity|]. unfold Inv.dstate.
      cbn [DBSCAN.visited DBSCAN.noise DBSCAN.clusters].
      rewrite Hl', length_array_set. now repeat split.
Qed.

Lemma mainLoop_ok :
  exists st, DBSCAN.mainLoop distance vs eps minPts = Some st /\ Inv.dstate n st.
Proof.
  unfold DBSCAN.mainLoop. apply foldM_inv.
  - unfold Inv.dstate. cbn [DBSCAN.visited DBSCAN.noise DBSCAN.clusters].
    split; [apply repeat_length|]. split; constructor.
  - intros st i Hi Hst. apply in_seq in Hi. apply visit_ok; [lia | exact Hst].
Qed.

Lemma foldNoise_in_range (noise : list nat) (clusterIdx : nat) (clusters : CMap.t) :
  Forall (fun p => (p < n)%nat) noise -> Spec.in_range n clusters ->
  Spec.in_range n (DBSCAN.foldNoise noise clusterIdx clusters).
Proof.
  intros Hn Hc. unfold DBSCAN.foldNoise.
  destruct (0 <? length noise)%nat; [|exact Hc].
  destruct (length noise <=? 3)%nat; [|now apply in_range_set].
  apply fold_left_inv; [exact Hc|].
  intros m [i p] Hin Hm. apply indexed_In in Hin. destruct Hin as [_ Hin].
  apply in_range_set; [|exact Hm]. constructor; [|constructor].
  rewrite Forall_forall in Hn. apply Hn. eapply nth_error_In. exact Hin.
Qed.

End DBSCANFacts.

(** ** The engines of route.ts on vectors of reals *)

Section RouteKMeansFacts.

Variable vectors : list (list R).
Variable dim : nat.

Hypothesis uniform : Forall (fun v => length v = dim) vectors.
Hypothesis nonempty : vectors <> [].

Local Abbreviation vs := (map vec vectors).
Local Abbreviation n := (length vectors).

Lemma vs_length : length vs = n.
Proof. apply length_map. Qed.

Lemma vs_nonempty : vs <> [].
Proof. unfold vs. destruct vectors; [contradiction | discriminate]. Qed.

(** The score of a cluster map in range is a real number of (-1, 1]. *)
Lemma route_silhouette_finite (clusters : CMap.t) :
  Spec.in_range n clusters ->
  exists s, Route.calculateSilhouetteScore vs clusters = Some (Num s) /\ -1 < s <= 1.
Proof.
  intros H.
  pose proof (route_silhouette_spec vectors dim clusters uniform H) as E.
  eexists. split; [exact E|]. split.
  - apply (silhouetteScore_above _ n); [| |exact H].
    + now apply (cosineDistance_nonneg vectors dim).
    + now apply (cosineDistance_zero_trans vectors dim).
  - apply silhouetteScore_bounds. now apply (cosineDistance_nonneg vectors dim).
Qed.

(** One iteration cannot throw and keeps the invariant of the state; after
    it the best cluster map is a partition. *)
Lemma iteration_ok (k : nat) (st : Route.KState) (iter : nat) :
  Inv.kstate n k st ->
  exists st', Route.iteration vs k st iter = Some st' /\ Inv.kstate n k st' /\
              length (Route.ks_centroids st') = length (Route.ks_centroids st) /\
              (Inv.assigned n k (length (Route.ks_centroids st)) (Route.ks_bestClusters st') /\
               Inv.partition n (Route.ks_bestClusters st')) /\
              Route.ks_iterations st' = (iter + 1)%nat.
Proof.
  intros (Hc & Hr & Hb & b & Eb & Bb). unfold Route.iteration.
  assert (Hne : Route.ks_centroids st <> []).
  { destruct (Route.ks_centroids st); [simpl in Hc; lia | discriminate]. }
  destruct (assign_ok vs (Route.ks_centroids st) k Hne (proj2 Hc))
    as (clusters & Ea & Hinv & Hpart).
  rewrite Ea. cbn [bind]. rewrite vs_length in Hinv, Hpart.
  destruct (updateCentroids_ok vs clusters k (Route.ks_centroids st) vs_nonempty)
    as (centroids' & Eu & Hlen); [now rewrite vs_length|].
  rewrite Eu. cbn [bind].
  destruct (route_silhouette_finite clusters (proj1 (proj2 Hinv))) as (s & Es & Bs).
  rewrite Es. cbn [bind].
  eexists. split; [reflexivity|].
  destruct (gt (Num s) (Route.ks_bestSilhouette st)) eqn:Egt;
    unfold Inv.kstate;
    cbn [Route.ks_centroids Route.ks_bestClusters Route.ks_bestSilhouette
         Route.ks_iterations];
    rewrite Hlen.
  - split; [|split; [reflexivity | split; [split; [exact Hinv | exact Hpart] | reflexivity]]].
    split; [exact Hc|]. split; [exact (proj1 (proj2 Hinv))|].
    split; [right; split; [exact Hinv | exact Hpart]|].
    exists s. split; [reflexivity | lra].
  - assert (Hb2 : Inv.assigned n k (length (Route.ks_centroids st))
                               (Route.ks_bestClusters st) /\
                  Inv.partition n (Route.ks_bestClusters st)).
    { destruct Hb as [[_ Em1] | Hb2]; [|exact Hb2].
      exfalso. rewrite Em1 in Egt. unfold gt, JS.lt in Egt.
      rewrite Rltb_true in Egt by lra. discriminate. }
    split; [|split; [reflexivity | split; [exact Hb2 | reflexivity]]].
    split; [exact Hc|]. split; [exact Hr|]. split; [now right|].
    exists b. now split.
Qed.

Lemma iterations_ok (k : nat) (iters : list nat) (st : Route.KState) :
  Inv.kstate n k st ->
  exists st', foldM (Route.iteration vs k) iters st = Some st' /\ Inv.kstate n k st' /\
              length (Route.ks_centroids st') = length (Route.ks_centroids st).
Proof.
  intros H.
  destruct (foldM_inv
              (fun st' => Inv.kstate n k st' /\
                          length (Route.ks_centroids st') = length (Route.ks_centroids st))
              (Route.iteration vs k) iters st (conj H Logic.eq_refl)) as (st' & E & H' & L').
  - intros st0 iter _ [H0 L0].
    destruct (iteration_ok k st0 iter H0) as (st1 & E1 & H1 & L1 & _).
    exists st1. split; [exact E1|]. split; [exact H1 | congruence].
  - exists st'. split; [exact E|]. split; [exact H' | exact L'].
Qed.

Lemma foldM_app {A B : Type} (f : A -> B -> option A) (l1 l2 : list B) (a : A) :
  foldM f (l1 ++ l2) a = (a' <- foldM f l1 a ;; foldM f l2 a').
Proof.
  revert a. induction l1 as [|x l1 IH]; intros a; cbn [app foldM bind]; [reflexivity|].
  destruct (f a x) as [a1|]; cbn [bind]; [apply IH | reflexivity].
Qed.

(** [runKMeans] cannot throw on a non-empty set of vectors of reals of one
    dimension when [k >= 1] and at least one iteration is made.  The cluster
    map of its result has the keys 0 .. k'-1, where [k' = min(k, n)]; every
    index 0 .. n-1 is in exactly one of its clusters; and only the clusters
    that have a centroid after the seeding have points.  The score is a real
    number of [-1, 1] and all the iterations are made. *)
Lemma runKMeans_ok (rand : nat -> R) (k maxIterations : nat) :
  (forall i, 0 <= rand i < 1) -> (1 <= k)%nat -> (1 <= maxIterations)%nat ->
  exists r first,
    Route.runKMeans rand vs k maxIterations = Some r /\
    nth_error vs (Route.randomIndex (rand 0%nat) n) = Some first /\
    Inv.assigned n (Nat.min k n)
      (length (Route.seed (Nat.min k n) rand vs (Nat.min k n) [first]
                          [Route.randomIndex (rand 0%nat) n] 1))
      (Route.clusters r) /\
    Inv.partition n (Route.clusters r) /\
    Route.iterations r = Some maxIterations /\
    exists s, Route.silhouetteScore r = Num s /\ -1 <= s <= 1.
Proof.
  intros Hrand Hk Hm. unfold Route.runKMeans. rewrite vs_length.
  assert (Hn : (1 <= n)%nat).
  { unfold n. destruct vectors; [contradiction | simpl; lia]. }
  replace (if (n <? k)%nat then n else k) with (Nat.min k n).
  2:{ destruct (n <? k)%nat eqn:E; [apply Nat.ltb_lt in E | apply Nat.ltb_ge in E]; lia. }
  set (k' := Nat.min k n).
  pose proof (randomIndex_lt (rand 0%nat) n (Hrand 0%nat) Hn) as Hfirst.
  destruct (nth_error vs (Route.randomIndex (rand 0%nat) n)) as [first|] eqn:Ef;
    [|apply nth_error_None in Ef; rewrite vs_length in Ef; lia].
  cbn [bind].
  set (centroids := Route.seed k' rand vs k' [first] [Route.randomIndex (rand 0%nat) n] 1).
  assert (Hc : (1 <= length centroids <= k')%nat).
  { apply seed_length. simpl. unfold k'. lia. }
  destruct maxIterations as [|m]; [lia|].
  rewrite seq_S, foldM_app. cbn [Nat.add].
  destruct (iterations_ok k' (seq 0 m)
              (Route.mkKState centroids CMap.empty (Num (-1)) 0)) as (st0 & Est0 & Hst0 & L0).
  { unfold Inv.kstate.
    cbn [Route.ks_centroids Route.ks_bestClusters Route.ks_bestSilhouette].
    split; [exact Hc|]. split; [constructor|]. split; [left; now split|].
    exists (-1). split; [reflexivity | lra]. }
  rewrite Est0. cbn [bind foldM]. cbn [Route.ks_centroids] in L0.
  destruct (iteration_ok k' st0 m Hst0) as (st & Est & Hst & _ & [Hasg Hpart] & Hit).
  rewrite Est. cbn [bind]. rewrite L0 in Hasg.
  destruct Hst as (_ & Hr & _ & s & Es & Bs).
  destruct (clusterCoherence_ok vs (Route.ks_bestClusters st)) as (coh & Ecoh).
  { now rewrite vs_length. }
  rewrite Ecoh. cbn [bind].
  eexists. exists first. split; [reflexivity|]. split; [reflexivity|].
  cbn [Route.clusters Route.silhouetteScore Route.iterations].
  split; [exact Hasg|]. split; [exact Hpart|].
  split; [rewrite Hit; f_equal; lia|].
  exists s. now split.
Qed.

(** [runDBSCAN] cannot throw on vectors of reals of one dimension; its
    score is a real number of [-1, 1]. *)
Lemma runDBSCAN_ok (eps : number) (minPts : nat) :
  exists r,
    Route.runDBSCAN vs eps minPts = Some r /\
    Spec.in_range n (Route.clusters r) /\
    Route.iterations r = None /\
    exists s, Route.silhouetteScore r = Num s /\ -1 <= s <= 1.
Proof.
  unfold Route.runDBSCAN.
  destruct (mainLoop_ok Route.cosineSimilarityDistance vs eps minPts) as (st & E & Hv & Hn & Hc).
  rewrite E. cbn [bind]. rewrite vs_length in Hn, Hc.
  pose proof (foldNoise_in_range vs (DBSCAN.noise st) (DBSCAN.clusterIdx st)
                (DBSCAN.clusters st)) as Hf.
  rewrite vs_length in Hf. specialize (Hf Hn Hc).
  destruct (route_silhouette_finite _ Hf) as (s & Es & Bs). rewrite Es. cbn [bind].
  destruct (clusterCoherence_ok vs
              (DBSCAN.foldNoise (DBSCAN.noise st) (DBSCAN.clusterIdx st) (DBSCAN.clusters st)))
    as (coh & Ecoh).
  { now rewrite vs_length. }
  rewrite Ecoh. cbn [bind].
  eexists. split; [reflexivity|].
  cbn [Route.clusters Route.silhouetteScore Route.iterations].
  split; [exact Hf|]. split; [reflexivity|]. exists s. split; [reflexivity | lra].
Qed.

End RouteKMeansFacts.

(** ** The algorithm selector *)



Lemma route_distance_vec (a b : list R) :
  length a = length b ->
  Route.cosineSimilarityDistance (vec a) (vec b) = Num (1 - Spec.cosine a b).
Proof.
  intros H. unfold Route.cosineSimilarityDistance. now rewrite route_cosine_vec.
Qed.



Lemma gt_irrefl (x : number) : gt x x = false.
Proof. destruct x; cbn [gt JS.lt]; try reflexivity. apply Rltb_false. lra. Qed.



(** The choice between two results: DBSCAN only for a strictly greater
    score. *)
Lemma selection_strict (rand : nat -> R) (embeddings : list vector) (documentCount : nat)
      (kmeansResult dbscanResult : Route.Result) :
  Route.runKMeans rand embeddings (Route.selectK documentCount) 20 = Some kmeansResult ->
  Route.runDBSCAN embeddings (Route.selectEpsilon embeddings)
                  (Route.selectMinPts documentCount) = Some dbscanResult ->
  exists selected,
    Route.runOptimalClustering rand embeddings documentCount = Some selected /\
    (Route.silhouetteScore dbscanResult = Route.silhouetteScore kmeansResult ->
     Route.result selected = kmeansResult /\ Route.algorithm selected = "K-means"%string) /\
    (Route.algorithm selected = "DBSCAN"%string ->
     Route.result selected = dbscanResult /\
     JS.lt (Route.silhouetteScore kmeansResult) (Route.silhouetteScore dbscanResult) = true) /\
    (Route.algorithm selected = "K-means"%string ->
     Route.result selected = kmeansResult /\
     JS.lt (Route.silhouetteScore kmeansResult) (Route.silhouetteScore dbscanResult) = false).
Proof.
  intros Ekm Edb. unfold Route.runOptimalClustering. rewrite Ekm, Edb. cbn [bind].
  eexists. split; [reflexivity|].
  destruct (gt (Route.silhouetteScore dbscanResult) (Route.silhouetteScore kmeansResult))
    eqn:E; cbn [Route.result Route.algorithm].
  - split; [|split].
    + intros Heq. rewrite Heq, gt_irrefl in E. discriminate.
    + intros _. split; [reflexivity | exact E].
    + discriminate.
  - split; [|split].
    + intros _. now split.
    + discriminate.
    + intros _. split; [reflexivity | exact E].
Qed.

(** C10.  On a non-empty set of vectors of reals of one dimension both
    engines return, and the selector returns the K-Means result whenever the
    two scores are equal; it returns the DBSCAN result only when the K-Means
    score is strictly below the DBSCAN score. *)
Theorem tie_selects_kmeans (rand : nat -> R) (vectors : list (list R))
        (dim documentCount : nat) :
  (forall i, 0 <= rand i < 1) ->
  vectors <> [] ->
  Forall (fun v => length v = dim) vectors ->
  let embeddings := map vec vectors in
  exists kmeansResult dbscanResult selected,
    Route.runKMeans rand embeddings (Route.selectK documentCount) 20 = Some kmeansResult /\
    Route.runDBSCAN embeddings (Route.selectEpsilon embeddings)
                    (Route.selectMinPts documentCount) = Some dbscanResult /\
    Route.runOptimalClustering rand embeddings documentCount = Some selected /\
    (Route.silhouetteScore dbscanResult = Route.silhouetteScore kmeansResult ->
     Route.result selected = kmeansResult /\ Route.algorithm selected = "K-means"%string) /\
    (Route.algorithm selected = "DBSCAN"%string ->
     Route.result selected = dbscanResult /\
     JS.lt (Route.silhouetteScore kmeansResult) (Route.silhouetteScore dbscanResult) = true).
Proof.
  intros Hrand Hne Hu embeddings. subst embeddings.
  assert (Hk : (1 <= Route.selectK documentCount)%nat) by (unfold Route.selectK; lia).
  destruct (runKMeans_ok vectors dim Hu Hne rand (Route.selectK documentCount) 20 Hrand Hk)
    as (km & first & Ekm & _); [lia|].
  destruct (runDBSCAN_ok vectors dim Hu (Route.selectEpsilon (map vec vectors))
                         (Route.selectMinPts documentCount)) as (db & Edb & _).
  destruct (selection_strict rand (map vec vectors) documentCount km db Ekm Edb)
    as (sel & Es & Htie & Hdb & _).
  exists km, db, sel. repeat split; try assumption; try (apply Htie; assumption);
    try (apply Hdb; assumption).
Qed.

Lemma tie_selects_kmeans_witness :
  exists kmeansResult dbscanResult selected,
    Route.runKMeans (fun _ => 0) (map vec [[1]]) (Route.selectK 1) 20 = Some kmeansResult /\
    Route.runDBSCAN (map vec [[1]]) (Route.selectEpsilon (map vec [[1]]))
                    (Route.selectMinPts 1) = Some dbscanResult /\
    Route.runOptimalClustering (fun _ => 0) (map vec [[1]]) 1 = Some selected.
Proof.
  destruct (tie_selects_kmeans (fun _ => 0) [[1]] 1 1) as (km & db & sel & H1 & H2 & H3 & _).
  - intros _. lra.
  - discriminate.
  - repeat constructor.
  - exists km, db, sel. repeat split; assumption.
Defined.

(** ** DBSCAN puts a noise point that is later reached into two clusters *)

Section DBSCANTrace.

Variable distance : vector -> vector -> number.
Variables v0 v1 v2 : vector.
Variable eps : number.

(** Point 0 is within [eps] of point 1 only, point 2 too, and point 1 is
    within [eps] of both. *)
Hypothesis near00 : le (distance v0 v0) eps = true.
Hypothesis near01 : le (distance v0 v1) eps = true.
Hypothesis near02 : le (distance v0 v2) eps = false.
Hypothesis near10 : le (distance v1 v0) eps = true.
Hypothesis near11 : le (distance v1 v1) eps = true.
Hypothesis near12 : le (distance v1 v2) eps = true.
Hypothesis near20 : le (distance v2 v0) eps = false.
Hypothesis near21 : le (distance v2 v1) eps = true.
Hypothesis near22 : le (distance v2 v2) eps = true.

Lemma trace_neighbors :
  DBSCAN.getNeighbors distance [v0; v1; v2] eps 0 = Some [0; 1]%nat /\
  DBSCAN.getNeighbors distance [v0; v1; v2] eps 1 = Some [0; 1; 2]%nat /\
  DBSCAN.getNeighbors distance [v0; v1; v2] eps 2 = Some [1; 2]%nat.
Proof.
  unfold DBSCAN.getNeighbors, indexed.
  cbn [nth_error bind length seq combine filter].
  rewrite near00, near01, near02, near10, near11, near12, near20, near21, near22.
  repeat split.
Qed.

(** With [minPts = 3]: point 0 has two neighbours and becomes noise; point 1
    has three and opens cluster 0, which takes the points 1, 0 and 2. *)
Lemma trace_mainLoop :
  DBSCAN.mainLoop distance [v0; v1; v2] eps 3
  = Some (DBSCAN.mkState [true; true; true] [0%nat] [(0%nat, [1; 0; 2]%nat)] 1).
Proof.
  destruct trace_neighbors as (N0 & N1 & N2).
  unfold DBSCAN.mainLoop. cbn [length seq foldM repeat].
  unfold DBSCAN.visit at 1. cbn [DBSCAN.visited nth]. rewrite N0.
  cbn [bind length Nat.ltb Nat.leb array_set DBSCAN.noise DBSCAN.clusters DBSCAN.clusterIdx app].
  unfold DBSCAN.visit at 1. cbn [DBSCAN.visited nth]. rewrite N1.
  cbn [bind length Nat.ltb Nat.leb array_set DBSCAN.noise DBSCAN.clusters DBSCAN.clusterIdx
       CMap.set CMap.empty].
  (* j = 0: point 0, visited as noise, joins the cluster *)
  rewrite expand_S.
  cbn [nth_error nth negb bind CMap.flat CMap.values map snd concat app includes existsb
       Nat.eqb orb].
  unfold CMap.push at 1. cbn [CMap.lookup Nat.eqb bind CMap.set Nat.ltb Nat.leb app].
  (* j = 1: point 1, the seed of the cluster *)
  rewrite expand_S.
  cbn [nth_error nth negb bind CMap.flat CMap.values map snd concat app includes existsb
       Nat.eqb orb].
  (* j = 2: point 2, not visited, not a core point *)
  rewrite expand_S.
  cbn [nth_error nth negb bind]. rewrite N2.
  cbn [bind length Nat.leb array_set CMap.flat CMap.values map snd concat app includes
       existsb Nat.eqb orb negb].
  unfold CMap.push at 1. cbn [CMap.lookup Nat.eqb bind CMap.set Nat.ltb Nat.leb app].
  cbn [DBSCAN.expand bind Nat.add].
  unfold DBSCAN.visit at 1. cbn [DBSCAN.visited nth]. reflexivity.
Qed.

End DBSCANTrace.

(** The three points: [1, 0], [3, 4] and [0, 1].  Their cosine distances
    are 0.4 (first and second), 0.2 (second and third) and 1 (first and
    third). *)
Lemma norm_10 : Spec.norm [1; 0] = 1.
Proof.
  unfold Spec.norm, Spec.dot. cbn [length Nat.min Spec.sum_upto nth].
  replace (0 + 1 * 1 + 0 * 0) with 1 by lra. apply sqrt_1.
Qed.

Lemma norm_01 : Spec.norm [0; 1] = 1.
Proof.
  unfold Spec.norm, Spec.dot. cbn [length Nat.min Spec.sum_upto nth].
  replace (0 + 0 * 0 + 1 * 1) with 1 by lra. apply sqrt_1.
Qed.

Lemma norm_34 : Spec.norm [3; 4] = 5.
Proof.
  unfold Spec.norm, Spec.dot. cbn [length Nat.min Spec.sum_upto nth].
  replace (0 + 3 * 3 + 4 * 4) with (5 * 5) by lra. apply sqrt_square. lra.
Qed.

Ltac cosine_value :=
  unfold Spec.cosine; rewrite ?norm_10, ?norm_01, ?norm_34;
  repeat match goal with
         | |- context [Req_dec_T ?x 0] => destruct (Req_dec_T x 0); [lra|]
         end;
  unfold Spec.dot; cbn [length Nat.min Spec.sum_upto nth]; lra.

Lemma cosine_10_10 : Spec.cosine [1; 0] [1; 0] = 1. Proof. cosine_value. Qed.
Lemma cosine_10_34 : Spec.cosine [1; 0] [3; 4] = 3 / 5. Proof. cosine_value. Qed.
Lemma cosine_10_01 : Spec.cosine [1; 0] [0; 1] = 0. Proof. cosine_value. Qed.
Lemma cosine_34_10 : Spec.cosine [3; 4] [1; 0] = 3 / 5. Proof. cosine_value. Qed.
Lemma cosine_34_34 : Spec.cosine [3; 4] [3; 4] = 1. Proof. cosine_value. Qed.
Lemma cosine_34_01 : Spec.cosine [3; 4] [0; 1] = 4 / 5. Proof. cosine_value. Qed.
Lemma cosine_01_10 : Spec.cosine [0; 1] [1; 0] = 0. Proof. cosine_value. Qed.
Lemma cosine_01_34 : Spec.cosine [0; 1] [3; 4] = 4 / 5. Proof. cosine_value. Qed.
Lemma cosine_01_01 : Spec.cosine [0; 1] [0; 1] = 1. Proof. cosine_value. Qed.

Lemma utils_distance_cosine (a b : list R) :
  length a = length b ->
  ClusteringAlgorithms.distance ClusteringAlgorithms.Cosine (vec a) (vec b)
  = Num (1 - Spec.cosine a b).
Proof.
  intros H. cbn [ClusteringAlgorithms.distance]. now rewrite utils_cosine_vec.
Qed.

Ltac near_half cos_eq :=
  first [ rewrite route_distance_vec by reflexivity
        | rewrite utils_distance_cosine by reflexivity ];
  rewrite cos_eq; cbn [le];
  first [ apply Rleb_true; lra | apply Rleb_false; lra ].

(** C1, at the failing input.  With [eps = 0.5] and [minPts = 3] (the
    defaults of [dbscanClustering]) on the points [1, 0], [3, 4], [0, 1],
    both DBSCAN engines return the clusters [{0: [1, 0, 2], 1: [0]}]: the
    index 0 was marked as noise, was then added to cluster 0 as a neighbour of
    point 1, and is still folded back as a cluster of its own.  It is in two
    clusters, so the result is not a partition of 0 .. 2. *)
Theorem dbscan_duplicates_noise_point :
  let vectors := map vec [[1; 0]; [3; 4]; [0; 1]] in
  let clusters := [(0%nat, [1; 0; 2]%nat); (1%nat, [0%nat])] in
  (exists r, Route.runDBSCAN vectors (Num (1 / 2)) 3 = Some r /\
             Route.clusters r = clusters) /\
  (exists r, ClusteringAlgorithms.dbscanClustering vectors (Num (1 / 2)) 3
                                                   ClusteringAlgorithms.Cosine = Some r /\
             ClusteringAlgorithms.clusters r = clusters) /\
  count_occ Nat.eq_dec (CMap.flat clusters) 0%nat = 2%nat /\
  ~ NoDup (CMap.flat clusters) /\
  ~ Inv.partition 3 clusters.
Proof.
  intros vectors clusters.
  assert (Hu : Forall (fun v : list R => length v = 2%nat) [[1; 0]; [3; 4]; [0; 1]])
    by (repeat constructor).
  assert (Hr : Spec.in_range 3 clusters) by (unfold clusters, Spec.in_range; repeat constructor).
  assert (Hdup : ~ NoDup (CMap.flat clusters)).
  { cbn. intros H. inversion H as [|? ? _ H1]; subst.
    inversion H1 as [|? ? Hn _]; subst. apply Hn. right. now left. }
  split; [|split; [|split; [|split]]].
  - unfold Route.runDBSCAN, vectors. cbn [map].
    rewrite (trace_mainLoop Route.cosineSimilarityDistance
               (vec [1; 0]) (vec [3; 4]) (vec [0; 1]) (Num (1 / 2)));
      [| near_half cosine_10_10 | near_half cosine_10_34 | near_half cosine_10_01
       | near_half cosine_34_10 | near_half cosine_34_34 | near_half cosine_34_01
       | near_half cosine_01_10 | near_half cosine_01_34 | near_half cosine_01_01 ].
    cbn [bind DBSCAN.noise DBSCAN.clusterIdx DBSCAN.clusters DBSCAN.foldNoise length
         Nat.ltb Nat.leb indexed seq combine fold_left Nat.add CMap.set Nat.eqb].
    fold clusters.
    pose proof (route_silhouette_spec [[1; 0]; [3; 4]; [0; 1]] 2 clusters Hu Hr) as Es.
    cbn [map] in Es. rewrite Es. cbn [bind].
    destruct (clusterCoherence_ok [vec [1; 0]; vec [3; 4]; vec [0; 1]] clusters Hr)
      as (coh & Ecoh).
    rewrite Ecoh. cbn [bind]. eexists. split; reflexivity.
  - unfold ClusteringAlgorithms.dbscanClustering, vectors. cbn [map length Nat.eqb].
    rewrite (trace_mainLoop (ClusteringAlgorithms.distance ClusteringAlgorithms.Cosine)
               (vec [1; 0]) (vec [3; 4]) (vec [0; 1]) (Num (1 / 2)));
      [| near_half cosine_10_10 | near_half cosine_10_34 | near_half cosine_10_01
       | near_half cosine_34_10 | near_half cosine_34_34 | near_half cosine_34_01
       | near_half cosine_01_10 | near_half cosine_01_34 | near_half cosine_01_01 ].
    cbn [bind DBSCAN.noise DBSCAN.clusterIdx DBSCAN.clusters DBSCAN.foldNoise length
         Nat.ltb Nat.leb indexed seq combine fold_left Nat.add CMap.set Nat.eqb].
    fold clusters.
    pose proof (utils_silhouette_spec ClusteringAlgorithms.Cosine
                  [[1; 0]; [3; 4]; [0; 1]] 2 clusters Hu Hr) as Es.
    cbn [map] in Es. rewrite Es. cbn [bind].
    eexists. split; reflexivity.
  - reflexivity.
  - exact Hdup.
  - unfold Inv.partition. intros H. apply Hdup.
    apply (Permutation_NoDup (Permutation_sym H)). apply seq_NoDup.
Qed.

(** ** Empty clusters in the result of K-Means *)

Lemma lookup_delete (k key : nat) (m : CMap.t) :
  CMap.lookup k (CMap.delete key m) = if (k =? key)%nat then None else CMap.lookup k m.
Proof.
  unfold CMap.delete. induction m as [|[k' v'] m IH]; cbn [filter CMap.lookup fst].
  - now destruct (k =? key)%nat.
  - destruct (k' =? key)%nat eqn:E1; cbn [negb CMap.lookup].
    + apply Nat.eqb_eq in E1. subst k'. rewrite IH.
      destruct (k =? key)%nat; reflexivity.
    + destruct (k =? k')%nat eqn:E2; [|exact IH].
      apply Nat.eqb_eq in E2. subst k'.
      now rewrite E1.
Qed.

(** clustering-algorithms.ts: after "Remove empty clusters" no key of the
    map has an empty list. *)
Lemma removeEmpty_lookup (clusters : CMap.t) (k : nat) (pts : list nat) :
  CMap.lookup k (ClusteringAlgorithms.removeEmpty clusters) = Some pts -> pts <> [].
Proof.
  unfold ClusteringAlgorithms.removeEmpty.
  assert (G : forall (ks : list nat) (m : CMap.t),
             CMap.lookup k
               (fold_left (fun m key => match CMap.lookup key m with
                                        | Some [] => CMap.delete key m
                                        | _ => m
                                        end) ks m)
             = match CMap.lookup k m with
               | Some [] => if in_dec Nat.eq_dec k ks then None else Some []
               | other => other
               end).
  { induction ks as [|key ks IH]; intros m; cbn [fold_left].
    - destruct (CMap.lookup k m) as [[|]|]; reflexivity.
    - rewrite IH. destruct (Nat.eq_dec key k) as [->|Hne].
      + destruct (CMap.lookup k m) as [[|x v]|] eqn:El.
        * rewrite lookup_delete, Nat.eqb_refl.
          destruct (in_dec Nat.eq_dec k (k :: ks)) as [|Hn]; [reflexivity|].
          exfalso. apply Hn. now left.
        * rewrite El. reflexivity.
        * rewrite El. reflexivity.
      + assert (E : CMap.lookup k (match CMap.lookup key m with
                                   | Some [] => CMap.delete key m
                                   | _ => m
                                   end) = CMap.lookup k m).
        { destruct (CMap.lookup key m) as [[|]|]; try reflexivity.
          rewrite lookup_delete. now rewrite (proj2 (Nat.eqb_neq k key)) by congruence. }
        rewrite E. destruct (CMap.lookup k m) as [[|x v]|]; try reflexivity.
        destruct (in_dec Nat.eq_dec k ks) as [Hi|Hi];
          destruct (in_dec Nat.eq_dec k (key :: ks)) as [Hj|Hj]; try reflexivity.
        * exfalso. apply Hj. now right.
        * exfalso. destruct Hj as [Hj|Hj]; [congruence | contradiction]. }
  intros H. rewrite G in H.
  destruct (CMap.lookup k clusters) as [[|x v]|] eqn:El.
  - destruct (in_dec Nat.eq_dec k (CMap.keys clusters)) as [|Hn]; [discriminate|].
    exfalso. apply Hn. clear -El. induction clusters as [|[k' v'] m IH]; [discriminate|].
    cbn [CMap.lookup] in El. cbn [CMap.keys map fst].
    destruct (k =? k')%nat eqn:E; [apply Nat.eqb_eq in E; now left | right; now apply IH].
  - injection H as <-. discriminate.
  - discriminate.
Qed.

Lemma utils_kmeans_no_empty_cluster (rand : nat -> R) (vs : list vector) (k maxIterations : nat)
      (metric : ClusteringAlgorithms.DistanceMetric) (r : ClusteringAlgorithms.ClusteringResult) :
  ClusteringAlgorithms.kMeansClustering rand vs k maxIterations metric = Some r ->
  forall clusterId pts,
    CMap.lookup clusterId (ClusteringAlgorithms.clusters r) = Some pts -> pts <> [].
Proof.
  unfold ClusteringAlgorithms.kMeansClustering. intros H clusterId pts Hl.
  destruct (length vs =? 0)%nat.
  - injection H as <-. discriminate.
  - destruct (nth_error vs 0) as [v0|]; [|discriminate]. cbn [bind] in H.
    destruct (nth_error vs _) as [first|]; [|discriminate]. cbn [bind] in H.
    destruct (fold_left _ _ _) as [centroids used].
    destruct (ClusteringAlgorithms.mainLoop _ _ _ _ _ _ _ _) as [[[clusters cs] its]|];
      [|discriminate].
    cbn [bind] in H.
    destruct (ClusteringAlgorithms.calculateSilhouetteScore _ _ _) as [s|]; [|discriminate].
    cbn [bind] in H. injection H as <-. cbn [ClusteringAlgorithms.clusters] in Hl.
    exact (removeEmpty_lookup _ _ _ Hl).
Qed.

Lemma seed_identical (rand : nat -> R) (i : nat) :
  Route.seed 2 rand (map vec [[1; 0]; [1; 0]]) 2 [vec [1; 0]] [i] 1 = [vec [1; 0]].
Proof.
  rewrite seed_S. cbn [length Nat.ltb Nat.leb map].
  assert (E : exists distances,
             Route.seedDistances [vec [1; 0]; vec [1; 0]] [i] [vec [1; 0]]
             = (distances, Num 0)).
  { unfold Route.seedDistances, indexed, Route.minDistTo.
    destruct i as [|[|i]];
      cbn [length seq combine fold_left includes existsb Nat.eqb orb];
      rewrite ?route_distance_vec by reflexivity; rewrite ?cosine_10_10;
      cbn [JS.min JS.lt mul add app];
      eexists; f_equal; f_equal; lra. }
  destruct E as (distances & ->).
  unfold JS.eq. rewrite Reqb_true by reflexivity. reflexivity.
Qed.

(** C7, at the failing input.  For two equal vectors and [k = 2]
    [runKMeans] of route.ts cannot seed a second centroid (the total squared
    distance is 0), both points go to cluster 0, and the result keeps the
    key 1 with an empty list: nothing in route.ts removes it, while
    [kMeansClustering] of clustering-algorithms.ts does
    ([utils_kmeans_no_empty_cluster]). *)
Theorem route_kmeans_keeps_empty_cluster (rand : nat -> R) :
  (forall i, 0 <= rand i < 1) ->
  exists r,
    Route.runKMeans rand (map vec [[1; 0]; [1; 0]]) 2 20 = Some r /\
    CMap.keys (Route.clusters r) = [0; 1]%nat /\
    CMap.lookup 1 (Route.clusters r) = Some [] /\
    In (1%nat, []) (Route.clusters r).
Proof.
  intros Hrand.
  destruct (runKMeans_ok [[1; 0]; [1; 0]] 2) with (rand := rand) (k := 2%nat)
                                                    (maxIterations := 20%nat)
    as (r & first & Er & Ef & (Hk & _ & Hc) & _); try lia; try assumption.
  { repeat constructor. }
  { discriminate. }
  exists r. split; [exact Er|].
  cbn [length Nat.min] in Hk, Hc, Ef.
  assert (Hfirst : first = vec [1; 0]).
  { cbn [map] in Ef. destruct (Route.randomIndex (rand 0%nat) 2) as [|[|j]];
      cbn [nth_error] in Ef; try (now injection Ef as <-).
    destruct j; discriminate. }
  subst first. rewrite seed_identical in Hc. cbn [length] in Hc.
  split; [exact Hk|].
  destruct (lookup_keys_seq _ 2 1 Hk) as (pts & Hl); [lia|].
  assert (Hpts : pts = []).
  { destruct pts as [|p pts]; [reflexivity|].
    specialize (Hc 1%nat (p :: pts) Hl). assert (1 < 1)%nat by (apply Hc; discriminate). lia. }
  subst pts. split; [exact Hl|].
  clear -Hl. induction (Route.clusters r) as [|[k' v'] m IH]; [discriminate|].
  cbn [CMap.lookup] in Hl. destruct (1 =? k')%nat eqn:E.
  - apply Nat.eqb_eq in E. subst k'. injection Hl as ->. now left.
  - right. now apply IH.
Qed.

Lemma route_kmeans_keeps_empty_cluster_witness :
  exists r,
    Route.runKMeans (fun _ => 0) (map vec [[1; 0]; [1; 0]]) 2 20 = Some r /\
    CMap.keys (Route.clusters r) = [0; 1]%nat /\
    CMap.lookup 1 (Route.clusters r) = Some [] /\
    In (1%nat, []) (Route.clusters r).
Proof. apply (route_kmeans_keeps_empty_cluster (fun _ => 0)). intros _. lra. Defined.

(* ================================================================== *)
(** * Further properties of the code *)
(* ================================================================== *)

(** ** runKMeans of route.ts returns a partition *)

(** *** Comparisons of scores *)

Lemma lt_trans (x y z : number) :
  JS.lt x y = true -> JS.lt y z = true -> JS.lt x z = true.
Proof.
  destruct x as [a| | |], y as [b| | |], z as [c| | |]; cbn [JS.lt];
    intros H1 H2; try discriminate; try reflexivity.
  unfold Rltb in *.
  destruct (Rlt_dec a b), (Rlt_dec b c), (Rlt_dec a c);
    try discriminate; try reflexivity. lra.
Qed.

(** A score that does not beat [b] is not as high as a score that does. *)
Lemma beaten (b s t : number) : gt s b = false -> gt t b = true -> ge s t = false.
Proof.
  unfold gt, ge.
  destruct b as [b| | |], s as [s| | |], t as [t| | |]; cbn [JS.lt JS.le];
    intros H1 H2; try discriminate; try reflexivity.
  unfold Rltb, Rleb in *.
  destruct (Rlt_dec b s), (Rlt_dec b t), (Rle_dec t s);
    try discriminate; try reflexivity. lra.
Qed.

(** *** The scorer returns on every cluster map in range *)

Lemma foldM_total {A B : Type} (f : A -> B -> option A) (l : list B) (a : A) :
  (forall a x, In x l -> exists a', f a x = Some a') ->
  exists a', foldM f l a = Some a'.
Proof.
  intros H. destruct (foldM_inv (fun _ => True) f l a I) as (a' & E & _).
  - intros a0 x Hx _. destruct (H a0 x Hx) as (a1 & E1). now exists a1.
  - now exists a'.
Qed.

Section ScoreReturns.

Variable dist : nat -> nat -> option number.
Variable n : nat.

Hypothesis dist_returns :
  forall p q, (p < n)%nat -> (q < n)%nat -> exists x, dist p q = Some x.

Lemma intra_returns (p : nat) (pts : list nat) :
  (p < n)%nat -> Forall (fun q => (q < n)%nat) pts ->
  exists x, Silhouette.intraClusterDist dist p pts = Some x.
Proof.
  intros Hp Hpts. unfold Silhouette.intraClusterDist. apply foldM_total.
  intros acc q Hq. destruct (p =? q)%nat; [eauto|].
  rewrite Forall_forall in Hpts.
  destruct (dist_returns p q Hp (Hpts q Hq)) as (x & ->). cbn [bind]. eauto.
Qed.

Lemma inter_returns (p : nat) (pts : list nat) :
  (p < n)%nat -> Forall (fun q => (q < n)%nat) pts ->
  exists x, Silhouette.interClusterDist dist p pts = Some x.
Proof.
  intros Hp Hpts. unfold Silhouette.interClusterDist. apply foldM_total.
  intros acc q Hq. rewrite Forall_forall in Hpts.
  destruct (dist_returns p q Hp (Hpts q Hq)) as (x & ->). cbn [bind]. eauto.
Qed.

Lemma point_returns (clusters : CMap.t) (clusterId : nat) (pts : list nat) (p : nat) :
  (p < n)%nat -> Forall (fun q => (q < n)%nat) pts -> Spec.in_range n clusters ->
  exists s, Silhouette.point_silhouette dist clusters clusterId pts p = Some s.
Proof.
  intros Hp Hpts Hc. unfold Silhouette.point_silhouette, Silhouette.a_of.
  destruct (intra_returns p pts Hp Hpts) as (intra & ->). cbn [bind].
  assert (Hb : exists b, Silhouette.b_of dist clusters clusterId p = Some b).
  { unfold Silhouette.b_of. apply foldM_total.
    intros m [oid opts] Hin. destruct (oid =? clusterId)%nat; [eauto|].
    unfold Spec.in_range in Hc. rewrite Forall_forall in Hc.
    destruct (inter_returns p opts Hp (Hc _ Hin)) as (inter & ->). cbn [bind]. eauto. }
  destruct Hb as (b & ->). cbn [bind]. eauto.
Qed.

Lemma score_returns (clusters : CMap.t) :
  Spec.in_range n clusters -> exists s, Silhouette.score dist clusters = Some s.
Proof.
  intros Hc. unfold Silhouette.score.
  destruct (length (CMap.keys clusters) <=? 1)%nat; [eauto|].
  assert (Ht : exists t, Silhouette.totals dist clusters = Some t).
  { unfold Silhouette.totals. apply foldM_total.
    intros acc [cid pts] Hin. apply foldM_total.
    intros [totalSilhouette totalPoints] p Hp.
    unfold Spec.in_range in Hc. pose proof Hc as Hc'. rewrite Forall_forall in Hc'.
    pose proof (Hc' _ Hin) as Hpts. cbn [snd] in Hpts.
    assert (Hpn : (p < n)%nat) by (rewrite Forall_forall in Hpts; now apply Hpts).
    destruct (point_returns clusters cid pts p Hpn Hpts Hc) as (s & ->).
    cbn [bind]. eauto. }
  destruct Ht as ([totalSilhouette totalPoints] & ->). cbn [bind]. eauto.
Qed.

End ScoreReturns.

Lemma route_score_returns (vs : list vector) (clusters : CMap.t) :
  Spec.in_range (length vs) clusters ->
  exists s, Route.calculateSilhouetteScore vs clusters = Some s.
Proof.
  intros H. unfold Route.calculateSilhouetteScore.
  apply (score_returns _ (length vs)); [|exact H].
  intros p q Hp Hq. unfold Route.distAt.
  destruct (nth_error vs p) as [a|] eqn:Ea; [|apply nth_error_None in Ea; lia].
  destruct (nth_error vs q) as [b|] eqn:Eb; [|apply nth_error_None in Eb; lia].
  cbn [bind]. eauto.
Qed.

Lemma utils_score_returns (vs : list vector) (clusters : CMap.t)
      (metric : ClusteringAlgorithms.DistanceMetric) :
  Spec.in_range (length vs) clusters ->
  exists s, ClusteringAlgorithms.calculateSilhouetteScore vs clusters metric = Some s.
Proof.
  intros H. unfold ClusteringAlgorithms.calculateSilhouetteScore.
  apply (score_returns _ (length vs)); [|exact H].
  intros p q Hp Hq.
  destruct (nth_error vs p) as [a|] eqn:Ea; [|apply nth_error_None in Ea; lia].
  destruct (nth_error vs q) as [b|] eqn:Eb; [|apply nth_error_None in Eb; lia].
  cbn [ClusteringAlgorithms.distanceU]. eauto.
Qed.

(** *** The iterations, on any vectors *)

Section AnyVectors.

Variable vs : list vector.
Hypothesis nonempty : vs <> [].

(** One iteration cannot throw, whatever the numbers of the vectors are
    (NaN and the infinities included): it assigns a partition, scores it,
    and keeps it when its score beats the best score so far. *)
Lemma iteration_any (k : nat) (st : Route.KState) (iter : nat) :
  Best.kstate vs k st ->
  exists clusters s st',
    Route.assign vs (Route.ks_centroids st) k = Some clusters /\
    Route.calculateSilhouetteScore vs clusters = Some s /\
    Route.iteration vs k st iter = Some st' /\
    Best.kstate vs k st' /\
    Route.ks_iterations st' = (iter + 1)%nat /\
    Route.ks_centroids st' <> [] /\
    (if gt s (Route.ks_bestSilhouette st)
     then Route.ks_bestClusters st' = clusters /\ Route.ks_bestSilhouette st' = s
     else Route.ks_bestClusters st' = Route.ks_bestClusters st /\
          Route.ks_bestSilhouette st' = Route.ks_bestSilhouette st).
Proof.
  intros (Hc & Hr & Hb).
  assert (Hne : Route.ks_centroids st <> []).
  { destruct (Route.ks_centroids st); [simpl in Hc; lia | discriminate]. }
  destruct (assign_ok vs (Route.ks_centroids st) k Hne (proj2 Hc))
    as (clusters & Ea & Hinv & Hpart).
  destruct (updateCentroids_ok vs clusters k (Route.ks_centroids st) nonempty Hinv)
    as (centroids' & Eu & Hlen).
  destruct (route_score_returns vs clusters (proj1 (proj2 Hinv))) as (s & Es).
  assert (Hne' : centroids' <> []).
  { destruct centroids'; [simpl in Hlen; lia | discriminate]. }
  exists clusters, s. eexists. split; [exact Ea|]. split; [exact Es|].
  split; [unfold Route.iteration; rewrite Ea; cbn [bind]; rewrite Eu; cbn [bind];
          rewrite Es; cbn [bind]; reflexivity|].
  destruct (gt s (Route.ks_bestSilhouette st)) eqn:Egt;
    unfold Best.kstate;
    cbn [Route.ks_centroids Route.ks_bestClusters Route.ks_bestSilhouette
         Route.ks_iterations];
    rewrite Hlen.
  - split; [|split; [reflexivity | split; [exact Hne' | now split]]].
    split; [exact Hc|]. split; [exact (proj1 (proj2 Hinv))|].
    right. split; [exact (proj1 Hinv)|]. split; [exact Hpart|]. split; [exact Es|].
    destruct Hb as [[_ Eb] | (_ & _ & _ & Hgt)].
    + now rewrite Eb in Egt.
    + unfold gt in *. exact (lt_trans _ _ _ Hgt Egt).
  - split; [|split; [reflexivity | split; [exact Hne' | now split]]].
    split; [exact Hc|]. split; [exact Hr | exact Hb].
Qed.

Lemma iterations_any (k : nat) (iters : list nat) (st : Route.KState) :
  Best.kstate vs k st ->
  exists st', foldM (Route.iteration vs k) iters st = Some st' /\ Best.kstate vs k st'.
Proof.
  intros H. apply foldM_inv; [exact H|].
  intros st0 iter _ H0.
  destruct (iteration_any k st0 iter H0) as (_ & _ & st1 & _ & _ & E1 & H1 & _).
  now exists st1.
Qed.

Lemma min_clusters (k : nat) :
  (1 <= k)%nat ->
  (if (length vs <? k)%nat then length vs else k) = Nat.min k (length vs) /\
  (1 <= Nat.min k (length vs))%nat.
Proof.
  intros Hk.
  assert (Hn : (1 <= length vs)%nat) by (destruct vs; [contradiction | cbn [length]; lia]).
  destruct (length vs <? k)%nat eqn:E; [apply Nat.ltb_lt in E | apply Nat.ltb_ge in E]; lia.
Qed.

(** The state in which the iterations start. *)
Lemma seeded (rand : nat -> R) (k : nat) (first : vector) (firstIndex calls : nat) :
  (1 <= k)%nat ->
  Best.kstate vs k
    (Route.mkKState (Route.seed k rand vs k [first] [firstIndex] calls)
                    CMap.empty (Num (-1)) 0).
Proof.
  intros Hk. unfold Best.kstate.
  cbn [Route.ks_centroids Route.ks_bestClusters Route.ks_bestSilhouette].
  split; [apply seed_length; cbn [length]; lia|].
  split; [constructor|]. left. now split.
Qed.

(** [runKMeans] returns on every non-empty set of vectors.  All the
    iterations are made.  The result is the initial one, no clusters and
    the score -1, when no iteration scored above -1; otherwise its cluster
    map has the keys 0 .. min(k, N) - 1 and holds every index 0 .. N - 1 in
    exactly one cluster, and its score is the score of that map, above
    -1. *)
Lemma runKMeans_any (rand : nat -> R) (k maxIterations : nat) :
  (forall i, 0 <= rand i < 1) -> (1 <= k)%nat ->
  exists r,
    Route.runKMeans rand vs k maxIterations = Some r /\
    Route.iterations r = Some maxIterations /\
    Spec.in_range (length vs) (Route.clusters r) /\
    Best.held vs (Nat.min k (length vs)) (Route.clusters r) (Route.silhouetteScore r).
Proof.
  intros Hrand Hk. unfold Route.runKMeans.
  destruct (min_clusters k Hk) as [-> Hk'].
  set (k' := Nat.min k (length vs)) in *.
  assert (Hn : (1 <= length vs)%nat) by (destruct vs; [contradiction | cbn [length]; lia]).
  pose proof (randomIndex_lt (rand 0%nat) (length vs) (Hrand 0%nat) Hn) as Hfirst.
  destruct (nth_error vs (Route.randomIndex (rand 0%nat) (length vs))) as [first|] eqn:Ef;
    [|apply nth_error_None in Ef; lia].
  cbn [bind].
  pose proof (seeded rand k' first (Route.randomIndex (rand 0%nat) (length vs)) 1 Hk') as H0.
  assert (G : exists st,
             foldM (Route.iteration vs k') (seq 0 maxIterations)
                   (Route.mkKState
                      (Route.seed k' rand vs k' [first]
                                  [Route.randomIndex (rand 0%nat) (length vs)] 1)
                      CMap.empty (Num (-1)) 0) = Some st /\
             Best.kstate vs k' st /\ Route.ks_iterations st = maxIterations).
  { destruct maxIterations as [|m].
    - eexists. split; [reflexivity|]. split; [exact H0 | reflexivity].
    - rewrite seq_S, foldM_app. cbn [Nat.add].
      destruct (iterations_any k' (seq 0 m) _ H0) as (st0 & E0 & Hst0).
      rewrite E0. cbn [bind foldM].
      destruct (iteration_any k' st0 m Hst0) as (_ & _ & st & _ & _ & E & Hst & Hit & _).
      rewrite E. cbn [bind]. exists st. split; [reflexivity|]. split; [exact Hst | lia]. }
  destruct G as (st & -> & (_ & Hr & Hb) & Hit). cbn [bind].
  destruct (clusterCoherence_ok vs (Route.ks_bestClusters st) Hr) as (coh & ->).
  cbn [bind]. eexists. split; [reflexivity|].
  cbn [Route.clusters Route.silhouetteScore Route.iterations].
  split; [now rewrite Hit|]. split; [exact Hr | exact Hb].
Qed.

End AnyVectors.

(** [runKMeans] of route.ts returns on every non-empty set of vectors,
    whatever numbers they hold, when [k >= 1].  The iteration count of the
    result is [maxIterations]: the loop has no early exit.  The result
    holds either no cluster at all, with the score -1 (no iteration scored
    above -1, the value the best score starts from), or a cluster map with
    the keys 0 .. min(k, N) - 1 in which every index 0 .. N - 1 is in
    exactly one cluster, with the score that [calculateSilhouetteScore]
    gives this map, which is above -1. *)
Theorem route_kmeans_partition (rand : nat -> R) (vectors : list vector)
        (k maxIterations : nat) :
  (forall i, 0 <= rand i < 1) -> vectors <> [] -> (1 <= k)%nat ->
  exists r,
    Route.runKMeans rand vectors k maxIterations = Some r /\
    Route.iterations r = Some maxIterations /\
    ((Route.clusters r = CMap.empty /\ Route.silhouetteScore r = Num (-1)) \/
     (CMap.keys (Route.clusters r) = seq 0 (Nat.min k (length vectors)) /\
      Inv.partition (length vectors) (Route.clusters r) /\
      Route.calculateSilhouetteScore vectors (Route.clusters r)
      = Some (Route.silhouetteScore r) /\
      gt (Route.silhouetteScore r) (Num (-1)) = true)).
Proof.
  intros Hrand Hne Hk.
  destruct (runKMeans_any vectors Hne rand k maxIterations Hrand Hk) as (r & E & Hi & _ & Hb).
  exists r. split; [exact E|]. split; [exact Hi | exact Hb].
Qed.

Lemma route_kmeans_partition_witness :
  exists r,
    Route.runKMeans (fun _ => 0) [[Num 1; Num 0]; [Num 0; Num 1]; [Num 1; NaN]] 2 20 = Some r /\
    Route.iterations r = Some 20%nat /\
    ((Route.clusters r = CMap.empty /\ Route.silhouetteScore r = Num (-1)) \/
     (CMap.keys (Route.clusters r) = seq 0 (Nat.min 2 3) /\
      Inv.partition 3 (Route.clusters r) /\
      Route.calculateSilhouetteScore [[Num 1; Num 0]; [Num 0; Num 1]; [Num 1; NaN]]
                                     (Route.clusters r)
      = Some (Route.silhouetteScore r) /\
      gt (Route.silhouetteScore r) (Num (-1)) = true)).
Proof.
  apply (route_kmeans_partition (fun _ => 0) [[Num 1; Num 0]; [Num 0; Num 1]; [Num 1; NaN]]
                                2 20).
  - intros _. lra.
  - discriminate.
  - lia.
Defined.

(** ** Symmetry of the similarity and of the distances *)

Lemma mul_comm (x y : number) : mul x y = mul y x.
Proof. destruct x, y; cbn [mul]; try reflexivity. f_equal. apply Rmult_comm. Qed.

Lemma cosine_step_swap (a b : vector) (l : list nat) (d na nb : number) :
  fold_left (cosine_step b a) l (d, nb, na)
  = let '(d', na', nb') := fold_left (cosine_step a b) l (d, na, nb) in (d', nb', na').
Proof.
  revert d na nb. induction l as [|i l IH]; intros d na nb; [reflexivity|].
  cbn [fold_left cosine_step]. rewrite (mul_comm (get b i) (get a i)). apply IH.
Qed.

Lemma sq_diff_swap (x y : number) : mul (sub x y) (sub x y) = mul (sub y x) (sub y x).
Proof.
  destruct x, y; cbn [sub neg add mul]; try reflexivity. f_equal. ring.
Qed.

(** The similarity of route.ts is symmetric on all pairs of vectors,
    whatever their lengths and their components (NaN and the infinities
    included), and so is its distance.  The functions of text-analysis.ts
    loop over the length of their first argument: they are symmetric on
    vectors of equal length. *)
Theorem similarity_symmetric (a b : vector) :
  Route.cosineSimilarity a b = Route.cosineSimilarity b a /\
  Route.cosineSimilarityDistance a b = Route.cosineSimilarityDistance b a /\
  (length a = length b ->
   TextAnalysis.cosineSimilarity a b = TextAnalysis.cosineSimilarity b a /\
   TextAnalysis.euclideanDistance a b = TextAnalysis.euclideanDistance b a).
Proof.
  assert (R1 : Route.cosineSimilarity a b = Route.cosineSimilarity b a).
  { unfold Route.cosineSimilarity.
    rewrite (Nat.min_comm (length b) (length a)), (cosine_step_swap a b).
    destruct (fold_left (cosine_step a b) _ _) as [[d na] nb].
    rewrite (orb_comm (eq (sqrt nb) (Num 0))), (mul_comm (sqrt nb)). reflexivity. }
  split; [exact R1|]. split; [unfold Route.cosineSimilarityDistance; now rewrite R1|].
  intros Hlen. split.
  - unfold TextAnalysis.cosineSimilarity. rewrite <- Hlen, (cosine_step_swap a b).
    destruct (fold_left (cosine_step a b) _ _) as [[d na] nb].
    rewrite (orb_comm (eq nb (Num 0))), (mul_comm (sqrt nb)). reflexivity.
  - unfold TextAnalysis.euclideanDistance. rewrite <- Hlen. f_equal.
    apply fold_left_ext_in. intros acc i _. cbv zeta. now rewrite sq_diff_swap.
Qed.

Lemma similarity_symmetric_witness :
  Route.cosineSimilarity [Num 1; NaN] [PosInf] = Route.cosineSimilarity [PosInf] [Num 1; NaN] /\
  Route.cosineSimilarityDistance [Num 1; NaN] [PosInf]
  = Route.cosineSimilarityDistance [PosInf] [Num 1; NaN] /\
  TextAnalysis.cosineSimilarity [Num 1; NaN] [PosInf; Num 2]
  = TextAnalysis.cosineSimilarity [PosInf; Num 2] [Num 1; NaN] /\
  TextAnalysis.euclideanDistance [Num 1; NaN] [PosInf; Num 2]
  = TextAnalysis.euclideanDistance [PosInf; Num 2] [Num 1; NaN].
Proof.
  destruct (similarity_symmetric [Num 1; NaN] [PosInf]) as (H1 & H2 & _).
  destruct (similarity_symmetric [Num 1; NaN] [PosInf; Num 2]) as (_ & _ & H3).
  split; [exact H1|]. split; [exact H2|]. apply H3. reflexivity.
Defined.

(** ** The zero vector *)

Lemma sum_upto_zero (n : nat) (f : nat -> R) :
  (forall i, (i < n)%nat -> f i = 0) -> Spec.sum_upto n f = 0.
Proof.
  induction n as [|n IH]; intros H; cbn [Spec.sum_upto]; [reflexivity|].
  rewrite IH by (intros; apply H; lia). rewrite H by lia. lra.
Qed.

Lemma get_zeros (n i : nat) : (i < n)%nat -> get (repeat (Num 0) n) i = Num 0.
Proof. intros H. unfold get. now apply nth_repeat_lt. Qed.

(** The sum of the squares of a zero vector stays 0 in the loop, whatever
    the other vector holds. *)
Lemma zero_norm_left (n : nat) (b : vector) (l : list nat) (d nb : number) :
  Forall (fun i => (i < n)%nat) l ->
  exists d' nb',
    fold_left (cosine_step (repeat (Num 0) n) b) l (d, Num 0, nb) = (d', Num 0, nb').
Proof.
  intros H. revert d nb. induction H as [|i l Hi _ IH]; intros d nb; cbn [fold_left].
  - now exists d, nb.
  - cbn [cosine_step]. rewrite (get_zeros n i Hi). cbn [mul add].
    replace (0 + 0 * 0) with 0 by ring. apply IH.
Qed.

Lemma zero_norm_right (n : nat) (a : vector) (l : list nat) (d na : number) :
  Forall (fun i => (i < n)%nat) l ->
  exists d' na',
    fold_left (cosine_step a (repeat (Num 0) n)) l (d, na, Num 0) = (d', na', Num 0).
Proof.
  intros H. revert d na. induction H as [|i l Hi _ IH]; intros d na; cbn [fold_left].
  - now exists d, na.
  - cbn [cosine_step]. rewrite (get_zeros n i Hi). cbn [mul add].
    replace (0 + 0 * 0) with 0 by ring. apply IH.
Qed.

Lemma seq_below (n m : nat) : (m <= n)%nat -> Forall (fun i => (i < n)%nat) (seq 0 m).
Proof. intros H. apply Forall_forall. intros i Hi. apply in_seq in Hi. lia. Qed.

Lemma sqrt_zero : JS.sqrt (Num 0) = Num 0.
Proof. rewrite sqrt_Num by lra. now rewrite sqrt_0. Qed.

Lemma eq_zero : JS.eq (Num 0) (Num 0) = true.
Proof. cbn [JS.eq]. now apply Reqb_true. Qed.

Lemma zero_vector (n : nat) (b : vector) :
  Route.cosineSimilarity (repeat (Num 0) n) b = Num 0 /\
  Route.cosineSimilarity b (repeat (Num 0) n) = Num 0 /\
  TextAnalysis.cosineSimilarity (repeat (Num 0) n) b = Num 0 /\
  ((length b <= n)%nat -> TextAnalysis.cosineSimilarity b (repeat (Num 0) n) = Num 0).
Proof.
  split; [|split; [|split]].
  - unfold Route.cosineSimilarity. rewrite repeat_length.
    destruct (zero_norm_left n b (seq 0 (Nat.min n (length b))) (Num 0) (Num 0))
      as (d & nb & ->); [apply seq_below; lia|].
    cbv zeta. rewrite sqrt_zero, eq_zero. reflexivity.
  - unfold Route.cosineSimilarity. rewrite repeat_length.
    destruct (zero_norm_right n b (seq 0 (Nat.min (length b) n)) (Num 0) (Num 0))
      as (d & na & ->); [apply seq_below; lia|].
    cbv zeta. rewrite sqrt_zero, eq_zero. now rewrite orb_true_r.
  - unfold TextAnalysis.cosineSimilarity. rewrite repeat_length.
    destruct (zero_norm_left n b (seq 0 n) (Num 0) (Num 0)) as (d & nb & ->);
      [now apply seq_below|].
    now rewrite eq_zero.
  - intros Hl. unfold TextAnalysis.cosineSimilarity.
    destruct (zero_norm_right n b (seq 0 (length b)) (Num 0) (Num 0)) as (d & na & ->);
      [now apply seq_below|].
    rewrite eq_zero. now rewrite orb_true_r.
Qed.

(** The similarity with a vector of zeros is 0 and the cosine distance to
    it is 1, whatever numbers the other vector holds (NaN and the
    infinities included): in route.ts for every pair of lengths and in
    either order, in text-analysis.ts when the zero vector comes first or is
    at least as long as the other vector.  In particular the zero vector is
    at distance 1 from itself. *)
Theorem zero_vector_similarity (n : nat) (b : vector) :
  Route.cosineSimilarity (repeat (Num 0) n) b = Num 0 /\
  Route.cosineSimilarity b (repeat (Num 0) n) = Num 0 /\
  Route.cosineSimilarityDistance (repeat (Num 0) n) b = Num 1 /\
  Route.cosineSimilarityDistance b (repeat (Num 0) n) = Num 1 /\
  TextAnalysis.cosineSimilarity (repeat (Num 0) n) b = Num 0 /\
  ((length b <= n)%nat -> TextAnalysis.cosineSimilarity b (repeat (Num 0) n) = Num 0).
Proof.
  destruct (zero_vector n b) as (H1 & H2 & H3 & H4).
  unfold Route.cosineSimilarityDistance. rewrite H1, H2.
  assert (E : sub (Num 1) (Num 0) = Num 1) by (cbn [sub neg add]; f_equal; lra).
  rewrite E. now repeat split.
Qed.

Lemma zero_vector_similarity_witness :
  Route.cosineSimilarity (repeat (Num 0) 2) [NaN; PosInf] = Num 0 /\
  Route.cosineSimilarity [NaN; PosInf] (repeat (Num 0) 2) = Num 0 /\
  Route.cosineSimilarityDistance (repeat (Num 0) 2) [NaN; PosInf] = Num 1 /\
  Route.cosineSimilarityDistance [NaN; PosInf] (repeat (Num 0) 2) = Num 1 /\
  TextAnalysis.cosineSimilarity (repeat (Num 0) 2) [NaN; PosInf] = Num 0 /\
  TextAnalysis.cosineSimilarity [NaN; PosInf] (repeat (Num 0) 2) = Num 0.
Proof.
  destruct (zero_vector_similarity 2 [NaN; PosInf]) as (H1 & H2 & H3 & H4 & H5 & H6).
  repeat split; try assumption. apply H6. cbn [length]. lia.
Defined.

(** ** euclideanDistance *)

Lemma utils_euclid (a b : list R) :
  length a = length b ->
  TextAnalysis.euclideanDistance (vec a) (vec b) = Num (Metric.euclid a b).
Proof. apply utils_euclid_vec. Qed.

Lemma euclid_self (a : list R) : Metric.euclid a a = 0.
Proof.
  unfold Metric.euclid. rewrite sum_upto_zero; [apply sqrt_0|]. intros i _. ring.
Qed.

Lemma sqrt_not_negative (x : number) : JS.lt (JS.sqrt x) (Num 0) = false.
Proof.
  destruct x as [a| | |]; cbn [JS.sqrt JS.lt]; try reflexivity.
  destruct (Rltb a 0); cbn [JS.lt]; [reflexivity|].
  apply Rltb_false. apply sqrt_pos.
Qed.

(** [euclideanDistance] is never negative, whatever the two vectors hold
    (the test [d < 0] is false also when [d] is NaN), and the distance of a
    vector of finite numbers to itself is 0. *)
Theorem euclidean_distance_nonneg :
  (forall a b : vector, JS.lt (TextAnalysis.euclideanDistance a b) (Num 0) = false) /\
  (forall a : list R, TextAnalysis.euclideanDistance (vec a) (vec a) = Num 0).
Proof.
  split.
  - intros a b. unfold TextAnalysis.euclideanDistance. apply sqrt_not_negative.
  - intros a. rewrite (utils_euclid a a Logic.eq_refl). now rewrite euclid_self.
Qed.

(** ** DBSCAN leaves no point out *)

Lemma nth_array_set_eq (i : nat) (l : list bool) :
  (i < length l)%nat -> nth i (array_set i true l) false = true.
Proof.
  revert i. induction l as [|y l IH]; intros [|i] H; cbn [length] in H; try lia.
  - reflexivity.
  - cbn [array_set nth]. apply IH. lia.
Qed.

Lemma nth_array_set_ne (i p : nat) (x : bool) (l : list bool) :
  p <> i -> nth p (array_set i x l) false = nth p l false.
Proof.
  revert i p. induction l as [|y l IH]; intros [|i] [|p] H; cbn [array_set nth];
    try reflexivity; try congruence.
  apply IH. congruence.
Qed.

Lemma set_new (c : nat) (v : list nat) (m : CMap.t) :
  CMap.keys m = seq 0 c -> CMap.set c v m = m ++ [(c, v)].
Proof.
  intros Hk.
  assert (H : Forall (fun i => (i < c)%nat) (CMap.keys m)).
  { rewrite Hk. apply Forall_forall. intros i Hi. apply in_seq in Hi. lia. }
  clear Hk. induction m as [|[k' v'] m IH]; [reflexivity|].
  cbn [CMap.keys map fst] in H. inversion H as [|? ? Hk' Hm]; subst.
  cbn [CMap.set].
  rewrite (proj2 (Nat.ltb_ge c k')) by lia.
  rewrite (proj2 (Nat.eqb_neq c k')) by lia.
  cbn [app]. f_equal. now apply IH.
Qed.

Lemma lookup_app_last (m : CMap.t) (c id : nat) (v pts : list nat) :
  CMap.lookup id (m ++ [(c, v)]) = Some pts ->
  CMap.lookup id m = Some pts \/ pts = v.
Proof.
  induction m as [|[k' v'] m IH]; cbn [app CMap.lookup].
  - destruct (id =? c)%nat; [intros [= <-]; now right | discriminate].
  - destruct (id =? k')%nat; [intros H; now left | exact IH].
Qed.

(** [clusters[id].push(x)] on a map with the keys 0 .. c-1. *)
Lemma push_cover (c id x : nat) (pts : list nat) (m : CMap.t) :
  CMap.keys m = seq 0 c -> CMap.lookup id m = Some pts ->
  CMap.keys (CMap.set id (pts ++ [x]) m) = seq 0 c /\
  Permutation (CMap.flat (CMap.set id (pts ++ [x]) m)) (x :: CMap.flat m) /\
  (forall id' pts', CMap.lookup id' (CMap.set id (pts ++ [x]) m) = Some pts' ->
                    pts' = pts ++ [x] \/ CMap.lookup id' m = Some pts').
Proof.
  intros Hk Hl.
  assert (Hid : (0 <= id < 0 + c)%nat).
  { destruct (Nat.lt_ge_cases id c) as [H|H]; [lia|].
    rewrite (lookup_keys_none m c id Hk H) in Hl. discriminate. }
  destruct (set_existing id m 0 c Hk Hid) as (m1 & pts0 & m2 & Em & Hl0 & Es).
  assert (pts0 = pts) by congruence. subst pts0.
  rewrite Es. split; [|split].
  - rewrite <- Hk, Em, !keys_app. reflexivity.
  - rewrite Em, !flat_app, !flat_cons.
    rewrite <- app_assoc. cbn [app].
    apply Permutation_sym.
    change (x :: CMap.flat m1 ++ pts ++ CMap.flat m2)
      with ((x :: CMap.flat m1) ++ pts ++ CMap.flat m2).
    rewrite (app_assoc (CMap.flat m1) pts), (app_assoc (x :: CMap.flat m1) pts).
    change ((CMap.flat m1 ++ pts) ++ x :: CMap.flat m2)
      with ((CMap.flat m1 ++ pts) ++ [x] ++ CMap.flat m2).
    cbn [app].
    apply (Permutation_trans (l' := x :: (CMap.flat m1 ++ pts) ++ CMap.flat m2)).
    + reflexivity.
    + apply Permutation_middle.
  - intros id' pts' H. rewrite <- Es in H.
    destruct (Nat.eq_dec id id') as [<-|Hne].
    + rewrite lookup_set_eq in H. left. congruence.
    + rewrite lookup_set_ne in H by exact Hne. now right.
Qed.

Lemma marked_set (i p : nat) (visited : list bool) :
  (i < length visited)%nat ->
  (Cover.marked (array_set i true visited) p <-> p = i \/ Cover.marked visited p).
Proof.
  intros Hi. unfold Cover.marked. destruct (Nat.eq_dec p i) as [->|Hne].
  - rewrite nth_array_set_eq by exact Hi. tauto.
  - rewrite nth_array_set_ne by exact Hne. tauto.
Qed.

Lemma foldM_seq_inv {A : Type} (P : nat -> A -> Prop) (f : A -> nat -> option A)
      (m : nat) (a : A) :
  P 0%nat a ->
  (forall i a, (i < m)%nat -> P i a -> exists a', f a i = Some a' /\ P (S i) a') ->
  exists a', foldM f (seq 0 m) a = Some a' /\ P m a'.
Proof.
  intros H0 Hstep. induction m as [|m IH].
  - exists a. now split.
  - destruct IH as (a1 & E1 & P1); [intros i b Hi; apply Hstep; lia|].
    destruct (Hstep m a1 (Nat.lt_succ_diag_r m) P1) as (a2 & E2 & P2).
    exists a2. rewrite seq_S, foldM_app, E1. cbn [bind Nat.add foldM].
    rewrite E2. now split.
Qed.

Section DBSCANCover.

Variable distance : vector -> vector -> number.
Variable vs : list vector.
Variable eps : number.
Variable minPts : nat.

Local Abbreviation n := (length vs).

(** The first half of a round of the expansion marks the current point. *)
Lemma round_visited (neighbors : list nat) (visited : list bool) (cur : nat) :
  NoDup neighbors -> Forall (fun q => (q < n)%nat) neighbors -> (cur < n)%nat ->
  length visited = n ->
  exists neighbors' visited',
    (if negb (nth cur visited false) then
       currentNeighbors <- DBSCAN.getNeighbors distance vs eps cur ;;
       Some (if (minPts <=? length currentNeighbors)%nat
             then DBSCAN.addNeighbors neighbors currentNeighbors
             else neighbors,
             array_set cur true visited)
     else Some (neighbors, visited)) = Some (neighbors', visited') /\
    NoDup neighbors' /\ Forall (fun q => (q < n)%nat) neighbors' /\
    length visited' = n /\
    (forall p, Cover.marked visited' p <-> p = cur \/ Cover.marked visited p).
Proof.
  intros Hd Hr Hc Hl. destruct (nth cur visited false) eqn:Ev; cbn [negb].
  - exists neighbors, visited. repeat split; try assumption.
    + now right.
    + intros [->|H]; [exact Ev | exact H].
  - destruct (getNeighbors_ok distance vs eps cur Hc) as (nb & E & Hnr & _).
    rewrite E. cbn [bind]. eexists. eexists. split; [reflexivity|].
    rewrite length_array_set.
    assert (G : forall p, Cover.marked (array_set cur true visited) p
                          <-> p = cur \/ Cover.marked visited p).
    { intros p. apply marked_set. lia. }
    destruct (minPts <=? length nb)%nat.
    + destruct (addNeighbors_ok vs neighbors nb Hd Hr Hnr) as [H1 H2].
      split; [exact H1|]. split; [exact H2|]. split; [exact Hl | exact G].
    + split; [exact Hd|]. split; [exact Hr|]. split; [exact Hl | exact G].
Qed.

(** The second half adds the current point to the cluster being grown,
    unless a cluster has it. *)
Lemma round_clusters (c cur : nat) (visited visited' : list bool) (noise : list nat)
      (clusters : CMap.t) :
  (cur < n)%nat -> Cover.dstate n (S c) visited noise clusters ->
  length visited' = n ->
  (forall p, Cover.marked visited' p <-> p = cur \/ Cover.marked visited p) ->
  exists clusters',
    (if negb (includes (CMap.flat clusters) cur)
     then CMap.push c cur clusters else Some clusters) = Some clusters' /\
    Cover.dstate n (S c) visited' noise clusters'.
Proof.
  intros Hcur (Hl & Hk & Hne & Hdn & Hdc & Hrn & Hrc & Hm) Hl' Hm'.
  destruct (includes (CMap.flat clusters) cur) eqn:E; cbn [negb].
  - apply includes_In in E. exists clusters. split; [reflexivity|].
    repeat split; try assumption.
    + intros H. apply Hm' in H. destruct H as [->|H]; [now right | now apply Hm].
    + intros H. apply Hm'. right. now apply Hm.
  - assert (Hnin : ~ In cur (CMap.flat clusters)).
    { intros H. apply includes_In in H. congruence. }
    destruct (lookup_keys_seq clusters (S c) c Hk) as (pts & Elk); [lia|].
    rewrite (push_ok n c cur pts clusters Elk).
    destruct (push_cover (S c) c cur pts clusters Hk Elk) as (Hk1 & Hp1 & Hl1).
    eexists. split; [reflexivity|].
    split; [exact Hl'|]. split; [exact Hk1|]. split; [|split; [exact Hdn|split; [|split; [exact Hrn|split]]]].
    + intros id pts' H. destruct (Hl1 id pts' H) as [->|H'].
      * intros E0. apply app_eq_nil in E0. destruct E0 as [_ E0]. discriminate.
      * now apply (Hne id).
    + apply (Permutation_NoDup (Permutation_sym Hp1)). now constructor.
    + apply in_range_set; [|exact Hrc]. apply Forall_app. split.
      * exact (in_range_lookup _ _ _ _ Hrc Elk).
      * now constructor.
    + intros p. rewrite Hm', Hm. split.
      * intros [->|[H|H]]; [right | now left | right].
        -- apply (Permutation_in _ (Permutation_sym Hp1)). now left.
        -- apply (Permutation_in _ (Permutation_sym Hp1)). now right.
      * intros [H|H]; [right; now left|].
        apply (Permutation_in _ Hp1) in H. destruct H as [<-|H]; [now left | right; now right].
Qed.

(** The expansion cannot throw and keeps the state; marks are only added. *)
Lemma expand_cover (fuel c : nat) (neighbors : list nat) (visited : list bool)
      (noise : list nat) (clusters : CMap.t) (j : nat) :
  NoDup neighbors -> Forall (fun q => (q < n)%nat) neighbors ->
  Cover.dstate n (S c) visited noise clusters ->
  exists neighbors' visited' clusters',
    DBSCAN.expand distance fuel vs eps minPts c neighbors visited clusters j
    = Some (neighbors', visited', clusters') /\
    Cover.dstate n (S c) visited' noise clusters' /\
    (forall p, Cover.marked visited p -> Cover.marked visited' p).
Proof.
  revert neighbors visited clusters j.
  induction fuel as [|fuel IH]; intros neighbors visited clusters j Hd Hr Hst.
  - exists neighbors, visited, clusters.
    split; [reflexivity|]. split; [exact Hst | intros p Hp; exact Hp].
  - rewrite expand_S. destruct (nth_error neighbors j) as [cur|] eqn:Ej.
    + assert (Hcur : (cur < n)%nat).
      { rewrite Forall_forall in Hr. apply Hr. eapply nth_error_In. exact Ej. }
      destruct (round_visited neighbors visited cur Hd Hr Hcur (proj1 Hst))
        as (nb' & vis' & E & Hd' & Hr' & Hl' & Hm').
      rewrite E. cbn [bind].
      destruct (round_clusters c cur visited vis' noise clusters Hcur Hst Hl' Hm')
        as (clusters1 & E1 & Hst1).
      rewrite E1. cbn [bind].
      destruct (IH nb' vis' clusters1 (S j) Hd' Hr' Hst1) as (nb2 & vis2 & cl2 & E2 & Hst2 & Hmono).
      exists nb2, vis2, cl2. split; [exact E2|]. split; [exact Hst2|].
      intros p Hp. apply Hmono. apply Hm'. now right.
    + exists neighbors, visited, clusters.
      split; [reflexivity|]. split; [exact Hst | intros p Hp; exact Hp].
Qed.

(** One step of the main loop: after it the point [i] is marked. *)
Lemma visit_cover (st : DBSCAN.State) (i : nat) :
  (i < n)%nat ->
  Cover.dstate n (DBSCAN.clusterIdx st) (DBSCAN.visited st) (DBSCAN.noise st)
               (DBSCAN.clusters st) ->
  (forall p, (p < i)%nat -> Cover.marked (DBSCAN.visited st) p) ->
  exists st',
    DBSCAN.visit distance vs eps minPts st i = Some st' /\
    Cover.dstate n (DBSCAN.clusterIdx st') (DBSCAN.visited st') (DBSCAN.noise st')
                 (DBSCAN.clusters st') /\
    (forall p, (p < S i)%nat -> Cover.marked (DBSCAN.visited st') p).
Proof.
  intros Hi Hst Hall. unfold DBSCAN.visit.
  destruct (nth i (DBSCAN.visited st) false) eqn:Ev.
  - exists st. split; [reflexivity|]. split; [exact Hst|].
    intros p Hp. destruct (Nat.eq_dec p i) as [->|Hne]; [exact Ev | apply Hall; lia].
  - destruct Hst as (Hl & Hk & Hne & Hdn & Hdc & Hrn & Hrc & Hm).
    assert (Hnm : ~ Cover.marked (DBSCAN.visited st) i).
    { unfold Cover.marked. rewrite Ev. discriminate. }
    assert (Hset : forall p, Cover.marked (array_set i true (DBSCAN.visited st)) p
                             <-> p = i \/ Cover.marked (DBSCAN.visited st) p).
    { intros p. apply marked_set. lia. }
    destruct (getNeighbors_ok distance vs eps i Hi) as (nb & E & Hr & Hd). rewrite E. cbn [bind].
    destruct (length nb <? minPts)%nat.
    + eexists. split; [reflexivity|].
      cbn [DBSCAN.visited DBSCAN.noise DBSCAN.clusters DBSCAN.clusterIdx].
      split; [|intros p Hp; apply Hset;
               destruct (Nat.eq_dec p i); [now left | right; apply Hall; lia]].
      split; [now rewrite length_array_set|]. split; [exact Hk|]. split; [exact Hne|].
      split; [|split; [exact Hdc|split; [|split; [exact Hrc|]]]].
      * apply NoDup_app; [exact Hdn | repeat constructor; intros [] |].
        intros p Hp [<-|[]]. apply Hnm. apply Hm. now left.
      * apply Forall_app. split; [exact Hrn | now constructor].
      * intros p. rewrite Hset, Hm, in_app_iff. cbn [In]. split.
        -- intros [->|[H|H]]; [left; right; now left | left; now left | now right].
        -- intros [[H|[<-|[]]]|H]; [right; now left | now left | right; now right].
    + set (c := DBSCAN.clusterIdx st) in *.
      assert (Es : CMap.set c [i] (DBSCAN.clusters st) = DBSCAN.clusters st ++ [(c, [i])])
        by (now apply set_new).
      assert (Hst1 : Cover.dstate n (S c) (array_set i true (DBSCAN.visited st))
                                  (DBSCAN.noise st) (CMap.set c [i] (DBSCAN.clusters st))).
      { rewrite Es. split; [now rewrite length_array_set|]. split.
        { rewrite keys_app, Hk, seq_S. reflexivity. }
        split.
        { intros id pts H. apply lookup_app_last in H. destruct H as [H| ->].
          - now apply (Hne id).
          - discriminate. }
        split; [exact Hdn|]. split.
        { rewrite flat_app. cbn [CMap.flat CMap.values map snd concat app].
          apply NoDup_app; [exact Hdc | repeat constructor; intros [] |].
          intros p Hp [<-|[]]. apply Hnm. apply Hm. now right. }
        split; [exact Hrn|]. split.
        { unfold Spec.in_range in *. apply Forall_app. split; [exact Hrc|].
          repeat constructor. exact Hi. }
        intros p. rewrite Hset, Hm, flat_app, in_app_iff.
        cbn [CMap.flat CMap.values map snd concat app In]. split.
        - intros [->|[H|H]]; [right; right; now left | now left | right; now left].
        - intros [H|[H|[<-|[]]]]; [right; now left | right; now right | now left]. }
      destruct (expand_cover (length vs) c nb (array_set i true (DBSCAN.visited st))
                  (DBSCAN.noise st) (CMap.set c [i] (DBSCAN.clusters st)) 0 Hd Hr Hst1)
        as (nb' & vis' & cl' & Ee & Hst' & Hmono).
      rewrite Ee. cbn [bind]. eexists. split; [reflexivity|].
      cbn [DBSCAN.visited DBSCAN.noise DBSCAN.clusters DBSCAN.clusterIdx].
      rewrite Nat.add_1_r. split; [exact Hst'|].
      intros p Hp. apply Hmono. apply Hset.
      destruct (Nat.eq_dec p i); [now left | right; apply Hall; lia].
Qed.

Lemma mainLoop_cover :
  exists st,
    DBSCAN.mainLoop distance vs eps minPts = Some st /\
    Cover.dstate n (DBSCAN.clusterIdx st) (DBSCAN.visited st) (DBSCAN.noise st)
                 (DBSCAN.clusters st) /\
    (forall p, (p < n)%nat -> Cover.marked (DBSCAN.visited st) p).
Proof.
  unfold DBSCAN.mainLoop.
  apply (foldM_seq_inv
           (fun i st =>
              Cover.dstate n (DBSCAN.clusterIdx st) (DBSCAN.visited st) (DBSCAN.noise st)
                           (DBSCAN.clusters st) /\
              (forall p, (p < i)%nat -> Cover.marked (DBSCAN.visited st) p))).
  - cbn [DBSCAN.visited DBSCAN.noise DBSCAN.clusters DBSCAN.clusterIdx]. split.
    + split; [apply repeat_length|]. split; [reflexivity|]. split; [discriminate|].
      split; [constructor|]. split; [constructor|]. split; [constructor|].
      split; [constructor|].
      intros p. unfold Cover.marked. cbn [CMap.flat CMap.values CMap.empty map concat In].
      split; [|tauto]. intros H. exfalso.
      destruct (Nat.lt_ge_cases p (length vs)) as [Hp|Hp].
      * rewrite nth_repeat_lt in H by exact Hp. discriminate.
      * rewrite nth_overflow in H by (rewrite repeat_length; exact Hp). discriminate.
    + intros p Hp. lia.
  - intros i st Hi [Hst Hall]. now apply visit_cover.
Qed.

End DBSCANCover.

Lemma lookup_app (id : nat) (m1 m2 : CMap.t) :
  CMap.lookup id (m1 ++ m2)
  = match CMap.lookup id m1 with Some v => Some v | None => CMap.lookup id m2 end.
Proof.
  induction m1 as [|[k v] m1 IH]; cbn [app CMap.lookup]; [reflexivity|].
  destruct (id =? k)%nat; [reflexivity | exact IH].
Qed.

Lemma lookup_In (id : nat) (pts : list nat) (m : CMap.t) :
  CMap.lookup id m = Some pts -> In (id, pts) m.
Proof.
  induction m as [|[k v] m IH]; cbn [CMap.lookup]; [discriminate|].
  destruct (id =? k)%nat eqn:E.
  - apply Nat.eqb_eq in E. subst k. intros [= ->]. now left.
  - intros H. right. now apply IH.
Qed.

(** The singleton clusters of up to three noise points. *)
Lemma fold_singletons (c : nat) (l : list nat) (s : nat) (m : CMap.t) :
  CMap.keys m = seq 0 (c + s) ->
  fold_left (fun clusters '(i, p) => CMap.set (c + i) [p] clusters)
            (combine (seq s (length l)) l) m
  = m ++ map (fun '(i, p) => ((c + i)%nat, [p])) (combine (seq s (length l)) l).
Proof.
  revert s m. induction l as [|p l IH]; intros s m Hk; cbn [length seq combine fold_left map].
  - now rewrite app_nil_r.
  - rewrite (set_new (c + s) [p] m Hk).
    rewrite IH.
    + now rewrite <- app_assoc.
    + rewrite keys_app, Hk. cbn [CMap.keys map fst].
      replace (c + S s)%nat with (S (c + s)) by lia. now rewrite seq_S.
Qed.

Lemma singletons_facts (c : nat) (l : list nat) (s : nat) :
  let extra := map (fun '(i, p) => ((c + i)%nat, [p])) (combine (seq s (length l)) l) in
  CMap.flat extra = l /\ CMap.keys extra = seq (c + s) (length l) /\
  Forall (fun e => snd e <> []) extra.
Proof.
  revert s. induction l as [|p l IH]; intros s; cbn [length seq combine map].
  - repeat split. constructor.
  - destruct (IH (S s)) as (H1 & H2 & H3). cbv zeta in *.
    rewrite flat_cons, H1. cbn [CMap.keys map fst seq]. unfold CMap.keys in H2. rewrite H2.
    replace (c + S s)%nat with (S (c + s)) by lia.
    repeat split. constructor; [discriminate | exact H3].
Qed.

(** Noise folding appends the noise points after the clusters. *)
Lemma foldNoise_cover (noise : list nat) (c : nat) (clusters : CMap.t) :
  CMap.keys clusters = seq 0 c ->
  exists extra,
    DBSCAN.foldNoise noise c clusters = clusters ++ extra /\
    CMap.flat extra = noise /\ CMap.keys extra = seq c (length extra) /\
    Forall (fun e => snd e <> []) extra.
Proof.
  intros Hk. unfold DBSCAN.foldNoise.
  destruct (0 <? length noise)%nat eqn:E0.
  - apply Nat.ltb_lt in E0. destruct (length noise <=? 3)%nat.
    + unfold indexed. rewrite (fold_singletons c noise 0 clusters) by (now rewrite Nat.add_0_r).
      destruct (singletons_facts c noise 0) as (H1 & H2 & H3). cbv zeta in *.
      eexists. split; [reflexivity|]. split; [exact H1|]. split; [|exact H3].
      rewrite H2, Nat.add_0_r, length_map, length_combine, length_seq, Nat.min_id. reflexivity.
    + rewrite (set_new c noise clusters Hk). exists [(c, noise)].
      split; [reflexivity|]. split; [apply app_nil_r|]. split; [reflexivity|].
      constructor; [|constructor]. cbn [snd]. intros ->. cbn [length] in E0. lia.
  - apply Nat.ltb_ge in E0. destruct noise; [|cbn [length] in E0; lia].
    exists []. rewrite app_nil_r. repeat split. constructor.
Qed.

Lemma in_range_flat (n : nat) (m : CMap.t) :
  Forall (fun p => (p < n)%nat) (CMap.flat m) -> Spec.in_range n m.
Proof.
  unfold Spec.in_range. induction m as [|[k v] m IH]; intros H; [constructor|].
  rewrite flat_cons in H. apply Forall_app in H. destruct H as [Hv Hrest].
  constructor; [exact Hv | now apply IH].
Qed.

(** The cluster map that both DBSCAN engines return leaves no point out. *)
Lemma foldNoise_covering (n : nat) (st : DBSCAN.State) :
  Cover.dstate n (DBSCAN.clusterIdx st) (DBSCAN.visited st) (DBSCAN.noise st)
               (DBSCAN.clusters st) ->
  (forall p, (p < n)%nat -> Cover.marked (DBSCAN.visited st) p) ->
  Cover.covering n (DBSCAN.foldNoise (DBSCAN.noise st) (DBSCAN.clusterIdx st)
                                     (DBSCAN.clusters st)).
Proof.
  intros (Hl & Hk & Hne & Hdn & Hdc & Hrn & Hrc & Hm) Hall.
  destruct (foldNoise_cover (DBSCAN.noise st) (DBSCAN.clusterIdx st) (DBSCAN.clusters st) Hk)
    as (extra & -> & Hf & Hke & Hnn).
  split; [|split; [|split]].
  - exists (DBSCAN.clusterIdx st + length extra)%nat.
    rewrite keys_app, Hk, Hke. symmetry. apply seq_app.
  - intros id pts H. rewrite lookup_app in H.
    destruct (CMap.lookup id (DBSCAN.clusters st)) as [v|] eqn:E.
    + injection H as <-. now apply (Hne id).
    + apply lookup_In in H. rewrite Forall_forall in Hnn. exact (Hnn _ H).
  - apply Forall_app. split; [exact Hrc|]. apply in_range_flat. now rewrite Hf.
  - intros p Hp. rewrite flat_app, Hf, count_occ_app.
    pose proof (proj1 (NoDup_count_occ Nat.eq_dec _) Hdc p) as H1.
    pose proof (proj1 (NoDup_count_occ Nat.eq_dec _) Hdn p) as H2.
    split; [|lia].
    destruct (proj1 (Hm p) (Hall p Hp)) as [H|H];
      apply (count_occ_In Nat.eq_dec) in H; lia.
Qed.

Lemma dbscan_covering (vectors : list (list R)) (dim : nat) (eps : number)
      (minPts : nat) (metric : ClusteringAlgorithms.DistanceMetric) :
  Forall (fun v => length v = dim) vectors ->
  (exists r, Route.runDBSCAN (map vec vectors) eps minPts = Some r /\
             Cover.covering (length vectors) (Route.clusters r)) /\
  (exists r, ClusteringAlgorithms.dbscanClustering (map vec vectors) eps minPts metric = Some r /\
             Cover.covering (length vectors) (ClusteringAlgorithms.clusters r)).
Proof.
  intros Hu. split.
  - unfold Route.runDBSCAN.
    destruct (mainLoop_cover Route.cosineSimilarityDistance (map vec vectors) eps minPts)
      as (st & E & Hst & Hall).
    rewrite E. cbn [bind]. rewrite length_map in Hst, Hall.
    pose proof (foldNoise_covering _ st Hst Hall) as Hc.
    destruct Hc as (Hk & Hne & Hr & Hcount).
    rewrite (route_silhouette_spec vectors dim _ Hu Hr). cbn [bind].
    destruct (clusterCoherence_ok (map vec vectors)
                (DBSCAN.foldNoise (DBSCAN.noise st) (DBSCAN.clusterIdx st) (DBSCAN.clusters st)))
      as (coh & Ecoh); [now rewrite length_map|].
    rewrite Ecoh. cbn [bind]. eexists. split; [reflexivity|].
    cbn [Route.clusters].
    split; [exact Hk|]. split; [exact Hne|]. split; [exact Hr | exact Hcount].
  - unfold ClusteringAlgorithms.dbscanClustering. rewrite length_map.
    destruct (length vectors =? 0)%nat eqn:E0.
    + apply Nat.eqb_eq in E0. eexists. split; [reflexivity|].
      cbn [ClusteringAlgorithms.clusters]. rewrite E0.
      split; [exists 0%nat; reflexivity|]. split; [discriminate|]. split; [constructor|].
      intros p Hp. lia.
    + destruct (mainLoop_cover (ClusteringAlgorithms.distance metric) (map vec vectors) eps minPts)
        as (st & E & Hst & Hall).
      rewrite E. cbn [bind]. rewrite length_map in Hst, Hall.
      pose proof (foldNoise_covering _ st Hst Hall) as Hc.
      destruct Hc as (Hk & Hne & Hr & Hcount).
      rewrite (utils_silhouette_spec metric vectors dim _ Hu Hr). cbn [bind].
      eexists. split; [reflexivity|].
      cbn [ClusteringAlgorithms.clusters].
      split; [exact Hk|]. split; [exact Hne|]. split; [exact Hr | exact Hcount].
Qed.

(** Both DBSCAN engines return on every set of vectors of reals of one
    dimension, whatever [eps] and [minPts] are, and no point is left out of
    the result: the cluster ids are 0, 1, ... without a gap, no cluster is
    empty, every listed index is below N, and every index 0 .. N - 1 is
    listed once or twice. *)
Theorem dbscan_covers_all_points (vectors : list (list R)) (dim : nat) (eps : number)
        (minPts : nat) (metric : ClusteringAlgorithms.DistanceMetric) :
  Forall (fun v => length v = dim) vectors ->
  (exists r, Route.runDBSCAN (map vec vectors) eps minPts = Some r /\
             Cover.covering (length vectors) (Route.clusters r)) /\
  (exists r, ClusteringAlgorithms.dbscanClustering (map vec vectors) eps minPts metric = Some r /\
             Cover.covering (length vectors) (ClusteringAlgorithms.clusters r)).
Proof. apply dbscan_covering. Qed.

Lemma dbscan_covers_all_points_witness :
  (exists r, Route.runDBSCAN (map vec [[1; 0]; [3; 4]; [0; 1]]) (Num (1 / 2)) 3 = Some r /\
             Cover.covering 3 (Route.clusters r)) /\
  (exists r, ClusteringAlgorithms.dbscanClustering (map vec [[1; 0]; [3; 4]; [0; 1]])
               (Num (1 / 2)) 3 ClusteringAlgorithms.Euclidean = Some r /\
             Cover.covering 3 (ClusteringAlgorithms.clusters r)).
Proof.
  apply (dbscan_covers_all_points [[1; 0]; [3; 4]; [0; 1]] 2 (Num (1 / 2)) 3
                                  ClusteringAlgorithms.Euclidean).
  repeat constructor.
Defined.

(** ** The embeddings have non-negative components *)

Lemma nth_array_set_other {A : Type} (i : nat) (x d : A) (l : list A) :
  (1 <= i)%nat -> nth 0 (array_set i x l) d = nth 0 l d.
Proof. intros H. destruct l as [|y l], i as [|i]; try reflexivity. lia. Qed.

Lemma nonneg_div_nat (k : nat) (c : R) : 0 < c -> Features.nonneg (div (of_nat k) (Num c)).
Proof.
  intros H. unfold of_nat. rewrite div_Num by lra. eexists. split; [reflexivity|].
  apply Rmult_le_pos; [apply pos_INR | left; now apply Rinv_0_lt_compat].
Qed.

Lemma nonneg_clip (k : nat) : Features.nonneg (JS.min (Num 1) (div (of_nat k) (Num 5))).
Proof.
  destruct (nonneg_div_nat k 5) as (r & E & Hr); [lra|]. rewrite E. cbn [JS.min JS.lt].
  destruct (Rltb r 1); eexists; (split; [reflexivity | lra]).
Qed.

Lemma nonneg_ratio (words : list string) :
  Features.nonneg (or_default (div (of_nat (setSize words)) (of_nat (length words))) (Num 0)).
Proof.
  unfold of_nat, div.
  destruct (Reqb (INR (length words)) 0) eqn:E.
  - unfold Reqb in E. destruct (Req_dec_T (INR (length words)) 0) as [Hz|]; [|discriminate].
    change 0 with (INR 0) in Hz. apply INR_eq in Hz. destruct words; [|discriminate].
    unfold setSize. simpl. unfold sign.
    destruct (Rlt_dec 0 0); [lra|]. simpl. exists 0. split; [reflexivity | lra].
  - assert (Hq : 0 <= INR (setSize words) / INR (length words)).
    { unfold Reqb in E. destruct (Req_dec_T (INR (length words)) 0) as [|Hz]; [discriminate|].
      apply Rmult_le_pos; [apply pos_INR|]. left. apply Rinv_0_lt_compat.
      pose proof (pos_INR (length words)). lra. }
    unfold or_default. destruct (Reqb (_ / _) 0).
    + exists 0. split; [reflexivity | lra].
    + eexists. split; [reflexivity | exact Hq].
Qed.

Lemma log_length_value (doc : string) :
  div (log (of_nat (String.length doc + 1))) (Num 10)
  = Num (ln (INR (String.length doc + 1)) / 10).
Proof.
  unfold of_nat, log.
  assert (H : 0 < INR (String.length doc + 1)) by (apply lt_0_INR; lia).
  rewrite Rltb_false, Reqb_false by lra. now rewrite div_Num by lra.
Qed.

Lemma ln_length_nonneg (doc : string) : 0 <= ln (INR (String.length doc + 1)).
Proof.
  rewrite <- ln_1. destruct (String.length doc) as [|m] eqn:E.
  - cbn [Nat.add INR]. lra.
  - left. apply ln_increasing; [lra|]. rewrite plus_INR, S_INR. cbn [INR].
    pose proof (pos_INR m). lra.
Qed.

Lemma ln_length_pos (doc : string) : doc <> EmptyString -> 0 < ln (INR (String.length doc + 1)).
Proof.
  intros H. rewrite <- ln_1. apply ln_increasing; [lra|].
  destruct doc as [|c doc]; [contradiction|]. cbn [String.length].
  rewrite plus_INR, S_INR. cbn [INR]. pose proof (pos_INR (String.length doc)). lra.
Qed.

Section FeatureFacts.

Variable js : StringBuiltins.

Lemma put_filled (x0 : number) (st : vector * nat) (x : number) :
  Features.filled x0 st -> Features.nonneg x -> Features.filled x0 (Embeddings.put st x).
Proof.
  intros (Hl & Hf & Hi & H0) Hx. destruct st as [v i].
  unfold Embeddings.put, Features.filled. cbn [fst snd] in *.
  split; [now rewrite length_array_set|]. split; [now apply Forall_array_set|].
  split; [lia|]. now rewrite nth_array_set_other.
Qed.

Lemma fold_put_filled (x0 : number) (xs : list number) (st : vector * nat) :
  Features.filled x0 st -> Forall Features.nonneg xs ->
  Features.filled x0 (fold_left Embeddings.put xs st).
Proof.
  intros Hst H. revert st Hst. induction H as [|x xs Hx _ IH]; intros st Hst; cbn [fold_left].
  - assumption.
  - apply IH. now apply put_filled.
Qed.

Lemma topicFeatures_filled (x0 : number) (doc : string) (st : vector * nat) :
  Features.filled x0 st -> Features.filled x0 (Embeddings.topicFeatures js doc st).
Proof.
  unfold Embeddings.topicFeatures. generalize Embeddings.topicPatterns as l.
  intros l. revert st. induction l as [|[topic patterns] l IH]; intros st Hst; cbn [fold_left].
  - assumption.
  - apply IH. destruct (30 <=? snd st)%nat; [assumption|].
    apply put_filled; [assumption | apply nonneg_clip].
Qed.

Lemma relationFeatures_filled (x0 : number) (doc : string) (st : vector * nat) :
  Features.filled x0 st -> Features.filled x0 (Embeddings.relationFeatures doc st).
Proof.
  unfold Embeddings.relationFeatures. generalize Embeddings.semanticRelationships as l.
  intros l. revert st. induction l as [|[concept related] l IH]; intros st Hst; cbn [fold_left].
  - assumption.
  - apply IH. destruct (50 <=? snd st)%nat; [assumption|].
    apply put_filled; [assumption | apply nonneg_clip].
Qed.

(** The features of a document: 50 non-negative numbers, the first of
    which is [ln(length + 1) / 10]. *)
Lemma features_filled (doc : string) :
  Features.filled (Num (ln (INR (String.length doc + 1)) / 10))
                  (Embeddings.features js doc, 50%nat).
Proof.
  assert (G : forall st, Features.filled (Num (ln (INR (String.length doc + 1)) / 10)) st ->
                         Features.filled (Num (ln (INR (String.length doc + 1)) / 10))
                                         (fst st, 50%nat)).
  { intros st (H1 & H2 & H3 & H4). repeat split; cbn [fst snd]; try assumption. lia. }
  unfold Embeddings.features. apply G.
  apply relationFeatures_filled, topicFeatures_filled.
  unfold Embeddings.basicFeatures.
  match goal with
  | |- context [fold_left Embeddings.put (?x :: ?xs) ?st] =>
      change (fold_left Embeddings.put (x :: xs) st)
        with (fold_left Embeddings.put xs (Embeddings.put st x))
  end.
  apply fold_put_filled.
  - rewrite log_length_value. unfold Embeddings.put, Features.filled. cbn [fst snd].
    split; [now rewrite length_array_set, repeat_length|]. split; [|split; [lia | reflexivity]].
    apply Forall_array_set.
    + eexists. split; [reflexivity|]. pose proof (ln_length_nonneg doc). lra.
    + apply Forall_forall. intros x Hx. apply repeat_spec in Hx. subst.
      exists 0. split; [reflexivity | lra].
  - repeat (apply Forall_cons; [first [ apply nonneg_ratio | apply nonneg_div_nat; lra ] |]).
    apply Forall_nil.
Qed.

End FeatureFacts.

Lemma nonneg_vec (v : vector) :
  Forall Features.nonneg v -> exists l, v = vec l /\ Forall (fun x => 0 <= x) l.
Proof.
  induction 1 as [|x v (r & -> & Hr) _ (l & -> & Hl)].
  - exists []. split; [reflexivity | constructor].
  - exists (r :: l). split; [reflexivity | now constructor].
Qed.

Lemma component_le_norm (l : list R) (x : R) : In x l -> 0 <= x -> x <= Spec.norm l.
Proof.
  intros Hin Hx.
  assert (Hsq : x * x <= Spec.dot l l).
  { rewrite dot_self_total. clear Hx. induction l as [|y l IH]; [contradiction|].
    cbn [map Spec.total fold_right]. fold (Spec.total (map (fun x : R => x * x) l)).
    assert (Hl : 0 <= Spec.total (map (fun x : R => x * x) l)).
    { rewrite <- dot_self_total. apply dot_self_nonneg. }
    destruct Hin as [->|Hin]; [nra|]. specialize (IH Hin). nra. }
  pose proof (norm_nonneg l) as Hn. rewrite <- norm_sq in Hsq. nra.
Qed.

Lemma embedding_real (js : StringBuiltins) (doc : string) :
  exists l : list R,
    Embeddings.normalize (Embeddings.features js doc) = vec l /\
    length l = 50%nat /\ Features.unit_box l /\
    (doc <> EmptyString -> Spec.norm l = 1).
Proof.
  destruct (features_filled js doc) as (Hlen & Hnn & _ & H0). cbn [fst snd] in *.
  destruct (nonneg_vec _ Hnn) as (f & Ef & Hf).
  assert (Hlf : length f = 50%nat) by now rewrite <- Hlen, Ef, length_vec.
  rewrite Ef in *.
  destruct (normalize_vec f) as [(Hz & Hrep & Hn) | (Hnz & Hn & H1)].
  - exists f. rewrite Hn. split; [reflexivity|]. split; [exact Hlf|]. split.
    + rewrite Hrep. apply Forall_forall. intros x Hx. apply repeat_spec in Hx. lra.
    + intros Hdoc. exfalso. pose proof (ln_length_pos doc Hdoc) as Hpos.
      rewrite Hrep, Hlf in H0. cbn [repeat vec map nth] in H0. injection H0 as H0. lra.
  - exists (map (fun x => x / Spec.norm f) f). rewrite Hn.
    split; [reflexivity|]. split; [now rewrite length_map|]. split; [|intros _; exact H1].
    pose proof (norm_nonneg f) as Hn0.
    apply Forall_forall. intros y Hy. apply in_map_iff in Hy. destruct Hy as (x & <- & Hx).
    rewrite Forall_forall in Hf. specialize (Hf x Hx).
    pose proof (component_le_norm f x Hx Hf) as Hle.
    assert (Hpos : 0 < Spec.norm f) by lra.
    split.
    + apply Rmult_le_pos; [exact Hf | left; now apply Rinv_0_lt_compat].
    + apply Rmult_le_reg_r with (Spec.norm f); [exact Hpos|].
      unfold Rdiv. rewrite Rmult_assoc, Rinv_l by lra. lra.
Qed.

(** Every embedding is a vector of 50 numbers of [0, 1], and for a
    document that is not the empty string it has L2 norm 1: the first
    feature, [ln(length + 1) / 10], is then positive, so that the zero
    vector is the embedding of the empty string only. *)
Theorem embedding_components (js : StringBuiltins) (doc : string) :
  exists l : list R,
    Embeddings.normalize (Embeddings.features js doc) = vec l /\
    length l = 50%nat /\ Features.unit_box l /\
    (doc <> EmptyString -> Spec.norm l = 1).
Proof. apply embedding_real. Qed.

Lemma sum_upto_nonneg (n : nat) (f : nat -> R) :
  (forall i, (i < n)%nat -> 0 <= f i) -> 0 <= Spec.sum_upto n f.
Proof.
  induction n as [|n IH]; intros H; cbn [Spec.sum_upto]; [lra|].
  specialize (H n (Nat.lt_succ_diag_r n)) as Hn.
  assert (0 <= Spec.sum_upto n f) by (apply IH; intros; apply H; lia). lra.
Qed.

Lemma cosine_nonneg (a b : list R) :
  Forall (fun x => 0 <= x) a -> Forall (fun x => 0 <= x) b -> 0 <= Spec.cosine a b.
Proof.
  intros Ha Hb. unfold Spec.cosine.
  destruct (Req_dec_T (Spec.norm a) 0) as [|Na]; [lra|].
  destruct (Req_dec_T (Spec.norm b) 0) as [|Nb]; [lra|].
  pose proof (norm_nonneg a). pose proof (norm_nonneg b).
  apply Rmult_le_pos.
  - unfold Spec.dot. apply sum_upto_nonneg. intros i Hi.
    rewrite Forall_forall in Ha, Hb.
    apply Rmult_le_pos; [apply Ha | apply Hb]; apply nth_In; lia.
  - left. apply Rinv_0_lt_compat. nra.
Qed.

(** The embeddings of any two documents have a cosine similarity that is
    a number and is never negative, so that their cosine distance, 1 minus
    the similarity, never exceeds 1: K-Means and DBSCAN in route.ts see no
    distance above 1. *)
Theorem embeddings_similarity_range (js : StringBuiltins) (doc1 doc2 : string) :
  exists s : R,
    Route.cosineSimilarity (Embeddings.normalize (Embeddings.features js doc1))
                           (Embeddings.normalize (Embeddings.features js doc2)) = Num s /\
    Route.cosineSimilarityDistance (Embeddings.normalize (Embeddings.features js doc1))
                                   (Embeddings.normalize (Embeddings.features js doc2))
    = Num (1 - s) /\
    0 <= s /\ 1 - s <= 1.
Proof.
  destruct (embedding_real js doc1) as (l1 & E1 & L1 & B1 & _).
  destruct (embedding_real js doc2) as (l2 & E2 & L2 & B2 & _).
  unfold Route.cosineSimilarityDistance. rewrite E1, E2.
  rewrite route_cosine_vec by congruence.
  exists (Spec.cosine l1 l2). split; [reflexivity|]. split; [reflexivity|].
  assert (H : 0 <= Spec.cosine l1 l2).
  { apply cosine_nonneg; eapply Forall_impl; try eassumption; cbv beta; intros x Hx; lra. }
  split; lra.
Qed.

(** ** DBSCAN without noise points returns a partition *)

Lemma foldM_preserved {A B : Type} (Q : A -> Prop) (f : A -> B -> option A)
      (l : list B) (a a' : A) :
  foldM f l a = Some a' -> Q a ->
  (forall a x a', In x l -> f a x = Some a' -> Q a -> Q a') -> Q a'.
Proof.
  revert a. induction l as [|x l IH]; intros a E Ha H; cbn [foldM] in E.
  - injection E as <-. exact Ha.
  - destruct (f a x) as [a1|] eqn:E1; [|discriminate]. cbn [bind] in E.
    apply (IH a1 E).
    + apply (H a x a1); [now left | exact E1 | exact Ha].
    + intros a2 y a3 Hy. apply H. now right.
Qed.

Lemma flat_in_range (n : nat) (m : CMap.t) :
  Spec.in_range n m -> Forall (fun p => (p < n)%nat) (CMap.flat m).
Proof.
  unfold Spec.in_range. induction 1 as [|[k v] m Hv _ IH]; [constructor|].
  rewrite flat_cons. apply Forall_app. now split.
Qed.

Section DBSCANNoNoise.

Variable distance : vector -> vector -> number.
Variable vs : list vector.
Variable eps : number.
Variable minPts : nat.

Hypothesis dense : forall i nb,
    DBSCAN.getNeighbors distance vs eps i = Some nb -> (minPts <= length nb)%nat.

Lemma visit_no_noise (st st' : DBSCAN.State) (i : nat) :
  DBSCAN.visit distance vs eps minPts st i = Some st' ->
  DBSCAN.noise st = [] -> DBSCAN.noise st' = [].
Proof.
  unfold DBSCAN.visit. intros E H.
  destruct (nth i (DBSCAN.visited st) false); [now injection E as <-|].
  destruct (DBSCAN.getNeighbors distance vs eps i) as [nb|] eqn:En; [|discriminate].
  cbn [bind] in E. specialize (dense i nb En).
  rewrite (proj2 (Nat.ltb_ge (length nb) minPts) dense) in E.
  destruct (DBSCAN.expand _ _ _ _ _ _ _ _ _ _) as [[[nb' vis'] cl']|]; [|discriminate].
  cbn [bind] in E. injection E as <-. exact H.
Qed.

Lemma mainLoop_partition :
  exists st,
    DBSCAN.mainLoop distance vs eps minPts = Some st /\
    DBSCAN.foldNoise (DBSCAN.noise st) (DBSCAN.clusterIdx st) (DBSCAN.clusters st)
    = DBSCAN.clusters st /\
    Inv.partition (length vs) (DBSCAN.clusters st) /\
    Spec.in_range (length vs) (DBSCAN.clusters st) /\
    CMap.keys (DBSCAN.clusters st) = seq 0 (DBSCAN.clusterIdx st).
Proof.
  destruct (mainLoop_cover distance vs eps minPts) as (st & E & Hst & Hall).
  exists st. split; [exact E|].
  assert (Hn : DBSCAN.noise st = []).
  { apply (foldM_preserved (fun st => DBSCAN.noise st = []) _ _ _ _ E); [reflexivity|].
    intros a x a' _ Ev Ha. exact (visit_no_noise a a' x Ev Ha). }
  destruct Hst as (Hl & Hk & Hne & Hdn & Hdc & Hrn & Hrc & Hm).
  rewrite Hn in *. split; [reflexivity|]. split; [|split; [exact Hrc | exact Hk]].
  unfold Inv.partition. apply NoDup_Permutation; [exact Hdc | apply seq_NoDup|].
  intros p. rewrite in_seq. split.
  - intros H. pose proof (flat_in_range _ _ Hrc) as Hf. rewrite Forall_forall in Hf.
    specialize (Hf p H). lia.
  - intros [_ Hp]. destruct (proj1 (Hm p) (Hall p Hp)) as [[]|H]. exact H.
Qed.

End DBSCANNoNoise.

(** When every point has at least [minPts] neighbours within [eps] (as
    [getNeighbors] counts them, the point itself included), no point is
    marked as noise and the result of DBSCAN is a partition: every index
    0 .. N - 1 is in exactly one cluster.  This holds for both engines, on
    vectors of reals of one dimension. *)
Theorem dbscan_partition_without_noise (vectors : list (list R)) (dim : nat) (eps : number)
        (minPts : nat) (metric : ClusteringAlgorithms.DistanceMetric) :
  Forall (fun v => length v = dim) vectors ->
  ((forall i nb,
       DBSCAN.getNeighbors Route.cosineSimilarityDistance (map vec vectors) eps i = Some nb ->
       (minPts <= length nb)%nat) ->
   exists r, Route.runDBSCAN (map vec vectors) eps minPts = Some r /\
             Inv.partition (length vectors) (Route.clusters r)) /\
  ((forall i nb,
       DBSCAN.getNeighbors (ClusteringAlgorithms.distance metric) (map vec vectors) eps i
       = Some nb ->
       (minPts <= length nb)%nat) ->
   exists r, ClusteringAlgorithms.dbscanClustering (map vec vectors) eps minPts metric = Some r /\
             Inv.partition (length vectors) (ClusteringAlgorithms.clusters r)).
Proof.
  intros Hu. split; intros Hd.
  - unfold Route.runDBSCAN.
    destruct (mainLoop_partition _ _ _ _ Hd) as (st & E & Ef & Hp & Hr & _).
    rewrite E. cbn [bind]. rewrite Ef. rewrite length_map in Hp, Hr.
    rewrite (route_silhouette_spec vectors dim _ Hu Hr). cbn [bind].
    destruct (clusterCoherence_ok (map vec vectors) (DBSCAN.clusters st)) as (coh & Ecoh);
      [now rewrite length_map|].
    rewrite Ecoh. cbn [bind]. eexists. split; [reflexivity | exact Hp].
  - unfold ClusteringAlgorithms.dbscanClustering. rewrite length_map.
    destruct (length vectors =? 0)%nat eqn:E0.
    + apply Nat.eqb_eq in E0. eexists. split; [reflexivity|].
      cbn [ClusteringAlgorithms.clusters]. rewrite E0. unfold Inv.partition. reflexivity.
    + destruct (mainLoop_partition _ _ _ _ Hd) as (st & E & Ef & Hp & Hr & _).
      rewrite E. cbn [bind]. rewrite Ef. rewrite length_map in Hp, Hr.
      rewrite (utils_silhouette_spec metric vectors dim _ Hu Hr). cbn [bind].
      eexists. split; [reflexivity | exact Hp].
Qed.

Lemma example_neighbors (distance : vector -> vector -> number) :
  (forall a b, length a = length b ->
               distance (vec a) (vec b) = Num (1 - Spec.cosine a b)) ->
  forall i nb,
    DBSCAN.getNeighbors distance (map vec [[1; 0]; [3; 4]; [0; 1]]) (Num (1 / 2)) i = Some nb ->
    (2 <= length nb)%nat.
Proof.
  intros Hd.
  assert (near : forall a b c, length a = length b -> Spec.cosine a b = c ->
                               le (distance (vec a) (vec b)) (Num (1 / 2))
                               = Rleb (1 - c) (1 / 2)).
  { intros a b c Hl <-. now rewrite Hd. }
  destruct (trace_neighbors distance (vec [1; 0]) (vec [3; 4]) (vec [0; 1]) (Num (1 / 2)))
    as (N0 & N1 & N2).
  - rewrite (near [1; 0] [1; 0] 1 Logic.eq_refl cosine_10_10). apply Rleb_true. lra.
  - rewrite (near [1; 0] [3; 4] (3 / 5) Logic.eq_refl cosine_10_34). apply Rleb_true. lra.
  - rewrite (near [1; 0] [0; 1] 0 Logic.eq_refl cosine_10_01). apply Rleb_false. lra.
  - rewrite (near [3; 4] [1; 0] (3 / 5) Logic.eq_refl cosine_34_10). apply Rleb_true. lra.
  - rewrite (near [3; 4] [3; 4] 1 Logic.eq_refl cosine_34_34). apply Rleb_true. lra.
  - rewrite (near [3; 4] [0; 1] (4 / 5) Logic.eq_refl cosine_34_01). apply Rleb_true. lra.
  - rewrite (near [0; 1] [1; 0] 0 Logic.eq_refl cosine_01_10). apply Rleb_false. lra.
  - rewrite (near [0; 1] [3; 4] (4 / 5) Logic.eq_refl cosine_01_34). apply Rleb_true. lra.
  - rewrite (near [0; 1] [0; 1] 1 Logic.eq_refl cosine_01_01). apply Rleb_true. lra.
  - cbn [map]. intros [|[|[|i]]] nb H.
    + rewrite N0 in H. injection H as <-. cbn [length]. lia.
    + rewrite N1 in H. injection H as <-. cbn [length]. lia.
    + rewrite N2 in H. injection H as <-. cbn [length]. lia.
    + unfold DBSCAN.getNeighbors in H. destruct i; discriminate.
Qed.

Lemma dbscan_partition_without_noise_witness :
  (exists r, Route.runDBSCAN (map vec [[1; 0]; [3; 4]; [0; 1]]) (Num (1 / 2)) 2 = Some r /\
             Inv.partition 3 (Route.clusters r)) /\
  (exists r, ClusteringAlgorithms.dbscanClustering (map vec [[1; 0]; [3; 4]; [0; 1]])
               (Num (1 / 2)) 2 ClusteringAlgorithms.Cosine = Some r /\
             Inv.partition 3 (ClusteringAlgorithms.clusters r)).
Proof.
  destruct (dbscan_partition_without_noise [[1; 0]; [3; 4]; [0; 1]] 2 (Num (1 / 2)) 2
              ClusteringAlgorithms.Cosine) as [H1 H2].
  - repeat constructor.
  - split; [apply H1 | apply H2]; apply example_neighbors.
    + intros a b Hl. now apply route_distance_vec.
    + intros a b Hl. now apply utils_distance_cosine.
Defined.

(** ** Sets and maps of strings *)

Lemma has_In (s : list string) (x : string) : has s x = true <-> In x s.
Proof.
  unfold has. rewrite existsb_exists. split.
  - intros (y & Hy & E). apply String.eqb_eq in E. now subst.
  - intros H. exists x. split; [exact H | apply String.eqb_refl].
Qed.

Lemma has_false (s : list string) (x : string) : has s x = false <-> ~ In x s.
Proof.
  rewrite <- has_In. destruct (has s x); intuition congruence.
Qed.

Lemma setAdd_In (s : list string) (x y : string) : In y (setAdd s x) <-> In y s \/ y = x.
Proof.
  unfold setAdd. destruct (has s x) eqn:E.
  - apply has_In in E. split; [now left | intros [H| ->]; assumption].
  - rewrite in_app_iff. cbn [In]. split.
    + intros [H|[<-|[]]]; [now left | now right].
    + intros [H| ->]; [now left | right; now left].
Qed.

Lemma setAdd_NoDup (s : list string) (x : string) : NoDup s -> NoDup (setAdd s x).
Proof.
  intros H. unfold setAdd. destruct (has s x) eqn:E; [exact H|].
  apply has_false in E. apply NoDup_app; [exact H | repeat constructor; intros [] |].
  intros y Hy [<-|[]]. now apply E.
Qed.

Lemma fold_setAdd_In (l s : list string) (y : string) :
  In y (fold_left setAdd l s) <-> In y s \/ In y l.
Proof.
  revert s. induction l as [|x l IH]; intros s; cbn [fold_left In].
  - tauto.
  - rewrite IH, setAdd_In. intuition congruence.
Qed.

Lemma fold_setAdd_NoDup (l s : list string) : NoDup s -> NoDup (fold_left setAdd l s).
Proof.
  revert s. induction l as [|x l IH]; intros s H; cbn [fold_left]; [exact H|].
  apply IH. now apply setAdd_NoDup.
Qed.

Lemma setOf_In (l : list string) (y : string) : In y (setOf l) <-> In y l.
Proof. unfold setOf. rewrite fold_setAdd_In. cbn [In]. tauto. Qed.

Lemma setOf_NoDup (l : list string) : NoDup (setOf l).
Proof. apply fold_setAdd_NoDup. constructor. Qed.

Lemma get_set_eq {V : Type} (k : string) (v : V) (m : list (string * V)) :
  Dict.get k (Dict.set k v m) = Some v.
Proof.
  induction m as [|[k' x] m IH]; cbn [Dict.set Dict.get].
  - now rewrite String.eqb_refl.
  - destruct (String.eqb k k') eqn:E; cbn [Dict.get]; rewrite E; [reflexivity | exact IH].
Qed.

Lemma get_set_ne {V : Type} (k k' : string) (v : V) (m : list (string * V)) :
  k <> k' -> Dict.get k' (Dict.set k v m) = Dict.get k' m.
Proof.
  intros Hne. induction m as [|[k0 x] m IH]; cbn [Dict.set Dict.get].
  - now rewrite (proj2 (String.eqb_neq k' k)) by congruence.
  - destruct (String.eqb k k0) eqn:E; cbn [Dict.get].
    + apply String.eqb_eq in E. subst k0.
      now rewrite (proj2 (String.eqb_neq k' k)) by congruence.
    + destruct (String.eqb k' k0); [reflexivity | exact IH].
Qed.

Lemma get_None {V : Type} (k : string) (m : list (string * V)) :
  Dict.get k m = None <-> ~ In k (map fst m).
Proof.
  induction m as [|[k' x] m IH]; cbn [Dict.get map fst In]; [tauto|].
  destruct (String.eqb k k') eqn:E.
  - apply String.eqb_eq in E. subst. split; [discriminate | intros H; exfalso; apply H; now left].
  - apply String.eqb_neq in E. rewrite IH. split.
    + intros H [H'|H']; [congruence | now apply H].
    + intros H H'. apply H. now right.
Qed.

Lemma mem_has {V : Type} (k : string) (m : list (string * V)) :
  Dict.mem k m = has (map fst m) k.
Proof.
  unfold Dict.mem. destruct (Dict.get k m) eqn:E.
  - symmetry. apply has_In. destruct (in_dec string_dec k (map fst m)) as [H|H]; [exact H|].
    apply get_None in H. congruence.
  - symmetry. apply has_false. now apply get_None.
Qed.

(** The keys of a map after a write: the set of keys with the key added. *)
Lemma keys_set {V : Type} (k : string) (v : V) (m : list (string * V)) :
  map fst (Dict.set k v m) = setAdd (map fst m) k.
Proof.
  unfold setAdd. induction m as [|[k' x] m IH]; cbn [Dict.set map fst has existsb]; [reflexivity|].
  fold (has (map fst m) k).
  destruct (String.eqb k k') eqn:E; cbn [orb map fst]; [reflexivity|].
  rewrite IH. destruct (has (map fst m) k); reflexivity.
Qed.

Lemma set_fresh {V : Type} (k : string) (v : V) (m : list (string * V)) :
  ~ In k (map fst m) -> Dict.set k v m = m ++ [(k, v)].
Proof.
  induction m as [|[k' x] m IH]; cbn [Dict.set map fst In app]; intros H; [reflexivity|].
  rewrite (proj2 (String.eqb_neq k k')) by (intros ->; apply H; now left).
  f_equal. apply IH. intros H'. apply H. now right.
Qed.

Lemma count_increment (m : list (string * nat)) (k t : string) :
  Dict.count (Dict.increment m k) t
  = (Dict.count m t + if string_dec k t then 1 else 0)%nat.
Proof.
  unfold Dict.increment, Dict.count at 1. destruct (string_dec k t) as [->|Hne].
  - now rewrite get_set_eq.
  - rewrite get_set_ne by exact Hne. unfold Dict.count. lia.
Qed.

Lemma sum_increment (m : list (string * nat)) (k : string) :
  list_sum (map snd (Dict.increment m k)) = S (list_sum (map snd m)).
Proof.
  assert (G : forall v, (list_sum (map snd (Dict.set k v m)) + Dict.count m k
                         = list_sum (map snd m) + v)%nat).
  { intros v. unfold Dict.count.
    induction m as [|[k' x] m IH]; cbn [Dict.get Dict.set map snd list_sum fold_right];
      [lia|].
    destruct (String.eqb k k') eqn:E; cbn [map snd list_sum fold_right];
      [lia | fold (list_sum (map snd (Dict.set k v m))); fold (list_sum (map snd m)); lia]. }
  unfold Dict.increment. specialize (G (Dict.count m k + 1)%nat). lia.
Qed.

(** ** extractTermFrequency *)

Lemma frequency_loop (tokens : list string) (m : list (string * nat)) :
  map fst (fold_left Dict.increment tokens m) = fold_left setAdd tokens (map fst m) /\
  (forall t, Dict.count (fold_left Dict.increment tokens m) t
             = (Dict.count m t + count_occ string_dec tokens t)%nat) /\
  list_sum (map snd (fold_left Dict.increment tokens m))
  = (list_sum (map snd m) + length tokens)%nat.
Proof.
  revert m. induction tokens as [|x tokens IH]; intros m; cbn [fold_left count_occ length].
  - repeat split; intros; lia.
  - destruct (IH (Dict.increment m x)) as (H1 & H2 & H3). split; [|split].
    + rewrite H1. unfold Dict.increment. now rewrite keys_set.
    + intros t. rewrite H2, count_increment. destruct (string_dec x t); lia.
    + rewrite H3, sum_increment. lia.
Qed.

Lemma term_frequency_facts (tokens : list string) :
  map fst (Terms.extractTermFrequency tokens) = setOf tokens /\
  NoDup (map fst (Terms.extractTermFrequency tokens)) /\
  (forall t, In t (map fst (Terms.extractTermFrequency tokens)) <-> In t tokens) /\
  (forall t, Dict.count (Terms.extractTermFrequency tokens) t = count_occ string_dec tokens t) /\
  list_sum (map snd (Terms.extractTermFrequency tokens)) = length tokens.
Proof.
  unfold Terms.extractTermFrequency.
  destruct (frequency_loop tokens []) as (H1 & H2 & H3).
  cbn [map] in H1. fold (setOf tokens) in H1. rewrite H1.
  split; [reflexivity|]. split; [apply setOf_NoDup|]. split; [intros t; apply setOf_In|].
  split; [exact H2 | exact H3].
Qed.

(** The map that [extractTermFrequency] returns has one entry for every
    distinct token, in the order of the first occurrences; the entry of a
    token is the number of its occurrences, and the entries add up to the
    number of tokens. *)
Theorem term_frequency_counts (tokens : list string) :
  map fst (Terms.extractTermFrequency tokens) = setOf tokens /\
  NoDup (map fst (Terms.extractTermFrequency tokens)) /\
  (forall t, In t (map fst (Terms.extractTermFrequency tokens)) <-> In t tokens) /\
  (forall t, Dict.count (Terms.extractTermFrequency tokens) t = count_occ string_dec tokens t) /\
  list_sum (map snd (Terms.extractTermFrequency tokens)) = length tokens.
Proof. apply term_frequency_facts. Qed.

(** ** calculateTfIdfVectors *)

Lemma nth_set_same {A : Type} (i : nat) (x d : A) (l : list A) :
  (i < length l)%nat -> nth i (array_set i x l) d = x.
Proof.
  revert i. induction l as [|y l IH]; intros [|i] H; cbn [length] in H; try lia.
  - reflexivity.
  - cbn [array_set nth]. apply IH. lia.
Qed.

Lemma nth_set_other {A : Type} (i j : nat) (x d : A) (l : list A) :
  j <> i -> nth j (array_set i x l) d = nth j l d.
Proof.
  revert i j. induction l as [|y l IH]; intros [|i] [|j] H; cbn [array_set nth];
    try reflexivity; try congruence.
  apply IH. congruence.
Qed.

Lemma vocabulary_loop (docs : list (list string)) (s : list string) :
  NoDup s ->
  NoDup (fold_left (fun vocabulary tokens => fold_left setAdd tokens vocabulary) docs s) /\
  forall t, In t (fold_left (fun vocabulary tokens => fold_left setAdd tokens vocabulary) docs s)
            <-> In t s \/ exists tokens, In tokens docs /\ In t tokens.
Proof.
  revert s. induction docs as [|tokens docs IH]; intros s Hs; cbn [fold_left].
  - split; [exact Hs|]. intros t. split; [now left | intros [H|(x & [] & _)]; exact H].
  - destruct (IH (fold_left setAdd tokens s) (fold_setAdd_NoDup tokens s Hs)) as [H1 H2].
    split; [exact H1|]. intros t. rewrite H2, fold_setAdd_In. split.
    + intros [[H|H]|(x & Hx & Ht)]; [now left | right; exists tokens; split; [now left | exact H]|].
      right. exists x. split; [now right | exact Ht].
    + intros [H|(x & [<-|Hx] & Ht)]; [left; now left | left; now right|].
      right. now exists x.
Qed.

Lemma vocabulary_spec (docs : list (list string)) :
  NoDup (Terms.vocabularyOf docs) /\
  forall t, In t (Terms.vocabularyOf docs) <-> exists tokens, In tokens docs /\ In t tokens.
Proof.
  destruct (vocabulary_loop docs [] (NoDup_nil _)) as [H1 H2].
  split; [exact H1|]. intros t. unfold Terms.vocabularyOf. rewrite H2. cbn [In]. tauto.
Qed.

Lemma termToIndex_loop (l : list string) (s : nat) (m : list (string * nat)) :
  (forall t, In t l -> ~ In t (map fst m)) -> NoDup l ->
  fold_left (fun termToIndex '(index, term) => Dict.set term index termToIndex)
            (combine (seq s (length l)) l) m
  = m ++ map (fun '(index, term) => (term, index)) (combine (seq s (length l)) l).
Proof.
  revert s m. induction l as [|x l IH]; intros s m Hm Hd;
    cbn [length seq combine fold_left map].
  - now rewrite app_nil_r.
  - inversion Hd as [|? ? Hx Hl]; subst.
    rewrite set_fresh by (apply Hm; now left).
    rewrite IH; [now rewrite <- app_assoc | | exact Hl].
    intros t Ht. rewrite map_app, in_app_iff. cbn [map fst In].
    intros [H|[<-|[]]]; [apply (Hm t); [now right | exact H] | contradiction].
Qed.

Lemma get_indexed (l : list string) (s : nat) (t : string) (j : nat) :
  NoDup l ->
  (Dict.get t (map (fun '(index, term) => (term, index)) (combine (seq s (length l)) l)) = Some j
   <-> (s <= j)%nat /\ nth_error l (j - s) = Some t).
Proof.
  revert s. induction l as [|x l IH]; intros s Hd; cbn [length seq combine map Dict.get].
  - split; [discriminate | intros [_ H]; destruct (j - s)%nat; discriminate].
  - inversion Hd as [|? ? Hx Hl]; subst. destruct (String.eqb t x) eqn:E.
    + apply String.eqb_eq in E. subst x. split.
      * intros [= <-]. rewrite Nat.sub_diag. split; [lia | reflexivity].
      * intros [Hj Hn]. destruct (j - s)%nat as [|i] eqn:Ei; [f_equal; lia|].
        cbn [nth_error] in Hn. exfalso. apply Hx. eapply nth_error_In. exact Hn.
    + apply String.eqb_neq in E. rewrite (IH (S s) Hl). split.
      * intros [Hj Hn]. split; [lia|].
        replace (j - s)%nat with (S (j - S s)) by lia. exact Hn.
      * intros [Hj Hn]. destruct (j - s)%nat as [|i] eqn:Ei.
        -- cbn [nth_error] in Hn. congruence.
        -- cbn [nth_error] in Hn. split; [lia|]. now replace (j - S s)%nat with i by lia.
Qed.

(** [termToIndex.get(t)] is the place of [t] in the vocabulary. *)
Lemma termToIndex_get (voc : list string) (t : string) (j : nat) :
  NoDup voc ->
  (Dict.get t (Terms.termToIndexOf voc) = Some j <-> nth_error voc j = Some t).
Proof.
  intros Hd. unfold Terms.termToIndexOf, indexed.
  rewrite (termToIndex_loop voc 0 []) by (intros; try exact Hd; intros []).
  cbn [app]. rewrite (get_indexed voc 0 t j Hd), Nat.sub_0_r. split; [tauto | split; [lia | tauto]].
Qed.

Lemma count_occ_setOf (tokens : list string) (t : string) :
  count_occ string_dec (setOf tokens) t = if has tokens t then 1%nat else 0%nat.
Proof.
  pose proof (proj1 (NoDup_count_occ string_dec _) (setOf_NoDup tokens) t) as Hle.
  destruct (has tokens t) eqn:E.
  - apply has_In in E. apply setOf_In in E. apply (count_occ_In string_dec) in E. lia.
  - apply has_false in E. rewrite <- setOf_In in E.
    apply (count_occ_not_In string_dec) in E. exact E.
Qed.

Lemma docFrequencies_loop (docs : list (list string)) (df : list (string * nat)) (t : string) :
  Dict.count (fold_left (fun docFrequencies tokens =>
                           fold_left Dict.increment (setOf tokens) docFrequencies) docs df) t
  = (Dict.count df t + Freq.docsWith t docs)%nat.
Proof.
  unfold Freq.docsWith. revert df.
  induction docs as [|tokens docs IH]; intros df; cbn [fold_left filter length]; [lia|].
  rewrite IH. destruct (frequency_loop (setOf tokens) df) as (_ & H2 & _).
  rewrite H2, count_occ_setOf. destruct (has tokens t); cbn [length]; lia.
Qed.

Lemma docFrequencies_count (docs : list (list string)) (t : string) :
  Dict.count (Terms.docFrequenciesOf docs) t = Freq.docsWith t docs.
Proof. unfold Terms.docFrequenciesOf. now rewrite docFrequencies_loop. Qed.

Lemma keys_get {V : Type} (k : string) (m : list (string * V)) :
  In k (map fst m) -> exists v, Dict.get k m = Some v.
Proof.
  intros H. destruct (Dict.get k m) as [v|] eqn:E; [now exists v|].
  apply get_None in E. contradiction.
Qed.

(** [termFreq.get(t)] is the number of occurrences of a token of the
    document, and undefined for any other term. *)
Lemma termFrequency_get (tokens : list string) (t : string) :
  Dict.get t (Terms.extractTermFrequency tokens)
  = if has tokens t then Some (count_occ string_dec tokens t) else None.
Proof.
  unfold Terms.extractTermFrequency.
  destruct (frequency_loop tokens []) as (H1 & H2 & _). cbn [map] in H1.
  destruct (has tokens t) eqn:E.
  - apply has_In in E.
    assert (Hin : In t (map fst (fold_left Dict.increment tokens []))).
    { rewrite H1. apply fold_setAdd_In. now right. }
    destruct (keys_get _ _ Hin) as (v & Ev). rewrite Ev. f_equal.
    specialize (H2 t). unfold Dict.count in H2. rewrite Ev in H2. cbn [Dict.get] in H2. lia.
  - apply has_false in E. apply get_None. rewrite H1, fold_setAdd_In. cbn [In]. tauto.
Qed.

Section VectorLoop.

Variable voc : list string.
Variable val : string -> nat -> number.

Hypothesis voc_NoDup : NoDup voc.

Lemma vector_loop (es : list (string * nat)) (v : vector) :
  length v = length voc -> NoDup (map fst es) ->
  let v' :=
    fold_left (fun vector '(term, freq) =>
                 match Dict.get term (Terms.termToIndexOf voc) with
                 | Some termIndex => array_set termIndex (val term freq) vector
                 | None => vector
                 end) es v in
  length v' = length voc /\
  forall j t, nth_error voc j = Some t ->
              nth j v' NaN = match Dict.get t es with
                             | Some freq => val t freq
                             | None => nth j v NaN
                             end.
Proof.
  revert v. induction es as [|[k fr] es IH]; intros v Hl Hd; cbn [fold_left Dict.get].
  - cbv zeta. split; [exact Hl | reflexivity].
  - cbn [map fst] in Hd. inversion Hd as [|? ? Hk Hes]; subst. cbv zeta.
    set (v1 := match Dict.get k (Terms.termToIndexOf voc) with
               | Some termIndex => array_set termIndex (val k fr) v
               | None => v
               end).
    assert (Hl1 : length v1 = length voc).
    { unfold v1. destruct (Dict.get k _); [now rewrite length_array_set | exact Hl]. }
    destruct (IH v1 Hl1 Hes) as [H1 H2]. cbv zeta in H1, H2.
    split; [exact H1|]. intros j t Hj. rewrite (H2 j t Hj).
    destruct (String.eqb t k) eqn:E.
    + apply String.eqb_eq in E. subst k.
      rewrite (proj2 (get_None t es) Hk). unfold v1.
      rewrite (proj2 (termToIndex_get voc t j voc_NoDup) Hj).
      apply nth_set_same. rewrite Hl. apply nth_error_Some. congruence.
    + apply String.eqb_neq in E. destruct (Dict.get t es); [reflexivity|].
      unfold v1. destruct (Dict.get k (Terms.termToIndexOf voc)) as [i|] eqn:Ei; [|reflexivity].
      apply nth_set_other. intros ->.
      apply (termToIndex_get voc k i voc_NoDup) in Ei. congruence.
Qed.

End VectorLoop.

Lemma docsWith_le (t : string) (docs : list (list string)) :
  (Freq.docsWith t docs <= length docs)%nat.
Proof. unfold Freq.docsWith. apply filter_length_le. Qed.

Lemma docsWith_pos (t : string) (docs : list (list string)) (tokens : list string) :
  In tokens docs -> In t tokens -> (1 <= Freq.docsWith t docs)%nat.
Proof.
  intros Hd Ht. unfold Freq.docsWith.
  assert (Hin : In tokens (filter (fun tokens => has tokens t) docs)).
  { apply filter_In. split; [exact Hd | now apply has_In]. }
  destruct (filter _ docs); [contradiction | cbn [length]; lia].
Qed.

(** The weight that the code computes for a term of a document. *)
Lemma tfidf_value (docs : list (list string)) (tokens : list string) (t : string) :
  In tokens docs -> In t tokens ->
  Terms.tfidf (count_occ string_dec tokens t) (length tokens) (length docs)
              (Freq.docsWith t docs)
  = Num (Freq.weight docs tokens t) /\ 0 <= Freq.weight docs tokens t.
Proof.
  intros Hd Ht. pose proof (docsWith_pos t docs tokens Hd Ht) as Hdf.
  pose proof (docsWith_le t docs) as Hle.
  assert (Hn : (1 <= length tokens)%nat) by (destruct tokens; [contradiction | cbn; lia]).
  assert (Rn : 0 < INR (length tokens)) by (apply lt_0_INR; lia).
  assert (Rdf : 0 < INR (Freq.docsWith t docs)) by (apply lt_0_INR; lia).
  assert (RN : INR (Freq.docsWith t docs) <= INR (length docs)) by (now apply le_INR).
  assert (Hq : 1 <= INR (length docs) / INR (Freq.docsWith t docs)).
  { apply Rmult_le_reg_r with (INR (Freq.docsWith t docs)); [exact Rdf|].
    unfold Rdiv. rewrite Rmult_assoc, Rinv_l by lra. lra. }
  unfold Terms.tfidf, orOne, of_nat, Freq.weight.
  rewrite (proj2 (Nat.eqb_neq (Freq.docsWith t docs) 0)) by lia.
  rewrite !div_Num by lra. unfold log.
  rewrite Rltb_false, Reqb_false by lra. cbn [mul]. split; [reflexivity|].
  apply Rmult_le_pos.
  - apply Rmult_le_pos; [apply pos_INR | left; now apply Rinv_0_lt_compat].
  - rewrite <- ln_1. destruct Hq as [Hq|Hq]; [left; apply ln_increasing; lra | rewrite <- Hq; lra].
Qed.

Lemma tfidf_vectors_spec (js : StringBuiltins) (re : RegexBuiltins) (documents : list string) :
  let docs := map (Terms.tokenizeText js re) documents in
  let voc := Terms.vocabularyOf docs in
  let vectors := Terms.calculateTfIdfVectors js re documents in
  length vectors = length documents /\
  forall d tokens,
    nth_error docs d = Some tokens ->
    exists v,
      nth_error vectors d = Some v /\ length v = length voc /\
      forall j t, nth_error voc j = Some t ->
                  nth j v NaN = Num (if has tokens t then Freq.weight docs tokens t else 0).
Proof.
  intros docs voc vectors. unfold vectors, Terms.calculateTfIdfVectors. fold docs. fold voc.
  split; [unfold docs; now rewrite !length_map|].
  intros d tokens Hd. rewrite nth_error_map, Hd. cbn [option_map].
  eexists. split; [reflexivity|].
  destruct (vocabulary_spec docs) as [Hvd _]. fold voc in Hvd.
  unfold Terms.tfidfVector.
  destruct (vector_loop voc
              (fun term freq =>
                 Terms.tfidf freq (length tokens) (length documents)
                             (Dict.count (Terms.docFrequenciesOf docs) term))
              Hvd (Terms.extractTermFrequency tokens) (repeat (Num 0) (length voc)))
    as [H1 H2].
  { apply repeat_length. }
  { destruct (term_frequency_facts tokens) as (_ & H & _). exact H. }
  cbv zeta in H1, H2. split; [exact H1|].
  intros j t Hj. rewrite (H2 j t Hj), termFrequency_get.
  destruct (has tokens t) eqn:E.
  - apply has_In in E. rewrite docFrequencies_count.
    replace (length documents) with (length docs) by (unfold docs; apply length_map).
    apply tfidf_value; [eapply nth_error_In; exact Hd | exact E].
  - apply nth_repeat_lt. apply nth_error_Some. congruence.
Qed.

(** [calculateTfIdfVectors] returns one vector per document, with one
    component per term of the vocabulary (the distinct tokens of all
    documents, in the order of their first occurrence).  The component of a
    term is 0 when the document does not have the term, and otherwise
    [(occurrences / tokens of the document) * ln(documents / documents with
    the term)], a finite number. *)
Theorem tfidf_vectors (js : StringBuiltins) (re : RegexBuiltins) (documents : list string) :
  let docs := map (Terms.tokenizeText js re) documents in
  let voc := Terms.vocabularyOf docs in
  let vectors := Terms.calculateTfIdfVectors js re documents in
  length vectors = length documents /\
  NoDup voc /\
  (forall t, In t voc <-> exists tokens, In tokens docs /\ In t tokens) /\
  forall d tokens,
    nth_error docs d = Some tokens ->
    exists v,
      nth_error vectors d = Some v /\ length v = length voc /\
      forall j t, nth_error voc j = Some t ->
                  nth j v NaN = Num (if has tokens t then Freq.weight docs tokens t else 0).
Proof.
  intros docs voc vectors.
  destruct (tfidf_vectors_spec js re documents) as [H1 H2].
  destruct (vocabulary_spec docs) as [H3 H4].
  split; [exact H1|]. split; [exact H3|]. split; [exact H4 | exact H2].
Qed.

Lemma docsWith_all (t : string) (docs : list (list string)) :
  (forall tokens, In tokens docs -> In t tokens) -> Freq.docsWith t docs = length docs.
Proof.
  unfold Freq.docsWith. induction docs as [|tokens docs IH]; intros H; [reflexivity|].
  cbn [filter]. rewrite (proj2 (has_In tokens t)) by (apply H; now left).
  cbn [length]. f_equal. apply IH. intros x Hx. apply H. now right.
Qed.

Lemma weight_common (docs : list (list string)) (tokens : list string) (t : string) :
  docs <> [] -> (forall tokens, In tokens docs -> In t tokens) ->
  Freq.weight docs tokens t = 0.
Proof.
  intros Hne Hall. unfold Freq.weight. rewrite (docsWith_all t docs Hall).
  assert (Hn : 0 < INR (length docs)).
  { apply lt_0_INR. destruct docs; [contradiction | cbn [length]; lia]. }
  replace (INR (length docs) / INR (length docs)) with 1 by (field; lra).
  rewrite ln_1. ring.
Qed.

(** All TF-IDF weights are finite numbers that are not negative, and a
    term that every document has gets the weight 0 in every vector; in
    particular the vector of a single document is all zeros. *)
Theorem tfidf_common_terms (js : StringBuiltins) (re : RegexBuiltins) (documents : list string) :
  let docs := map (Terms.tokenizeText js re) documents in
  let voc := Terms.vocabularyOf docs in
  let vectors := Terms.calculateTfIdfVectors js re documents in
  (forall v, In v vectors -> Forall Features.nonneg v) /\
  (forall d v j t,
      nth_error vectors d = Some v -> nth_error voc j = Some t ->
      (forall tokens, In tokens docs -> In t tokens) ->
      nth j v NaN = Num 0) /\
  (forall doc,
      documents = [doc] ->
      vectors = [repeat (Num 0) (length (setOf (Terms.tokenizeText js re doc)))]).
Proof.
  intros docs voc vectors.
  destruct (tfidf_vectors_spec js re documents) as [Hlen Hspec]. fold docs voc vectors in Hlen, Hspec.
  assert (Hget : forall d v, nth_error vectors d = Some v ->
                             exists tokens, nth_error docs d = Some tokens /\ In tokens docs /\
                               length v = length voc /\
                               forall j t, nth_error voc j = Some t ->
                                 nth j v NaN
                                 = Num (if has tokens t then Freq.weight docs tokens t else 0)).
  { intros d v Hv.
    assert (Hd : (d < length docs)%nat).
    { unfold docs. rewrite length_map, <- Hlen. apply nth_error_Some. congruence. }
    destruct (nth_error docs d) as [tokens|] eqn:Ed; [|apply nth_error_None in Ed; lia].
    destruct (Hspec d tokens Ed) as (v' & Ev' & Hl & Hn).
    assert (v' = v) by congruence. subst v'.
    exists tokens. split; [reflexivity|]. split; [eapply nth_error_In; exact Ed|].
    split; [exact Hl | exact Hn]. }
  split; [|split].
  - intros v Hv. destruct (In_nth_error _ _ Hv) as (d & Ed).
    destruct (Hget d v Ed) as (tokens & _ & Hin & Hl & Hn).
    apply Forall_nth. intros j dflt Hj. rewrite (nth_indep v dflt NaN Hj).
    rewrite Hl in Hj.
    destruct (nth_error voc j) as [t|] eqn:Et; [|apply nth_error_None in Et; lia].
    rewrite (Hn j t Et). destruct (has tokens t) eqn:E.
    + apply has_In in E. destruct (tfidf_value docs tokens t Hin E) as [_ Hw].
      eexists. split; [reflexivity | exact Hw].
    + exists 0. split; [reflexivity | lra].
  - intros d v j t Hv Hj Hall. destruct (Hget d v Hv) as (tokens & _ & Hin & _ & Hn).
    rewrite (Hn j t Hj), (proj2 (has_In tokens t) (Hall tokens Hin)).
    f_equal. apply weight_common; [|exact Hall]. intros E. rewrite E in Hin. contradiction.
  - intros doc Edoc.
    assert (Edocs : docs = [Terms.tokenizeText js re doc]) by (unfold docs; now rewrite Edoc).
    assert (Evoc : voc = setOf (Terms.tokenizeText js re doc)) by (unfold voc; now rewrite Edocs).
    destruct vectors as [|v [|v2 rest]] eqn:Ev;
      try (rewrite Edoc in Hlen; cbn [length] in Hlen; discriminate).
    f_equal.
    destruct (Hget 0%nat v Logic.eq_refl) as (tokens & Et & Hin & Hl & Hn).
    rewrite Edocs in Et. cbn [nth_error] in Et. injection Et as <-.
    rewrite <- Evoc.
    apply (nth_ext _ _ NaN NaN); [now rewrite repeat_length|].
    intros j Hj. rewrite Hl in Hj. rewrite nth_repeat_lt by exact Hj.
    destruct (nth_error voc j) as [t|] eqn:Ej; [|apply nth_error_None in Ej; lia].
    rewrite (Hn j t Ej).
    assert (Ht : In t (Terms.tokenizeText js re doc)).
    { apply setOf_In. rewrite <- Evoc. eapply nth_error_In. exact Ej. }
    rewrite (proj2 (has_In _ t) Ht). f_equal. apply weight_common.
    + rewrite Edocs. discriminate.
    + rewrite Edocs. intros x [<-|[]]. exact Ht.
Qed.

Lemma tfidf_common_terms_witness :
  Terms.calculateTfIdfVectors Sample.js Sample.re ["alpha beta alpha"%string]
  = [repeat (Num 0)
            (length (setOf (Terms.tokenizeText Sample.js Sample.re "alpha beta alpha"%string)))].
Proof.
  destruct (tfidf_common_terms Sample.js Sample.re ["alpha beta alpha"%string]) as (_ & _ & H).
  now apply H.
Defined.

Lemma tfidf_vectors_witness :
  exists v,
    nth_error (Terms.calculateTfIdfVectors Sample.js Sample.re
                 ["alpha beta alpha"; "alpha gamma"]%string) 0 = Some v /\
    length v = 3%nat /\
    nth 1 v NaN
    = Num (Freq.weight [["alpha"; "beta"; "alpha"]; ["alpha"; "gamma"]]%string
                       ["alpha"; "beta"; "alpha"]%string "beta"%string).
Proof.
  destruct (tfidf_vectors Sample.js Sample.re ["alpha beta alpha"; "alpha gamma"]%string)
    as (_ & _ & _ & H).
  destruct (H 0%nat ["alpha"; "beta"; "alpha"]%string Logic.eq_refl) as (v & Ev & Hl & Hn).
  exists v. split; [exact Ev|]. split; [exact Hl|].
  exact (Hn 1%nat "beta"%string Logic.eq_refl).
Defined.

(** ** Sorting by score *)

Lemma insertBy_entry {A : Type} (e : A * R) (l : list (A * R)) :
  insertBy byScoreDesc (Ranking.entry e) (map Ranking.entry l)
  = map Ranking.entry (Ranking.insert e l).
Proof.
  induction l as [|e' l IH]; cbn [map insertBy Ranking.insert]; [reflexivity|].
  unfold byScoreDesc at 1, Ranking.entry at 1 2. cbn [snd sub neg add gt JS.lt].
  unfold Rltb. destruct (Rlt_dec 0 (snd e' + - snd e)) as [H|H],
                        (Rlt_dec (snd e) (snd e')) as [H'|H']; try lra.
  - cbn [map]. f_equal. exact IH.
  - reflexivity.
Qed.

Lemma sortBy_entry {A : Type} (l : list (A * R)) :
  sortBy byScoreDesc (map Ranking.entry l) = map Ranking.entry (Ranking.sort l).
Proof.
  unfold sortBy, Ranking.sort. induction l as [|e l IH]; cbn [map fold_right]; [reflexivity|].
  rewrite IH. apply insertBy_entry.
Qed.

Lemma insert_perm {A : Type} (e : A * R) (l : list (A * R)) :
  Permutation (Ranking.insert e l) (e :: l).
Proof.
  induction l as [|e' l IH]; cbn [Ranking.insert]; [reflexivity|].
  destruct (Rlt_dec (snd e) (snd e')); [|reflexivity].
  rewrite IH. apply perm_swap.
Qed.

Lemma sort_perm {A : Type} (l : list (A * R)) : Permutation (Ranking.sort l) l.
Proof.
  unfold Ranking.sort. induction l as [|e l IH]; cbn [fold_right]; [reflexivity|].
  rewrite insert_perm. now constructor.
Qed.

Lemma insert_sorted {A : Type} (e : A * R) (l : list (A * R)) :
  Ranking.nonincreasing (map snd l) -> Ranking.nonincreasing (map snd (Ranking.insert e l)).
Proof.
  induction l as [|e' l IH]; cbn [Ranking.insert map Ranking.nonincreasing]; intros H.
  - split; constructor.
  - destruct H as [Hall Hs]. destruct (Rlt_dec (snd e) (snd e')) as [Hlt|Hge];
      cbn [map Ranking.nonincreasing].
    + split; [|now apply IH].
      apply Forall_forall. intros y Hy.
      assert (Hp : Permutation (map snd (Ranking.insert e l)) (snd e :: map snd l)).
      { change (snd e :: map snd l) with (map snd (e :: l)). apply Permutation_map, insert_perm. }
      apply (Permutation_in _ Hp) in Hy. destruct Hy as [<-|Hy]; [lra|].
      rewrite Forall_forall in Hall. now apply Hall.
    + split; [|split; assumption].
      constructor; [lra|]. apply Forall_forall. intros y Hy.
      rewrite Forall_forall in Hall. specialize (Hall y Hy). lra.
Qed.

Lemma sort_sorted {A : Type} (l : list (A * R)) :
  Ranking.nonincreasing (map snd (Ranking.sort l)).
Proof.
  unfold Ranking.sort. induction l as [|e l IH]; cbn [fold_right]; [exact I|].
  now apply insert_sorted.
Qed.

Lemma firstn_NoDup {A : Type} (n : nat) (l : list A) : NoDup l -> NoDup (firstn n l).
Proof.
  intros H. rewrite <- (firstn_skipn n l) in H. now apply NoDup_app_remove_r in H.
Qed.

Lemma firstn_In {A : Type} (n : nat) (l : list A) (x : A) : In x (firstn n l) -> In x l.
Proof. intros H. rewrite <- (firstn_skipn n l). apply in_or_app. now left. Qed.

Lemma fst_entry {A : Type} (l : list (A * R)) : map fst (map Ranking.entry l) = map fst l.
Proof. rewrite map_map. reflexivity. Qed.

(** ** extractKeyTerms of text-analysis.ts *)

Lemma scores_loop {A B C : Type} (f : A -> B -> C) (es : list (A * B)) (acc : list (A * C)) :
  fold_left (fun scores '(term, freq) => scores ++ [(term, f term freq)]) es acc
  = acc ++ map (fun '(term, freq) => (term, f term freq)) es.
Proof.
  revert acc. induction es as [|[t fr] es IH]; intros acc; cbn [fold_left map].
  - now rewrite app_nil_r.
  - rewrite IH, <- app_assoc. reflexivity.
Qed.

Lemma tfidf_finite (freq n totalDocs df : nat) :
  (1 <= n)%nat -> (1 <= totalDocs)%nat -> is_finite (Terms.tfidf freq n totalDocs df).
Proof.
  intros Hn HN. unfold Terms.tfidf, of_nat.
  assert (Rn : 0 < INR n) by (apply lt_0_INR; lia).
  assert (RN : 0 < INR totalDocs) by (apply lt_0_INR; lia).
  assert (Rd : 0 < INR (orOne df)).
  { apply lt_0_INR. unfold orOne. destruct (df =? 0)%nat eqn:E; [lia|].
    apply Nat.eqb_neq in E. lia. }
  rewrite !div_Num by lra. unfold log.
  assert (Hq : 0 < INR totalDocs / INR (orOne df)).
  { apply Rmult_lt_0_compat; [exact RN | now apply Rinv_0_lt_compat]. }
  rewrite Rltb_false, Reqb_false by lra. cbn [mul]. eexists. reflexivity.
Qed.

Lemma finite_entries {A : Type} (l : list (A * number)) :
  Forall (fun e => is_finite (snd e)) l -> exists r, l = map Ranking.entry r.
Proof.
  induction 1 as [|[a x] l [s Hs] _ [r ->]].
  - now exists [].
  - cbn [snd] in Hs. subst x. now exists ((a, s) :: r).
Qed.

(** The scored terms of a document: its distinct tokens, each with a
    finite score. *)
Lemma keyTermScores_shape (js : StringBuiltins) (re : RegexBuiltins)
      (tokens : list string) (allDocuments : list string) :
  allDocuments <> [] ->
  exists scored : list (string * R),
    Terms.keyTermScores js re tokens allDocuments = map Ranking.entry scored /\
    map fst scored = setOf tokens.
Proof.
  intros Hne. unfold Terms.keyTermScores.
  set (df := fold_left _ allDocuments []).
  rewrite scores_loop. cbn [app].
  destruct (term_frequency_facts tokens) as (Hk & _ & Hin & _).
  destruct (finite_entries
              (map (fun '(term, freq) =>
                      (term, Terms.tfidf freq (length tokens) (length allDocuments)
                                         (Dict.count df term)))
                   (Terms.extractTermFrequency tokens))) as (scored & Es).
  - apply Forall_forall. intros [t x] Hx. apply in_map_iff in Hx.
    destruct Hx as ([t' fr] & [= <- <-] & Hx). cbn [snd].
    apply tfidf_finite.
    + assert (Ht : In t' tokens).
      { apply Hin. apply in_map_iff. exists (t', fr). now split. }
      destruct tokens; [contradiction | cbn [length]; lia].
    + destruct allDocuments; [contradiction | cbn [length]; lia].
  - exists scored. split; [exact Es|].
    rewrite <- Hk, <- (fst_entry scored), <- Es, map_map.
    apply map_ext. now intros [t fr].
Qed.

Lemma key_terms_facts (js : StringBuiltins) (re : RegexBuiltins) (document : string)
      (allDocuments : list string) (count : nat) :
  allDocuments <> [] ->
  let tokens := Terms.tokenizeText js re document in
  let terms := Terms.extractKeyTerms js re document allDocuments count in
  NoDup terms /\
  (forall t, In t terms -> In t tokens) /\
  length terms = Nat.min count (length (setOf tokens)) /\
  exists ranked : list (string * R),
    Permutation (map Ranking.entry ranked) (Terms.keyTermScores js re tokens allDocuments) /\
    Ranking.nonincreasing (map snd ranked) /\
    terms = map fst (firstn count ranked).
Proof.
  intros Hne tokens terms. unfold terms, Terms.extractKeyTerms. fold tokens.
  destruct (keyTermScores_shape js re tokens allDocuments Hne) as (scored & Es & Hk).
  destruct (length tokens =? 0)%nat eqn:E0.
  - apply Nat.eqb_eq in E0. apply length_zero_iff_nil in E0.
    rewrite E0 in *. cbn [setOf fold_left] in Hk. destruct scored; [|discriminate].
    split; [constructor|]. split; [intros t []|].
    split; [unfold setOf; cbn [fold_left length]; lia|].
    exists []. rewrite Es. cbn [map firstn]. destruct count; repeat split; constructor.
  - rewrite Es, sortBy_entry.
    assert (Hp : Permutation (map fst (Ranking.sort scored)) (setOf tokens)).
    { rewrite <- Hk. apply Permutation_map, sort_perm. }
    assert (Hl : length (Ranking.sort scored) = length (setOf tokens)).
    { rewrite <- (length_map fst), (Permutation_length Hp). reflexivity. }
    rewrite firstn_map, fst_entry.
    split; [|split; [|split]].
    + rewrite <- firstn_map. apply firstn_NoDup.
      apply (Permutation_NoDup (Permutation_sym Hp)), setOf_NoDup.
    + intros t Ht. rewrite <- firstn_map in Ht. apply firstn_In in Ht.
      apply setOf_In. exact (Permutation_in _ Hp Ht).
    + now rewrite length_map, length_firstn, Hl.
    + exists (Ranking.sort scored). split; [|split; [apply sort_sorted | reflexivity]].
      apply Permutation_map, sort_perm.
Qed.

(** [extractKeyTerms] of text-analysis.ts, for a non-empty list of
    documents, returns the first [count] terms of the ranking of the distinct
    tokens of the document by decreasing TF-IDF score: the terms returned
    are pairwise distinct tokens of the document, there are
    [min(count, number of distinct tokens)] of them, and their scores are
    finite and never increase along the list. *)
Theorem key_terms_ranked (js : StringBuiltins) (re : RegexBuiltins) (document : string)
        (allDocuments : list string) (count : nat) :
  allDocuments <> [] ->
  let tokens := Terms.tokenizeText js re document in
  let terms := Terms.extractKeyTerms js re document allDocuments count in
  NoDup terms /\
  (forall t, In t terms -> In t tokens) /\
  length terms = Nat.min count (length (setOf tokens)) /\
  exists ranked : list (string * R),
    Permutation (map Ranking.entry ranked) (Terms.keyTermScores js re tokens allDocuments) /\
    Ranking.nonincreasing (map snd ranked) /\
    terms = map fst (firstn count ranked).
Proof. apply key_terms_facts. Qed.

Lemma key_terms_ranked_witness :
  let tokens := Terms.tokenizeText Sample.js Sample.re "alpha beta alpha"%string in
  let terms :=
    Terms.extractKeyTerms Sample.js Sample.re "alpha beta alpha"%string
                          ["alpha beta alpha"; "alpha gamma"]%string 5 in
  NoDup terms /\
  (forall t, In t terms -> In t tokens) /\
  length terms = Nat.min 5 (length (setOf tokens)) /\
  exists ranked : list (string * R),
    Permutation (map Ranking.entry ranked)
                (Terms.keyTermScores Sample.js Sample.re tokens
                                     ["alpha beta alpha"; "alpha gamma"]%string) /\
    Ranking.nonincreasing (map snd ranked) /\
    terms = map fst (firstn 5 ranked).
Proof.
  apply (key_terms_ranked Sample.js Sample.re "alpha beta alpha"%string
                          ["alpha beta alpha"; "alpha gamma"]%string 5).
  discriminate.
Defined.

(** ** kMeansClustering of clustering-algorithms.ts: the seeding *)

Lemma utils_distance_real (metric : ClusteringAlgorithms.DistanceMetric) (a b : list R) :
  length a = length b ->
  exists d, ClusteringAlgorithms.distance metric (vec a) (vec b) = Num d /\ 0 <= d.
Proof.
  intros H. destruct metric; cbn [ClusteringAlgorithms.distance].
  - rewrite (utils_euclid_vec a b H). eexists. split; [reflexivity | apply sqrt_pos].
  - rewrite (utils_cosine_vec a b H). cbn [sub neg add]. eexists. split; [reflexivity|].
    pose proof (cosine_bounds a b H). lra.
Qed.

Lemma minDistTo_real (metric : ClusteringAlgorithms.DistanceMetric) (a : list R)
      (cs : list (list R)) :
  cs <> [] -> Forall (fun c => length c = length a) cs ->
  exists m, ClusteringAlgorithms.minDistTo metric (vec a) (map vec cs) = Num m /\ 0 <= m.
Proof.
  intros Hne Hl. unfold ClusteringAlgorithms.minDistTo.
  assert (G : forall acc,
             (acc = PosInf \/ exists m, acc = Num m /\ 0 <= m) ->
             forall cs, Forall (fun c => length c = length a) cs ->
             let r := fold_left (fun minDist centroid =>
                                   JS.min minDist
                                          (ClusteringAlgorithms.distance metric (vec a) centroid))
                                (map vec cs) acc in
             (cs = [] /\ r = acc) \/ exists m, r = Num m /\ 0 <= m).
  { clear. intros acc Hacc cs Hl. revert acc Hacc.
    induction Hl as [|c cs Hc _ IH]; intros acc Hacc; [left; now split|].
    right. cbn [map fold_left].
    destruct (utils_distance_real metric a c (Logic.eq_sym Hc)) as (d & Ed & Hd).
    rewrite Ed.
    assert (Hnext : exists m, JS.min acc (Num d) = Num m /\ 0 <= m).
    { destruct Hacc as [->|(m & -> & Hm)].
      - exists d. split; [reflexivity | exact Hd].
      - cbn [JS.min JS.lt]. destruct (Rltb d m); eexists; (split; [reflexivity | assumption]). }
    destruct (IH _ (or_intror Hnext)) as [[-> E]|H]; [|exact H].
    cbn [map fold_left] in *. exact Hnext. }
  destruct (G PosInf (or_introl Logic.eq_refl) cs Hl) as [[E _]|H]; [contradiction | exact H].
Qed.

Lemma fold_left_seq_inv {A : Type} (P : nat -> A -> Prop) (f : A -> nat -> A)
      (s m : nat) (a : A) :
  P s a ->
  (forall i a, (s <= i < s + m)%nat -> P i a -> P (S i) (f a i)) ->
  P (s + m)%nat (fold_left f (seq s m) a).
Proof.
  intros H0 Hstep. induction m as [|m IH].
  - now rewrite Nat.add_0_r.
  - rewrite seq_S, fold_left_app. cbn [fold_left].
    replace (s + S m)%nat with (S (s + m)) by lia.
    apply Hstep; [lia|]. apply IH. intros i b Hi. apply Hstep. lia.
Qed.

Lemma In_indexed {A : Type} (l : list A) (i : nat) (x : A) :
  nth_error l i = Some x -> In (i, x) (indexed l).
Proof.
  unfold indexed.
  assert (G : forall s, nth_error l i = Some x ->
                        In ((s + i)%nat, x) (combine (seq s (length l)) l)).
  { revert i. induction l as [|y l IH]; intros [|i] s H; cbn [nth_error] in H;
      try discriminate; cbn [length seq combine].
    - injection H as ->. left. now rewrite Nat.add_0_r.
    - right. replace (s + S i)%nat with (S s + i)%nat by lia. now apply IH. }
  intros H. exact (G 0%nat H).
Qed.

Section SeedFacts.

Variable metric : ClusteringAlgorithms.DistanceMetric.
Variable vectors : list (list R).
Variable dim : nat.

Hypothesis uniform : Forall (fun v => length v = dim) vectors.

Local Abbreviation vs := (map vec vectors).

Lemma In_vs (c : vector) : In c vs -> exists l, c = vec l /\ length l = dim.
Proof.
  intros H. apply in_map_iff in H. destruct H as (l & <- & Hl).
  exists l. split; [reflexivity|]. rewrite Forall_forall in uniform. now apply uniform.
Qed.

Lemma indexed_vs (j : nat) (v : vector) :
  In (j, v) (indexed vs) -> exists l, v = vec l /\ length l = dim.
Proof.
  intros H. apply indexed_In in H. destruct H as [_ H]. apply nth_error_In in H.
  now apply In_vs.
Qed.

Lemma centroids_real (centroids : list vector) :
  Forall (fun c => In c vs) centroids ->
  exists cs, centroids = map vec cs /\ Forall (fun c => length c = dim) cs.
Proof.
  induction 1 as [|c centroids Hc _ (cs & -> & Hcs)].
  - exists []. split; [reflexivity | constructor].
  - destruct (In_vs c Hc) as (l & -> & Hl). exists (l :: cs). split; [reflexivity|].
    now constructor.
Qed.

(** [roulette] only returns an index that is not used yet. *)
Lemma roulette_unused (usedIndices : list nat) (distances : list number)
      (threshold : number) (j : nat) (v : vector) :
  ClusteringAlgorithms.roulette vs usedIndices distances threshold = Some (j, v) ->
  ~ In j usedIndices /\ In (j, v) (indexed vs).
Proof.
  unfold ClusteringAlgorithms.roulette.
  assert (G : forall l acc,
             (forall e, In e l -> In e (indexed vs)) ->
             (forall j v, snd (fst acc) = Some (j, v) ->
                          ~ In j usedIndices /\ In (j, v) (indexed vs)) ->
             forall j v,
               snd (fst (fold_left
                           (fun '(cumulativeProb, nextCentroidIndex, index) '(j, v) =>
                              match nextCentroidIndex with
                              | Some _ => (cumulativeProb, nextCentroidIndex, index)
                              | None =>
                                  if includes usedIndices j
                                  then (cumulativeProb, nextCentroidIndex, index)
                                  else
                                    let cumulativeProb :=
                                      add cumulativeProb (get distances index) in
                                    if ge cumulativeProb threshold
                                    then (cumulativeProb, Some (j, v), S index)
                                    else (cumulativeProb, None, S index)
                              end) l acc)) = Some (j, v) ->
               ~ In j usedIndices /\ In (j, v) (indexed vs)).
  { clear. induction l as [|[j0 v0] l IH]; intros [[c nx] ix] Hl Hacc j v; cbn [fold_left].
    - apply Hacc.
    - apply IH; [intros e He; apply Hl; now right|].
      cbn [fst snd] in Hacc. destruct nx as [p|]; [exact Hacc|].
      destruct (includes usedIndices j0) eqn:E; [exact Hacc|]. cbv zeta.
      destruct (ge _ threshold); cbn [fst snd]; [|discriminate].
      intros j1 v1 [= <- <-]. split; [|apply Hl; now left].
      intros H. apply includes_In in H. congruence. }
  assert (T : forall t : number * option (nat * vector) * nat,
             (let '(_, nextCentroidIndex, _) := t in nextCentroidIndex) = snd (fst t)).
  { intros [[c nx] ix]. reflexivity. }
  rewrite T. intros H.
  apply (G (indexed vs) (Num 0, None, 0%nat)); [auto | discriminate | exact H].
Qed.

(** [farthest] finds an index that is not used yet when there is one. *)
Lemma farthest_some (usedIndices : list nat) (centroids : list vector) :
  centroids <> [] -> Forall (fun c => In c vs) centroids ->
  (exists j, (j < length vs)%nat /\ ~ In j usedIndices) ->
  exists j v,
    ClusteringAlgorithms.farthest metric vs usedIndices centroids = Some (j, v) /\
    ~ In j usedIndices /\ In (j, v) (indexed vs).
Proof.
  intros Hne Hc (j0 & Hj0 & Hu0). unfold ClusteringAlgorithms.farthest.
  destruct (centroids_real centroids Hc) as (cs & -> & Hcs).
  assert (Hcs0 : cs <> []) by (intros ->; now apply Hne).
  assert (G : forall l acc,
             (forall e, In e l -> In e (indexed vs)) ->
             match snd acc with
             | None => fst acc = Num (-1)
             | Some (j, v) => ~ In j usedIndices /\ In (j, v) (indexed vs)
             end ->
             snd acc <> None \/ (exists e, In e l /\ ~ In (fst e) usedIndices) ->
             exists j v,
               snd (fold_left
                      (fun '(maxDist, nextCentroidIndex) '(j, v) =>
                         if includes usedIndices j then (maxDist, nextCentroidIndex)
                         else
                           let minDist :=
                             ClusteringAlgorithms.minDistTo metric v (map vec cs) in
                           if gt minDist maxDist then (minDist, Some (j, v))
                           else (maxDist, nextCentroidIndex)) l acc) = Some (j, v) /\
               ~ In j usedIndices /\ In (j, v) (indexed vs)).
  { induction l as [|[j1 v1] l IH]; intros [maxDist nx] Hl Hacc Hex; cbn [fold_left].
    - cbn [snd fst] in *. destruct Hex as [Hex|(e & [] & _)].
      destruct nx as [[j v]|]; [|contradiction]. now exists j, v.
    - cbn [snd fst] in Hacc, Hex.
      destruct (includes usedIndices j1) eqn:E.
      + apply IH; [intros e He; apply Hl; now right | exact Hacc|].
        destruct Hex as [Hex|(e & [<-|He] & Hu)]; [now left | | right; now exists e].
        exfalso. apply Hu. now apply includes_In.
      + assert (Hj1 : ~ In j1 usedIndices) by (intros H; apply includes_In in H; congruence).
        assert (Hin1 : In (j1, v1) (indexed vs)) by (apply Hl; now left).
        cbv zeta.
        destruct (gt (ClusteringAlgorithms.minDistTo metric v1 (map vec cs)) maxDist) eqn:Eg.
        * apply IH; [intros e He; apply Hl; now right | cbn [snd]; now split|].
          left. cbn [snd]. discriminate.
        * destruct nx as [[j v]|].
          -- apply IH; [intros e He; apply Hl; now right | exact Hacc | left; discriminate].
          -- exfalso. cbn [fst] in Hacc. subst maxDist.
             destruct (indexed_vs j1 v1 Hin1) as (a & -> & Ha).
             destruct (minDistTo_real metric a cs Hcs0) as (m & Em & Hm).
             { eapply Forall_impl; [|exact Hcs]. cbv beta. intros c Hc'. congruence. }
             rewrite Em in Eg. cbn [gt JS.lt] in Eg. rewrite Rltb_true in Eg by lra.
             discriminate. }
  apply (G (indexed vs) (Num (-1), None)); [auto | reflexivity|].
  right. destruct (nth_error vs j0) as [v|] eqn:Ev; [|apply nth_error_None in Ev; lia].
  exists (j0, v). split; [now apply In_indexed | exact Hu0].
Qed.

Lemma exists_unused (n : nat) (used : list nat) :
  NoDup used -> (length used < n)%nat -> exists j, (j < n)%nat /\ ~ In j used.
Proof.
  intros Hd Hl.
  destruct (Forall_Exists_dec (fun j => In j used) (fun j => in_dec Nat.eq_dec j used)
                              (seq 0 n)) as [Hall|Hex].
  - exfalso. rewrite Forall_forall in Hall.
    pose proof (NoDup_incl_length (seq_NoDup n 0) Hall) as H. rewrite length_seq in H. lia.
  - apply Exists_exists in Hex. destruct Hex as (j & Hj & Hn).
    apply in_seq in Hj. exists j. split; [lia | exact Hn].
Qed.

(** One round of the seeding adds a centroid: a vector at an index that
    was not used. *)
Lemma seedRound_ok (rand : nat -> R) (st : list vector * list nat) (i : nat) :
  (1 <= i < length vs)%nat -> KMeansInv.seeded vs i st ->
  KMeansInv.seeded vs (S i) (ClusteringAlgorithms.seedRound rand metric vs st i).
Proof.
  intros Hi (Hlc & Hlu & Hd & Hr & Hc). destruct st as [centroids used]. cbn [fst snd] in *.
  unfold ClusteringAlgorithms.seedRound.
  destruct (ClusteringAlgorithms.seedDistances metric vs used centroids)
    as [distances totalDistance].
  assert (Hnext : exists j v,
             match ClusteringAlgorithms.roulette vs used distances
                     (mul (Num (rand i)) totalDistance) with
             | Some jv => Some jv
             | None => ClusteringAlgorithms.farthest metric vs used centroids
             end = Some (j, v) /\ ~ In j used /\ In (j, v) (indexed vs)).
  { destruct (ClusteringAlgorithms.roulette vs used distances _) as [[j v]|] eqn:E.
    - exists j, v. split; [reflexivity|]. exact (roulette_unused _ _ _ _ _ E).
    - apply farthest_some; [|exact Hc|].
      + intros ->. cbn [length] in Hlc. lia.
      + apply exists_unused; [exact Hd | lia]. }
  destruct Hnext as (j & v & -> & Hj & Hin).
  apply indexed_In in Hin. destruct Hin as [Hjn Hv].
  unfold KMeansInv.seeded. cbn [fst snd]. rewrite !length_app. cbn [length].
  split; [lia|]. split; [lia|]. split; [|split].
  - apply NoDup_app; [exact Hd | repeat constructor; intros [] |].
    intros x Hx [<-|[]]. contradiction.
  - apply Forall_app. split; [exact Hr | now constructor].
  - apply Forall_app. split; [exact Hc|]. constructor; [|constructor].
    eapply nth_error_In. exact Hv.
Qed.

(** The seeding gives exactly [k] centroids when [1 <= k <= N]. *)
Lemma seeding_ok (rand : nat -> R) (k : nat) (first : vector) (firstIndex : nat) :
  (1 <= k <= length vs)%nat -> nth_error vs firstIndex = Some first ->
  let st := fold_left (ClusteringAlgorithms.seedRound rand metric vs) (seq 1 (k - 1))
                      ([first], [firstIndex]) in
  length (fst st) = k /\ Forall (fun c => In c vs) (fst st).
Proof.
  intros Hk Hf st.
  assert (H : KMeansInv.seeded vs (1 + (k - 1)) st).
  { unfold st. apply fold_left_seq_inv.
    - unfold KMeansInv.seeded. cbn [fst snd length].
      split; [reflexivity|]. split; [reflexivity|]. split; [repeat constructor; intros []|].
      split; constructor; try constructor.
      + apply nth_error_Some. congruence.
      + eapply nth_error_In. exact Hf.
    - intros i a Hi Ha. apply seedRound_ok; [lia | exact Ha]. }
  replace (1 + (k - 1))%nat with k in H by lia.
  destruct H as (H1 & _ & _ & _ & H5). now split.
Qed.

End SeedFacts.

(** ** kMeansClustering of clustering-algorithms.ts: the main loop *)

Lemma js_set_length {A : Type} (i : nat) (x : A) (l : list (option A)) :
  (i < length l)%nat -> length (js_set i x l) = length l.
Proof.
  revert i. induction l as [|y l IH]; intros [|i] H; cbn [length] in H; try lia.
  - reflexivity.
  - cbn [js_set length]. f_equal. apply IH. lia.
Qed.

Lemma js_set_whole {A : Type} (i : nat) (x : A) (l : list (option A)) :
  (i < length l)%nat -> Forall (fun c => c <> None) l ->
  Forall (fun c => c <> None) (js_set i x l).
Proof.
  revert i. induction l as [|y l IH]; intros [|i] H Hl; cbn [length] in H; try lia;
    inversion Hl as [|? ? Hy Hl']; subst; cbn [js_set].
  - constructor; [discriminate | exact Hl'].
  - constructor; [exact Hy|]. apply IH; [lia | exact Hl'].
Qed.

Lemma whole_set (k i : nat) (x : vector) (centroids : list (option vector)) :
  (i < k)%nat -> KMeansInv.whole k centroids -> KMeansInv.whole k (js_set i x centroids).
Proof.
  intros Hi [Hl Hf]. split.
  - rewrite js_set_length; [exact Hl | lia].
  - apply js_set_whole; [lia | exact Hf].
Qed.

Lemma whole_get (k i : nat) (centroids : list (option vector)) :
  (i < k)%nat -> KMeansInv.whole k centroids -> exists c, js_get centroids i = Some c.
Proof.
  intros Hi [Hl Hf]. unfold js_get.
  destruct (nth_error centroids i) as [[c|]|] eqn:E.
  - now exists c.
  - exfalso. rewrite Forall_forall in Hf. apply (Hf None); [|reflexivity].
    eapply nth_error_In. exact E.
  - apply nth_error_None in E. lia.
Qed.

(** Writing a key of a map with the keys 0 .. k-1: the points of the old
    entry are exchanged for the points of the new one. *)
Lemma flat_set (j : nat) (v old : list nat) (m : CMap.t) (k : nat) :
  CMap.keys m = seq 0 k -> CMap.lookup j m = Some old ->
  CMap.keys (CMap.set j v m) = seq 0 k /\
  Permutation (CMap.flat (CMap.set j v m) ++ old) (CMap.flat m ++ v).
Proof.
  intros Hk Hl.
  assert (Hj : (0 <= j < 0 + k)%nat).
  { destruct (Nat.lt_ge_cases j k) as [H|H]; [lia|].
    rewrite (lookup_keys_none m k j Hk H) in Hl. discriminate. }
  destruct (set_existing j m 0 k Hk Hj) as (m1 & old' & m2 & Em & Hl' & Es).
  assert (old' = old) by congruence. subst old'.
  rewrite Es. split.
  - rewrite <- Hk, Em, !keys_app. reflexivity.
  - rewrite Em, !flat_app, !flat_cons, <- !app_assoc.
    apply Permutation_app_head.
    rewrite !app_assoc.
    apply (Permutation_trans (Permutation_app_comm (v ++ CMap.flat m2) old)).
    rewrite <- !app_assoc. apply Permutation_app_head. apply Permutation_app_comm.
Qed.

Section UtilsKMeansFacts.

Variable metric : ClusteringAlgorithms.DistanceMetric.
Variable vs : list vector.
Variable dimension : nat.
Variable k : nat.

Hypothesis k_pos : (1 <= k)%nat.

Local Abbreviation n := (length vs).

Lemma utils_nearest_ok (v : vector) (centroids : list (option vector)) :
  KMeansInv.whole k centroids ->
  exists j, ClusteringAlgorithms.nearest metric v centroids = Some j /\ (j < k)%nat.
Proof.
  intros [Hl Hf]. unfold ClusteringAlgorithms.nearest.
  destruct (foldM_inv (fun acc : number * nat => (snd acc < k)%nat)
              (fun '(minDist, closestCentroid) '(j, centroid) =>
                 dist <- ClusteringAlgorithms.distanceU metric (Some v) centroid ;;
                 Some (if lt dist minDist then (dist, j) else (minDist, closestCentroid)))
              (indexed centroids) (PosInf, 0%nat)) as (r & E & Hr).
  - cbn [snd]. lia.
  - intros [minDist closest] [j centroid] Hin Hacc. apply indexed_In in Hin.
    destruct Hin as [Hj Hn]. destruct centroid as [c|].
    + cbn [ClusteringAlgorithms.distanceU bind]. eexists. split; [reflexivity|].
      destruct (lt _ minDist); cbn [snd] in *; lia.
    + exfalso. rewrite Forall_forall in Hf. apply (Hf None); [|reflexivity].
      eapply nth_error_In. exact Hn.
  - rewrite E. cbn [bind]. now exists (snd r).
Qed.

Lemma assign_generic (g : vector -> option nat) (l : list (nat * vector)) (m : CMap.t) :
  (forall v, exists j, g v = Some j /\ (j < k)%nat) ->
  (forall e, In e l -> (fst e < n)%nat) ->
  CMap.keys m = seq 0 k -> Spec.in_range n m ->
  exists m',
    foldM (fun clusters '(i, v) =>
             closestCentroid <- g v ;; CMap.push closestCentroid i clusters) l m = Some m' /\
    CMap.keys m' = seq 0 k /\ Spec.in_range n m' /\
    Permutation (CMap.flat m') (CMap.flat m ++ map fst l).
Proof.
  intros Hg. revert m. induction l as [|[i v] l IH]; intros m Hl Hk Hr.
  - exists m. cbn [foldM map]. rewrite app_nil_r. repeat split; auto.
  - destruct (Hg v) as (j & Ej & Hj).
    destruct (lookup_keys_seq m k j Hk Hj) as (pts & Hlk).
    cbn [foldM]. rewrite Ej. cbn [bind]. rewrite (push_ok n j i pts m Hlk). cbn [bind].
    destruct (flat_set j (pts ++ [i]) pts m k Hk Hlk) as [Hk1 Hp1].
    assert (Hi : (i < n)%nat) by (apply (Hl (i, v)); now left).
    destruct (IH (CMap.set j (pts ++ [i]) m)) as (m' & E & Hk' & Hr' & Hp').
    + intros e He. apply Hl. now right.
    + exact Hk1.
    + apply in_range_set; [|exact Hr]. apply Forall_app. split.
      * exact (in_range_lookup _ _ _ _ Hr Hlk).
      * now constructor.
    + exists m'. split; [exact E|]. split; [exact Hk'|]. split; [exact Hr'|].
      rewrite Hp'. cbn [map fst].
      apply (proj2 (Permutation_count_occ Nat.eq_dec _ _)). intros x.
      pose proof (proj1 (Permutation_count_occ Nat.eq_dec _ _) Hp1 x) as C1.
      rewrite !count_occ_app in *. cbn [count_occ] in *. destruct (Nat.eq_dec i x); lia.
Qed.

(** The assignment step cannot throw and puts every index in exactly one
    of the clusters 0 .. k-1. *)
Lemma utils_assign_ok (centroids : list (option vector)) :
  KMeansInv.whole k centroids ->
  exists clusters,
    ClusteringAlgorithms.assign metric vs centroids k = Some clusters /\
    KMeansInv.clustered n k clusters.
Proof.
  intros Hw. unfold ClusteringAlgorithms.assign.
  destruct (assign_generic (fun v => ClusteringAlgorithms.nearest metric v centroids)
              (indexed vs) (CMap.init k)) as (m' & E & Hk & Hr & Hp).
  - intros v. now apply utils_nearest_ok.
  - intros [i v] He. apply indexed_In in He. apply He.
  - apply init_keys.
  - apply in_range_init.
  - exists m'. split; [exact E|]. split; [exact Hk|]. split; [exact Hr|].
    unfold Inv.partition. rewrite Hp, flat_init, indexed_fst. reflexivity.
Qed.

(** The centroid update cannot throw and leaves [k] centroids. *)
Lemma utils_updateCentroids_ok (clusters : CMap.t) (centroids : list (option vector)) :
  KMeansInv.whole k centroids -> KMeansInv.clustered n k clusters ->
  exists centroids' centroidsChanged,
    ClusteringAlgorithms.updateCentroids metric vs dimension clusters k centroids
    = Some (centroids', centroidsChanged) /\
    KMeansInv.whole k centroids'.
Proof.
  intros Hw (Hk & Hr & _). unfold ClusteringAlgorithms.updateCentroids.
  destruct (foldM_inv (fun acc : list (option vector) * bool => KMeansInv.whole k (fst acc))
              (fun '(centroids, centroidsChanged) i =>
                 clusterPoints <- CMap.lookup i clusters ;;
                 if (length clusterPoints =? 0)%nat then Some (centroids, centroidsChanged)
                 else
                   newCentroid <- meanVector vs dimension clusterPoints ;;
                   centroidDist <- ClusteringAlgorithms.distanceU metric (js_get centroids i)
                                                                  (Some newCentroid) ;;
                   Some (js_set i newCentroid centroids,
                         if gt centroidDist (Num (1 / 1000)) then true else centroidsChanged))
              (seq 0 k) (centroids, false) Hw) as ([cs' ch] & E & Hw').
  - intros [cs ch] i Hi Hcs. apply in_seq in Hi. cbn [fst] in Hcs.
    destruct (lookup_keys_seq clusters k i Hk) as (pts & Hl); [lia|].
    rewrite Hl. cbn [bind].
    destruct (length pts =? 0)%nat; [eexists; split; [reflexivity | exact Hcs]|].
    destruct (meanVector_ok vs dimension pts (in_range_lookup _ _ _ _ Hr Hl)) as (mc & Em).
    rewrite Em. cbn [bind].
    destruct (whole_get k i cs) as (c & Ec); [lia | exact Hcs|].
    rewrite Ec. cbn [ClusteringAlgorithms.distanceU bind].
    eexists. split; [reflexivity|]. cbn [fst]. apply whole_set; [lia | exact Hcs].
  - exists cs', ch. split; [exact E | exact Hw'].
Qed.

Lemma largestCluster_ok (clusters : CMap.t) :
  CMap.keys clusters = seq 0 k ->
  exists largest, ClusteringAlgorithms.largestCluster clusters k = Some largest /\
                  (largest < k)%nat.
Proof.
  intros Hk. unfold ClusteringAlgorithms.largestCluster.
  destruct (foldM_inv (fun acc : nat * nat => (snd acc < k)%nat)
              (fun '(maxSize, largest) j =>
                 c <- CMap.lookup j clusters ;;
                 Some (if (maxSize <? length c)%nat then (length c, j) else (maxSize, largest)))
              (seq 0 k) (0%nat, 0%nat)) as (r & E & Hr).
  - cbn [snd]. lia.
  - intros [maxSize largest] j Hj Hacc. apply in_seq in Hj.
    destruct (lookup_keys_seq clusters k j Hk) as (c & Hl); [lia|].
    rewrite Hl. cbn [bind]. eexists. split; [reflexivity|].
    destruct (maxSize <? length c)%nat; cbn [snd] in *; lia.
  - rewrite E. cbn [bind]. now exists (snd r).
Qed.

Lemma div2_split (m : nat) :
  (2 <= m)%nat -> (1 <= Nat.div2 (m + 1) < m)%nat.
Proof.
  intros H. pose proof (Nat.div2_odd (m + 1)) as E.
  destruct (Nat.odd (m + 1)); cbn [Nat.b2n] in E; lia.
Qed.

(** The repair of empty clusters cannot throw: it moves points from one
    cluster to another and keeps [k] centroids. *)
Lemma utils_repairEmpty_ok (clusters : CMap.t) (centroids : list (option vector))
      (centroidsChanged : bool) :
  KMeansInv.whole k centroids -> KMeansInv.clustered n k clusters ->
  exists clusters' centroids' centroidsChanged',
    ClusteringAlgorithms.repairEmpty vs dimension k (clusters, centroids, centroidsChanged)
    = Some (clusters', centroids', centroidsChanged') /\
    KMeansInv.whole k centroids' /\ KMeansInv.clustered n k clusters'.
Proof.
  intros Hw Hc. unfold ClusteringAlgorithms.repairEmpty.
  destruct (foldM_inv
              (fun acc : CMap.t * list (option vector) * bool =>
                 KMeansInv.whole k (snd (fst acc)) /\ KMeansInv.clustered n k (fst (fst acc)))
              (fun '(clusters, centroids, centroidsChanged) i =>
                 ci <- CMap.lookup i clusters ;;
                 if (length ci =? 0)%nat then
                   largest <- ClusteringAlgorithms.largestCluster clusters k ;;
                   cl <- CMap.lookup largest clusters ;;
                   if (2 <=? length cl)%nat then
                     let pointsToMove := Nat.div2 (length cl + 1) in
                     let movedPoints := firstn pointsToMove cl in
                     let clusters := CMap.set largest (skipn pointsToMove cl) clusters in
                     let clusters := CMap.set i movedPoints clusters in
                     ci' <- CMap.lookup i clusters ;;
                     cl' <- CMap.lookup largest clusters ;;
                     newCentroidI <- meanVector vs dimension ci' ;;
                     newCentroidLargest <- meanVector vs dimension cl' ;;
                     Some (clusters,
                           js_set largest newCentroidLargest (js_set i newCentroidI centroids),
                           true)
                   else Some (clusters, centroids, centroidsChanged)
                 else Some (clusters, centroids, centroidsChanged))
              (seq 0 k) (clusters, centroids, centroidsChanged))
    as ([[c' cs'] ch'] & E & Hw' & Hc').
  - cbn [fst snd]. now split.
  - intros [[c cs] ch] i Hi [Hcs (Hk & Hr & Hp)]. apply in_seq in Hi. cbn [fst snd] in *.
    destruct (lookup_keys_seq c k i Hk) as (ci & Hli); [lia|].
    rewrite Hli. cbn [bind].
    destruct (length ci =? 0)%nat eqn:E0;
      [|eexists; split; [reflexivity | cbn [fst snd]; split; [exact Hcs|];
                          split; [exact Hk | split; [exact Hr | exact Hp]]]].
    apply Nat.eqb_eq in E0. apply length_zero_iff_nil in E0. subst ci.
    destruct (largestCluster_ok c Hk) as (largest & El & Hlk). rewrite El. cbn [bind].
    destruct (lookup_keys_seq c k largest Hk Hlk) as (cl & Hll). rewrite Hll. cbn [bind].
    destruct (2 <=? length cl)%nat eqn:E2;
      [|eexists; split; [reflexivity | cbn [fst snd]; split; [exact Hcs|];
                          split; [exact Hk | split; [exact Hr | exact Hp]]]].
    apply Nat.leb_le in E2. cbv zeta.
    assert (Hne : largest <> i).
    { intros ->. rewrite Hli in Hll. injection Hll as <-. cbn [length] in E2. lia. }
    set (m := Nat.div2 (length cl + 1)).
    set (c1 := CMap.set largest (skipn m cl) c).
    set (c2 := CMap.set i (firstn m cl) c1).
    destruct (flat_set largest (skipn m cl) cl c k Hk Hll) as [Hk1 Hp1]. fold c1 in Hk1, Hp1.
    assert (Hli1 : CMap.lookup i c1 = Some []).
    { unfold c1. now rewrite lookup_set_ne. }
    destruct (flat_set i (firstn m cl) [] c1 k Hk1 Hli1) as [Hk2 Hp2]. fold c2 in Hk2, Hp2.
    assert (Hrcl : Forall (fun p => (p < n)%nat) cl) by exact (in_range_lookup _ _ _ _ Hr Hll).
    assert (Hrf : Forall (fun p => (p < n)%nat) (firstn m cl)).
    { apply Forall_forall. intros p Hp'. rewrite Forall_forall in Hrcl. apply Hrcl.
      now apply firstn_In in Hp'. }
    assert (Hrs : Forall (fun p => (p < n)%nat) (skipn m cl)).
    { apply Forall_forall. intros p Hp'. rewrite Forall_forall in Hrcl. apply Hrcl.
      rewrite <- (firstn_skipn m cl). apply in_or_app. now right. }
    assert (Hr2 : Spec.in_range n c2).
    { unfold c2, c1. apply in_range_set; [exact Hrf|]. now apply in_range_set. }
    assert (E1 : CMap.lookup i c2 = Some (firstn m cl)) by (unfold c2; apply lookup_set_eq).
    assert (E3 : CMap.lookup largest c2 = Some (skipn m cl)).
    { unfold c2. rewrite lookup_set_ne by congruence. unfold c1. apply lookup_set_eq. }
    rewrite E1, E3. cbn [bind].
    destruct (meanVector_ok vs dimension (firstn m cl) Hrf) as (mi & Emi).
    destruct (meanVector_ok vs dimension (skipn m cl) Hrs) as (ml & Eml).
    rewrite Emi, Eml. cbn [bind]. eexists. split; [reflexivity|]. cbn [fst snd].
    split.
    + apply whole_set; [exact Hlk|]. apply whole_set; [lia | exact Hcs].
    + split; [exact Hk2|]. split; [exact Hr2|].
      unfold Inv.partition in *. rewrite <- Hp.
      apply (proj2 (Permutation_count_occ Nat.eq_dec _ _)). intros x.
      pose proof (proj1 (Permutation_count_occ Nat.eq_dec _ _) Hp1 x) as C1.
      pose proof (proj1 (Permutation_count_occ Nat.eq_dec _ _) Hp2 x) as C2.
      rewrite !count_occ_app in C1, C2. cbn [count_occ] in C2.
      assert (C3 : count_occ Nat.eq_dec cl x
                   = (count_occ Nat.eq_dec (firstn m cl) x
                      + count_occ Nat.eq_dec (skipn m cl) x)%nat).
      { rewrite <- count_occ_app. now rewrite firstn_skipn. }
      lia.
  - exists c', cs', ch'. split; [exact E|]. now split.
Qed.

Lemma utils_round_ok (centroids : list (option vector)) :
  KMeansInv.whole k centroids ->
  exists clusters' centroids' centroidsChanged,
    ClusteringAlgorithms.round metric vs dimension k centroids
    = Some (clusters', centroids', centroidsChanged) /\
    KMeansInv.whole k centroids' /\ KMeansInv.clustered n k clusters'.
Proof.
  intros Hw. unfold ClusteringAlgorithms.round.
  destruct (utils_assign_ok centroids Hw) as (c & Ec & Hc). rewrite Ec. cbn [bind].
  destruct (utils_updateCentroids_ok c centroids Hw Hc) as (cs1 & ch & Eu & Hw1).
  rewrite Eu. cbn [bind]. now apply utils_repairEmpty_ok.
Qed.

(** The main loop runs between 1 and [maxIterations] rounds and ends with a
    partition into the clusters 0 .. k-1. *)
Lemma utils_mainLoop_ok (remaining : nat) (clusters : CMap.t)
      (centroids : list (option vector)) (iterations : nat) :
  KMeansInv.whole k centroids ->
  (remaining = 0%nat \/ KMeansInv.clustered n k clusters \/ (1 <= remaining)%nat) ->
  exists clusters' centroids' iterations',
    ClusteringAlgorithms.mainLoop remaining metric vs dimension k clusters centroids iterations
    = Some (clusters', centroids', iterations') /\
    KMeansInv.whole k centroids' /\
    (iterations <= iterations' <= iterations + remaining)%nat /\
    ((1 <= remaining)%nat ->
     KMeansInv.clustered n k clusters' /\ (iterations + 1 <= iterations')%nat).
Proof.
  revert clusters centroids iterations.
  induction remaining as [|r IH]; intros clusters centroids iterations Hw _.
  - exists clusters, centroids, iterations. cbn [ClusteringAlgorithms.mainLoop].
    split; [reflexivity|]. split; [exact Hw|]. split; [lia|]. intros H. lia.
  - cbn [ClusteringAlgorithms.mainLoop].
    destruct (utils_round_ok centroids Hw) as (c1 & cs1 & ch & E & Hw1 & Hc1).
    rewrite E. cbn [bind]. destruct ch.
    + destruct (IH c1 cs1 (S iterations) Hw1 (or_intror (or_introl Hc1)))
        as (c2 & cs2 & its & E2 & Hw2 & Hits & Hcl).
      exists c2, cs2, its. split; [exact E2|]. split; [exact Hw2|]. split; [lia|].
      intros _. destruct r as [|r'].
      * cbn [ClusteringAlgorithms.mainLoop] in E2. injection E2 as <- <- <-.
        split; [exact Hc1 | lia].
      * destruct Hcl as [Hcl Hi]; [lia|]. split; [exact Hcl | lia].
    + exists c1, cs1, (S iterations). split; [reflexivity|]. split; [exact Hw1|].
      split; [lia|]. intros _. split; [exact Hc1 | lia].
Qed.

End UtilsKMeansFacts.

(** ** kMeansClustering of clustering-algorithms.ts: the result *)

Lemma delete_absent (key : nat) (m : CMap.t) :
  ~ In key (CMap.keys m) -> CMap.delete key m = m.
Proof.
  unfold CMap.delete. induction m as [|[k' v'] m IH]; intros H; [reflexivity|].
  cbn [CMap.keys map fst In] in H. cbn [filter fst].
  rewrite (proj2 (Nat.eqb_neq k' key)) by (intros ->; apply H; now left).
  cbn [negb]. f_equal. apply IH. intros H'. apply H. now right.
Qed.

Lemma delete_keys (key : nat) (m : CMap.t) :
  CMap.keys (CMap.delete key m) = filter (fun j => negb (j =? key)%nat) (CMap.keys m).
Proof.
  unfold CMap.delete, CMap.keys. induction m as [|[k' v'] m IH]; [reflexivity|].
  cbn [filter map fst]. destruct (negb (k' =? key)%nat); cbn [map fst]; now rewrite IH.
Qed.

(** Deleting a key that holds an empty list does not change the points. *)
Lemma delete_flat (key : nat) (m : CMap.t) :
  NoDup (CMap.keys m) -> CMap.lookup key m = Some [] ->
  CMap.flat (CMap.delete key m) = CMap.flat m.
Proof.
  induction m as [|[k' v'] m IH]; intros Hd Hl; [discriminate|].
  cbn [CMap.keys map fst] in Hd. inversion Hd as [|? ? Hn Hd']; subst.
  cbn [CMap.lookup] in Hl. unfold CMap.delete. cbn [filter fst].
  destruct (key =? k')%nat eqn:E.
  - apply Nat.eqb_eq in E. subst k'. injection Hl as ->.
    rewrite Nat.eqb_refl. cbn [negb]. fold (CMap.delete key m).
    rewrite delete_absent by exact Hn. reflexivity.
  - rewrite Nat.eqb_sym, E. cbn [negb]. rewrite !flat_cons. f_equal.
    fold (CMap.delete key m). now apply IH.
Qed.

Lemma removeEmpty_flat (clusters : CMap.t) :
  NoDup (CMap.keys clusters) ->
  CMap.flat (ClusteringAlgorithms.removeEmpty clusters) = CMap.flat clusters /\
  NoDup (CMap.keys (ClusteringAlgorithms.removeEmpty clusters)) /\
  incl (CMap.keys (ClusteringAlgorithms.removeEmpty clusters)) (CMap.keys clusters).
Proof.
  unfold ClusteringAlgorithms.removeEmpty.
  assert (G : forall (ks : list nat) (m : CMap.t),
             NoDup (CMap.keys m) ->
             let r := fold_left (fun m key => match CMap.lookup key m with
                                              | Some [] => CMap.delete key m
                                              | _ => m
                                              end) ks m in
             CMap.flat r = CMap.flat m /\ NoDup (CMap.keys r) /\
             incl (CMap.keys r) (CMap.keys m)); [|intros Hd; exact (G _ clusters Hd)].
  induction ks as [|key ks IH]; intros m Hd; cbn [fold_left]; cbv zeta.
  - split; [reflexivity|]. split; [exact Hd | apply incl_refl].
  - set (m1 := match CMap.lookup key m with
               | Some [] => CMap.delete key m
               | _ => m
               end).
    assert (H1 : CMap.flat m1 = CMap.flat m /\ NoDup (CMap.keys m1) /\
                 incl (CMap.keys m1) (CMap.keys m)).
    { unfold m1. destruct (CMap.lookup key m) as [[|p pts]|] eqn:El;
        try (split; [reflexivity|]; split; [exact Hd | apply incl_refl]).
      split; [now apply delete_flat|]. rewrite delete_keys. split.
      - now apply NoDup_filter.
      - intros x Hx. apply filter_In in Hx. apply Hx. }
    destruct H1 as (F1 & D1 & I1). destruct (IH m1 D1) as (F2 & D2 & I2). cbv zeta in *.
    split; [congruence|]. split; [exact D2|]. intros x Hx. apply I1, I2, Hx.
Qed.

Lemma keys_lookup (m : CMap.t) (key : nat) :
  In key (CMap.keys m) -> exists pts, CMap.lookup key m = Some pts.
Proof.
  induction m as [|[k' v'] m IH]; cbn [CMap.keys map fst In CMap.lookup]; [intros []|].
  intros [->|H].
  - rewrite Nat.eqb_refl. now exists v'.
  - destruct (key =? k')%nat; [now exists v' | now apply IH].
Qed.

(** The same facts, with the centroids of the result. *)
Lemma utils_kmeans_ok (rand : nat -> R) (vectors : list (list R))
        (dim k maxIterations : nat) (metric : ClusteringAlgorithms.DistanceMetric) :
  (forall i, 0 <= rand i < 1) ->
  Forall (fun v => length v = dim) vectors -> vectors <> [] ->
  (1 <= k)%nat -> (1 <= maxIterations)%nat ->
  exists r centroids,
    ClusteringAlgorithms.kMeansClustering rand (map vec vectors) k maxIterations metric = Some r /\
    ClusteringAlgorithms.centroids r = Some centroids /\
    KMeansInv.whole (Nat.min k (length vectors)) centroids /\
    Inv.partition (length vectors) (ClusteringAlgorithms.clusters r) /\
    (forall id pts, CMap.lookup id (ClusteringAlgorithms.clusters r) = Some pts ->
                    pts <> [] /\ (id < Nat.min k (length vectors))%nat) /\
    (exists s, ClusteringAlgorithms.silhouetteScore r = Num s /\ -1 <= s <= 1) /\
    exists iterations clusterCount,
      ClusteringAlgorithms.algorithmDetails r
      = ClusteringAlgorithms.KMeansDetails (Nat.min k (length vectors)) iterations metric
                                           clusterCount /\
      (1 <= iterations <= maxIterations)%nat /\
      clusterCount = length (CMap.keys (ClusteringAlgorithms.clusters r)) /\
      (1 <= clusterCount <= Nat.min k (length vectors))%nat.
Proof.
  intros Hrand Hu Hne Hk Hm. unfold ClusteringAlgorithms.kMeansClustering.
  rewrite length_map.
  assert (Hn : (1 <= length vectors)%nat) by (destruct vectors; [contradiction | cbn; lia]).
  rewrite (proj2 (Nat.eqb_neq (length vectors) 0)) by lia.
  replace (if (length vectors <? k)%nat then length vectors else k)
    with (Nat.min k (length vectors))
    by (destruct (length vectors <? k)%nat eqn:E;
        [apply Nat.ltb_lt in E | apply Nat.ltb_ge in E]; lia).
  set (k' := Nat.min k (length vectors)).
  assert (Hk' : (1 <= k' <= length vectors)%nat) by (unfold k'; lia).
  destruct (nth_error (map vec vectors) 0) as [v0|] eqn:E0;
    [|apply nth_error_None in E0; rewrite length_map in E0; lia].
  cbn [bind].
  pose proof (randomIndex_lt (rand 0%nat) (length vectors) (Hrand 0%nat) Hn) as Hfi.
  destruct (nth_error (map vec vectors) (Route.randomIndex (rand 0%nat) (length vectors)))
    as [first|] eqn:Ef; [|apply nth_error_None in Ef; rewrite length_map in Ef; lia].
  cbn [bind].
  destruct (seeding_ok metric vectors dim Hu rand k' first
              (Route.randomIndex (rand 0%nat) (length vectors))) as [Hlc _];
    [now rewrite length_map | exact Ef|].
  destruct (fold_left _ (seq 1 (k' - 1)) _) as [centroids used]. cbn [fst] in Hlc.
  assert (Hw : KMeansInv.whole k' (map Some centroids)).
  { split; [now rewrite length_map|]. apply Forall_forall. intros c Hc.
    apply in_map_iff in Hc. destruct Hc as (x & <- & _). discriminate. }
  destruct (utils_mainLoop_ok metric (map vec vectors) (length v0) k' (proj1 Hk')
              maxIterations CMap.empty (map Some centroids) 0 Hw)
    as (clusters & cs & its & El & Hw' & Hits & Hcl); [right; right; exact Hm|].
  rewrite length_map in Hcl. destruct (Hcl Hm) as [(Hkeys & Hr & Hp) Hi].
  rewrite El. cbn [bind].
  rewrite (utils_silhouette_spec metric vectors dim clusters Hu Hr). cbn [bind].
  assert (Hd : NoDup (CMap.keys clusters)) by (rewrite Hkeys; apply seq_NoDup).
  destruct (removeEmpty_flat clusters Hd) as (Hf & Hd' & Hincl).
  eexists. exists cs. split; [reflexivity|].
  cbn [ClusteringAlgorithms.clusters ClusteringAlgorithms.silhouetteScore
       ClusteringAlgorithms.algorithmDetails ClusteringAlgorithms.centroids].
  split; [reflexivity|]. split; [exact Hw'|].
  assert (Hkeys' : forall id, In id (CMap.keys (ClusteringAlgorithms.removeEmpty clusters)) ->
                              (id < k')%nat).
  { intros id Hid. apply Hincl in Hid. rewrite Hkeys in Hid. apply in_seq in Hid. lia. }
  split; [unfold Inv.partition in *; now rewrite Hf|]. split; [|split].
  - intros id pts Hl. split; [exact (removeEmpty_lookup _ _ _ Hl)|].
    apply Hkeys'. apply lookup_In in Hl.
    change id with (fst (id, pts)). now apply in_map.
  - eexists. split; [reflexivity|]. apply silhouetteScore_bounds.
    now apply (distance_nonneg metric vectors dim).
  - exists its, (length (CMap.keys (ClusteringAlgorithms.removeEmpty clusters))).
    split; [reflexivity|]. split; [lia|]. split; [reflexivity|]. split.
    + destruct (CMap.keys (ClusteringAlgorithms.removeEmpty clusters)) as [|x l] eqn:Ek;
        [|cbn [length]; lia].
      exfalso. unfold Inv.partition in Hp. rewrite <- Hf in Hp.
      assert (Hnil : ClusteringAlgorithms.removeEmpty clusters = []).
      { unfold CMap.keys in Ek. now apply map_eq_nil in Ek. }
      rewrite Hnil in Hp. cbn in Hp. apply Permutation_length in Hp.
      rewrite length_seq in Hp. cbn [length] in Hp. lia.
    + rewrite <- (length_seq k' 0). apply NoDup_incl_length; [exact Hd'|].
      intros id Hid. apply in_seq. specialize (Hkeys' id Hid). lia.
Qed.

(** [kMeansClustering], on a non-empty set of vectors of reals of one
    dimension with [k >= 1] and [maxIterations >= 1], returns a result.
    Its cluster map holds every index 0 .. N - 1 in exactly one cluster and
    has no empty cluster; it has between 1 and [min(k, N)] clusters, with
    ids below [min(k, N)]; and the loop ran between 1 and [maxIterations]
    rounds. *)
Theorem utils_kmeans_partition (rand : nat -> R) (vectors : list (list R))
        (dim k maxIterations : nat) (metric : ClusteringAlgorithms.DistanceMetric) :
  (forall i, 0 <= rand i < 1) ->
  Forall (fun v => length v = dim) vectors -> vectors <> [] ->
  (1 <= k)%nat -> (1 <= maxIterations)%nat ->
  exists r,
    ClusteringAlgorithms.kMeansClustering rand (map vec vectors) k maxIterations metric = Some r /\
    Inv.partition (length vectors) (ClusteringAlgorithms.clusters r) /\
    (forall id pts, CMap.lookup id (ClusteringAlgorithms.clusters r) = Some pts ->
                    pts <> [] /\ (id < Nat.min k (length vectors))%nat) /\
    exists iterations clusterCount,
      ClusteringAlgorithms.algorithmDetails r
      = ClusteringAlgorithms.KMeansDetails (Nat.min k (length vectors)) iterations metric
                                           clusterCount /\
      (1 <= iterations <= maxIterations)%nat /\
      clusterCount = length (CMap.keys (ClusteringAlgorithms.clusters r)) /\
      (1 <= clusterCount <= Nat.min k (length vectors))%nat.
Proof.
  intros Hrand Hu Hne Hk Hm.
  destruct (utils_kmeans_ok rand vectors dim k maxIterations metric Hrand Hu Hne Hk Hm)
    as (r & _ & E & _ & _ & Hp & Hl & _ & H).
  exists r. split; [exact E|]. split; [exact Hp|]. split; [exact Hl | exact H].
Qed.

Lemma utils_kmeans_partition_witness :
  exists r,
    ClusteringAlgorithms.kMeansClustering (fun _ => 0) (map vec [[1; 0]; [0; 1]; [1; 1]]) 2 100
                                          ClusteringAlgorithms.Cosine = Some r /\
    Inv.partition 3 (ClusteringAlgorithms.clusters r) /\
    (forall id pts, CMap.lookup id (ClusteringAlgorithms.clusters r) = Some pts ->
                    pts <> [] /\ (id < Nat.min 2 3)%nat) /\
    exists iterations clusterCount,
      ClusteringAlgorithms.algorithmDetails r
      = ClusteringAlgorithms.KMeansDetails (Nat.min 2 3) iterations ClusteringAlgorithms.Cosine
                                           clusterCount /\
      (1 <= iterations <= 100)%nat /\
      clusterCount = length (CMap.keys (ClusteringAlgorithms.clusters r)) /\
      (1 <= clusterCount <= Nat.min 2 3)%nat.
Proof.
  apply (utils_kmeans_partition (fun _ => 0) [[1; 0]; [0; 1]; [1; 1]] 2 2 100
                                ClusteringAlgorithms.Cosine).
  - intros _. lra.
  - repeat constructor.
  - discriminate.
  - lia.
  - lia.
Defined.

(** ** The clusters that the selector returns *)

(** [runDBSCAN] returns on any vectors and leaves no point out. *)
Lemma runDBSCAN_any (vs : list vector) (eps : number) (minPts : nat) :
  exists r,
    Route.runDBSCAN vs eps minPts = Some r /\
    Cover.covering (length vs) (Route.clusters r).
Proof.
  unfold Route.runDBSCAN.
  destruct (mainLoop_cover Route.cosineSimilarityDistance vs eps minPts)
    as (st & E & Hst & Hall).
  rewrite E. cbn [bind].
  pose proof (foldNoise_covering _ st Hst Hall) as Hc.
  destruct (route_score_returns vs _ (proj1 (proj2 (proj2 Hc)))) as (s & ->). cbn [bind].
  destruct (clusterCoherence_ok vs _ (proj1 (proj2 (proj2 Hc)))) as (coh & ->). cbn [bind].
  eexists. split; [reflexivity|]. exact Hc.
Qed.

(** The selector returns on any non-empty set of vectors: the DBSCAN
    result, which leaves no point out, or the K-Means result, which is the
    initial empty one or a partition. *)
Lemma optimal_any (rand : nat -> R) (vectors : list vector) (documentCount : nat) :
  (forall i, 0 <= rand i < 1) ->
  vectors <> [] ->
  exists selected,
    Route.runOptimalClustering rand vectors documentCount = Some selected /\
    Spec.in_range (length vectors) (Route.clusters (Route.result selected)) /\
    NoDup (CMap.keys (Route.clusters (Route.result selected))) /\
    ((Route.algorithm selected = "DBSCAN"%string /\
      Cover.covering (length vectors) (Route.clusters (Route.result selected)) /\
      Route.algorithmDetails selected
      = Route.DBSCANDetails (Route.selectEpsilon vectors) (Route.selectMinPts documentCount)
                            (length (CMap.keys (Route.clusters (Route.result selected))))) \/
     (Route.algorithm selected = "K-means"%string /\
      Best.held vectors (Nat.min (Route.selectK documentCount) (length vectors))
                (Route.clusters (Route.result selected))
                (Route.silhouetteScore (Route.result selected)) /\
      Route.algorithmDetails selected
      = Route.KMeansDetails (Route.selectK documentCount) 20
                            (length (CMap.keys (Route.clusters (Route.result selected)))))).
Proof.
  intros Hrand Hne.
  assert (Hk : (1 <= Route.selectK documentCount)%nat) by (unfold Route.selectK; lia).
  destruct (runKMeans_any vectors Hne rand (Route.selectK documentCount) 20 Hrand Hk)
    as (km & Ekm & Hit & Hrk & Hbk).
  destruct (runDBSCAN_any vectors (Route.selectEpsilon vectors)
                          (Route.selectMinPts documentCount)) as (db & Edb & Hcd).
  unfold Route.runOptimalClustering. rewrite Ekm, Edb. cbn [bind].
  eexists. split; [reflexivity|].
  destruct (gt (Route.silhouetteScore db) (Route.silhouetteScore km));
    cbn [Route.result Route.algorithm Route.algorithmDetails].
  - split; [exact (proj1 (proj2 (proj2 Hcd)))|]. split.
    + destruct Hcd as ((c & ->) & _). apply seq_NoDup.
    + left. split; [reflexivity|]. split; [exact Hcd | reflexivity].
  - split; [exact Hrk|]. split.
    + destruct Hbk as [[-> _] | (-> & _)]; [constructor | apply seq_NoDup].
    + right. split; [reflexivity|]. split; [exact Hbk|]. now rewrite Hit.
Qed.

(** [runOptimalClustering] returns on every non-empty set of vectors,
    whatever numbers they hold, and names the engine it selected.  Every
    listed index is below N and the cluster count of the details is the
    number of cluster ids.  When DBSCAN is selected, no document is left
    out: the cluster ids are 0, 1, ... without a gap, no cluster is empty and
    every index 0 .. N - 1 is listed once or twice.  When K-Means is selected,
    the result holds either no cluster at all (no iteration scored above
    -1) or every index 0 .. N - 1 exactly once. *)
Theorem selected_clusters_cover (rand : nat -> R) (vectors : list vector)
        (documentCount : nat) :
  (forall i, 0 <= rand i < 1) ->
  vectors <> [] ->
  exists selected,
    Route.runOptimalClustering rand vectors documentCount = Some selected /\
    Spec.in_range (length vectors) (Route.clusters (Route.result selected)) /\
    ((Route.algorithm selected = "DBSCAN"%string /\
      Cover.covering (length vectors) (Route.clusters (Route.result selected)) /\
      Route.algorithmDetails selected
      = Route.DBSCANDetails (Route.selectEpsilon vectors) (Route.selectMinPts documentCount)
                            (length (CMap.keys (Route.clusters (Route.result selected))))) \/
     (Route.algorithm selected = "K-means"%string /\
      (Route.clusters (Route.result selected) = CMap.empty \/
       Inv.partition (length vectors) (Route.clusters (Route.result selected))) /\
      Route.algorithmDetails selected
      = Route.KMeansDetails (Route.selectK documentCount) 20
                            (length (CMap.keys (Route.clusters (Route.result selected)))))).
Proof.
  intros Hrand Hne.
  destruct (optimal_any rand vectors documentCount Hrand Hne)
    as (sel & E & Hr & _ & [(Ha & Hc & Hd) | (Ha & Hb & Hd)]).
  - exists sel. split; [exact E|]. split; [exact Hr|]. left.
    split; [exact Ha|]. split; [exact Hc | exact Hd].
  - exists sel. split; [exact E|]. split; [exact Hr|]. right.
    split; [exact Ha|]. split; [|exact Hd].
    destruct Hb as [[Hb _] | (_ & Hb & _)]; [now left | now right].
Qed.

Lemma selected_clusters_cover_witness :
  exists selected,
    Route.runOptimalClustering (fun _ => 0) [[Num 1; Num 0]; [Num 0; Num 1]; [Num 1; NaN]] 3
    = Some selected /\
    Spec.in_range 3 (Route.clusters (Route.result selected)) /\
    ((Route.algorithm selected = "DBSCAN"%string /\
      Cover.covering 3 (Route.clusters (Route.result selected)) /\
      Route.algorithmDetails selected
      = Route.DBSCANDetails (Route.selectEpsilon [[Num 1; Num 0]; [Num 0; Num 1]; [Num 1; NaN]])
                            (Route.selectMinPts 3)
                            (length (CMap.keys (Route.clusters (Route.result selected))))) \/
     (Route.algorithm selected = "K-means"%string /\
      (Route.clusters (Route.result selected) = CMap.empty \/
       Inv.partition 3 (Route.clusters (Route.result selected))) /\
      Route.algorithmDetails selected
      = Route.KMeansDetails (Route.selectK 3) 20
                            (length (CMap.keys (Route.clusters (Route.result selected)))))).
Proof.
  apply (selected_clusters_cover (fun _ => 0) [[Num 1; Num 0]; [Num 0; Num 1]; [Num 1; NaN]] 3).
  - intros _. lra.
  - discriminate.
Defined.

(** ** The key terms of route.ts *)

Lemma insertIndex_perm {V : Type} (e : N * (string * V)) (l : list (N * (string * V))) :
  Permutation (Obj.insertIndex e l) (e :: l).
Proof.
  induction l as [|e' l IH]; cbn [Obj.insertIndex]; [reflexivity|].
  destruct (fst e <? fst e')%N; [reflexivity|].
  rewrite IH. apply perm_swap.
Qed.

Lemma entries_perm {V : Type} (o : list (string * V)) : Permutation (Obj.entries o) o.
Proof.
  unfold Obj.entries. induction o as [|e o IH]; cbn [flat_map filter]; [reflexivity|].
  destruct (Obj.arrayIndex (fst e)) as [i|].
  - cbn [app fold_right]. rewrite insertIndex_perm. cbn [map snd app]. now constructor.
  - cbn [app]. rewrite <- Permutation_middle. now constructor.
Qed.

Lemma sortBy_perm {A : Type} (compare : A -> A -> number) (l : list A) :
  Permutation (sortBy compare l) l.
Proof.
  unfold sortBy. induction l as [|e l IH]; cbn [fold_right]; [reflexivity|].
  rewrite <- IH at 2. generalize (fold_right (insertBy compare) [] l) as s. clear.
  induction s as [|e' s IH]; cbn [insertBy]; [reflexivity|].
  destruct (gt (compare e e') (Num 0)); [|reflexivity].
  rewrite IH. apply perm_swap.
Qed.

Lemma obj_set_loop {V : Type} (f : string -> V) (ws : list string) (acc : list (string * V)) :
  NoDup ws -> (forall w, In w ws -> ~ In w (map fst acc)) ->
  fold_left (fun o w => Obj.set w (f w) o) ws acc
  = acc ++ map (fun w => (w, f w)) (filter (fun w => negb (String.eqb w Obj.proto)) ws).
Proof.
  revert acc. induction ws as [|x ws IH]; intros acc Hd Hf; cbn [fold_left filter map].
  - now rewrite app_nil_r.
  - inversion Hd as [|? ? Hx Hd']; subst.
    unfold Obj.set at 2. destruct (String.eqb x Obj.proto); cbn [negb].
    + apply IH; [exact Hd'|]. intros w Hw. apply Hf. now right.
    + rewrite set_fresh by (apply Hf; now left).
      rewrite IH; [now rewrite <- app_assoc | exact Hd'|].
      intros w Hw. rewrite map_app, in_app_iff. cbn [map fst In].
      intros [H|[->|[]]]; [revert H; apply Hf; now right | contradiction].
Qed.

Lemma tfidfOf_entries (allWords : list (list string)) (currentWords : list string)
      (docCount : nat) :
  exists score : string -> option number,
    KeyTerms.tfidfOf allWords currentWords docCount
    = map (fun w => (w, score w)) (KeyScore.candidates currentWords).
Proof.
  unfold KeyTerms.tfidfOf. eexists (fun w => Some _).
  rewrite (obj_set_loop (fun w => Some _)); [reflexivity | apply setOf_NoDup|].
  intros w _ [].
Qed.

Lemma wordsOf_In (js : StringBuiltins) (doc w : string) :
  In w (KeyTerms.wordsOf js doc) -> has STOP_WORDS w = false /\ (2 < String.length w)%nat.
Proof.
  unfold KeyTerms.wordsOf. intros H. apply filter_In in H. destruct H as [_ H].
  apply andb_true_iff in H. destruct H as [H1 H2].
  split; [now apply negb_true_iff | now apply Nat.ltb_lt].
Qed.

Lemma candidates_In (words : list string) (w : string) :
  In w (KeyScore.candidates words) <-> In w words /\ w <> Obj.proto.
Proof.
  unfold KeyScore.candidates. rewrite filter_In, setOf_In, negb_true_iff, String.eqb_neq.
  reflexivity.
Qed.

Lemma candidates_NoDup (words : list string) : NoDup (KeyScore.candidates words).
Proof. unfold KeyScore.candidates. apply NoDup_filter, setOf_NoDup. Qed.

Lemma fst_scoreOf (o : list (string * option number)) :
  map fst (map KeyTerms.scoreOf o) = map fst o.
Proof. rewrite map_map. apply map_ext. now intros [k v]. Qed.

Lemma key_terms_words (js : StringBuiltins) (re : RegexBuiltins) (documents : list string)
      (docIndex : nat) :
  nth_error (map (KeyTerms.wordsOf js) (map (KeyTerms.normalize js re) documents)) docIndex
  = option_map (fun doc => KeyTerms.wordsOf js (KeyTerms.normalize js re doc))
               (nth_error documents docIndex).
Proof.
  rewrite !nth_error_map. now destruct (nth_error documents docIndex).
Qed.

(** The key terms of a document, whatever order the sort leaves. *)
Lemma route_key_terms_facts (js : StringBuiltins) (re : RegexBuiltins) (sorter : SortBuiltin)
      (documents : list string) (docIndex count : nat) :
  (forall l, Permutation (sortByScore sorter l) l) ->
  let terms := KeyTerms.extractKeyTerms js re sorter documents docIndex count in
  match nth_error documents docIndex with
  | None => terms = []
  | Some doc =>
      let words := KeyTerms.wordsOf js (KeyTerms.normalize js re doc) in
      NoDup terms /\
      length terms = Nat.min count (length (KeyScore.candidates words)) /\
      (forall t, In t terms ->
                 In t words /\ t <> "__proto__"%string /\
                 has STOP_WORDS t = false /\ (2 < String.length t)%nat)
  end.
Proof.
  intros Hs terms. unfold terms, KeyTerms.extractKeyTerms. rewrite key_terms_words.
  destruct (nth_error documents docIndex) as [doc|]; cbn [option_map]; [|reflexivity].
  set (words := KeyTerms.wordsOf js (KeyTerms.normalize js re doc)).
  destruct (length words =? 0)%nat eqn:E0.
  - apply Nat.eqb_eq, length_zero_iff_nil in E0. rewrite E0.
    split; [constructor|]. split; [|intros t []].
    unfold KeyScore.candidates, setOf. cbn [fold_left filter length]. lia.
  - destruct (tfidfOf_entries (map (KeyTerms.wordsOf js) (map (KeyTerms.normalize js re) documents))
                              words (length documents)) as (score & E).
    rewrite E.
    match goal with
    | |- context [firstn count ?l] => set (L := l)
    end.
    assert (Hp : Permutation (map fst L) (KeyScore.candidates words)).
    { unfold L. rewrite (Permutation_map fst (Hs _)), fst_scoreOf.
      rewrite (Permutation_map fst (entries_perm _)), map_map. cbn [fst].
      now rewrite map_id. }
    rewrite <- firstn_map.
    split; [|split].
    + apply firstn_NoDup. apply (Permutation_NoDup (Permutation_sym Hp)), candidates_NoDup.
    + now rewrite length_firstn, (Permutation_length Hp).
    + intros t Ht. apply firstn_In in Ht. apply (Permutation_in _ Hp) in Ht.
      apply candidates_In in Ht. destruct Ht as [Hw Hn].
      destruct (wordsOf_In js _ t Hw) as [H1 H2]. now repeat split.
Qed.

(** [extractKeyTerms] of route.ts returns no term for an index that is not
    that of a document.  For the document at [docIndex], whatever order the
    sort leaves between scores that cannot be compared, the terms returned
    are pairwise distinct words of the normalized document, none of which
    is a stop word, has fewer than three characters or is [__proto__]; there
    are [min(count, c)] of them, where [c] is the number of distinct words
    of the document other than [__proto__]. *)
Theorem route_key_terms (js : StringBuiltins) (re : RegexBuiltins) (sorter : SortBuiltin)
        (documents : list string) (docIndex count : nat) :
  (forall l, Permutation (sortByScore sorter l) l) ->
  let terms := KeyTerms.extractKeyTerms js re sorter documents docIndex count in
  match nth_error documents docIndex with
  | None => terms = []
  | Some doc =>
      let words := KeyTerms.wordsOf js (KeyTerms.normalize js re doc) in
      NoDup terms /\
      length terms = Nat.min count (length (KeyScore.candidates words)) /\
      (forall t, In t terms ->
                 In t words /\ t <> "__proto__"%string /\
                 has STOP_WORDS t = false /\ (2 < String.length t)%nat)
  end.
Proof. apply route_key_terms_facts. Qed.

Lemma route_key_terms_witness :
  let terms :=
    KeyTerms.extractKeyTerms Sample.js Sample.re stableSort
                             ["alpha beta __proto__ alpha"; "alpha gamma"]%string 0 8 in
  match nth_error ["alpha beta __proto__ alpha"; "alpha gamma"]%string 0 with
  | None => terms = []
  | Some doc =>
      let words := KeyTerms.wordsOf Sample.js (KeyTerms.normalize Sample.js Sample.re doc) in
      NoDup terms /\
      length terms = Nat.min 8 (length (KeyScore.candidates words)) /\
      (forall t, In t terms ->
                 In t words /\ t <> "__proto__"%string /\
                 has STOP_WORDS t = false /\ (2 < String.length t)%nat)
  end.
Proof.
  apply (route_key_terms Sample.js Sample.re stableSort
                         ["alpha beta __proto__ alpha"; "alpha gamma"]%string 0 8).
  intros l. apply sortBy_perm.
Defined.

(** ** The ranking of the key terms of route.ts *)

Lemma inherited_false_get {V : Type} (d : V) (o : list (string * V)) (w : string) :
  Obj.inherited w = false -> Obj.get d o w = Dict.get w o.
Proof. intros H. unfold Obj.get. rewrite H. now destruct (Dict.get w o). Qed.

Lemma inherited_not_proto (w : string) :
  Obj.inherited w = false -> String.eqb w Obj.proto = false.
Proof. unfold Obj.inherited. intros H. apply orb_false_iff in H. tauto. Qed.

Lemma tf_loop (ws : list string) (o : list (string * Obj.CountVal)) (c : string -> nat) :
  Forall (fun w => Obj.inherited w = false) ws ->
  (forall w, Dict.get w o = match c w with O => None | S n => Some (Obj.Count (S n)) end) ->
  forall w, Dict.get w (fold_left Obj.increment ws o)
            = match (c w + count_occ string_dec ws w)%nat with
              | O => None
              | S n => Some (Obj.Count (S n))
              end.
Proof.
  revert o c. induction ws as [|x ws IH]; intros o c Hws Ho w; cbn [fold_left count_occ].
  - rewrite Nat.add_0_r. apply Ho.
  - inversion Hws as [|? ? Hx Hws']; subst.
    rewrite (IH (Obj.increment o x) (fun w => c w + if string_dec x w then 1 else 0)%nat Hws').
    + assert (E : (c w + (if string_dec x w then 1 else 0) + count_occ string_dec ws w
                   = c w + (if string_dec x w then S (count_occ string_dec ws w)
                            else count_occ string_dec ws w))%nat)
        by (destruct (string_dec x w); lia).
      now rewrite E.
    + clear w. intros w. unfold Obj.increment. rewrite (inherited_false_get _ _ _ Hx), (Ho x).
      unfold Obj.set. rewrite (inherited_not_proto _ Hx).
      destruct (string_dec x w) as [->|Hne].
      * destruct (c w) as [|n]; rewrite get_set_eq; [reflexivity|].
        now replace (S n + 1)%nat with (S (S n + 0)) by lia.
      * rewrite Nat.add_0_r.
        destruct (c x) as [|n]; rewrite get_set_ne by exact Hne; apply Ho.
Qed.

Lemma get_map {V : Type} (f : string -> V) (ws : list string) (w : string) :
  In w ws -> Dict.get w (map (fun w => (w, f w)) ws) = Some (f w).
Proof.
  induction ws as [|x ws IH]; [intros []|]. cbn [map Dict.get]. intros H.
  destruct (String.eqb w x) eqn:E.
  - apply String.eqb_eq in E. now subst.
  - apply String.eqb_neq in E. destruct H as [->|H]; [contradiction | now apply IH].
Qed.

Lemma candidates_all (words : list string) :
  Forall (fun w => Obj.inherited w = false) words -> KeyScore.candidates words = setOf words.
Proof.
  intros H. unfold KeyScore.candidates.
  assert (G : Forall (fun w => Obj.inherited w = false) (setOf words)).
  { apply Forall_forall. intros w Hw. apply (proj1 (setOf_In _ _)) in Hw.
    rewrite Forall_forall in H. now apply H. }
  induction G as [|w l Hw _ IH]; cbn [filter]; [reflexivity|].
  rewrite (inherited_not_proto _ Hw). cbn [negb]. now rewrite IH.
Qed.

Lemma weight_nonneg (allWords : list (list string)) (words : list string) (w : string) :
  In words allWords -> In w words -> 0 <= KeyScore.weight allWords words w.
Proof.
  intros Hd Hw. unfold KeyScore.weight.
  pose proof (docsWith_pos w allWords words Hd Hw) as H1.
  pose proof (docsWith_le w allWords) as H2.
  change (Freq.docsWith w allWords) with (KeyTerms.docsWithWord allWords w) in H1, H2.
  apply le_INR in H1, H2. change (INR 1) with 1 in H1.
  apply Rmult_le_pos; [apply pos_INR|].
  rewrite <- ln_1. 
  assert (Hq : 1 <= INR (length allWords) / INR (KeyTerms.docsWithWord allWords w)).
  { apply Rmult_le_reg_r with (INR (KeyTerms.docsWithWord allWords w)); [lra|].
    unfold Rdiv. rewrite Rmult_assoc, Rinv_l by lra. lra. }
  destruct Hq as [Hq|<-]; [left; apply ln_increasing; lra | right; reflexivity].
Qed.

(** The record [tfidf] of a document none of whose words names a property
    of [Object.prototype]. *)
Lemma route_scores (allWords : list (list string)) (words : list string) :
  In words allWords -> Forall (fun w => Obj.inherited w = false) words ->
  KeyTerms.tfidfOf allWords words (length allWords)
  = map (fun w => (w, Some (Num (KeyScore.weight allWords words w)))) (setOf words).
Proof.
  intros Hd Hw. unfold KeyTerms.tfidfOf.
  rewrite (obj_set_loop
             (fun word => Some (log (div (of_nat (length allWords))
                                         (of_nat (orOne (KeyTerms.docsWithWord allWords word)))))))
    by (apply setOf_NoDup || (intros w _ [])).
  match goal with
  | |- context [Obj.countOrZero ?tf] => set (TF := tf)
  end.
  match goal with
  | |- context [Obj.numberOrZero ?idf] => set (IDF := idf)
  end.
  rewrite (obj_set_loop (fun word => Some (mul (Obj.countOrZero TF word)
                                               (Obj.numberOrZero IDF word))))
    by (apply setOf_NoDup || (intros w _ [])).
  cbn [app]. fold (KeyScore.candidates words). rewrite (candidates_all words Hw).
  apply map_ext_in. intros w Hin. apply (proj1 (setOf_In _ _)) in Hin.
  assert (Hi : Obj.inherited w = false) by (rewrite Forall_forall in Hw; now apply Hw).
  f_equal. f_equal.
  assert (Hc : Obj.countOrZero TF w = of_nat (count_occ string_dec words w)).
  { unfold Obj.countOrZero. rewrite (inherited_false_get _ _ _ Hi). unfold TF.
    rewrite (tf_loop words [] (fun _ => 0%nat) Hw) by reflexivity.
    cbn [Nat.add]. apply (count_occ_In string_dec) in Hin.
    destruct (count_occ string_dec words w); [lia | reflexivity]. }
  assert (Hn : Obj.numberOrZero IDF w
               = Num (ln (INR (length allWords) / INR (KeyTerms.docsWithWord allWords w)))).
  { unfold Obj.numberOrZero. rewrite (inherited_false_get _ _ _ Hi). unfold IDF.
    cbn [app]. fold (KeyScore.candidates words). rewrite (candidates_all words Hw).
    rewrite get_map by now apply setOf_In.
    pose proof (docsWith_pos w allWords words Hd Hin) as H1.
    pose proof (docsWith_le w allWords) as H2.
    change (Freq.docsWith w allWords) with (KeyTerms.docsWithWord allWords w) in H1, H2.
    assert (Ho : orOne (KeyTerms.docsWithWord allWords w) = KeyTerms.docsWithWord allWords w).
    { unfold orOne. destruct (_ =? 0)%nat eqn:E; [apply Nat.eqb_eq in E; lia | reflexivity]. }
    rewrite Ho. apply le_INR in H1, H2. change (INR 1) with 1 in H1.
    unfold of_nat. rewrite div_Num by lra.
    assert (Hq : 1 <= INR (length allWords) / INR (KeyTerms.docsWithWord allWords w)).
    { apply Rmult_le_reg_r with (INR (KeyTerms.docsWithWord allWords w)); [lra|].
      unfold Rdiv. rewrite Rmult_assoc, Rinv_l by lra. lra. }
    unfold log. rewrite Rltb_false, Reqb_false by lra.
    unfold or_default, Reqb. destruct (Req_dec_T _ 0) as [E|]; [now rewrite E | reflexivity]. }
  rewrite Hc, Hn. reflexivity.
Qed.

Lemma route_key_terms_ranking (js : StringBuiltins) (re : RegexBuiltins) (sorter : SortBuiltin)
      (documents : list string) (docIndex count : nat) (doc : string) :
  (forall l : list (string * R),
      sortByScore sorter (map Ranking.entry l) = sortBy byScoreDesc (map Ranking.entry l)) ->
  nth_error documents docIndex = Some doc ->
  let allWords := map (fun d => KeyTerms.wordsOf js (KeyTerms.normalize js re d)) documents in
  let words := KeyTerms.wordsOf js (KeyTerms.normalize js re doc) in
  Forall (fun w => Obj.inherited w = false) words ->
  exists ranked : list (string * R),
    Permutation (map fst ranked) (setOf words) /\
    Forall (fun e => snd e = KeyScore.weight allWords words (fst e) /\ 0 <= snd e) ranked /\
    Ranking.nonincreasing (map snd ranked) /\
    KeyTerms.extractKeyTerms js re sorter documents docIndex count
    = map fst (firstn count ranked).
Proof.
  intros Hs Hd allWords words Hw. unfold KeyTerms.extractKeyTerms.
  rewrite key_terms_words, Hd. cbn [option_map]. fold words.
  destruct (length words =? 0)%nat eqn:E0.
  - apply Nat.eqb_eq, length_zero_iff_nil in E0. rewrite E0. exists [].
    split; [reflexivity|]. split; [constructor|]. split; [exact I|].
    now destruct count.
  - assert (Hin : In words allWords).
    { unfold allWords, words. apply nth_error_In in Hd.
      apply (in_map (fun d => KeyTerms.wordsOf js (KeyTerms.normalize js re d))) in Hd.
      exact Hd. }
    rewrite map_map. fold allWords.
    replace (length documents) with (length allWords)
      by (unfold allWords; now rewrite length_map).
    rewrite (route_scores allWords words Hin Hw).
    set (o := map (fun w => (w, Some (Num (KeyScore.weight allWords words w)))) (setOf words)).
    assert (Ho : forall e, In e (Obj.entries o) ->
                           In (fst e) words /\
                           snd e = Some (Num (KeyScore.weight allWords words (fst e)))).
    { intros e He. apply (Permutation_in _ (entries_perm o)) in He.
      unfold o in He. apply in_map_iff in He. destruct He as (w & <- & Hi).
      cbn [fst snd]. split; [now apply setOf_In | reflexivity]. }
    set (scored := map (fun e => (fst e, KeyScore.weight allWords words (fst e)))
                       (Obj.entries o)).
    assert (E : map KeyTerms.scoreOf (Obj.entries o) = map Ranking.entry scored).
    { unfold scored. rewrite map_map. apply map_ext_in. intros [k v] He.
      destruct (Ho _ He) as [_ Hv]. cbn [fst snd] in Hv. subst v. reflexivity. }
    rewrite E, Hs, sortBy_entry. exists (Ranking.sort scored).
    split; [|split; [|split]].
    + rewrite (Permutation_map fst (sort_perm scored)). unfold scored.
      rewrite map_map. cbn [fst].
      rewrite (Permutation_map fst (entries_perm o)). unfold o.
      rewrite map_map. cbn [fst]. now rewrite map_id.
    + apply Forall_forall. intros e He.
      apply (Permutation_in _ (sort_perm scored)) in He.
      unfold scored in He. apply in_map_iff in He. destruct He as (e' & <- & He').
      cbn [fst snd]. split; [reflexivity|].
      apply weight_nonneg; [exact Hin | exact (proj1 (Ho _ He'))].
    + apply sort_sorted.
    + now rewrite <- !firstn_map, fst_entry.
Qed.

(** For a document none of whose words names a property of
    [Object.prototype], and with a sort that is stable on numbers,
    [extractKeyTerms] of route.ts returns the first [count] terms of a
    ranking of the distinct words of the document: the score of a word is
    the number of its occurrences in the document times
    [ln(N / documents that have the word)], it is never negative, and the
    scores never increase along the ranking. *)
Theorem route_key_terms_ranked (js : StringBuiltins) (re : RegexBuiltins)
        (sorter : SortBuiltin) (documents : list string) (docIndex count : nat) (doc : string) :
  (forall l : list (string * R),
      sortByScore sorter (map Ranking.entry l) = sortBy byScoreDesc (map Ranking.entry l)) ->
  nth_error documents docIndex = Some doc ->
  let allWords := map (fun d => KeyTerms.wordsOf js (KeyTerms.normalize js re d)) documents in
  let words := KeyTerms.wordsOf js (KeyTerms.normalize js re doc) in
  Forall (fun w => Obj.inherited w = false) words ->
  exists ranked : list (string * R),
    Permutation (map fst ranked) (setOf words) /\
    Forall (fun e => snd e = KeyScore.weight allWords words (fst e) /\ 0 <= snd e) ranked /\
    Ranking.nonincreasing (map snd ranked) /\
    KeyTerms.extractKeyTerms js re sorter documents docIndex count
    = map fst (firstn count ranked).
Proof. apply route_key_terms_ranking. Qed.

Lemma route_key_terms_ranked_witness :
  let documents := ["alpha beta alpha"; "alpha gamma"]%string in
  let allWords :=
    map (fun d => KeyTerms.wordsOf Sample.js (KeyTerms.normalize Sample.js Sample.re d))
        documents in
  let words :=
    KeyTerms.wordsOf Sample.js (KeyTerms.normalize Sample.js Sample.re "alpha beta alpha") in
  exists ranked : list (string * R),
    Permutation (map fst ranked) (setOf words) /\
    Forall (fun e => snd e = KeyScore.weight allWords words (fst e) /\ 0 <= snd e) ranked /\
    Ranking.nonincreasing (map snd ranked) /\
    KeyTerms.extractKeyTerms Sample.js Sample.re stableSort documents 0 8
    = map fst (firstn 8 ranked).
Proof.
  apply (route_key_terms_ranked Sample.js Sample.re stableSort
                                ["alpha beta alpha"; "alpha gamma"]%string 0 8
                                "alpha beta alpha"%string).
  - reflexivity.
  - reflexivity.
  - repeat constructor.
Defined.

(** ** The POST handler *)

Lemma embeddings_vectors (js : StringBuiltins) (documents : list string) :
  exists vectors : list (list R),
    Embeddings.generateSemanticEmbeddings js documents = map vec vectors /\
    length vectors = length documents /\
    Forall (fun v => length v = 50%nat) vectors.
Proof.
  unfold Embeddings.generateSemanticEmbeddings. rewrite embeddings_map. cbn [app].
  induction documents as [|doc docs (vs & E & L & F)].
  - exists []. split; [reflexivity|]. split; [reflexivity | constructor].
  - destruct (embedding_real js doc) as (l & El & Ll & _).
    exists (l :: vs). cbn [map length]. rewrite El, E, L.
    split; [reflexivity|]. split; [reflexivity | now constructor].
Qed.

Lemma textDocumentsOf_length (documents : list JSON) :
  length (Post.textDocumentsOf documents) = length (filter Post.accepts documents) /\
  (length (Post.textDocumentsOf documents) <= length documents)%nat.
Proof.
  unfold Post.textDocumentsOf.
  induction documents as [|d ds [IH1 IH2]]; cbn [filter flat_map length]; [split; lia|].
  destruct (Post.accepts d) eqn:E; [|split; lia].
  cbn [flat_map length]. rewrite length_app.
  destruct d; try discriminate E. cbn [Post.textOf length]. split; lia.
Qed.

Lemma optimal_algorithm (rand : nat -> R) (embeddings : list vector) (documentCount : nat)
      (selected : Route.Selected) :
  Route.runOptimalClustering rand embeddings documentCount = Some selected ->
  Route.algorithm selected = "K-means"%string \/ Route.algorithm selected = "DBSCAN"%string.
Proof.
  unfold Route.runOptimalClustering.
  destruct (Route.runKMeans _ _ _ _) as [km|]; [|discriminate]. cbn [bind].
  destruct (Route.runDBSCAN _ _ _) as [db|]; [|discriminate]. cbn [bind].
  intros [= <-]. destruct (gt _ _); cbn [Route.algorithm]; [now right | now left].
Qed.

Lemma uniqueLabels_shape (l : list (nat * Labels.Summary)) (counts : list (string * nat))
      (out : list (nat * Labels.Summary)) :
  exists l',
    snd (fold_left Labels.uniqueStep l (counts, out)) = out ++ l' /\
    Forall2 (fun e e' => fst e' = fst e /\
                         Labels.size (snd e') = Labels.size (snd e) /\
                         Labels.topTerms (snd e') = Labels.topTerms (snd e))
            l l'.
Proof.
  revert counts out. induction l as [|[id s] l IH]; intros counts out.
  - exists []. cbn [fold_left snd]. rewrite app_nil_r. split; [reflexivity | constructor].
  - cbn [fold_left Labels.uniqueStep].
    destruct (0 <? Labels.countOf (Labels.labelOrName s) counts)%nat.
    + match goal with
      | |- context [fold_left Labels.uniqueStep l (?c, out ++ [?e])] =>
          destruct (IH c (out ++ [e])) as (l' & E & F); exists (e :: l')
      end.
      rewrite E, <- app_assoc. split; [reflexivity|].
      constructor; [|exact F]. cbn [fst snd Labels.size Labels.topTerms]. now repeat split.
    + match goal with
      | |- context [fold_left Labels.uniqueStep l (?c, out ++ [?e])] =>
          destruct (IH c (out ++ [e])) as (l' & E & F); exists (e :: l')
      end.
      rewrite E, <- app_assoc. split; [reflexivity|].
      constructor; [|exact F]. now repeat split.
Qed.

Lemma uniqueLabels_distinct (summaries : list (nat * Labels.Summary)) :
  Forall (fun e => Spec.plain (Labels.label (snd e))) summaries ->
  (forall e, In e summaries -> Labels.labelOrName (snd e) = Labels.label (snd e)) ->
  NoDup (map (fun e => Labels.label (snd e)) (Labels.uniqueLabels summaries)).
Proof.
  intros Hplain Hlab.
  assert (E : map (fun e => Labels.label (snd e)) (Labels.uniqueLabels summaries)
              = Spec.relabel [] (map (fun e => Labels.label (snd e)) summaries)).
  { unfold Labels.uniqueLabels.
    destruct (uniqueLabels_loop summaries [] [] []) as [E | (e & He & Hn)].
    - intros l. reflexivity.
    - rewrite E. cbn [map app]. f_equal. apply map_ext_in. intros e He. now apply Hlab.
    - exfalso. apply Hn. now apply Hlab. }
  rewrite E. apply relabel_NoDup. now apply Forall_map.
Qed.

Section PostFacts.

Variable js : StringBuiltins.
Variable re : RegexBuiltins.
Variable sorter : SortBuiltin.

Lemma allTermsOf_ok (documentKeyTerms : list (list string)) (docIndices : list nat) :
  Forall (fun i => (i < length documentKeyTerms)%nat) docIndices ->
  exists allTerms, Post.allTermsOf documentKeyTerms docIndices = Some allTerms.
Proof.
  intros H. unfold Post.allTermsOf.
  destruct (foldM_inv (fun _ => True)
              (fun allTerms docIdx =>
                 terms <- nth_error documentKeyTerms docIdx ;;
                 Some (fold_left Obj.increment terms allTerms))
              docIndices []) as (t & E & _).
  - exact I.
  - intros a x Hx _. rewrite Forall_forall in H. specialize (H x Hx).
    destruct (nth_error documentKeyTerms x) eqn:En; [|apply nth_error_None in En; lia].
    cbn [bind]. eauto.
  - eauto.
Qed.

Lemma summarize_ok (textDocuments : list string) (documentKeyTerms : list (list string))
      (clusterCoherence : list (nat * number)) (clusterId : nat) (docIndices : list nat) :
  Forall (fun i => (i < length documentKeyTerms)%nat) docIndices ->
  exists s,
    Post.summarize js sorter textDocuments documentKeyTerms clusterCoherence clusterId docIndices
    = Some s /\
    Labels.size (Post.summary s) = length docIndices /\
    (length (Labels.topTerms (Post.summary s)) <= 8)%nat /\
    Spec.plain (Labels.label (Post.summary s)) /\
    Labels.labelOrName (Post.summary s) = Labels.label (Post.summary s).
Proof.
  intros H. unfold Post.summarize.
  destruct (allTermsOf_ok documentKeyTerms docIndices H) as (t & E). rewrite E. cbn [bind].
  eexists. split; [reflexivity|].
  cbn [Post.summary Labels.summaryOf Labels.size Labels.topTerms Labels.label].
  split; [reflexivity|]. split; [rewrite length_map, length_firstn; lia|].
  split; [apply generateClusterLabel_plain|].
  unfold Labels.labelOrName. cbn [Labels.label Labels.name].
  now destruct (String.eqb _ _).
Qed.

Lemma summaries_ok (textDocuments : list string) (documentKeyTerms : list (list string))
      (clusterCoherence : list (nat * number)) (clusters : CMap.t)
      (acc : list (nat * Post.ClusterSummary)) :
  Spec.in_range (length documentKeyTerms) clusters ->
  exists ss,
    foldM (fun summaries '(clusterId, docIndices) =>
             s <- Post.summarize js sorter textDocuments documentKeyTerms clusterCoherence
                                 clusterId docIndices ;;
             Some (summaries ++ [(clusterId, s)]))
          clusters acc = Some (acc ++ ss) /\
    Forall2 (fun s c => fst s = fst c /\
                        Labels.size (Post.summary (snd s)) = length (snd c) /\
                        (length (Labels.topTerms (Post.summary (snd s))) <= 8)%nat /\
                        Spec.plain (Labels.label (Post.summary (snd s))) /\
                        Labels.labelOrName (Post.summary (snd s))
                        = Labels.label (Post.summary (snd s)))
            ss clusters.
Proof.
  revert acc. induction clusters as [|[id pts] cl IH]; intros acc H.
  - exists []. rewrite app_nil_r. split; [reflexivity | constructor].
  - inversion H as [|? ? Hpts Hcl]; subst. cbn [snd] in Hpts. cbn [foldM].
    destruct (summarize_ok textDocuments documentKeyTerms clusterCoherence id pts Hpts)
      as (s & E & Hs).
    rewrite E. cbn [bind].
    destruct (IH (acc ++ [(id, s)]) Hcl) as (ss & E2 & F). rewrite E2.
    exists ((id, s) :: ss). rewrite <- app_assoc. split; [reflexivity|].
    constructor; [|exact F]. cbn [fst snd]. split; [reflexivity | exact Hs].
Qed.

Lemma relabelled_ok (ss : list (nat * Post.ClusterSummary)) (clusters : CMap.t)
      (ul : list (nat * Labels.Summary)) :
  Forall2 (fun s c => fst s = fst c /\
                      Labels.size (Post.summary (snd s)) = length (snd c) /\
                      (length (Labels.topTerms (Post.summary (snd s))) <= 8)%nat /\
                      Spec.plain (Labels.label (Post.summary (snd s))) /\
                      Labels.labelOrName (Post.summary (snd s))
                      = Labels.label (Post.summary (snd s)))
          ss clusters ->
  Forall2 (fun e e' => fst e' = fst e /\
                       Labels.size (snd e') = Labels.size (snd e) /\
                       Labels.topTerms (snd e') = Labels.topTerms (snd e))
          (map (fun '(id, s) => (id, Post.summary s)) ss) ul ->
  let updated :=
    map (fun '((id, s), (_, l)) => (id, Post.mkClusterSummary l (Post.coherence s)))
        (combine ss ul) in
  map (fun e => Labels.label (Post.summary (snd e))) updated
  = map (fun e => Labels.label (snd e)) ul /\
  Forall2 (fun s c => fst s = fst c /\
                      Labels.size (Post.summary (snd s)) = length (snd c) /\
                      (length (Labels.topTerms (Post.summary (snd s))) <= 8)%nat)
          updated clusters.
Proof.
  intros F. revert ul. induction F as [|[id s] [id' pts] ss cl (Hid & Hsz & Ht & _) _ IH];
    intros ul G updated.
  - inversion G; subst. split; [reflexivity | constructor].
  - cbn [map] in G. inversion G as [|? [id2 l] ? ul' (H1 & H2 & H3) G']; subst.
    cbn [fst snd Post.summary] in *.
    destruct (IH ul' G') as [E F'].
    unfold updated. cbn [combine map fst snd Post.summary]. split.
    + f_equal. exact E.
    + constructor; [|exact F']. cbn [fst snd Post.summary].
      split; [exact Hid|]. split; [congruence|]. rewrite H3. exact Ht.
Qed.

(** The steps of POST after the validation never throw. *)
Lemma process_ok (rand : nat -> R) (textDocuments : list string) :
  (forall i, 0 <= rand i < 1) -> textDocuments <> [] ->
  exists payload,
    Post.process js re sorter rand textDocuments = Some payload /\
    length (Post.documentKeyTerms payload) = length textDocuments /\
    Forall (fun terms => (length terms <= 8)%nat) (Post.documentKeyTerms payload) /\
    Spec.in_range (length textDocuments) (Post.clusters payload) /\
    (Post.algorithm payload = "K-means"%string \/ Post.algorithm payload = "DBSCAN"%string) /\
    (Post.algorithm payload = "DBSCAN"%string ->
     forall p, (p < length textDocuments)%nat ->
               (1 <= count_occ Nat.eq_dec (CMap.flat (Post.clusters payload)) p <= 2)%nat) /\
    (Post.algorithm payload = "K-means"%string ->
     Post.clusters payload = CMap.empty \/
     Inv.partition (length textDocuments) (Post.clusters payload)) /\
    Forall2 (fun s c => fst s = fst c /\
                        Labels.size (Post.summary (snd s)) = length (snd c) /\
                        (length (Labels.topTerms (Post.summary (snd s))) <= 8)%nat)
            (Post.clusterSummaries payload) (Post.clusters payload) /\
    NoDup (map (fun s => Labels.label (Post.summary (snd s))) (Post.clusterSummaries payload)).
Proof.
  intros Hrand Hne. unfold Post.process.
  destruct (embeddings_vectors js textDocuments) as (vs & Ev & Lv & Fv). rewrite Ev.
  assert (Hvs : vs <> []) by (destruct vs, textDocuments; try discriminate; congruence).
  assert (Hvs' : map vec vs <> []) by (destruct vs; [contradiction | discriminate]).
  destruct (optimal_any rand (map vec vs) (length textDocuments) Hrand Hvs')
    as (sel & Es & Hr & _ & Hsel).
  pose proof (optimal_algorithm _ _ _ _ Es) as Ha.
  rewrite Es. cbn [bind]. rewrite length_map, Lv in Hr, Hsel.
  set (dkt := map (fun index => KeyTerms.extractKeyTerms js re sorter textDocuments index 8)
                  (seq 0 (length textDocuments))).
  assert (Ld : length dkt = length textDocuments)
    by (unfold dkt; now rewrite length_map, length_seq).
  destruct (summaries_ok textDocuments dkt (Route.coherence (Route.result sel))
                         (Route.clusters (Route.result sel)) [])
    as (ss & E & F); [now rewrite Ld|].
  rewrite E. cbn [bind app]. eexists. split; [reflexivity|].
  cbn [Post.documentKeyTerms Post.clusters Post.algorithm Post.clusterSummaries].
  split; [exact Ld|]. split.
  { unfold dkt. apply Forall_map, Forall_forall. intros i _.
    unfold KeyTerms.extractKeyTerms.
    destruct (nth_error _ i) as [ws|]; [|cbn [length]; lia].
    destruct (length ws =? 0)%nat; [cbn [length]; lia|].
    rewrite length_map, length_firstn. lia. }
  split; [exact Hr|]. split; [exact Ha|]. split; [|split].
  { intros Hd. destruct Hsel as [(_ & Hc & _) | (Hk & _)]; [exact (proj2 (proj2 (proj2 Hc)))|].
    rewrite Hk in Hd. discriminate Hd. }
  { intros Hk. destruct Hsel as [(Hd & _) | (_ & Hb & _)]; [rewrite Hd in Hk; discriminate Hk|].
    destruct Hb as [[Hb _] | (_ & Hb & _)]; [now left | right].
    now rewrite length_map, Lv in Hb. }
  destruct (uniqueLabels_shape (map (fun '(id, s) => (id, Post.summary s)) ss) [] [])
    as (ul & Eu & Fu).
  cbn [app] in Eu. fold (Labels.uniqueLabels (map (fun '(id, s) => (id, Post.summary s)) ss)) in Eu.
  destruct (relabelled_ok ss (Route.clusters (Route.result sel)) ul F) as [El Fl];
    [exact Fu|].
  rewrite Eu. split; [exact Fl|].
  rewrite El, <- Eu. apply uniqueLabels_distinct.
  - apply Forall_map. clear -F. induction F as [|[id s] c ss cl (_ & _ & _ & Hpl & _) _ IH];
      constructor; [exact Hpl | exact IH].
  - intros e He. apply in_map_iff in He. destruct He as ([id s] & <- & Hin).
    cbn [snd]. clear -F Hin. induction F as [|x c ss cl (_ & _ & _ & _ & Hl) _ IH];
      [contradiction|].
    destruct Hin as [->|Hin]; [exact Hl | now apply IH].
Qed.

End PostFacts.

Lemma textDocumentsOf_accepted (documents : list JSON) :
  map JString (Post.textDocumentsOf documents) = filter Post.accepts documents.
Proof.
  unfold Post.textDocumentsOf.
  induction documents as [|d ds IH]; cbn [filter]; [reflexivity|].
  destruct (Post.accepts d) eqn:E; [|exact IH].
  cbn [flat_map]. rewrite map_app, IH.
  destruct d; try discriminate E. reflexivity.
Qed.

Lemma post_response (js : StringBuiltins) (re : RegexBuiltins) (sorter : SortBuiltin)
      (rand : nat -> R) (request : option JSON) :
  (forall i, 0 <= rand i < 1) ->
  (exists fields documents payload,
     request = Some (JObject fields) /\
     Dict.get "documents" fields = Some (JArray documents) /\
     (2 <= length (filter Post.accepts documents))%nat /\
     Post.process js re sorter rand (Post.textDocumentsOf documents) = Some payload /\
     Post.POST js re sorter rand request = Post.Success payload) \/
  (Post.status (Post.POST js re sorter rand request) = 400%nat /\
   ~ exists fields documents,
       request = Some (JObject fields) /\
       Dict.get "documents" fields = Some (JArray documents) /\
       (2 <= length (filter Post.accepts documents))%nat).
Proof.
  intros Hrand. unfold Post.POST.
  destruct request as [body|];
    [|right; split; [reflexivity | intros (f & d & H & _); discriminate H]].
  destruct body as [| | | | |fields];
    try (right; split; [reflexivity | intros (f & d & H & _); discriminate H]).
  cbn [Post.documentsOf].
  destruct (Dict.get "documents" fields) as [[| | | |documents|]|] eqn:Eg;
    try (right; split; [reflexivity | intros (f & d & [= <-] & H & _); congruence]).
  destruct (textDocumentsOf_length documents) as [Hl1 Hl2].
  destruct (length documents <? 2)%nat eqn:E1.
  { apply Nat.ltb_lt in E1. right. split; [reflexivity|].
    intros (f & d & [= <-] & H & Hn). rewrite Eg in H. injection H as <-. lia. }
  destruct (length (Post.textDocumentsOf documents) <? 2)%nat eqn:E2.
  { apply Nat.ltb_lt in E2. right. split; [reflexivity|].
    intros (f & d & [= <-] & H & Hn). rewrite Eg in H. injection H as <-. lia. }
  apply Nat.ltb_ge in E2.
  destruct (process_ok js re sorter rand (Post.textDocumentsOf documents) Hrand)
    as (payload & Ep & _).
  { destruct (Post.textDocumentsOf documents); [cbn [length] in E2; lia | discriminate]. }
  left. exists fields, documents, payload. rewrite Ep.
  split; [reflexivity|]. split; [exact Eg|]. split; [lia|]. split; reflexivity.
Qed.

(** POST never answers 500: whatever the request is, the status of the
    response is 200 or 400 (numbers as exact reals, [Math.random] in
    [0, 1), documents whose characters are below 256).  It is 200 exactly
    when the body of the request is an object whose property [documents] is
    an array of which at least two elements pass the filter of text
    documents. *)
Theorem post_status (js : StringBuiltins) (re : RegexBuiltins) (sorter : SortBuiltin)
        (rand : nat -> R) (request : option JSON) :
  (forall i, 0 <= rand i < 1) ->
  let response := Post.POST js re sorter rand request in
  (Post.status response = 200%nat \/ Post.status response = 400%nat) /\
  (Post.status response = 200%nat <->
   exists fields documents,
     request = Some (JObject fields) /\
     Dict.get "documents" fields = Some (JArray documents) /\
     (2 <= length (filter Post.accepts documents))%nat).
Proof.
  intros Hrand response. unfold response.
  destruct (post_response js re sorter rand request Hrand)
    as [(fields & documents & payload & Er & Eg & Hn & _ & E) | [E Hno]].
  - rewrite E. cbn [Post.status]. split; [now left|].
    split; [intros _; now exists fields, documents | reflexivity].
  - rewrite E. split; [now right|]. split; [discriminate | intros H; now destruct Hno].
Qed.

Lemma post_status_witness :
  let response :=
    Post.POST Sample.js Sample.re stableSort (fun _ => 0)
              (Some (JObject [("documents"%string,
                               JArray [JString "alpha beta alpha"; JString "alpha gamma delta";
                                       JString "short"; JNull])])) in
  (Post.status response = 200%nat \/ Post.status response = 400%nat) /\
  (Post.status response = 200%nat <->
   exists fields documents,
     Some (JObject [("documents"%string,
                     JArray [JString "alpha beta alpha"; JString "alpha gamma delta";
                             JString "short"; JNull])])
     = Some (JObject fields) /\
     Dict.get "documents" fields = Some (JArray documents) /\
     (2 <= length (filter Post.accepts documents))%nat).
Proof.
  apply (post_status Sample.js Sample.re stableSort (fun _ => 0)).
  intros _. lra.
Defined.

(** When at least two documents of the request pass the filter, POST
    answers 200 and the payload describes the accepted documents, numbered
    in the order of the request: there is one list of at most 8 key terms
    per accepted document; the clusters list only indices of accepted
    documents; the algorithm is K-means or DBSCAN; under DBSCAN every
    accepted document is listed once or twice; under K-means the cluster
    map is empty (no iteration of [runKMeans] scored above -1) or lists
    every accepted document exactly once; there is one summary per cluster,
    in the order of the clusters, whose size is the number of documents of
    the cluster and which has at most 8 top terms; and the labels of the
    summaries are pairwise distinct. *)
Theorem post_payload (js : StringBuiltins) (re : RegexBuiltins) (sorter : SortBuiltin)
        (rand : nat -> R) (fields : list (string * JSON)) (documents : list JSON) :
  (forall i, 0 <= rand i < 1) ->
  Dict.get "documents" fields = Some (JArray documents) ->
  (2 <= length (filter Post.accepts documents))%nat ->
  exists (textDocuments : list string) (payload : Post.Payload),
    map JString textDocuments = filter Post.accepts documents /\
    Post.POST js re sorter rand (Some (JObject fields)) = Post.Success payload /\
    length (Post.documentKeyTerms payload) = length textDocuments /\
    Forall (fun terms => (length terms <= 8)%nat) (Post.documentKeyTerms payload) /\
    Spec.in_range (length textDocuments) (Post.clusters payload) /\
    (Post.algorithm payload = "K-means"%string \/ Post.algorithm payload = "DBSCAN"%string) /\
    (Post.algorithm payload = "DBSCAN"%string ->
     forall p, (p < length textDocuments)%nat ->
               (1 <= count_occ Nat.eq_dec (CMap.flat (Post.clusters payload)) p <= 2)%nat) /\
    (Post.algorithm payload = "K-means"%string ->
     Post.clusters payload = CMap.empty \/
     Inv.partition (length textDocuments) (Post.clusters payload)) /\
    Forall2 (fun s c => fst s = fst c /\
                        Labels.size (Post.summary (snd s)) = length (snd c) /\
                        (length (Labels.topTerms (Post.summary (snd s))) <= 8)%nat)
            (Post.clusterSummaries payload) (Post.clusters payload) /\
    NoDup (map (fun s => Labels.label (Post.summary (snd s))) (Post.clusterSummaries payload)).
Proof.
  intros Hrand Eg Hn.
  destruct (post_response js re sorter rand (Some (JObject fields)) Hrand)
    as [(fields' & documents' & payload & [= <-] & Eg' & _ & Ep & E) | [_ Hno]].
  - rewrite Eg in Eg'. injection Eg' as <-.
    exists (Post.textDocumentsOf documents), payload.
    split; [apply textDocumentsOf_accepted|]. split; [exact E|].
    destruct (textDocumentsOf_length documents) as [Hl _].
    destruct (process_ok js re sorter rand (Post.textDocumentsOf documents) Hrand)
      as (payload' & Ep' & H).
    { destruct (Post.textDocumentsOf documents); [cbn [length] in Hl; lia | discriminate]. }
    rewrite Ep in Ep'. injection Ep' as <-. exact H.
  - exfalso. apply Hno. now exists fields, documents.
Qed.

Lemma post_payload_witness :
  exists (textDocuments : list string) (payload : Post.Payload),
    map JString textDocuments
    = filter Post.accepts [JString "alpha beta alpha"; JString "alpha gamma delta";
                           JString "short"; JNull] /\
    Post.POST Sample.js Sample.re stableSort (fun _ => 0)
              (Some (JObject [("documents"%string,
                               JArray [JString "alpha beta alpha"; JString "alpha gamma delta";
                                       JString "short"; JNull])]))
    = Post.Success payload /\
    length (Post.documentKeyTerms payload) = length textDocuments /\
    Forall (fun terms => (length terms <= 8)%nat) (Post.documentKeyTerms payload) /\
    Spec.in_range (length textDocuments) (Post.clusters payload) /\
    (Post.algorithm payload = "K-means"%string \/ Post.algorithm payload = "DBSCAN"%string) /\
    (Post.algorithm payload = "DBSCAN"%string ->
     forall p, (p < length textDocuments)%nat ->
               (1 <= count_occ Nat.eq_dec (CMap.flat (Post.clusters payload)) p <= 2)%nat) /\
    (Post.algorithm payload = "K-means"%string ->
     Post.clusters payload = CMap.empty \/
     Inv.partition (length textDocuments) (Post.clusters payload)) /\
    Forall2 (fun s c => fst s = fst c /\
                        Labels.size (Post.summary (snd s)) = length (snd c) /\
                        (length (Labels.topTerms (Post.summary (snd s))) <= 8)%nat)
            (Post.clusterSummaries payload) (Post.clusters payload) /\
    NoDup (map (fun s => Labels.label (Post.summary (snd s))) (Post.clusterSummaries payload)).
Proof.
  apply (post_payload Sample.js Sample.re stableSort (fun _ => 0)
                      [("documents"%string,
                        JArray [JString "alpha beta alpha"; JString "alpha gamma delta";
                                JString "short"; JNull])]
                      [JString "alpha beta alpha"; JString "alpha gamma delta";
                       JString "short"; JNull]).
  - intros _. lra.
  - reflexivity.
  - apply Nat.leb_le. reflexivity.
Defined.

(** ** findOptimalK *)

Lemma sumSquaredErrorOf_ok (vectors : list vector)
      (result : ClusteringAlgorithms.ClusteringResult) (centroids : list (option vector))
      (k : nat) :
  ClusteringAlgorithms.centroids result = Some centroids ->
  KMeansInv.whole k centroids ->
  Spec.in_range (length vectors) (ClusteringAlgorithms.clusters result) ->
  (forall id, In id (CMap.keys (ClusteringAlgorithms.clusters result)) -> (id < k)%nat) ->
  exists sumSquaredError, Elbow.sumSquaredErrorOf vectors result = Some sumSquaredError.
Proof.
  intros Ec Hw Hr Hk. unfold Elbow.sumSquaredErrorOf.
  destruct (foldM_inv (fun _ => True)
              (fun sumSquaredError '(clusterId, clusterPoints) =>
                 centroids <- ClusteringAlgorithms.centroids result ;;
                 let centroid := js_get centroids clusterId in
                 foldM (fun sumSquaredError pointIdx =>
                          dist <- ClusteringAlgorithms.distanceU
                                    ClusteringAlgorithms.Euclidean
                                    (nth_error vectors pointIdx) centroid ;;
                          Some (add sumSquaredError (mul dist dist)))
                       clusterPoints sumSquaredError)
              (ClusteringAlgorithms.clusters result) (Num 0)) as (s & E & _).
  - exact I.
  - intros a [id pts] Hin _. rewrite Ec. cbn [bind]. cbv zeta.
    assert (Hid : (id < k)%nat).
    { apply Hk. change id with (fst (id, pts)). now apply in_map. }
    destruct (whole_get k id centroids Hid Hw) as (c & Eg). rewrite Eg.
    unfold Spec.in_range in Hr. rewrite Forall_forall in Hr.
    specialize (Hr _ Hin). cbn [snd] in Hr.
    destruct (foldM_inv (fun _ => True)
                (fun sumSquaredError pointIdx =>
                   dist <- ClusteringAlgorithms.distanceU
                             ClusteringAlgorithms.Euclidean
                             (nth_error vectors pointIdx) (Some c) ;;
                   Some (add sumSquaredError (mul dist dist)))
                pts a) as (s & E & _).
    + exact I.
    + intros b p Hp _. rewrite Forall_forall in Hr. specialize (Hr p Hp).
      destruct (nth_error vectors p) as [v|] eqn:En; [|apply nth_error_None in En; lia].
      cbn [ClusteringAlgorithms.distanceU bind]. eauto.
    + eauto.
  - eauto.
Qed.

Lemma elbow_range (sse : list number) (m : nat) :
  (2 <= snd (fold_left (Elbow.elbowStep sse) (seq 1 m) (Num 0, 2%nat)) <= Nat.max 2 (m + 1))%nat.
Proof.
  apply (fold_left_inv (fun st => (2 <= snd st <= Nat.max 2 (m + 1))%nat)).
  - cbn [snd]. lia.
  - intros [maxCurvature optimalK] k Hk H. apply in_seq in Hk. cbn [snd] in H.
    unfold Elbow.elbowStep. destruct (gt _ _); cbn [snd]; lia.
Qed.

Lemma findOptimalK_ok (rands : nat -> nat -> R) (vectors : list (list R)) (dim maxK : nat) :
  (forall c i, 0 <= rands c i < 1) ->
  Forall (fun v => length v = dim) vectors ->
  exists K,
    Elbow.findOptimalK rands (map vec vectors) maxK = Some K /\
    ((length vectors <= 2)%nat -> K = length vectors) /\
    ((3 <= length vectors)%nat ->
     (2 <= K <= Nat.max 2 (Nat.min maxK (length vectors - 1) - 1))%nat).
Proof.
  intros Hrand Hu. unfold Elbow.findOptimalK. rewrite length_map.
  destruct (length vectors <=? 2)%nat eqn:E.
  - apply Nat.leb_le in E. eexists. split; [reflexivity|]. split; [reflexivity | lia].
  - apply Nat.leb_gt in E.
    assert (Hne : vectors <> []) by (destruct vectors; [cbn [length] in E; lia | discriminate]).
    set (maxClusters := Nat.min maxK (length vectors - 1)).
    destruct (foldM_inv (fun _ => True)
                (fun sse k =>
                   result <- ClusteringAlgorithms.kMeansClustering
                               (rands k) (map vec vectors) k 100 ClusteringAlgorithms.Cosine ;;
                   sumSquaredError <- Elbow.sumSquaredErrorOf (map vec vectors) result ;;
                   Some (sse ++ [sumSquaredError]))
                (seq 1 maxClusters) []) as (sse & Es & _).
    + exact I.
    + intros a k Hk _. apply in_seq in Hk.
      destruct (utils_kmeans_ok (rands k) vectors dim k 100 ClusteringAlgorithms.Cosine
                                (Hrand k) Hu Hne)
        as (r & cs & Er & Ec & Hw & Hp & Hl & _); [lia | lia|].
      rewrite Er. cbn [bind].
      destruct (sumSquaredErrorOf_ok (map vec vectors) r cs (Nat.min k (length vectors)) Ec Hw)
        as (s & Ese).
      * rewrite length_map. apply in_range_flat. unfold Inv.partition in Hp.
        apply Forall_forall. intros p Hin. apply (Permutation_in _ Hp) in Hin.
        apply in_seq in Hin. lia.
      * intros id Hid. destruct (keys_lookup _ _ Hid) as (pts & El).
        exact (proj2 (Hl id pts El)).
      * rewrite Ese. cbn [bind]. eauto.
    + rewrite Es. cbn [bind]. eexists. split; [reflexivity|]. split; [lia|]. intros _.
      pose proof (elbow_range sse (maxClusters - 1 - 1)) as H. lia.
Qed.

(** [findOptimalK] returns the number of vectors when there are at most
    two.  For three or more vectors of reals of one dimension it returns a
    result, and the number of clusters that it proposes is at least 2 and
    at most [max(2, min(maxK, N - 1) - 1)]: neither 1 nor [maxK] is ever
    proposed. *)
Theorem findOptimalK_range (rands : nat -> nat -> R) (vectors : list (list R))
        (dim maxK : nat) :
  (forall c i, 0 <= rands c i < 1) ->
  Forall (fun v => length v = dim) vectors ->
  exists K,
    Elbow.findOptimalK rands (map vec vectors) maxK = Some K /\
    ((length vectors <= 2)%nat -> K = length vectors) /\
    ((3 <= length vectors)%nat ->
     (2 <= K <= Nat.max 2 (Nat.min maxK (length vectors - 1) - 1))%nat).
Proof. apply findOptimalK_ok. Qed.

Lemma findOptimalK_range_witness :
  exists K,
    Elbow.findOptimalK (fun _ _ => 0) (map vec [[1; 0]; [0; 1]; [1; 1]; [2; 1]]) 10 = Some K /\
    ((length [[1; 0]; [0; 1]; [1; 1]; [2; 1]] <= 2)%nat ->
     K = length [[1; 0]; [0; 1]; [1; 1]; [2; 1]]) /\
    ((3 <= length [[1; 0]; [0; 1]; [1; 1]; [2; 1]])%nat ->
     (2 <= K <= Nat.max 2 (Nat.min 10 (length [[1; 0]; [0; 1]; [1; 1]; [2; 1]] - 1) - 1))%nat).
Proof.
  apply (findOptimalK_range (fun _ _ => 0) [[1; 0]; [0; 1]; [1; 1]; [2; 1]] 2 10).
  - intros _ _. lra.
  - repeat constructor.
Defined.

(** ** findOptimalEpsilon *)

Lemma distancesFrom_spec (vectors : list vector) (i : nat) (vi : vector) :
  Elbow.distancesFrom vectors i vi
  = map (fun e => Some (TextAnalysis.euclideanDistance vi (snd e)))
        (filter (fun e => negb (i =? fst e)%nat) (indexed vectors)).
Proof.
  unfold Elbow.distancesFrom. generalize (indexed vectors) as l.
  assert (G : forall (l : list (nat * vector)) acc,
             fold_left (fun distances '(j, vj) =>
                          if (i =? j)%nat then distances
                          else distances ++ [Some (TextAnalysis.euclideanDistance vi vj)])
                       l acc
             = acc ++ map (fun e => Some (TextAnalysis.euclideanDistance vi (snd e)))
                          (filter (fun e => negb (i =? fst e)%nat) l)).
  { induction l as [|[j vj] l IH]; intros acc; cbn [fold_left filter map fst].
    - now rewrite app_nil_r.
    - rewrite IH. destruct (i =? j)%nat; cbn [negb map snd]; [reflexivity|].
      now rewrite <- app_assoc. }
  intros l. apply (G l []).
Qed.

Lemma kDistancesOf_spec (sorter : NumberSort) (vectors : list vector) (k : nat) :
  Elbow.kDistancesOf sorter vectors k
  = map (fun e =>
           Elbow.cell (sortAscending sorter (Elbow.distancesFrom vectors (fst e) (snd e)))
                      (Nat.min k (length (sortAscending sorter
                                            (Elbow.distancesFrom vectors (fst e) (snd e))) - 1)))
        (indexed vectors).
Proof.
  unfold Elbow.kDistancesOf. generalize (indexed vectors) as l.
  assert (G : forall (l : list (nat * vector)) acc,
             fold_left (fun kDistances '(i, vi) =>
                          let distances :=
                            sortAscending sorter (Elbow.distancesFrom vectors i vi) in
                          kDistances
                            ++ [Elbow.cell distances (Nat.min k (length distances - 1))])
                       l acc
             = acc ++ map (fun e =>
                             Elbow.cell
                               (sortAscending sorter
                                  (Elbow.distancesFrom vectors (fst e) (snd e)))
                               (Nat.min k
                                  (length (sortAscending sorter
                                             (Elbow.distancesFrom vectors (fst e) (snd e)))
                                   - 1)))
                          l).
  { induction l as [|[j vj] l IH]; intros acc; cbn [fold_left map fst snd].
    - now rewrite app_nil_r.
    - rewrite IH. now rewrite <- app_assoc. }
  intros l. apply (G l []).
Qed.

Lemma cell_In (arr : list (option number)) (i : nat) :
  (i < length arr)%nat -> In (Elbow.cell arr i) arr.
Proof.
  intros H. unfold Elbow.cell.
  destruct (nth_error arr i) as [c|] eqn:E; [|apply nth_error_None in E; lia].
  exact (nth_error_In _ _ E).
Qed.

Lemma epsilon_index (kDistances : list (option number)) (m : nat) :
  (snd (fold_left (Elbow.epsilonStep kDistances) (seq 1 m) (Num 0, 0%nat)) <= m)%nat.
Proof.
  apply (fold_left_inv (fun st => (snd st <= m)%nat)).
  - cbn [snd]. lia.
  - intros [maxCurvature idx] i Hi H. apply in_seq in Hi. cbn [snd] in H.
    unfold Elbow.epsilonStep. destruct (gt _ _); cbn [snd]; lia.
Qed.

Lemma findOptimalEpsilon_ok (sorter : NumberSort) (vectors : list (list R)) (dim k : nat) :
  (forall l, Permutation (sortAscending sorter l) l) ->
  Forall (fun v => length v = dim) vectors ->
  ((length vectors <= 1)%nat ->
   Elbow.findOptimalEpsilon sorter (map vec vectors) k = Some (Num (1/2))) /\
  ((2 <= length vectors)%nat ->
   exists i j a b,
     i <> j /\ nth_error vectors i = Some a /\ nth_error vectors j = Some b /\
     Elbow.findOptimalEpsilon sorter (map vec vectors) k = Some (Num (Metric.euclid a b))).
Proof.
  intros Hs Hu. unfold Elbow.findOptimalEpsilon. rewrite length_map. split.
  - intros H. now rewrite (proj2 (Nat.leb_le _ _) H).
  - intros H. rewrite (proj2 (Nat.leb_gt _ _)) by lia.
    set (Q := fun c : option number =>
                exists i j a b,
                  i <> j /\ nth_error vectors i = Some a /\ nth_error vectors j = Some b /\
                  c = Some (Num (Metric.euclid a b))).
    assert (Hreal : forall i x, In (i, x) (indexed (map vec vectors)) ->
                                exists a, nth_error vectors i = Some a /\ x = vec a).
    { intros i x Hin. apply indexed_In in Hin. destruct Hin as [_ Hin].
      rewrite nth_error_map in Hin.
      destruct (nth_error vectors i) as [a|]; [|discriminate].
      injection Hin as <-. now exists a. }
    assert (Hk : Forall Q (Elbow.kDistancesOf sorter (map vec vectors) k)).
    { rewrite kDistancesOf_spec. apply Forall_map, Forall_forall. intros [i x] Hin.
      cbn [fst snd]. destruct (Hreal i x Hin) as (a & Ea & ->).
      set (ds := Elbow.distancesFrom (map vec vectors) i (vec a)).
      assert (Hds : Forall Q ds).
      { unfold ds. rewrite distancesFrom_spec. apply Forall_map, Forall_forall.
        intros [j y] Hj. apply filter_In in Hj. destruct Hj as [Hj Hne].
        cbn [fst snd] in *. apply negb_true_iff, Nat.eqb_neq in Hne.
        destruct (Hreal j y Hj) as (b & Eb & ->).
        exists i, j, a, b. split; [exact Hne|]. split; [exact Ea|]. split; [exact Eb|].
        f_equal. apply utils_euclid. rewrite Forall_forall in Hu.
        rewrite (Hu a (nth_error_In _ _ Ea)), (Hu b (nth_error_In _ _ Eb)). reflexivity. }
      assert (Hlen : (1 <= length ds)%nat).
      { unfold ds. rewrite distancesFrom_spec, length_map.
        set (j := if (i =? 0)%nat then 1%nat else 0%nat).
        assert (Hj : (j < length vectors)%nat) by (unfold j; destruct (i =? 0)%nat; lia).
        destruct (nth_error (map vec vectors) j) as [y|] eqn:Ej;
          [|apply nth_error_None in Ej; rewrite length_map in Ej; lia].
        assert (Hin' : In (j, y) (filter (fun e => negb (i =? fst e)%nat)
                                         (indexed (map vec vectors)))).
        { apply filter_In. split; [now apply In_indexed|]. cbn [fst].
          apply negb_true_iff, Nat.eqb_neq. unfold j.
          destruct (i =? 0)%nat eqn:E0; [apply Nat.eqb_eq in E0 | apply Nat.eqb_neq in E0]; lia. }
        destruct (filter _ _); [contradiction | cbn [length]; lia]. }
      pose proof (Hs ds) as Hp. rewrite <- (Permutation_length Hp) in Hlen.
      assert (Hc : In (Elbow.cell (sortAscending sorter ds)
                                  (Nat.min k (length (sortAscending sorter ds) - 1)))
                      (sortAscending sorter ds)) by (apply cell_In; lia).
      apply (Permutation_in _ Hp) in Hc. rewrite Forall_forall in Hds. exact (Hds _ Hc). }
    assert (Hl : length (Elbow.kDistancesOf sorter (map vec vectors) k) = length vectors).
    { rewrite kDistancesOf_spec, length_map. unfold indexed.
      rewrite length_combine, length_seq, length_map. lia. }
    set (kd := sortAscending sorter (Elbow.kDistancesOf sorter (map vec vectors) k)).
    pose proof (Hs (Elbow.kDistancesOf sorter (map vec vectors) k)) as Hp. fold kd in Hp.
    rewrite <- (Permutation_length Hp) in Hl.
    pose proof (epsilon_index kd (length kd - 1 - 1)) as Hi.
    assert (Hc : In (Elbow.cell kd (snd (fold_left (Elbow.epsilonStep kd)
                                                   (seq 1 (length kd - 1 - 1))
                                                   (Num 0, 0%nat)))) kd)
      by (apply cell_In; lia).
    apply (Permutation_in _ Hp) in Hc. rewrite Forall_forall in Hk.
    destruct (Hk _ Hc) as (i & j & a & b & Hne & Ea & Eb & E).
    now exists i, j, a, b.
Qed.

(** [findOptimalEpsilon] returns 0.5 when there is at most one vector.  For
    two or more vectors of reals of one dimension, whatever their order
    after the sorts, the radius that it returns is the Euclidean distance
    between two of the vectors, taken at two different indices. *)
Theorem findOptimalEpsilon_is_distance (sorter : NumberSort) (vectors : list (list R))
        (dim k : nat) :
  (forall l, Permutation (sortAscending sorter l) l) ->
  Forall (fun v => length v = dim) vectors ->
  ((length vectors <= 1)%nat ->
   Elbow.findOptimalEpsilon sorter (map vec vectors) k = Some (Num (1/2))) /\
  ((2 <= length vectors)%nat ->
   exists i j a b,
     i <> j /\ nth_error vectors i = Some a /\ nth_error vectors j = Some b /\
     Elbow.findOptimalEpsilon sorter (map vec vectors) k = Some (Num (Metric.euclid a b))).
Proof. apply findOptimalEpsilon_ok. Qed.

Lemma findOptimalEpsilon_is_distance_witness :
  ((length [[1; 0]; [0; 1]; [1; 1]] <= 1)%nat ->
   Elbow.findOptimalEpsilon stableAscending (map vec [[1; 0]; [0; 1]; [1; 1]]) 4
   = Some (Num (1/2))) /\
  ((2 <= length [[1; 0]; [0; 1]; [1; 1]])%nat ->
   exists i j a b,
     i <> j /\ nth_error [[1; 0]; [0; 1]; [1; 1]] i = Some a /\
     nth_error [[1; 0]; [0; 1]; [1; 1]] j = Some b /\
     Elbow.findOptimalEpsilon stableAscending (map vec [[1; 0]; [0; 1]; [1; 1]]) 4
     = Some (Num (Metric.euclid a b))).
Proof.
  apply (findOptimalEpsilon_is_distance stableAscending [[1; 0]; [0; 1]; [1; 1]] 2 4).
  - intros l. apply sortBy_perm.
  - repeat constructor.
Defined.

(** ** The coherence of the clusters *)

Lemma similarity_row (vs : list (list R)) (dim p : nat) (pts : list nat) (t0 : R) (c0 : nat) :
  Forall (fun v => length v = dim) vs ->
  (p < length vs)%nat -> Forall (fun q => (q < length vs)%nat) pts ->
  foldM (fun acc y =>
           (fun '(total, pairs) p q =>
              s <- Route.similarityAt (map vec vs) p q ;; Some (add total s, S pairs))
             acc p y)
        pts (Num t0, c0)
  = Some (Num (t0 + Coherence.rowSum vs p pts), (c0 + length pts)%nat).
Proof.
  intros Hu Hp Hpts. revert t0 c0.
  induction Hpts as [|q pts Hq _ IH]; intros t0 c0.
  - cbn [foldM Coherence.rowSum map Spec.total fold_right length].
    now rewrite Rplus_0_r, Nat.add_0_r.
  - cbn [foldM]. unfold Route.similarityAt at 1.
    rewrite !nth_error_vecs by assumption. cbn [bind].
    rewrite route_cosine_vec
      by (rewrite (uniform_nth vs dim p Hu Hp), (uniform_nth vs dim q Hu Hq); reflexivity).
    cbn [add]. rewrite IH. cbn [length].
    unfold Coherence.rowSum. cbn [map Spec.total fold_right].
    match goal with
    | |- Some (Num ?a, ?b) = Some (Num ?c, ?d) =>
        replace a with c by (unfold Spec.total; ring); replace b with d by lia; reflexivity
    end.
Qed.

Lemma similarity_pairs (vs : list (list R)) (dim : nat) (pts : list nat) (t0 : R) (c0 : nat) :
  Forall (fun v => length v = dim) vs ->
  Forall (fun q => (q < length vs)%nat) pts ->
  pairFoldM (fun '(total, pairs) p q =>
               s <- Route.similarityAt (map vec vs) p q ;; Some (add total s, S pairs))
            pts (Num t0, c0)
  = Some (Num (t0 + Coherence.pairSum vs pts), (c0 + Coherence.pairCount pts)%nat).
Proof.
  intros Hu Hpts. revert t0 c0.
  induction Hpts as [|p pts Hp Hrest IH]; intros t0 c0.
  - cbn [pairFoldM Coherence.pairSum Coherence.pairCount].
    now rewrite Rplus_0_r, Nat.add_0_r.
  - cbn [pairFoldM]. rewrite (similarity_row vs dim p pts t0 c0 Hu Hp Hrest). cbn [bind].
    rewrite IH. cbn [Coherence.pairSum Coherence.pairCount].
    match goal with
    | |- Some (Num ?a, ?b) = Some (Num ?c, ?d) =>
        replace a with c by ring; replace b with d by lia; reflexivity
    end.
Qed.

Lemma pairCount_pos (pts : list nat) : (2 <= length pts)%nat -> (1 <= Coherence.pairCount pts)%nat.
Proof.
  destruct pts as [|p [|q t]]; cbn [length Coherence.pairCount]; lia.
Qed.

Lemma coherenceOf_value (vs : list (list R)) (dim : nat) (pts : list nat) :
  Forall (fun v => length v = dim) vs ->
  Forall (fun q => (q < length vs)%nat) pts ->
  Route.coherenceOf (map vec vs) pts = Some (Num (Coherence.mean vs pts)).
Proof.
  intros Hu Hpts. unfold Route.coherenceOf, Coherence.mean.
  destruct (length pts <=? 1)%nat eqn:E; [reflexivity|].
  apply Nat.leb_gt in E.
  rewrite (similarity_pairs vs dim pts 0 0 Hu Hpts). cbn [bind Nat.add].
  pose proof (pairCount_pos pts E) as Hc.
  rewrite (proj2 (Nat.ltb_lt _ _)) by lia.
  unfold of_nat. rewrite div_Num by (apply not_0_INR; lia).
  now rewrite Rplus_0_l.
Qed.

Lemma clusterCoherence_value (vs : list (list R)) (dim : nat) (clusters : CMap.t) :
  Forall (fun v => length v = dim) vs ->
  Spec.in_range (length vs) clusters ->
  Route.clusterCoherence (map vec vs) clusters
  = Some (map (fun c => (fst c, Num (Coherence.mean vs (snd c)))) clusters).
Proof.
  intros Hu Hr. unfold Route.clusterCoherence.
  assert (G : forall acc,
             foldM (fun acc '(clusterId, clusterPoints) =>
                      c <- Route.coherenceOf (map vec vs) clusterPoints ;;
                      Some (acc ++ [(clusterId, c)]))
                   clusters acc
             = Some (acc ++ map (fun c => (fst c, Num (Coherence.mean vs (snd c)))) clusters)).
  { induction Hr as [|[id pts] cl Hpts _ IH]; intros acc; cbn [foldM map].
    - now rewrite app_nil_r.
    - cbn [snd] in Hpts. rewrite (coherenceOf_value vs dim pts Hu Hpts). cbn [bind fst snd].
      rewrite IH, <- app_assoc. reflexivity. }
  apply (G []).
Qed.

Lemma pairSum_bounds (vs : list (list R)) (dim : nat) (lo : R) (pts : list nat) :
  Forall (fun v => length v = dim) vs ->
  Forall (fun q => (q < length vs)%nat) pts ->
  lo <= 0 ->
  (forall p q, (p < length vs)%nat -> (q < length vs)%nat ->
               lo <= Spec.cosine (nth p vs []) (nth q vs [])) ->
  INR (Coherence.pairCount pts) * lo <= Coherence.pairSum vs pts
  <= INR (Coherence.pairCount pts).
Proof.
  intros Hu Hpts Hlo Hcos. induction Hpts as [|p pts Hp Hrest IH].
  - cbn [Coherence.pairSum Coherence.pairCount]. simpl. lra.
  - cbn [Coherence.pairSum Coherence.pairCount]. rewrite plus_INR.
    assert (Hrow : INR (length pts) * lo <= Coherence.rowSum vs p pts <= INR (length pts) * 1).
    { unfold Coherence.rowSum.
      rewrite <- (length_map (fun q => Spec.cosine (nth p vs []) (nth q vs [])) pts).
      apply total_bounds. apply Forall_map. apply Forall_forall. intros q Hq.
      rewrite Forall_forall in Hrest. specialize (Hrest q Hq). split; [now apply Hcos|].
      apply cosine_bounds.
      rewrite (uniform_nth vs dim p Hu Hp), (uniform_nth vs dim q Hu Hrest). reflexivity. }
    lra.
Qed.

Lemma mean_range (vs : list (list R)) (dim : nat) (lo : R) (pts : list nat) :
  Forall (fun v => length v = dim) vs ->
  Forall (fun q => (q < length vs)%nat) pts ->
  lo <= 0 ->
  (forall p q, (p < length vs)%nat -> (q < length vs)%nat ->
               lo <= Spec.cosine (nth p vs []) (nth q vs [])) ->
  lo <= Coherence.mean vs pts <= 1.
Proof.
  intros Hu Hpts Hlo Hcos. unfold Coherence.mean.
  destruct (length pts <=? 1)%nat eqn:E; [lra|].
  apply Nat.leb_gt in E. pose proof (pairCount_pos pts E) as Hc.
  pose proof (pairSum_bounds vs dim lo pts Hu Hpts Hlo Hcos) as [H1 H2].
  assert (Hpos : 0 < INR (Coherence.pairCount pts)) by (apply lt_0_INR; lia).
  split.
  - apply Rmult_le_reg_r with (INR (Coherence.pairCount pts)); [exact Hpos|].
    unfold Rdiv. rewrite Rmult_assoc, Rinv_l by lra. lra.
  - apply Rmult_le_reg_r with (INR (Coherence.pairCount pts)); [exact Hpos|].
    unfold Rdiv. rewrite Rmult_assoc, Rinv_l by lra. lra.
Qed.

Lemma engine_coherence (vectors : list vector) :
  (forall rand k maxIterations r,
      Route.runKMeans rand vectors k maxIterations = Some r ->
      Route.clusterCoherence vectors (Route.clusters r) = Some (Route.coherence r)) /\
  (forall eps minPts r,
      Route.runDBSCAN vectors eps minPts = Some r ->
      Route.clusterCoherence vectors (Route.clusters r) = Some (Route.coherence r)).
Proof.
  split.
  - intros rand k maxIterations r. unfold Route.runKMeans.
    destruct (nth_error vectors _) as [first|]; [|discriminate]. cbn [bind].
    destruct (foldM _ _ _) as [st|]; [|discriminate]. cbn [bind].
    destruct (Route.clusterCoherence vectors (Route.ks_bestClusters st)) as [coh|] eqn:E;
      [|discriminate].
    cbn [bind]. intros [= <-]. exact E.
  - intros eps minPts r. unfold Route.runDBSCAN.
    destruct (DBSCAN.mainLoop _ _ _ _) as [st|]; [|discriminate]. cbn [bind].
    destruct (Route.calculateSilhouetteScore _ _) as [s|]; [|discriminate]. cbn [bind].
    destruct (Route.clusterCoherence vectors _) as [coh|] eqn:E; [|discriminate].
    cbn [bind]. intros [= <-]. exact E.
Qed.

Lemma selected_coherence (rand : nat -> R) (vectors : list (list R))
      (dim documentCount : nat) :
  (forall i, 0 <= rand i < 1) ->
  vectors <> [] ->
  Forall (fun v => length v = dim) vectors ->
  exists selected,
    Route.runOptimalClustering rand (map vec vectors) documentCount = Some selected /\
    NoDup (CMap.keys (Route.clusters (Route.result selected))) /\
    Spec.in_range (length vectors) (Route.clusters (Route.result selected)) /\
    Route.coherence (Route.result selected)
    = map (fun c => (fst c, Num (Coherence.mean vectors (snd c))))
          (Route.clusters (Route.result selected)).
Proof.
  intros Hrand Hne Hu.
  assert (Hk : (1 <= Route.selectK documentCount)%nat) by (unfold Route.selectK; lia).
  destruct (runKMeans_ok vectors dim Hu Hne rand (Route.selectK documentCount) 20 Hrand Hk)
    as (km & first & Ekm & _ & (Hkk & Hrk & _) & _); [lia|].
  destruct (dbscan_covering vectors dim (Route.selectEpsilon (map vec vectors))
              (Route.selectMinPts documentCount) ClusteringAlgorithms.Cosine Hu)
    as [(db & Edb & (cnt & Hkd) & _ & Hrd & _) _].
  destruct (engine_coherence (map vec vectors)) as [Hck Hcd].
  pose proof (Hck _ _ _ _ Ekm) as Ck. pose proof (Hcd _ _ _ Edb) as Cd.
  rewrite (clusterCoherence_value vectors dim _ Hu Hrk) in Ck.
  rewrite (clusterCoherence_value vectors dim _ Hu Hrd) in Cd.
  injection Ck as Ck. injection Cd as Cd.
  unfold Route.runOptimalClustering. rewrite Ekm, Edb. cbn [bind].
  eexists. split; [reflexivity|].
  destruct (gt (Route.silhouetteScore db) (Route.silhouetteScore km)); cbn [Route.result].
  - split; [rewrite Hkd; apply seq_NoDup|]. split; [exact Hrd | now symmetry].
  - split; [rewrite Hkk; apply seq_NoDup|]. split; [exact Hrk | now symmetry].
Qed.

(** *** The coherence loops, on any vectors *)

Lemma pairs_length {A : Type} (l : list A) :
  (2 * length (Pairwise.pairs l) = length l * (length l - 1))%nat.
Proof.
  induction l as [|x l IH]; [reflexivity|].
  cbn [Pairwise.pairs length]. rewrite length_app, length_map.
  destruct l as [|y l]; [reflexivity|]. cbn [length] in *. nia.
Qed.

Lemma pairs_count {A : Type} (l : list A) :
  length (Pairwise.pairs l) = (length l * (length l - 1) / 2)%nat.
Proof.
  rewrite <- (pairs_length l), Nat.mul_comm. symmetry. apply Nat.div_mul. discriminate.
Qed.

Lemma similarity_loop (vs : list vector) (p : nat) (pts : list nat)
      (total : number) (count : nat) :
  (p < length vs)%nat -> Forall (fun q => (q < length vs)%nat) pts ->
  foldM (fun acc y =>
           (fun '(total, pairs) p q =>
              s <- Route.similarityAt vs p q ;; Some (add total s, S pairs))
             acc p y)
        pts (total, count)
  = Some (fold_left (fun total '(p, q) =>
                       add total (Route.cosineSimilarity (nth p vs []) (nth q vs [])))
                    (map (pair p) pts) total,
          (count + length pts)%nat).
Proof.
  intros Hp H. revert total count. induction H as [|q pts Hq _ IH]; intros total count.
  - cbn [foldM map fold_left length]. now rewrite Nat.add_0_r.
  - cbn [foldM map fold_left length]. unfold Route.similarityAt at 1.
    rewrite (nth_error_nth' vs [] Hp), (nth_error_nth' vs [] Hq). cbn [bind].
    rewrite IH. f_equal. f_equal. lia.
Qed.

Lemma coherenceOf_any (vs : list vector) (pts : list nat) :
  Forall (fun q => (q < length vs)%nat) pts ->
  Route.coherenceOf vs pts = Some (Pairwise.coherence vs pts).
Proof.
  intros H. unfold Route.coherenceOf, Pairwise.coherence.
  destruct (length pts <=? 1)%nat eqn:E; [reflexivity|]. apply Nat.leb_gt in E.
  assert (G : forall total count,
             pairFoldM (fun '(total, pairs) p q =>
                          s <- Route.similarityAt vs p q ;; Some (add total s, S pairs))
                       pts (total, count)
             = Some (fold_left (fun total '(p, q) =>
                                  add total (Route.cosineSimilarity (nth p vs [])
                                                                    (nth q vs [])))
                               (Pairwise.pairs pts) total,
                     (count + length (Pairwise.pairs pts))%nat)).
  { clear E. induction H as [|p pts Hp Hrest IH]; intros total count.
    - cbn [pairFoldM Pairwise.pairs fold_left length]. now rewrite Nat.add_0_r.
    - cbn [pairFoldM Pairwise.pairs].
      rewrite (similarity_loop vs p pts total count Hp Hrest). cbn [bind].
      rewrite IH, fold_left_app, length_app, length_map. f_equal. f_equal. lia. }
  rewrite G. cbn [bind Nat.add]. fold (Pairwise.totalSimilarity vs pts).
  replace (0 <? length (Pairwise.pairs pts))%nat with true; [reflexivity|].
  symmetry. apply Nat.ltb_lt. pose proof (pairs_length pts). nia.
Qed.

Lemma clusterCoherence_any (vs : list vector) (clusters : CMap.t) :
  Spec.in_range (length vs) clusters ->
  Route.clusterCoherence vs clusters
  = Some (map (fun c => (fst c, Pairwise.coherence vs (snd c))) clusters).
Proof.
  intros Hr. unfold Route.clusterCoherence.
  assert (G : forall acc,
             foldM (fun acc '(clusterId, clusterPoints) =>
                      c <- Route.coherenceOf vs clusterPoints ;;
                      Some (acc ++ [(clusterId, c)]))
                   clusters acc
             = Some (acc ++ map (fun c => (fst c, Pairwise.coherence vs (snd c))) clusters)).
  { induction Hr as [|[id pts] cl Hpts _ IH]; intros acc; cbn [foldM map].
    - now rewrite app_nil_r.
    - cbn [snd] in Hpts. rewrite (coherenceOf_any vs pts Hpts). cbn [bind fst snd].
      rewrite IH, <- app_assoc. reflexivity. }
  apply (G []).
Qed.

Lemma selected_coherence_any (rand : nat -> R) (vectors : list vector) (documentCount : nat) :
  (forall i, 0 <= rand i < 1) ->
  vectors <> [] ->
  exists selected,
    Route.runOptimalClustering rand vectors documentCount = Some selected /\
    Route.coherence (Route.result selected)
    = map (fun c => (fst c, Pairwise.coherence vectors (snd c)))
          (Route.clusters (Route.result selected)).
Proof.
  intros Hrand Hne.
  destruct (optimal_any rand vectors documentCount Hrand Hne) as (sel & E & Hr & _).
  exists sel. split; [exact E|].
  destruct (engine_coherence vectors) as [Hck Hcd].
  unfold Route.runOptimalClustering in E.
  destruct (Route.runKMeans rand vectors (Route.selectK documentCount) 20) as [km|] eqn:Ekm;
    [|discriminate E].
  cbn [bind] in E.
  destruct (Route.runDBSCAN vectors (Route.selectEpsilon vectors)
                            (Route.selectMinPts documentCount)) as [db|] eqn:Edb;
    [|discriminate E].
  cbn [bind] in E. injection E as <-.
  destruct (gt (Route.silhouetteScore db) (Route.silhouetteScore km));
    cbn [Route.result] in *.
  - pose proof (Hcd _ _ _ Edb) as C. rewrite (clusterCoherence_any vectors _ Hr) in C.
    now injection C.
  - pose proof (Hck _ _ _ _ Ekm) as C. rewrite (clusterCoherence_any vectors _ Hr) in C.
    now injection C.
Qed.

(** The coherence that [runKMeans] and [runDBSCAN] report, for the engine
    that [runOptimalClustering] selects on a non-empty set of vectors,
    whatever numbers they hold: there is one value per cluster, in the
    order of the clusters.  It is 1 for a cluster of at most one point.  For
    a cluster of [m >= 2] points it is the sum of [cosineSimilarity] over
    the pairs of positions [i < j] of the cluster, in the order of the two
    loops, divided by the number [m (m - 1) / 2] of these pairs. *)
Theorem cluster_coherence (rand : nat -> R) (vectors : list vector) (documentCount : nat) :
  (forall i, 0 <= rand i < 1) ->
  vectors <> [] ->
  exists selected,
    Route.runOptimalClustering rand vectors documentCount = Some selected /\
    Route.coherence (Route.result selected)
    = map (fun c => (fst c, Pairwise.coherence vectors (snd c)))
          (Route.clusters (Route.result selected)) /\
    Forall (fun c =>
              ((length (snd c) <= 1)%nat -> Pairwise.coherence vectors (snd c) = Num 1) /\
              ((2 <= length (snd c))%nat ->
               Pairwise.coherence vectors (snd c)
               = div (Pairwise.totalSimilarity vectors (snd c))
                     (of_nat (length (snd c) * (length (snd c) - 1) / 2))))
           (Route.clusters (Route.result selected)).
Proof.
  intros Hrand Hne.
  destruct (selected_coherence_any rand vectors documentCount Hrand Hne) as (sel & E & Hc).
  exists sel. split; [exact E|]. split; [exact Hc|].
  apply Forall_forall. intros c _. unfold Pairwise.coherence. split; intros Hl.
  - now rewrite (proj2 (Nat.leb_le _ _) Hl).
  - rewrite (proj2 (Nat.leb_gt _ _)) by lia. now rewrite pairs_count.
Qed.

Lemma cluster_coherence_witness :
  exists selected,
    Route.runOptimalClustering (fun _ => 0) [[Num 1; Num 0]; [Num 0; Num 1]; [Num 1; NaN]] 3
    = Some selected /\
    Route.coherence (Route.result selected)
    = map (fun c => (fst c,
                     Pairwise.coherence [[Num 1; Num 0]; [Num 0; Num 1]; [Num 1; NaN]] (snd c)))
          (Route.clusters (Route.result selected)) /\
    Forall (fun c =>
              ((length (snd c) <= 1)%nat ->
               Pairwise.coherence [[Num 1; Num 0]; [Num 0; Num 1]; [Num 1; NaN]] (snd c)
               = Num 1) /\
              ((2 <= length (snd c))%nat ->
               Pairwise.coherence [[Num 1; Num 0]; [Num 0; Num 1]; [Num 1; NaN]] (snd c)
               = div (Pairwise.totalSimilarity [[Num 1; Num 0]; [Num 0; Num 1]; [Num 1; NaN]]
                                               (snd c))
                     (of_nat (length (snd c) * (length (snd c) - 1) / 2))))
           (Route.clusters (Route.result selected)).
Proof.
  apply (cluster_coherence (fun _ => 0) [[Num 1; Num 0]; [Num 0; Num 1]; [Num 1; NaN]] 3).
  - intros _. lra.
  - discriminate.
Defined.

(** ** The coherence that POST reports *)

Lemma embeddings_boxes (js : StringBuiltins) (documents : list string) :
  exists vectors : list (list R),
    Embeddings.generateSemanticEmbeddings js documents = map vec vectors /\
    length vectors = length documents /\
    Forall (fun v => length v = 50%nat) vectors /\
    Forall Features.unit_box vectors.
Proof.
  unfold Embeddings.generateSemanticEmbeddings. rewrite embeddings_map. cbn [app].
  induction documents as [|doc docs (vs & E & L & F & B)].
  - exists []. split; [reflexivity|]. split; [reflexivity|]. split; constructor.
  - destruct (embedding_real js doc) as (l & El & Ll & Bl & _).
    exists (l :: vs). cbn [map length]. rewrite El, E, L.
    split; [reflexivity|]. split; [reflexivity|]. split; now constructor.
Qed.

Lemma lookupCoherence_map (vs : list (list R)) (clusters : CMap.t) (id : nat) (pts : list nat) :
  NoDup (CMap.keys clusters) -> In (id, pts) clusters ->
  Post.lookupCoherence id (map (fun c => (fst c, Num (Coherence.mean vs (snd c)))) clusters)
  = Some (Num (Coherence.mean vs pts)).
Proof.
  induction clusters as [|[id' pts'] cl IH]; [intros _ []|].
  cbn [CMap.keys map fst snd Post.lookupCoherence]. intros Hd Hin.
  inversion Hd as [|? ? Hni Hd']; subst.
  destruct Hin as [[= -> ->]|Hin].
  - now rewrite Nat.eqb_refl.
  - destruct (id' =? id)%nat eqn:E.
    + apply Nat.eqb_eq in E. subst id'. exfalso. apply Hni.
      change id with (fst (id, pts)). now apply in_map.
    + now apply IH.
Qed.

Section PostCoherence.

Variable js : StringBuiltins.
Variable re : RegexBuiltins.
Variable sorter : SortBuiltin.

Lemma summaries_coherence (textDocuments : list string) (documentKeyTerms : list (list string))
      (clusterCoherence : list (nat * number)) (clusters : CMap.t)
      (acc result : list (nat * Post.ClusterSummary)) :
  foldM (fun summaries '(clusterId, docIndices) =>
           s <- Post.summarize js sorter textDocuments documentKeyTerms clusterCoherence
                               clusterId docIndices ;;
           Some (summaries ++ [(clusterId, s)]))
        clusters acc = Some result ->
  exists ss,
    result = acc ++ ss /\
    Forall2 (fun s c => fst s = fst c /\
                        Post.coherence (snd s) = Post.lookupCoherence (fst c) clusterCoherence)
            ss clusters.
Proof.
  revert acc. induction clusters as [|[id pts] cl IH]; intros acc; cbn [foldM].
  - intros [= <-]. exists []. rewrite app_nil_r. split; [reflexivity | constructor].
  - destruct (Post.summarize js sorter textDocuments documentKeyTerms clusterCoherence id pts)
      as [s|] eqn:Es; [|discriminate].
    cbn [bind]. intros E. destruct (IH _ E) as (ss & -> & F).
    exists ((id, s) :: ss). rewrite <- app_assoc. split; [reflexivity|].
    constructor; [|exact F]. cbn [fst snd]. split; [reflexivity|].
    unfold Post.summarize in Es.
    destruct (Post.allTermsOf documentKeyTerms pts); [|discriminate].
    cbn [bind] in Es. injection Es as <-. reflexivity.
Qed.

Lemma relabelled_coherence (ss : list (nat * Post.ClusterSummary))
      (ul : list (nat * Labels.Summary)) :
  length ul = length ss ->
  Forall2 (fun s' s => fst s' = fst s /\ Post.coherence (snd s') = Post.coherence (snd s))
          (map (fun '((id, s), (_, l)) => (id, Post.mkClusterSummary l (Post.coherence s)))
               (combine ss ul))
          ss.
Proof.
  revert ul. induction ss as [|[id s] ss IH]; intros [|[id' l] ul] H; try discriminate H.
  - constructor.
  - cbn [combine map]. constructor; [now split|]. apply IH. now injection H.
Qed.

Lemma process_coherence (rand : nat -> R) (textDocuments : list string) :
  (forall i, 0 <= rand i < 1) -> textDocuments <> [] ->
  exists payload embeddings,
    Post.process js re sorter rand textDocuments = Some payload /\
    Embeddings.generateSemanticEmbeddings js textDocuments = map vec embeddings /\
    Forall2 (fun s c => fst s = fst c /\
                        Post.coherence (snd s)
                        = Some (Num (Coherence.mean embeddings (snd c))) /\
                        0 <= Coherence.mean embeddings (snd c) <= 1)
            (Post.clusterSummaries payload) (Post.clusters payload).
Proof.
  intros Hrand Hne. unfold Post.process.
  destruct (embeddings_boxes js textDocuments) as (vs & Ev & Lv & Fv & Bv). rewrite Ev.
  assert (Hvs : vs <> []) by (destruct vs, textDocuments; try discriminate; congruence).
  destruct (selected_coherence rand vs 50 (length textDocuments) Hrand Hvs Fv)
    as (sel & Es & Hd & Hr & Hc).
  rewrite Es. cbn [bind].
  set (dkt := map (fun index => KeyTerms.extractKeyTerms js re sorter textDocuments index 8)
                  (seq 0 (length textDocuments))).
  assert (Ld : length dkt = length textDocuments)
    by (unfold dkt; now rewrite length_map, length_seq).
  destruct (summaries_ok js sorter textDocuments dkt (Route.coherence (Route.result sel))
                         (Route.clusters (Route.result sel)) [])
    as (ss & E & _); [now rewrite Ld, <- Lv|].
  destruct (summaries_coherence _ _ _ _ _ _ E) as (ss' & Ess & F).
  cbn [app] in Ess. subst ss'.
  rewrite E. cbn [bind app]. eexists. exists vs. split; [reflexivity|]. split; [reflexivity|].
  cbn [Post.clusterSummaries Post.clusters].
  destruct (uniqueLabels_shape (map (fun '(id, s) => (id, Post.summary s)) ss) [] [])
    as (ul & Eu & Fu).
  cbn [app] in Eu. fold (Labels.uniqueLabels (map (fun '(id, s) => (id, Post.summary s)) ss)) in Eu.
  rewrite Eu.
  assert (Hl : length ul = length ss).
  { apply Forall2_length in Fu. now rewrite length_map in Fu. }
  pose proof (relabelled_coherence ss ul Hl) as G.
  assert (Aux : forall us ss0 cl,
             Forall2 (fun s' s => fst s' = fst s /\
                                  Post.coherence (snd s') = Post.coherence (snd s)) us ss0 ->
             Forall2 (fun s c => fst s = fst c /\
                                 Post.coherence (snd s)
                                 = Post.lookupCoherence (fst c)
                                                        (Route.coherence (Route.result sel)))
                     ss0 cl ->
             (forall c, In c cl -> In c (Route.clusters (Route.result sel))) ->
             Forall2 (fun s c => fst s = fst c /\
                                 Post.coherence (snd s)
                                 = Some (Num (Coherence.mean vs (snd c))) /\
                                 0 <= Coherence.mean vs (snd c) <= 1)
                     us cl).
  { intros us ss0 cl G0. revert cl.
    induction G0 as [|u s us ss0 [Hid Hco] _ IH]; intros cl F0 Hin.
    - inversion F0; subst. constructor.
    - inversion F0 as [|? c ? cl' [Hid' Hco'] F']; subst.
      constructor; [|apply IH; [exact F' | intros x Hx; apply Hin; now right]].
      assert (Hc' : In c (Route.clusters (Route.result sel))) by (apply Hin; now left).
      split; [congruence|].
      split.
      + rewrite Hco, Hco', Hc. destruct c as [id pts]. cbn [fst snd].
        now apply lookupCoherence_map.
      + unfold Spec.in_range in Hr. rewrite Forall_forall in Hr.
        apply (mean_range vs 50 0 (snd c) Fv (Hr _ Hc')); [lra|].
        intros p q Hp Hq. rewrite Forall_forall in Bv.
        apply cosine_nonneg.
        * generalize (Bv _ (nth_In vs [] Hp)). unfold Features.unit_box.
          apply Forall_impl. intros x Hx. lra.
        * generalize (Bv _ (nth_In vs [] Hq)). unfold Features.unit_box.
          apply Forall_impl. intros x Hx. lra. }
  apply (Aux _ ss _ G F). auto.
Qed.

End PostCoherence.

(** When at least two documents pass the filter, the coherence that POST
    reports in the summary of a cluster is the mean cosine similarity of the
    embeddings of the documents of the cluster, over the pairs of positions
    [i < j] of the cluster: a number that is never negative, and 1 for a
    cluster of at most one document. *)
Theorem post_coherence (js : StringBuiltins) (re : RegexBuiltins) (sorter : SortBuiltin)
        (rand : nat -> R) (fields : list (string * JSON)) (documents : list JSON) :
  (forall i, 0 <= rand i < 1) ->
  Dict.get "documents" fields = Some (JArray documents) ->
  (2 <= length (filter Post.accepts documents))%nat ->
  exists (textDocuments : list string) (payload : Post.Payload) (embeddings : list (list R)),
    map JString textDocuments = filter Post.accepts documents /\
    Post.POST js re sorter rand (Some (JObject fields)) = Post.Success payload /\
    Embeddings.generateSemanticEmbeddings js textDocuments = map vec embeddings /\
    Forall2 (fun s c => fst s = fst c /\
                        Post.coherence (snd s)
                        = Some (Num (Coherence.mean embeddings (snd c))) /\
                        0 <= Coherence.mean embeddings (snd c) /\
                        ((length (snd c) <= 1)%nat -> Coherence.mean embeddings (snd c) = 1))
            (Post.clusterSummaries payload) (Post.clusters payload).
Proof.
  intros Hrand Eg Hn.
  destruct (post_response js re sorter rand (Some (JObject fields)) Hrand)
    as [(fields' & documents' & payload & [= <-] & Eg' & _ & Ep & E) | [_ Hno]].
  - rewrite Eg in Eg'. injection Eg' as <-.
    destruct (textDocumentsOf_length documents) as [Hl _].
    destruct (process_coherence js re sorter rand (Post.textDocumentsOf documents) Hrand)
      as (payload' & vs & Ep' & Ev & F).
    { destruct (Post.textDocumentsOf documents); [cbn [length] in Hl; lia | discriminate]. }
    rewrite Ep in Ep'. injection Ep' as <-.
    exists (Post.textDocumentsOf documents), payload, vs.
    split; [apply textDocumentsOf_accepted|]. split; [exact E|]. split; [exact Ev|].
    induction F as [|s c ss cl (H1 & H2 & H3) _ IH]; constructor; [|exact IH].
    split; [exact H1|]. split; [exact H2|]. split; [exact (proj1 H3)|].
    intros Hle. unfold Coherence.mean. now rewrite (proj2 (Nat.leb_le _ _) Hle).
  - exfalso. apply Hno. now exists fields, documents.
Qed.

Lemma post_coherence_witness :
  exists (textDocuments : list string) (payload : Post.Payload) (embeddings : list (list R)),
    map JString textDocuments
    = filter Post.accepts [JString "alpha beta alpha"; JString "alpha gamma delta"] /\
    Post.POST Sample.js Sample.re stableSort (fun _ => 0)
              (Some (JObject [("documents"%string,
                               JArray [JString "alpha beta alpha";
                                       JString "alpha gamma delta"])]))
    = Post.Success payload /\
    Embeddings.generateSemanticEmbeddings Sample.js textDocuments = map vec embeddings /\
    Forall2 (fun s c => fst s = fst c /\
                        Post.coherence (snd s)
                        = Some (Num (Coherence.mean embeddings (snd c))) /\
                        0 <= Coherence.mean embeddings (snd c) /\
                        ((length (snd c) <= 1)%nat -> Coherence.mean embeddings (snd c) = 1))
            (Post.clusterSummaries payload) (Post.clusters payload).
Proof.
  apply (post_coherence Sample.js Sample.re stableSort (fun _ => 0)
                        [("documents"%string,
                          JArray [JString "alpha beta alpha"; JString "alpha gamma delta"])]
                        [JString "alpha beta alpha"; JString "alpha gamma delta"]).
  - intros _. lra.
  - reflexivity.
  - apply Nat.leb_le. reflexivity.
Defined.

(** No keyword of the catalogue of [generateClusterLabel] names a property
    of [Object.prototype]: [allTerms[keyword]] is a count or undefined. *)
Lemma keywords_not_inherited :
  forallb (fun c => forallb (fun k => negb (Obj.inherited k)) (Labels.keywords (snd c)))
          Labels.categories = true.
Proof. reflexivity. Qed.

(** ** The label of a cluster *)

(** The first entry of the stable sort by decreasing score is the first
    entry of the list whose score is maximal. *)
Lemma sortDesc_head {A : Type} (l : list (A * nat)) :
  l <> [] ->
  exists before c s after rest,
    l = before ++ (c, s) :: after /\
    Forall (fun e => (snd e < s)%nat) before /\
    Forall (fun e => (snd e <= s)%nat) after /\
    Labels.sortDesc l = (c, s) :: rest.
Proof.
  induction l as [|[c0 s0] l IH]; [contradiction|]. intros _.
  destruct l as [|e l'].
  - exists [], c0, s0, [], []. cbn. repeat split; constructor.
  - destruct IH as (before & c & s & after & rest & El & Hb & Ha & Es); [discriminate|].
    unfold Labels.sortDesc in *. cbn [fold_right]. cbn [fold_right] in Es.
    rewrite Es. cbn [Labels.insertDesc snd].
    destruct (s <=? s0)%nat eqn:E; [apply Nat.leb_le in E | apply Nat.leb_gt in E].
    + exists [], c0, s0, (e :: l'), ((c, s) :: rest).
      split; [reflexivity|]. split; [constructor|]. split; [|reflexivity].
      rewrite El. apply Forall_app. split.
      * eapply Forall_impl; [|exact Hb]. cbv beta. intros x Hx. lia.
      * constructor; [cbn [snd]; lia|].
        eapply Forall_impl; [|exact Ha]. cbv beta. intros x Hx. lia.
    + exists ((c0, s0) :: before), c, s, after, (Labels.insertDesc (c0, s0) rest).
      split; [rewrite El; reflexivity|]. split; [constructor; [cbn [snd]; lia | exact Hb]|].
      split; [exact Ha | reflexivity].
Qed.

Lemma categoryScores_filter (js : StringBuiltins) (combinedText : string)
      (topTerms : list string) (allTerms : list (string * nat)) :
  Labels.categoryScores js combinedText topTerms allTerms
  = filter (fun e => (0 <? snd e)%nat)
           (map (fun e => (snd e,
                           Labels.categoryScore js combinedText topTerms allTerms
                                                (Labels.keywords (snd e))))
                Labels.categories).
Proof.
  unfold Labels.categoryScores. generalize Labels.categories as l.
  assert (G : forall (l : list (string * Labels.Category)) acc,
             fold_left (fun scores '(category, c) =>
                          let score :=
                            Labels.categoryScore js combinedText topTerms allTerms
                                                 (Labels.keywords c) in
                          if (0 <? score)%nat then scores ++ [(c, score)] else scores)
                       l acc
             = acc ++ filter (fun e => (0 <? snd e)%nat)
                             (map (fun e => (snd e,
                                             Labels.categoryScore js combinedText topTerms
                                                                  allTerms
                                                                  (Labels.keywords (snd e))))
                                  l)).
  { induction l as [|[name c] l IH]; intros acc; cbn [fold_left map filter fst snd].
    - now rewrite app_nil_r.
    - rewrite IH. destruct (0 <? _)%nat; [now rewrite <- app_assoc | reflexivity]. }
  intros l. apply (G l []).
Qed.

(** The categories that score are those of the catalogue whose score is
    positive, in the order of the catalogue.  When one scores,
    [generateClusterLabel] returns the label of the category of the highest
    score, the first of the catalogue among those of that score.  When none
    scores, the label is made of the first three top terms, capitalized,
    that have more than two characters, or is "Documents" when there is no
    such term. *)
Theorem label_of_best_category (js : StringBuiltins) (clusterTexts topTerms : list string)
        (allTerms : list (string * nat)) :
  let combinedText := toLowerCase js (String.concat " " clusterTexts) in
  let scored :=
    filter (fun e => (0 <? snd e)%nat)
           (map (fun e => (snd e,
                           Labels.categoryScore js combinedText topTerms allTerms
                                                (Labels.keywords (snd e))))
                Labels.categories) in
  let mainTerms :=
    filter (fun t => (2 <? String.length t)%nat)
           (map (Labels.capitalize js) (firstn 3 topTerms)) in
  let label := Labels.generateClusterLabel js clusterTexts topTerms allTerms in
  (scored = [] /\
   label = match mainTerms with
           | [] => "Documents"%string
           | _ :: _ => (String.concat ", " mainTerms ++ " Documents")%string
           end) \/
  (exists before c s after,
      scored = before ++ (c, s) :: after /\
      Forall (fun e => (snd e < s)%nat) before /\
      Forall (fun e => (snd e <= s)%nat) after /\
      (0 < s)%nat /\
      label = Labels.categoryLabel c).
Proof.
  intros combinedText scored mainTerms label.
  assert (Hpos : Forall (fun e => (0 < snd e)%nat) scored).
  { unfold scored. apply Forall_forall. intros e He. apply filter_In in He.
    destruct He as [_ He]. now apply Nat.ltb_lt in He. }
  unfold label, Labels.generateClusterLabel. fold combinedText. fold mainTerms.
  rewrite categoryScores_filter. fold scored. clearbody scored.
  destruct scored as [|e scored'].
  - left. split; [reflexivity|]. cbn [Labels.sortDesc fold_right].
    destruct mainTerms; reflexivity.
  - right.
    destruct (sortDesc_head (e :: scored'))
      as (before & c & s & after & rest & El & Hb & Ha & Es); [discriminate|].
    exists before, c, s, after.
    assert (Hs : (0 < s)%nat).
    { rewrite Forall_forall in Hpos. apply (Hpos (c, s)). rewrite El. apply in_elt. }
    split; [exact El|]. split; [exact Hb|]. split; [exact Ha|]. split; [exact Hs|].
    rewrite Es. now rewrite (proj2 (Nat.ltb_lt _ _) Hs).
Qed.

(** ** The filter of text documents *)

Lemma substring_In (doc : string) (m i : nat) (c : ascii) :
  (i < m)%nat -> String.get i doc = Some c ->
  In c (list_ascii_of_string (String.substring 0 m doc)).
Proof.
  revert m i. induction doc as [|a doc IH]; intros m i Hi Hg; [discriminate Hg|].
  destruct m as [|m]; [lia|]. cbn [String.substring list_ascii_of_string].
  destruct i as [|i]; cbn [String.get] in Hg.
  - injection Hg as ->. now left.
  - right. apply (IH m i); [lia | exact Hg].
Qed.

(** A document is taken for binary data, and is dropped by the filter of
    POST, as soon as one of its first 100 characters is a control character
    other than tab, line feed and carriage return, or a character from
    U+007F to U+00FF: the accented letters of Latin-1 are among them. *)
Theorem filter_drops_latin1_text (doc : string) (i : nat) (c : ascii) :
  (i < 100)%nat -> String.get i doc = Some c ->
  (nat_of_ascii c <= 8 \/ nat_of_ascii c = 11 \/ nat_of_ascii c = 12 \/
   14 <= nat_of_ascii c <= 31 \/ 127 <= nat_of_ascii c)%nat ->
  Post.isLikelyBinaryData doc = true /\ Post.accepts (JString doc) = false.
Proof.
  intros Hi Hg Hc.
  assert (Hctl : Post.isControl c = true).
  { unfold Post.isControl. cbv zeta.
    rewrite !orb_true_iff, andb_true_iff, !Nat.leb_le, !Nat.eqb_eq. tauto. }
  assert (Hb : Post.isLikelyBinaryData doc = true).
  { unfold Post.isLikelyBinaryData.
    assert (He : existsb Post.isControl
                         (list_ascii_of_string (String.substring 0 100 doc)) = true).
    { apply existsb_exists. exists c. split; [now apply (substring_In doc 100 i) | exact Hctl]. }
    rewrite He. now rewrite !orb_true_r. }
  split; [exact Hb|].
  cbn [Post.accepts]. rewrite Hb. cbn [negb]. now rewrite andb_false_r.
Qed.

Lemma filter_drops_latin1_text_witness :
  Post.isLikelyBinaryData (String (ascii_of_nat 233) "cole maternelle") = true /\
  Post.accepts (JString (String (ascii_of_nat 233) "cole maternelle")) = false.
Proof.
  apply (filter_drops_latin1_text (String (ascii_of_nat 233) "cole maternelle") 0
                                  (ascii_of_nat 233)).
  - lia.
  - reflexivity.
  - right. right. right. right. vm_compute. lia.
Defined.

(** ** runKMeans returns its best iteration *)

Section BestIteration.

Variable vs : list vector.
Hypothesis nonempty : vs <> [].
Variable rand : nat -> R.
Hypothesis rand_range : forall i, 0 <= rand i < 1.
Variable k : nat.
Hypothesis k_pos : (1 <= k)%nat.

Local Abbreviation k' := (if (length vs <? k)%nat then length vs else k).

(** What the loop holds when [m] iterations have been made: nothing, when
    none of them scored above -1; otherwise the clusters and the score of
    the first iteration [i] that no iteration beats. *)
Lemma trace_any (first : vector) (m : nat) :
  nth_error vs (Route.randomIndex (rand 0%nat) (length vs)) = Some first ->
  exists st,
    Trace.stateAfter rand vs k m = Some st /\ Best.kstate vs k' st /\
    ((Route.ks_bestClusters st = CMap.empty /\ Route.ks_bestSilhouette st = Num (-1) /\
      forall j, (j < m)%nat ->
                exists s, Trace.scoreAt rand vs k j = Some s /\ gt s (Num (-1)) = false) \/
     exists i,
       (i < m)%nat /\
       Trace.clustersAt rand vs k i = Some (Route.ks_bestClusters st) /\
       Trace.scoreAt rand vs k i = Some (Route.ks_bestSilhouette st) /\
       gt (Route.ks_bestSilhouette st) (Num (-1)) = true /\
       (forall j, (j < m)%nat ->
                  exists s, Trace.scoreAt rand vs k j = Some s /\
                            gt s (Route.ks_bestSilhouette st) = false) /\
       (forall j, (j < i)%nat ->
                  exists s, Trace.scoreAt rand vs k j = Some s /\
                            ge s (Route.ks_bestSilhouette st) = false)).
Proof.
  intros Ef. destruct (min_clusters vs nonempty k k_pos) as [Ek Hk'].
  induction m as [|m (st & E & Hst & Hinv)].
  - unfold Trace.stateAfter. rewrite Ef. cbn [bind seq foldM].
    eexists. split; [reflexivity|]. split.
    + rewrite Ek. now apply seeded.
    + left. cbn [Route.ks_bestClusters Route.ks_bestSilhouette].
      split; [reflexivity|]. split; [reflexivity|]. intros j Hj. lia.
  - destruct (iteration_any vs nonempty k' st m Hst)
      as (clusters & s & st' & Ea & Es & Ei & Hst' & _ & _ & Hb).
    assert (E' : Trace.stateAfter rand vs k (S m) = Some st').
    { unfold Trace.stateAfter in *. rewrite Ef in *. cbn [bind] in *.
      rewrite seq_S, foldM_app, E. cbn [bind Nat.add foldM]. rewrite Ei. reflexivity. }
    assert (Ec : Trace.clustersAt rand vs k m = Some clusters).
    { unfold Trace.clustersAt. rewrite E. cbn [bind]. exact Ea. }
    assert (Esc : Trace.scoreAt rand vs k m = Some s).
    { unfold Trace.scoreAt. rewrite Ec. cbn [bind]. exact Es. }
    assert (Hirr : gt s s = false).
    { unfold gt. destruct s as [x| | |]; cbn [JS.lt]; try reflexivity.
      apply Rltb_false. lra. }
    exists st'. split; [exact E'|]. split; [exact Hst'|].
    destruct (gt s (Route.ks_bestSilhouette st)) eqn:Egt; destruct Hb as [Hb1 Hb2].
    + (* the iteration m beats the best so far *)
      right. exists m. rewrite Hb1, Hb2.
      split; [lia|]. split; [exact Ec|]. split; [exact Esc|].
      assert (Hprev : forall j, (j < m)%nat ->
                        exists sj, Trace.scoreAt rand vs k j = Some sj /\
                                   gt sj (Route.ks_bestSilhouette st) = false).
      { destruct Hinv as [(_ & Eb & Hall) | (i & _ & _ & _ & _ & Hall & _)].
        - intros j Hj. destruct (Hall j Hj) as (sj & Esj & Hsj).
          exists sj. split; [exact Esj | now rewrite Eb].
        - exact Hall. }
      split; [|split].
      * destruct Hinv as [(_ & Eb & _) | (i & _ & _ & _ & Hgt & _)].
        -- now rewrite Eb in Egt.
        -- unfold gt in *. exact (lt_trans _ _ _ Hgt Egt).
      * intros j Hj. destruct (Nat.eq_dec j m) as [->|Hne].
        -- exists s. now split.
        -- destruct (Hprev j) as (sj & Esj & Hsj); [lia|]. exists sj. split; [exact Esj|].
           pose proof (beaten _ _ _ Hsj Egt) as Hge. unfold ge in Hge. unfold gt.
           destruct s as [x| | |], sj as [y| | |]; cbn [JS.lt JS.le] in *;
             try reflexivity; try discriminate.
           unfold Rltb, Rleb in *.
           destruct (Rlt_dec x y), (Rle_dec x y); try reflexivity; try discriminate. lra.
      * intros j Hj. destruct (Hprev j Hj) as (sj & Esj & Hsj).
        exists sj. split; [exact Esj|]. exact (beaten _ _ _ Hsj Egt).
    + (* the best so far is kept *)
      rewrite Hb1, Hb2.
      destruct Hinv as [(Ecl & Eb & Hall) | (i & Hi & Eci & Esi & Hgt & Hall & Hbefore)].
      * left. split; [exact Ecl|]. split; [exact Eb|].
        intros j Hj. destruct (Nat.eq_dec j m) as [->|Hne].
        -- exists s. split; [exact Esc | now rewrite <- Eb].
        -- apply Hall. lia.
      * right. exists i. split; [lia|]. split; [exact Eci|]. split; [exact Esi|].
        split; [exact Hgt|]. split; [|exact Hbefore].
        intros j Hj. destruct (Nat.eq_dec j m) as [->|Hne].
        -- exists s. now split.
        -- apply Hall. lia.
Qed.

Lemma best_iteration (maxIterations : nat) :
  exists r,
    Route.runKMeans rand vs k maxIterations = Some r /\
    ((Route.clusters r = CMap.empty /\ Route.silhouetteScore r = Num (-1) /\
      forall j, (j < maxIterations)%nat ->
                exists s, Trace.scoreAt rand vs k j = Some s /\ gt s (Num (-1)) = false) \/
     exists i,
       (i < maxIterations)%nat /\
       Trace.clustersAt rand vs k i = Some (Route.clusters r) /\
       Trace.scoreAt rand vs k i = Some (Route.silhouetteScore r) /\
       gt (Route.silhouetteScore r) (Num (-1)) = true /\
       (forall j, (j < maxIterations)%nat ->
                  exists s, Trace.scoreAt rand vs k j = Some s /\
                            gt s (Route.silhouetteScore r) = false) /\
       (forall j, (j < i)%nat ->
                  exists s, Trace.scoreAt rand vs k j = Some s /\
                            ge s (Route.silhouetteScore r) = false)).
Proof.
  assert (Hn : (1 <= length vs)%nat) by (destruct vs; [contradiction | cbn [length]; lia]).
  pose proof (randomIndex_lt (rand 0%nat) (length vs) (rand_range 0%nat) Hn) as Hfirst.
  destruct (nth_error vs (Route.randomIndex (rand 0%nat) (length vs))) as [first|] eqn:Ef;
    [|apply nth_error_None in Ef; lia].
  destruct (trace_any first maxIterations Ef) as (st & E & (_ & Hr & _) & Hinv).
  destruct (clusterCoherence_ok vs (Route.ks_bestClusters st) Hr) as (coh & Ecoh).
  assert (Er : Route.runKMeans rand vs k maxIterations
               = Some (Route.mkResult (Route.ks_bestClusters st) coh
                                      (Route.ks_bestSilhouette st)
                                      (Some (Route.ks_iterations st)))).
  { unfold Route.runKMeans. unfold Trace.stateAfter in E. rewrite Ef in *.
    cbn [bind] in *. rewrite E. cbn [bind]. rewrite Ecoh. reflexivity. }
  eexists. split; [exact Er|]. cbn [Route.clusters Route.silhouetteScore]. exact Hinv.
Qed.

End BestIteration.

(** [runKMeans], on a non-empty set of vectors with [k >= 1], returns what
    its iterations give, whatever numbers the vectors hold.  Every
    iteration assigns clusters and scores them.  When no iteration scores
    above -1 (a score of -Infinity or NaN never does), the result is the
    one the loop starts from: no clusters, score -1.  Otherwise the result
    holds the clusters and the score of the first iteration that no
    iteration beats: its score is above -1, no iteration has a greater
    score, and no earlier iteration has a score as great. *)
Theorem kmeans_returns_best_iteration (rand : nat -> R) (vectors : list vector)
        (k maxIterations : nat) :
  (forall i, 0 <= rand i < 1) ->
  vectors <> [] ->
  (1 <= k)%nat ->
  exists r,
    Route.runKMeans rand vectors k maxIterations = Some r /\
    ((Route.clusters r = CMap.empty /\ Route.silhouetteScore r = Num (-1) /\
      forall j, (j < maxIterations)%nat ->
                exists s, Trace.scoreAt rand vectors k j = Some s /\
                          gt s (Num (-1)) = false) \/
     exists i,
       (i < maxIterations)%nat /\
       Trace.clustersAt rand vectors k i = Some (Route.clusters r) /\
       Trace.scoreAt rand vectors k i = Some (Route.silhouetteScore r) /\
       gt (Route.silhouetteScore r) (Num (-1)) = true /\
       (forall j, (j < maxIterations)%nat ->
                  exists s, Trace.scoreAt rand vectors k j = Some s /\
                            gt s (Route.silhouetteScore r) = false) /\
       (forall j, (j < i)%nat ->
                  exists s, Trace.scoreAt rand vectors k j = Some s /\
                            ge s (Route.silhouetteScore r) = false)).
Proof.
  intros Hrand Hne Hk.
  exact (best_iteration vectors Hne rand Hrand k Hk maxIterations).
Qed.

Lemma kmeans_returns_best_iteration_witness :
  exists r,
    Route.runKMeans (fun _ => 0) [[Num 1; Num 0]; [Num 0; Num 1]; [Num 1; NaN]] 2 20 = Some r /\
    ((Route.clusters r = CMap.empty /\ Route.silhouetteScore r = Num (-1) /\
      forall j, (j < 20)%nat ->
                exists s, Trace.scoreAt (fun _ => 0)
                                        [[Num 1; Num 0]; [Num 0; Num 1]; [Num 1; NaN]] 2 j
                          = Some s /\
                          gt s (Num (-1)) = false) \/
     exists i,
       (i < 20)%nat /\
       Trace.clustersAt (fun _ => 0) [[Num 1; Num 0]; [Num 0; Num 1]; [Num 1; NaN]] 2 i
       = Some (Route.clusters r) /\
       Trace.scoreAt (fun _ => 0) [[Num 1; Num 0]; [Num 0; Num 1]; [Num 1; NaN]] 2 i
       = Some (Route.silhouetteScore r) /\
       gt (Route.silhouetteScore r) (Num (-1)) = true /\
       (forall j, (j < 20)%nat ->
                  exists s, Trace.scoreAt (fun _ => 0)
                                          [[Num 1; Num 0]; [Num 0; Num 1]; [Num 1; NaN]] 2 j
                            = Some s /\
                            gt s (Route.silhouetteScore r) = false) /\
       (forall j, (j < i)%nat ->
                  exists s, Trace.scoreAt (fun _ => 0)
                                          [[Num 1; Num 0]; [Num 0; Num 1]; [Num 1; NaN]] 2 j
                            = Some s /\
                            ge s (Route.silhouetteScore r) = false)).
Proof.
  apply (kmeans_returns_best_iteration (fun _ => 0)
           [[Num 1; Num 0]; [Num 0; Num 1]; [Num 1; NaN]] 2 20).
  - intros _. lra.
  - discriminate.
  - lia.
Defined.
